(** * A shallow embedding of [src/lib/chess-engine.ts]

    The engine is a pure TypeScript library over a [GameState] value: a
    position codec ([parseFEN], [toFEN]), an attack oracle ([isAttackedBy]),
    a pseudo-move generator, the state transition ([applyRawMove]), the
    legality filter and notation encoder ([getLegalMoves], [generateSAN]),
    the status classifier ([getGameStatus]) and [makeMove].

    Conventions of the embedding.
    - JavaScript numbers that hold board coordinates are integers, modelled
      in [Z]; the two clocks are [JsNum] (an integer or [NaN], which is what
      [parseInt] may return).
    - [null] and [undefined] are both falsy and are never told apart by the
      engine: an empty square and an out-of-range read are both [None].
    - Text is ASCII ([string]); upper and lower casing act on letters only.
    - A [TypeError] raised by the source is the [None] of [applyRawMove]
      and the [Throw] of the [outcome] type.
    - Boards always have eight rows ([parseFEN] builds exactly eight and
      [applyRawMove] keeps them); reading a square of a missing row, which
      would raise in the source, is outside the boards considered and
      reads as [None] here. *)

From Stdlib Require Import ZArith List String Ascii Bool Lia Arith.
Import ListNotations.
Local Open Scope Z_scope.

(** ** Data model *)

Inductive PieceColor := White | Black.

(** [PieceType] is the union ["p" | "n" | "b" | "r" | "q" | "k"]; the cast
    [ch.toLowerCase() as PieceType] in [parseFEN] lets any other character
    through, which is what [OtherType] holds (never one of the six letters). *)
Inductive PieceType :=
| Pawn | Knight | Bishop | Rook | Queen | King
| OtherType (ch : ascii).

Record Piece := mkPiece { color : PieceColor; type : PieceType }.

Definition Square := option Piece.
Definition Board := list (list Square).

(** The four fields [K], [Q], [k], [q] of the source. *)
Record CastlingRights := mkCastling {
  castK : bool;
  castQ : bool;
  castk : bool;
  castq : bool
}.

Inductive JsNum := NaN | Num (z : Z).

Record GameState := mkState {
  board : Board;
  turn : string;
  castling : CastlingRights;
  enPassant : option string;
  halfmoveClock : JsNum;
  fullmoveNumber : JsNum
}.

Record RawMove := mkRaw {
  fromR : Z;
  fromC : Z;
  toR : Z;
  toC : Z;
  promotion : option PieceType
}.

Record LegalMove := mkLegal {
  lm_from : string;
  lm_to : string;
  lm_uci : string;
  lm_san : string;
  lm_piece : PieceType;
  lm_captured : option PieceType;
  lm_promotion : option PieceType
}.

Inductive GameStatus :=
| playing | checkmate_white | checkmate_black
| stalemate | draw_50 | draw_insufficient.

(** What a call does: return, raise, or exhaust the recursion budget. *)
Inductive outcome (A : Type) :=
| Ret (a : A)
| Throw
| OutOfFuel.
Arguments Ret {A} a.
Arguments Throw {A}.
Arguments OutOfFuel {A}.

Definition obind {A B} (x : outcome A) (f : A -> outcome B) : outcome B :=
  match x with
  | Ret a => f a
  | Throw => Throw
  | OutOfFuel => OutOfFuel
  end.

Fixpoint omap {A B} (f : A -> outcome B) (l : list A) : outcome (list B) :=
  match l with
  | [] => Ret []
  | x :: rest =>
      obind (f x) (fun y => obind (omap f rest) (fun ys => Ret (y :: ys)))
  end.

(** ** Equality tests *)

Definition color_eqb (a b : PieceColor) : bool :=
  match a, b with
  | White, White | Black, Black => true
  | _, _ => false
  end.

Definition type_eqb (a b : PieceType) : bool :=
  match a, b with
  | Pawn, Pawn | Knight, Knight | Bishop, Bishop
  | Rook, Rook | Queen, Queen | King, King => true
  | OtherType x, OtherType y => Ascii.eqb x y
  | _, _ => false
  end.

Definition colorStr (c : PieceColor) : string :=
  match c with White => "w" | Black => "b" end.

(** [piece.color === turn], where [turn] is whatever string the state holds. *)
Definition colorIs (c : PieceColor) (t : string) : bool :=
  String.eqb (colorStr c) t.

(** ** Coordinate helpers *)

Definition FILES : string := "abcdefgh".
Definition RANKS : string := "87654321".

(** [s[i]]: [None] is [undefined]. *)
Definition charAt (s : string) (i : Z) : option ascii :=
  if i <? 0 then None else String.get (Z.to_nat i) s.

Fixpoint indexOfFrom (ch : ascii) (s : string) (i : Z) : Z :=
  match s with
  | EmptyString => -1
  | String a rest => if Ascii.eqb a ch then i else indexOfFrom ch rest (i + 1)
  end.

(** [s.indexOf(x)] for [x] a character or [undefined]; the latter is searched
    as the text "undefined", which neither [FILES] nor [RANKS] contains. *)
Definition indexOf (s : string) (x : option ascii) : Z :=
  match x with
  | Some ch => indexOfFrom ch s 0
  | None => -1
  end.

Definition sqToRC (sq : string) : Z * Z :=
  (indexOf RANKS (charAt sq 1), indexOf FILES (charAt sq 0)).

(** A character of [FILES] or [RANKS] used in a concatenation: [undefined]
    prints as the word. *)
Definition showChar (x : option ascii) : string :=
  match x with
  | Some ch => String ch EmptyString
  | None => "undefined"
  end.

(** [FILES[c] + RANKS[r]]; two [undefined] add up to the number [NaN]. *)
Definition rcToSq (r c : Z) : string :=
  match charAt FILES c, charAt RANKS r with
  | None, None => "NaN"
  | f, k => showChar f ++ showChar k
  end.

Definition inBounds (r c : Z) : bool :=
  (0 <=? r) && (r <? 8) && (0 <=? c) && (c <? 8).

(** ** Board access *)

Definition getRow (b : Board) (r : Z) : option (list Square) :=
  if r <? 0 then None else nth_error b (Z.to_nat r).

(** [board[r][c]] *)
Definition getSq (b : Board) (r c : Z) : Square :=
  match getRow b r with
  | Some row =>
      if c <? 0 then None
      else match nth_error row (Z.to_nat c) with
           | Some sq => sq
           | None => None
           end
  | None => None
  end.

Fixpoint setNth {A} (l : list A) (n : nat) (v : A) (pad : A) : list A :=
  match n, l with
  | O, [] => [v]
  | O, _ :: rest => v :: rest
  | S k, [] => pad :: setNth [] k v pad
  | S k, x :: rest => x :: setNth rest k v pad
  end.

Fixpoint updNth {A} (l : list A) (n : nat) (f : A -> A) : list A :=
  match n, l with
  | _, [] => []
  | O, x :: rest => f x :: rest
  | S k, x :: rest => x :: updNth rest k f
  end.

(** [board[r][c] = v] on a row that exists. Writing past the end of a row
    extends it, as a JavaScript array does; a negative [c] sets a property
    that no read of the engine and no clone ever sees, so the row is left
    as it is. *)
Definition setSq (b : Board) (r c : Z) (v : Square) : Board :=
  if (r <? 0) || (c <? 0) then b
  else updNth b (Z.to_nat r) (fun row => setNth row (Z.to_nat c) v None).

Definition isPiece (sq : Square) (c : PieceColor) (t : PieceType) : bool :=
  match sq with
  | Some p => color_eqb (color p) c && type_eqb (type p) t
  | None => false
  end.

Definition range8 : list Z := [0; 1; 2; 3; 4; 5; 6; 7].

Definition allSquares : list (Z * Z) :=
  flat_map (fun r => map (fun c => (r, c)) range8) range8.

(** ** Attack detection *)

Definition knightMoves : list (Z * Z) :=
  [(-2, -1); (-2, 1); (-1, -2); (-1, 2); (1, -2); (1, 2); (2, -1); (2, 1)].

Definition kingSteps : list (Z * Z) :=
  [(-1, -1); (-1, 0); (-1, 1); (0, -1); (0, 1); (1, -1); (1, 0); (1, 1)].

Definition rookDirs : list (Z * Z) := [(-1, 0); (1, 0); (0, -1); (0, 1)].
Definition bishopDirs : list (Z * Z) := [(-1, -1); (-1, 1); (1, -1); (1, 1)].

Definition directions : list (Z * Z * list PieceType) :=
  map (fun d => (d, [Rook; Queen])) rookDirs ++
  map (fun d => (d, [Bishop; Queen])) bishopDirs.

(** A piece of kind [t] and side [by_] stands on the in-bounds square. *)
Definition attackerAt (b : Board) (r c : Z) (by_ : PieceColor) (t : PieceType)
  : bool :=
  inBounds r c && isPiece (getSq b r c) by_ t.

(** The [while (inBounds(nr, nc))] walk of the sliding block. A walk visits
    at most eight squares, which is the budget [isAttackedBy] gives it
    ([rayAttack_fuel] below shows more fuel changes nothing). *)
Fixpoint rayAttack (fuel : nat) (b : Board) (nr nc dr dc : Z)
  (by_ : PieceColor) (types : list PieceType) : bool :=
  match fuel with
  | O => false
  | S f =>
      if inBounds nr nc then
        match getSq b nr nc with
        | Some p => color_eqb (color p) by_ && existsb (type_eqb (type p)) types
        | None => rayAttack f b (nr + dr) (nc + dc) dr dc by_ types
        end
      else false
  end.

Definition isAttackedBy (b : Board) (r c : Z) (by_ : PieceColor) : bool :=
  let pawnDir := match by_ with White => 1 | Black => -1 end in
  existsb (fun dc => attackerAt b (r + pawnDir) (c + dc) by_ Pawn) [-1; 1]
  || existsb (fun d => attackerAt b (r + fst d) (c + snd d) by_ Knight)
       knightMoves
  || existsb (fun d => attackerAt b (r + fst d) (c + snd d) by_ King)
       kingSteps
  || existsb (fun d =>
               let '(dr, dc, types) := d in
               rayAttack 8 b (r + dr) (c + dc) dr dc by_ types)
       directions.

(** [p && p.color === color && p.type === "k"] *)
Definition isKingOf (sq : Square) (c : string) : bool :=
  match sq with
  | Some p => colorIs (color p) c && type_eqb (type p) King
  | None => false
  end.

Definition findKing (b : Board) (c : string) : Z * Z :=
  match find (fun rc => isKingOf (getSq b (fst rc) (snd rc)) c) allSquares with
  | Some rc => rc
  | None => (-1, -1)
  end.

Definition enemyOf (c : string) : PieceColor :=
  if String.eqb c "w" then Black else White.

Definition isInCheck (b : Board) (c : string) : bool :=
  let '(kr, kc) := findKing b c in
  isAttackedBy b kr kc (enemyOf c).

(** ** Move generation *)

Definition promoKinds : list PieceType := [Queen; Rook; Bishop; Knight].

(** Truthiness of [string | null]: the empty string is falsy. *)
Definition truthyStr (x : option string) : bool :=
  match x with
  | Some s => negb (String.eqb s "")
  | None => false
  end.

(** [!sq] *)
Definition emptySq (sq : Square) : bool :=
  match sq with Some _ => false | None => true end.

(** [target && target.color !== turn] *)
Definition enemyPiece (sq : Square) (t : string) : bool :=
  match sq with
  | Some p => negb (colorIs (color p) t)
  | None => false
  end.

(** [!t || t.color !== turn] *)
Definition freeOrEnemy (sq : Square) (t : string) : bool :=
  match sq with
  | Some p => negb (colorIs (color p) t)
  | None => true
  end.

(** [enPassant ? sqToRC(enPassant) : null] *)
Definition epSquareOf (enPassant : option string) : option (Z * Z) :=
  match enPassant with
  | Some ep => if truthyStr (Some ep) then Some (sqToRC ep) else None
  | None => None
  end.

Definition epSquare (s : GameState) : option (Z * Z) :=
  epSquareOf (enPassant s).

Definition pawnDirOf (t : string) : Z := if String.eqb t "w" then -1 else 1.
Definition startRankOf (t : string) : Z := if String.eqb t "w" then 6 else 1.
Definition promoRankOf (t : string) : Z := if String.eqb t "w" then 0 else 7.

(** A pawn arrival on [(tr, tc)]: once per promotion kind on the far rank. *)
Definition pawnArrive (t : string) (r c tr tc : Z) : list RawMove :=
  if tr =? promoRankOf t
  then map (fun p => mkRaw r c tr tc (Some p)) promoKinds
  else [mkRaw r c tr tc None].

(** The forward block of the pawn case: one step, and two from the start
    rank. *)
Definition pawnForward (s : GameState) (r c : Z) : list RawMove :=
  let b := board s in
  let t := turn s in
  let dir := pawnDirOf t in
  if inBounds (r + dir) c && emptySq (getSq b (r + dir) c)
  then pawnArrive t r c (r + dir) c ++
       (if (r =? startRankOf t) && emptySq (getSq b (r + 2 * dir) c)
        then [mkRaw r c (r + 2 * dir) c None]
        else [])
  else [].

(** The body of the capture loop for the file offset [dc]. *)
Definition pawnCapture (s : GameState) (r c dc : Z) : list RawMove :=
  let b := board s in
  let t := turn s in
  let dir := pawnDirOf t in
  let nc := c + dc in
  if negb (inBounds (r + dir) nc) then []
  else
    let target := getSq b (r + dir) nc in
    if enemyPiece target t then pawnArrive t r c (r + dir) nc
    else
      match epSquare s with
      | Some (er, ec) =>
          if (er =? r + dir) && (ec =? nc)
          then [mkRaw r c (r + dir) nc None]
          else []
      | None => []
      end.

Definition pawnMoves (s : GameState) (r c : Z) : list RawMove :=
  pawnForward s r c ++ flat_map (pawnCapture s r c) [-1; 1].

Definition offsetMoves (s : GameState) (r c : Z) (offsets : list (Z * Z))
  : list RawMove :=
  flat_map
    (fun d =>
       let nr := r + fst d in
       let nc := c + snd d in
       if inBounds nr nc && freeOrEnemy (getSq (board s) nr nc) (turn s)
       then [mkRaw r c nr nc None]
       else [])
    offsets.

(** The ray walk of a bishop, rook or queen from [(r, c)], now at
    [(nr, nc)]; eight steps always reach the edge ([rayMoves_fuel]). *)
Fixpoint rayMoves (fuel : nat) (s : GameState) (r c nr nc dr dc : Z)
  : list RawMove :=
  match fuel with
  | O => []
  | S f =>
      if inBounds nr nc then
        match getSq (board s) nr nc with
        | Some t =>
            if negb (colorIs (color t) (turn s))
            then [mkRaw r c nr nc None]
            else []
        | None =>
            mkRaw r c nr nc None :: rayMoves f s r c (nr + dr) (nc + dc) dr dc
        end
      else []
  end.

Definition slideMoves (s : GameState) (r c : Z) (dirs : list (Z * Z))
  : list RawMove :=
  flat_map
    (fun d => rayMoves 8 s r c (r + fst d) (c + snd d) (fst d) (snd d))
    dirs.

(** The castling block of the king case: the king standing on [(r, c)] is
    sent to the g- or c-file of its back rank. *)
Definition castlingMoves (s : GameState) (r c : Z) : list RawMove :=
  let b := board s in
  let enemy := enemyOf (turn s) in
  if String.eqb (turn s) "w" then
    (if castK (castling s) && emptySq (getSq b 7 5) && emptySq (getSq b 7 6)
        && isPiece (getSq b 7 7) White Rook
        && (negb (isAttackedBy b 7 4 enemy) && negb (isAttackedBy b 7 5 enemy)
            && negb (isAttackedBy b 7 6 enemy))
     then [mkRaw r c 7 6 None] else [])
    ++
    (if castQ (castling s) && emptySq (getSq b 7 3) && emptySq (getSq b 7 2)
        && emptySq (getSq b 7 1) && isPiece (getSq b 7 0) White Rook
        && (negb (isAttackedBy b 7 4 enemy) && negb (isAttackedBy b 7 3 enemy)
            && negb (isAttackedBy b 7 2 enemy))
     then [mkRaw r c 7 2 None] else [])
  else
    (if castk (castling s) && emptySq (getSq b 0 5) && emptySq (getSq b 0 6)
        && isPiece (getSq b 0 7) Black Rook
        && (negb (isAttackedBy b 0 4 enemy) && negb (isAttackedBy b 0 5 enemy)
            && negb (isAttackedBy b 0 6 enemy))
     then [mkRaw r c 0 6 None] else [])
    ++
    (if castq (castling s) && emptySq (getSq b 0 3) && emptySq (getSq b 0 2)
        && emptySq (getSq b 0 1) && isPiece (getSq b 0 0) Black Rook
        && (negb (isAttackedBy b 0 4 enemy) && negb (isAttackedBy b 0 3 enemy)
            && negb (isAttackedBy b 0 2 enemy))
     then [mkRaw r c 0 2 None] else []).

(** The body of the double loop for the square [(r, c)]. *)
Definition pieceMoves (s : GameState) (r c : Z) : list RawMove :=
  match getSq (board s) r c with
  | None => []
  | Some piece =>
      if negb (colorIs (color piece) (turn s)) then []
      else
        match type piece with
        | Pawn => pawnMoves s r c
        | Knight => offsetMoves s r c knightMoves
        | Bishop => slideMoves s r c bishopDirs
        | Rook => slideMoves s r c rookDirs
        | Queen => slideMoves s r c (bishopDirs ++ rookDirs)
        | King => offsetMoves s r c kingSteps ++ castlingMoves s r c
        | OtherType _ => []
        end
  end.

Definition generatePseudoLegalMoves (s : GameState) : list RawMove :=
  flat_map (fun rc => pieceMoves s (fst rc) (snd rc)) allSquares.

(** ** Apply move *)

Definition hasRow (b : Board) (r : Z) : bool :=
  (0 <=? r) && (r <? Z.of_nat (List.length b)).

Definition jsIncr (n : JsNum) : JsNum :=
  match n with
  | NaN => NaN
  | Num z => Num (z + 1)
  end.

Definition isType (p : Piece) (t : PieceType) : bool := type_eqb (type p) t.

(** [captured?.type === "r"] *)
Definition capturedRook (captured : Square) : bool :=
  match captured with
  | Some p => isType p Rook
  | None => false
  end.

(** The four home-corner tests that follow a rook leaving, or a rook being
    captured on, the square [(r, c)]. *)
Definition clearRookRight (r c : Z) (cr : CastlingRights) : CastlingRights :=
  mkCastling
    (if (r =? 7) && (c =? 7) then false else castK cr)
    (if (r =? 7) && (c =? 0) then false else castQ cr)
    (if (r =? 0) && (c =? 7) then false else castk cr)
    (if (r =? 0) && (c =? 0) then false else castq cr).

Definition clearKingRights (piece : Piece) (cr : CastlingRights)
  : CastlingRights :=
  match color piece with
  | White => mkCastling false false (castk cr) (castq cr)
  | Black => mkCastling (castK cr) (castQ cr) false false
  end.

Definition updateCastling (cr : CastlingRights) (piece : Piece)
  (captured : Square) (m : RawMove) : CastlingRights :=
  let c1 := if isType piece King then clearKingRights piece cr else cr in
  let c2 :=
    if isType piece Rook then clearRookRight (fromR m) (fromC m) c1 else c1 in
  if capturedRook captured then clearRookRight (toR m) (toC m) c2 else c2.

(** The assignments of [applyRawMove] to the squares of the cloned board:
    the en-passant removal, the move of the piece, the rook of a castling
    king. They are written once, over any store [B] of squares with its
    read [get] and its write [set], and used on a board value here and on
    the arrays of the object graph further down. *)
Section BoardWrites.
Variable B : Type.
Variable get : B -> Z -> Z -> Square.
Variable set : B -> Z -> Z -> Square -> B.

Definition moveSquares (ep : option (Z * Z)) (piece : Piece) (m : RawMove)
  (b0 : B) : B :=
  let b1 :=
    if isType piece Pawn then
      match ep with
      | Some (epR, epC) =>
          if (toR m =? epR) && (toC m =? epC)
          then set b0 (fromR m) epC None
          else b0
      | None => b0
      end
    else b0 in
  let b2 :=
    set b1 (toR m) (toC m)
      (Some match promotion m with
            | Some t => mkPiece (color piece) t
            | None => piece
            end) in
  let b3 := set b2 (fromR m) (fromC m) None in
  if isType piece King then
    if toC m - fromC m =? 2 then
      set (set b3 (fromR m) 5 (get b3 (fromR m) 7)) (fromR m) 7 None
    else if fromC m - toC m =? 2 then
      set (set b3 (fromR m) 3 (get b3 (fromR m) 0)) (fromR m) 0 None
    else b3
  else b3.
End BoardWrites.
Arguments moveSquares {B} get set ep piece m b0.

(** The board after the move, given the piece found on the origin. *)
Definition moveBoard (s : GameState) (piece : Piece) (m : RawMove) : Board :=
  moveSquares getSq setSq (epSquare s) piece m (board s).

(** The values assigned to the fields of [next] after the board. *)
Definition nextEnPassant (piece : Piece) (m : RawMove) : option string :=
  if isType piece Pawn && (Z.abs (toR m - fromR m) =? 2)
  then Some (rcToSq ((fromR m + toR m) / 2) (fromC m))
  else None.

Definition nextHalfmove (piece : Piece) (captured : Square) (hm : JsNum)
  : JsNum :=
  if isType piece Pawn || negb (emptySq captured) then Num 0 else jsIncr hm.

Definition nextFullmove (t : string) (fm : JsNum) : JsNum :=
  if String.eqb t "b" then jsIncr fm else fm.

Definition nextTurn (t : string) : string :=
  if String.eqb t "w" then "b" else "w".

(** [applyRawMove]; [None] is the [TypeError] of reading a missing row or
    the [type] of a missing piece. Nothing is written to [s]: the source
    works on [cloneState(state)], which [applyRawMoveH] below spells out. *)
Definition applyRawMove (s : GameState) (m : RawMove) : option GameState :=
  if negb (hasRow (board s) (fromR m)) || negb (hasRow (board s) (toR m))
  then None
  else
    match getSq (board s) (fromR m) (fromC m) with
    | None => None
    | Some piece =>
        let captured := getSq (board s) (toR m) (toC m) in
        Some
          (mkState
             (moveBoard s piece m)
             (nextTurn (turn s))
             (updateCastling (castling s) piece captured m)
             (nextEnPassant piece m)
             (nextHalfmove piece captured (halfmoveClock s))
             (nextFullmove (turn s) (fullmoveNumber s)))
    end.

(** ** Legal move generation *)

Definition isUpperLetter (ch : ascii) : bool :=
  let n := nat_of_ascii ch in (65 <=? n)%nat && (n <=? 90)%nat.

Definition isLowerLetter (ch : ascii) : bool :=
  let n := nat_of_ascii ch in (97 <=? n)%nat && (n <=? 122)%nat.

Definition toUpperCase (ch : ascii) : ascii :=
  if isLowerLetter ch then ascii_of_nat (nat_of_ascii ch - 32) else ch.

Definition toLowerCase (ch : ascii) : ascii :=
  if isUpperLetter ch then ascii_of_nat (nat_of_ascii ch + 32) else ch.

Definition typeChar (t : PieceType) : ascii :=
  match t with
  | Pawn => "p" | Knight => "n" | Bishop => "b"
  | Rook => "r" | Queen => "q" | King => "k"
  | OtherType ch => ch
  end.

Definition str1 (ch : ascii) : string := String ch EmptyString.

(** The legality filter: the first loop of [getLegalMoves]. *)
Fixpoint filterLegal (s : GameState) (ms : list RawMove)
  : option (list RawMove) :=
  match ms with
  | [] => Some []
  | m :: rest =>
      match applyRawMove s m with
      | None => None
      | Some next =>
          match filterLegal s rest with
          | None => None
          | Some l =>
              Some (if isInCheck (board next) (turn s) then l else m :: l)
          end
      end
  end.

Definition legalRaw (s : GameState) : option (list RawMove) :=
  filterLegal s (generatePseudoLegalMoves s).

Fixpoint indexed {A} (i : nat) (l : list A) : list (nat * A) :=
  match l with
  | [] => []
  | x :: rest => (i, x) :: indexed (S i) rest
  end.

(** [allMoves.filter((m) => m !== move && ...)]: [move] is the [i]-th object
    of [allMoves], and [!==] compares object identity, so the filter drops
    position [i] and nothing else. *)
Definition samePieceMoves (s : GameState) (i : nat) (piece : Piece)
  (move : RawMove) (allMoves : list RawMove) : list RawMove :=
  map snd
    (filter
       (fun jm =>
          negb (Nat.eqb (fst jm) i)
          && match getSq (board s) (fromR (snd jm)) (fromC (snd jm)) with
             | Some q => type_eqb (type q) (type piece)
             | None => false
             end
          && (toR (snd jm) =? toR move) && (toC (snd jm) =? toC move))
       (indexed 0 allMoves)).

(** [generateSAN]; [rec] is [getLegalMoves], called on the successor state
    when the move gives check. *)
Definition generateSAN (rec : GameState -> outcome (list LegalMove))
  (s : GameState) (i : nat) (move : RawMove) (allMoves : list RawMove)
  : outcome string :=
  match getSq (board s) (fromR move) (fromC move) with
  | None => Throw
  | Some piece =>
      let captured := getSq (board s) (toR move) (toC move) in
      let toSq := rcToSq (toR move) (toC move) in
      if isType piece King && (toC move - fromC move =? 2) then Ret "O-O"%string
      else if isType piece King && (fromC move - toC move =? 2)
      then Ret "O-O-O"%string
      else
        let san :=
          (if isType piece Pawn then
             (if negb (emptySq captured)
                 || (truthyStr (enPassant s)
                     && match enPassant s with
                        | Some ep => String.eqb toSq ep
                        | None => false
                        end)
              then showChar (charAt FILES (fromC move)) ++ "x"
              else "")
             ++ toSq
             ++ match promotion move with
                | Some p => "=" ++ str1 (toUpperCase (typeChar p))
                | None => ""
                end
           else
             let same := samePieceMoves s i piece move allMoves in
             str1 (toUpperCase (typeChar (type piece)))
             ++ (if negb (Nat.eqb (List.length same) 0) then
                   let sameFile :=
                     existsb (fun m => (fromC m =? fromC move)%Z) same in
                   let sameRank :=
                     existsb (fun m => (fromR m =? fromR move)%Z) same in
                   if negb sameFile then showChar (charAt FILES (fromC move))
                   else if negb sameRank
                        then showChar (charAt RANKS (fromR move))
                        else rcToSq (fromR move) (fromC move)
                 else "")
             ++ (if negb (emptySq captured) then "x" else "")
             ++ toSq)%string in
        match applyRawMove s move with
        | None => Throw
        | Some nextState =>
            if isInCheck (board nextState) (turn nextState) then
              obind (rec nextState)
                (fun nextMoves =>
                   Ret (san ++ (if Nat.eqb (List.length nextMoves) 0
                                then "#" else "+"))%string)
            else Ret san
        end
  end.

(** [capturedType] of the callback below: the kind on the destination, or
    a pawn when a pawn lands on the empty en-passant target. *)
Definition capturedKind (s : GameState) (piece : Piece) (move : RawMove)
  : option PieceType :=
  match getSq (board s) (toR move) (toC move) with
  | Some q => Some (type q)
  | None =>
      if isType piece Pawn then
        match epSquare s with
        | Some (epR, epC) =>
            if (toR move =? epR) && (toC move =? epC)
            then Some Pawn else None
        | None => None
        end
      else None
  end.

(** [rcToSq(from) + rcToSq(to) + (move.promotion || "")] *)
Definition uciOf (move : RawMove) : string :=
  (rcToSq (fromR move) (fromC move) ++ rcToSq (toR move) (toC move)
   ++ match promotion move with
      | Some p => str1 (typeChar p)
      | None => ""
      end)%string.

(** The callback of [legalRaw.map(...)]. *)
Definition toLegalMove (rec : GameState -> outcome (list LegalMove))
  (s : GameState) (allMoves : list RawMove) (im : nat * RawMove)
  : outcome LegalMove :=
  let move := snd im in
  match getSq (board s) (fromR move) (fromC move) with
  | None => Throw
  | Some piece =>
      obind (generateSAN rec s (fst im) move allMoves)
        (fun san =>
           Ret (mkLegal
                  (rcToSq (fromR move) (fromC move))
                  (rcToSq (toR move) (toC move))
                  (uciOf move)
                  san
                  (type piece)
                  (capturedKind s piece move)
                  (promotion move)))
  end.

(** [getLegalMoves]. The source recurses through [generateSAN] on every
    successor state that is in check; [fuel] bounds the depth of that
    recursion. *)
Fixpoint getLegalMoves (fuel : nat) (s : GameState)
  : outcome (list LegalMove) :=
  match fuel with
  | O => OutOfFuel
  | S f =>
      match legalRaw s with
      | None => Throw
      | Some legal =>
          omap (toLegalMove (getLegalMoves f) s legal) (indexed 0 legal)
      end
  end.

(** ** Game status *)

Definition piecesOf (b : Board) : list Piece :=
  flat_map
    (fun row =>
       flat_map (fun sq => match sq with Some p => [p] | None => [] end) row)
    b.

Definition statusOf (s : GameState) (moves : list LegalMove) : GameStatus :=
  if Nat.eqb (List.length moves) 0 then
    if isInCheck (board s) (turn s) then
      if String.eqb (turn s) "w" then checkmate_black else checkmate_white
    else stalemate
  else if match halfmoveClock s with
          | Num z => 100 <=? z
          | NaN => false
          end
  then draw_50
  else
    let pieces := piecesOf (board s) in
    if Nat.eqb (List.length pieces) 2 then draw_insufficient
    else if Nat.eqb (List.length pieces) 3
            && match find (fun p => negb (isType p King)) pieces with
               | Some nonKing => isType nonKing Bishop || isType nonKing Knight
               | None => false
               end
    then draw_insufficient
    else playing.

Definition getGameStatus (fuel : nat) (s : GameState) : outcome GameStatus :=
  obind (getLegalMoves fuel s) (fun moves => Ret (statusOf s moves)).

(** ** Make move by UCI *)

Definition makeMove (fuel : nat) (s : GameState) (uci : string)
  : outcome (option (GameState * LegalMove)) :=
  obind (getLegalMoves fuel s)
    (fun legalMoves =>
       match find (fun m => String.eqb (lm_uci m) uci) legalMoves with
       | None => Ret None
       | Some move =>
           let '(fr, fc) := sqToRC (lm_from move) in
           let '(tr, tc) := sqToRC (lm_to move) in
           match applyRawMove s (mkRaw fr fc tr tc (lm_promotion move)) with
           | None => Throw
           | Some newState => Ret (Some (newState, move))
           end
       end).

(** ** FEN parsing and serialization *)

(** [s.split(sep)] for a one-character separator: never an empty list. *)
Fixpoint splitOn (sep : ascii) (s : string) : list string :=
  match s with
  | EmptyString => [EmptyString]
  | String a rest =>
      if Ascii.eqb a sep then EmptyString :: splitOn sep rest
      else
        match splitOn sep rest with
        | [] => [str1 a]
        | x :: xs => String a x :: xs
        end
  end.

Definition typeOfChar (ch : ascii) : PieceType :=
  if Ascii.eqb ch "p" then Pawn
  else if Ascii.eqb ch "n" then Knight
  else if Ascii.eqb ch "b" then Bishop
  else if Ascii.eqb ch "r" then Rook
  else if Ascii.eqb ch "q" then Queen
  else if Ascii.eqb ch "k" then King
  else OtherType ch.

(** [ch >= "1" && ch <= "8"] *)
Definition isRunDigit (ch : ascii) : bool :=
  let n := nat_of_ascii ch in (49 <=? n)%nat && (n <=? 56)%nat.

Definition pieceOfChar (ch : ascii) : Piece :=
  mkPiece (if Ascii.eqb ch (toUpperCase ch) then White else Black)
          (typeOfChar (toLowerCase ch)).

(** The inner loop of [parseFEN] over the characters of one rank. *)
Fixpoint parseRow (s : string) : list Square :=
  match s with
  | EmptyString => []
  | String ch rest =>
      if isRunDigit ch
      then repeat None (nat_of_ascii ch - 48) ++ parseRow rest
      else Some (pieceOfChar ch) :: parseRow rest
  end.

Fixpoint includes (s : string) (ch : ascii) : bool :=
  match s with
  | EmptyString => false
  | String a rest => Ascii.eqb a ch || includes rest ch
  end.

(** [parseInt] with no radix: leading white space, a sign, an optional
    [0x] prefix, then the longest run of digits; [NaN] when there is none.
    The value is the exact integer (the source rounds it to a double, which
    changes nothing below 2^53). *)
Definition isWhiteSpace (ch : ascii) : bool :=
  let n := nat_of_ascii ch in
  Nat.eqb n 32 || ((9 <=? n)%nat && (n <=? 13)%nat).

Fixpoint dropWhiteSpace (s : string) : string :=
  match s with
  | EmptyString => EmptyString
  | String ch rest => if isWhiteSpace ch then dropWhiteSpace rest else s
  end.

Definition digitVal (radix : Z) (ch : ascii) : option Z :=
  let n := Z.of_nat (nat_of_ascii ch) in
  let v :=
    if (48 <=? n) && (n <=? 57) then n - 48
    else if (97 <=? n) && (n <=? 122) then n - 87
    else if (65 <=? n) && (n <=? 90) then n - 55
    else 36 in
  if v <? radix then Some v else None.

Fixpoint parseDigits (radix : Z) (s : string) (acc : option Z) : option Z :=
  match s with
  | EmptyString => acc
  | String ch rest =>
      match digitVal radix ch with
      | Some d =>
          parseDigits radix rest
            (Some match acc with
                  | Some a => a * radix + d
                  | None => d
                  end)
      | None => acc
      end
  end.

Definition parseIntStr (s : string) : JsNum :=
  let s1 := dropWhiteSpace s in
  let '(neg, s2) :=
    match s1 with
    | String ch rest =>
        if Ascii.eqb ch "-" then (true, rest)
        else if Ascii.eqb ch "+" then (false, rest)
        else (false, s1)
    | EmptyString => (false, s1)
    end in
  let '(radix, s3) :=
    match s2 with
    | String z (String x rest) =>
        if Ascii.eqb z "0" && (Ascii.eqb x "x" || Ascii.eqb x "X")
        then (16, rest) else (10, s2)
    | _ => (10, s2)
    end in
  match parseDigits radix s3 None with
  | Some v => Num (if neg then - v else v)
  | None => NaN
  end.

(** [parseInt(parts[i])]; an absent field is [undefined], which parses as
    the text "undefined". *)
Definition parseInt (x : option string) : JsNum :=
  match x with
  | Some s => parseIntStr s
  | None => NaN
  end.

Fixpoint traverse {A B} (f : A -> option B) (l : list A) : option (list B) :=
  match l with
  | [] => Some []
  | x :: rest =>
      match f x, traverse f rest with
      | Some y, Some ys => Some (y :: ys)
      | _, _ => None
      end
  end.

(** [parseFEN]; [None] is the [TypeError] of iterating an absent rank or
    of calling [includes] on an absent castling field. *)
Definition parseFEN (fen : string) : option GameState :=
  let parts := splitOn " " fen in
  let rows := splitOn "/" (nth 0 parts EmptyString) in
  match
    traverse
      (fun r => option_map parseRow (nth_error rows (Z.to_nat r))) range8
  with
  | None => None
  | Some b =>
      match nth_error parts 2 with
      | None => None
      | Some p2 =>
          Some
            (mkState b
               (nth 1 parts EmptyString)
               (mkCastling (includes p2 "K") (includes p2 "Q")
                  (includes p2 "k") (includes p2 "q"))
               (match nth_error parts 3 with
                | Some p3 => if String.eqb p3 "-" then None else Some p3
                | None => None
                end)
               (parseInt (nth_error parts 4))
               (parseInt (nth_error parts 5)))
      end
  end.

Definition digitChar (n : nat) : ascii := ascii_of_nat (48 + n).

Fixpoint showNatAux (fuel n : nat) (acc : string) : string :=
  match fuel with
  | O => acc
  | S f =>
      let acc' := String (digitChar (n mod 10)) acc in
      if (n <? 10)%nat then acc' else showNatAux f (n / 10) acc'
  end.

Definition showNat (n : nat) : string := showNatAux (S n) n EmptyString.

(** A number in a template string or a [+=]: decimal digits. *)
Definition showNum (n : JsNum) : string :=
  match n with
  | NaN => "NaN"
  | Num z =>
      if z <? 0 then String "-" (showNat (Z.to_nat (- z)))
      else showNat (Z.to_nat z)
  end.

Definition pieceChar (p : Piece) : ascii :=
  match color p with
  | White => toUpperCase (typeChar (type p))
  | Black => typeChar (type p)
  end.

Definition flushEmpty (empty : nat) : string :=
  if (0 <? empty)%nat then showNat empty else EmptyString.

(** The inner loop of [toFEN] over the eight squares of one rank. *)
Fixpoint rowFEN (cells : list Square) (empty : nat) : string :=
  match cells with
  | [] => flushEmpty empty
  | None :: rest => rowFEN rest (S empty)
  | Some p :: rest =>
      (flushEmpty empty ++ String (pieceChar p) (rowFEN rest 0))%string
  end.

Definition boardFEN (b : Board) : string :=
  String.concat "/"
    (map (fun r => rowFEN (map (fun c => getSq b r c) range8) 0) range8).

Definition castleStr (cr : CastlingRights) : string :=
  let str :=
    ((if castK cr then "K" else "") ++ (if castQ cr then "Q" else "")
     ++ (if castk cr then "k" else "") ++ (if castq cr then "q" else ""))%string
  in
  if String.eqb str "" then "-"%string else str.

Definition toFEN (s : GameState) : string :=
  (boardFEN (board s) ++ " " ++ turn s ++ " " ++ castleStr (castling s)
   ++ " "
   ++ (match enPassant s with
       | Some ep => if truthyStr (Some ep) then ep else "-"
       | None => "-"
       end)
   ++ " " ++ showNum (halfmoveClock s)
   ++ " " ++ showNum (fullmoveNumber s))%string.

(** ** Initial position *)

Definition STARTING_FEN : string :=
  "rnbqkbnr/pppppppp/8/8/8/8/PPPPPPPP/RNBQKBNR w KQkq - 0 1".

Definition createGame : option GameState := parseFEN STARTING_FEN.

(** ** Structural validity *)

Definition knownType (t : PieceType) : bool :=
  match t with
  | OtherType _ => false
  | _ => true
  end.

Definition knownSquare (sq : Square) : bool :=
  match sq with
  | Some p => knownType (type p)
  | None => true
  end.

Definition validRow (row : list Square) : bool :=
  Nat.eqb (List.length row) 8 && forallb knownSquare row.

(** Eight ranks of eight files, holding pieces of the six kinds. *)
Definition validBoard (b : Board) : bool :=
  Nat.eqb (List.length b) 8 && forallb validRow b.

(** The name of a board square: a file letter and a rank digit. *)
Definition squareName (sq : string) : bool :=
  match sq with
  | String f (String k EmptyString) =>
      inBounds (indexOfFrom k RANKS 0) (indexOfFrom f FILES 0)
  | _ => false
  end.

Definition validNum (n : JsNum) : bool :=
  match n with
  | Num z => 0 <=? z
  | NaN => false
  end.

(** A structurally valid state: what a well-formed six-field encoding
    decodes to. Nothing is asked of the kings or of the castling rights. *)
Definition validState (s : GameState) : bool :=
  validBoard (board s)
  && (String.eqb (turn s) "w" || String.eqb (turn s) "b")
  && match enPassant s with
     | Some ep => squareName ep
     | None => true
     end
  && validNum (halfmoveClock s)
  && validNum (fullmoveNumber s).

Definition countPieces (b : Board) (c : PieceColor) (t : PieceType) : nat :=
  List.length (filter (fun p => color_eqb (color p) c && isType p t)
                 (piecesOf b)).

(** Exactly one king per side. *)
Definition oneKingEach (b : Board) : bool :=
  Nat.eqb (countPieces b White King) 1 && Nat.eqb (countPieces b Black King) 1.

(** Each castling right is no larger after than before. *)
Definition rightsLe (after before : CastlingRights) : Prop :=
  (castK after = true -> castK before = true)
  /\ (castQ after = true -> castQ before = true)
  /\ (castk after = true -> castk before = true)
  /\ (castq after = true -> castq before = true).

(** The raw move that [makeMove] rebuilds from a [LegalMove]. *)
Definition rawOfLegal (lm : LegalMove) : RawMove :=
  mkRaw (fst (sqToRC (lm_from lm))) (snd (sqToRC (lm_from lm)))
        (fst (sqToRC (lm_to lm))) (snd (sqToRC (lm_to lm)))
        (lm_promotion lm).

(** States linked by a sequence of transitions. *)
Inductive playedFrom (s : GameState) : GameState -> Prop :=
| played_nil : playedFrom s s
| played_step s1 m s2 :
    playedFrom s s1 -> applyRawMove s1 m = Some s2 -> playedFrom s s2.

(** What every generated move satisfies: it leaves the square under
    consideration, lands on the board, and promotes, if at all, to one of
    the four kinds. *)
Definition promoOK (m : RawMove) : Prop :=
  promotion m = None \/ exists p, promotion m = Some p /\ In p promoKinds.

Definition okFrom (r c : Z) (m : RawMove) : Prop :=
  fromR m = r /\ fromC m = c /\ inBounds (toR m) (toC m) = true /\ promoOK m.


(** ** The legality filter in closed form *)

(** The test of the first loop of [getLegalMoves]: the mover's king is not
    attacked on the board that [applyRawMove] returns. *)
Definition staysSafe (s : GameState) (m : RawMove) : bool :=
  match applyRawMove s m with
  | Some next => negb (isInCheck (board next) (turn s))
  | None => false
  end.

Definition legalList (s : GameState) : list RawMove :=
  filter (staysSafe s) (generatePseudoLegalMoves s).

(** The record that [getLegalMoves] builds for a move, its [san] apart. *)
Definition describes (s : GameState) (m : RawMove) (lm : LegalMove) : Prop :=
  lm_from lm = rcToSq (fromR m) (fromC m)
  /\ lm_to lm = rcToSq (toR m) (toC m)
  /\ lm_uci lm = uciOf m
  /\ lm_promotion lm = promotion m
  /\ exists piece,
       getSq (board s) (fromR m) (fromC m) = Some piece
       /\ lm_piece lm = type piece
       /\ lm_captured lm = capturedKind s piece m.

(** [s'] follows [s] by a legal move that gives check: the states on which
    [generateSAN] calls [getLegalMoves] again. *)
Definition checkSucc (s' s : GameState) : Prop :=
  exists m,
    In m (legalList s)
    /\ applyRawMove s m = Some s'
    /\ isInCheck (board s') (turn s') = true.

(** Every chain of checks answered by checks that starts in [s] ends. *)
Definition checkChainsEnd (s : GameState) : Prop := Acc checkSucc s.

(** ** Shape of an encoding *)

(** The first of the space-separated fields. *)
Definition placementField (fen : string) : string :=
  nth 0 (splitOn " " fen) EmptyString.

Definition rankTexts (fen : string) : list string :=
  splitOn "/" (placementField fen).

Definition fieldCount (fen : string) : nat := List.length (splitOn " " fen).

(** The piece-placement field decodes to exactly 8 ranks of 8 files. *)
Definition decodes8x8 (fen : string) : bool :=
  Nat.eqb (List.length (rankTexts fen)) 8
  && forallb (fun row => Nat.eqb (List.length (parseRow row)) 8)
       (rankTexts fen).

(** ** Positions used in the examples *)

Definition emptyRow : list Square := repeat None 8.

Definition backRow (c : PieceColor) : list Square :=
  map (fun t => Some (mkPiece c t))
    [Rook; Knight; Bishop; Queen; King; Bishop; Knight; Rook].

Definition pawnRow (c : PieceColor) : list Square :=
  repeat (Some (mkPiece c Pawn)) 8.

Definition noRights : CastlingRights := mkCastling false false false false.
Definition allRights : CastlingRights := mkCastling true true true true.

(** The standard starting position. *)
Definition startState : GameState :=
  mkState
    [backRow Black; pawnRow Black; emptyRow; emptyRow;
     emptyRow; emptyRow; pawnRow White; backRow White]
    "w" allRights None (Num 0) (Num 1).

Definition place (sqs : list (Z * Z * Piece)) : Board :=
  fold_left (fun b x => setSq b (fst (fst x)) (snd (fst x)) (Some (snd x)))
    sqs (repeat emptyRow 8).

(** White to move with king and both rooks at home: R3K2R, black king e8. *)
Definition castleReady : GameState :=
  mkState
    (place [(0, 4, mkPiece Black King); (7, 0, mkPiece White Rook);
            (7, 4, mkPiece White King); (7, 7, mkPiece White Rook)])
    "w" (mkCastling true true false false) None (Num 0) (Num 1).

(** After a black pawn has advanced d7-d5 beside the white pawn on e5. *)
Definition epReady : GameState :=
  mkState
    (place [(0, 4, mkPiece Black King); (3, 3, mkPiece Black Pawn);
            (3, 4, mkPiece White Pawn); (7, 4, mkPiece White King)])
    "w" noRights (Some "d6"%string) (Num 0) (Num 3).

(** ** Castling, in the words of the specification *)

Definition sideToMove (s : GameState) : PieceColor :=
  if String.eqb (turn s) "w" then White else Black.

Definition homeRank (s : GameState) : Z :=
  if String.eqb (turn s) "w" then 7 else 0.

(** (a) the right of the side to move for that wing *)
Definition castlingRight (s : GameState) (kingside : bool) : bool :=
  match sideToMove s, kingside with
  | White, true => castK (castling s)
  | White, false => castQ (castling s)
  | Black, true => castk (castling s)
  | Black, false => castq (castling s)
  end.

(** (b) the files strictly between the king's and the rook's home squares *)
Definition betweenFiles (kingside : bool) : list Z :=
  if kingside then [5; 6] else [3; 2; 1].

(** (c) the home file of the rook *)
Definition rookFile (kingside : bool) : Z := if kingside then 7 else 0.

(** (d) the files of the king's origin, transit and destination squares *)
Definition kingPath (kingside : bool) : list Z :=
  if kingside then [4; 5; 6] else [4; 3; 2].

Definition castleAllowed (s : GameState) (kingside : bool) : bool :=
  castlingRight s kingside
  && forallb (fun c => emptySq (getSq (board s) (homeRank s) c))
       (betweenFiles kingside)
  && isPiece (getSq (board s) (homeRank s) (rookFile kingside))
       (sideToMove s) Rook
  && forallb
       (fun c => negb (isAttackedBy (board s) (homeRank s) c
                         (enemyOf (turn s))))
       (kingPath kingside).

(** The castling action of the king that stands on [(r, c)]. *)
Definition castleMove (s : GameState) (r c : Z) (kingside : bool) : RawMove :=
  mkRaw r c (homeRank s) (if kingside then 6 else 2) None.

(** The king of side [t] stands on [(r, c)] and on no other square. *)
Definition onlyKingAt (b : Board) (t : string) (r c : Z) : Prop :=
  inBounds r c = true
  /\ isKingOf (getSq b r c) t = true
  /\ forall r' c',
       inBounds r' c' = true -> isKingOf (getSq b r' c') t = true ->
       (r', c') = (r, c).

(** ** The status classifier, in the words of the specification *)

(** A checkmate is attributed to the side that delivered it. *)
Definition winBy (c : PieceColor) : GameStatus :=
  match c with
  | White => checkmate_white
  | Black => checkmate_black
  end.

Definition nonKings (b : Board) : list Piece :=
  filter (fun p => negb (isType p King)) (piecesOf b).

(** Two pieces in all, or three with the sole non-king piece a bishop or
    a knight. *)
Definition insufficientMaterial (b : Board) : bool :=
  Nat.eqb (List.length (piecesOf b)) 2
  || (Nat.eqb (List.length (piecesOf b)) 3
      && match nonKings b with
         | [p] => isType p Bishop || isType p Knight
         | _ => false
         end).

Definition clockAtLeast (n : JsNum) (k : Z) : bool :=
  match n with
  | Num z => k <=? z
  | NaN => false
  end.

(** The decision order of section 4.7, over the number of legal moves. *)
Definition statusSpec (s : GameState) : GameStatus :=
  if Nat.eqb (List.length (legalList s)) 0 then
    if isInCheck (board s) (turn s)
    then winBy (enemyOf (turn s))
    else stalemate
  else if clockAtLeast (halfmoveClock s) 100 then draw_50
  else if insufficientMaterial (board s) then draw_insufficient
  else playing.

(** White king, bishop and knight on the first rank and no black piece. *)
Definition kingBishopKnight : GameState :=
  mkState
    (place [(7, 0, mkPiece White King); (7, 1, mkPiece White Bishop);
            (7, 2, mkPiece White Knight)])
    "w" noRights None (Num 0) (Num 1).

(** The bare kings of "8/8/8/8/8/8/k7/K7 w - - 0 1". *)
Definition bareKings : GameState :=
  mkState
    (place [(6, 0, mkPiece Black King); (7, 0, mkPiece White King)])
    "w" noRights None (Num 0) (Num 1).

(** ** Castling rights and the king's square *)

(** While the side to move holds a castling right, its king stands on its
    home square (and it has no king elsewhere). This holds at the start and
    is kept by every transition, since a king that moves loses both rights;
    an encoding can be written that violates it. *)
Definition rightsConsistent (s : GameState) : bool :=
  negb (castlingRight s true || castlingRight s false)
  || forallb
       (fun rc =>
          negb (isPiece (getSq (board s) (fst rc) (snd rc)) (sideToMove s)
                  King)
          || ((fst rc =? homeRank s) && (snd rc =? 4)))
       allSquares.

(** White king on g2, rook on h1, and the kingside right still set:
    "4k3/8/8/8/8/8/6K1/7R w K - 0 1". *)
Definition strayKing : GameState :=
  mkState
    (place [(0, 4, mkPiece Black King); (6, 6, mkPiece White King);
            (7, 7, mkPiece White Rook)])
    "w" (mkCastling true false false false) None (Num 0) (Num 1).

(** One of the eight compass directions. *)
Definition unitDir (d : Z * Z) : Prop :=
  -1 <= fst d <= 1 /\ -1 <= snd d <= 1 /\ d <> (0, 0).

(** ** Characters of an encoding *)

Definition isDigit (ch : ascii) : bool :=
  let n := nat_of_ascii ch in (48 <=? n)%nat && (n <=? 57)%nat.

Fixpoint allChars (P : ascii -> bool) (s : string) : bool :=
  match s with
  | EmptyString => true
  | String a rest => P a && allChars P rest
  end.

(** The characters of a piece-placement rank: digits and letters. *)
Definition fenChar (ch : ascii) : bool :=
  isDigit ch || isUpperLetter ch || isLowerLetter ch.

(** States reached from the starting position by [makeMove]. *)
Inductive reachable : GameState -> Prop :=
| reach_start : reachable startState
| reach_move s fuel uci s' lm :
    reachable s -> makeMove fuel s uci = Ret (Some (s', lm)) ->
    reachable s'.

(** ** The state as a graph of mutable objects

    In the source a [GameState] is an object that refers to an array of
    ranks, each an array of squares, and to a castling object;
    [applyRawMove] assigns to the squares, to the castling fields and to
    the fields of the state. The heap below holds these objects by
    address, so that what is shared and what is written can be said.
    Piece objects are never assigned to (a square is given a new piece,
    never a changed one), so a square holds its piece as a value. *)

Inductive Obj :=
| ORow (cells : list Square)
| OBoard (rows : list nat)
| OCastling (cr : CastlingRights)
| OState (boardRef : nat) (t : string) (castlingRef : nat)
    (ep : option string) (hm fm : JsNum).

Definition Heap := list Obj.

(** A new object gets the next address. *)
Definition alloc (h : Heap) (o : Obj) : nat * Heap :=
  (List.length h, h ++ [o]).

(** Assignment to the fields of the object at [a]. *)
Definition store (h : Heap) (a : nat) (o : Obj) : Heap :=
  updNth h a (fun _ => o).

Definition rowAt (h : Heap) (a : nat) : option (list Square) :=
  match nth_error h a with
  | Some (ORow cells) => Some cells
  | _ => None
  end.

Definition readBoard (h : Heap) (rows : list nat) : option Board :=
  traverse (rowAt h) rows.

(** The [GameState] value that the object at [a] stands for. *)
Definition readState (h : Heap) (a : nat) : option GameState :=
  match nth_error h a with
  | Some (OState br t cr ep hm fm) =>
      match nth_error h br, nth_error h cr with
      | Some (OBoard rows), Some (OCastling c) =>
          option_map (fun b => mkState b t c ep hm fm) (readBoard h rows)
      | _, _ => None
      end
  | _ => None
  end.

(** [board[r][c]] and [board[r][c] = v] through the rank addresses. *)
Definition getSqH (rows : list nat) (h : Heap) (r c : Z) : Square :=
  if r <? 0 then None
  else
    match nth_error rows (Z.to_nat r) with
    | Some a =>
        match rowAt h a with
        | Some cells =>
            if c <? 0 then None
            else match nth_error cells (Z.to_nat c) with
                 | Some sq => sq
                 | None => None
                 end
        | None => None
        end
    | None => None
    end.

Definition setSqH (rows : list nat) (h : Heap) (r c : Z) (v : Square)
  : Heap :=
  if (r <? 0) || (c <? 0) then h
  else
    match nth_error rows (Z.to_nat r) with
    | Some a =>
        match rowAt h a with
        | Some cells => store h a (ORow (setNth cells (Z.to_nat c) v None))
        | None => h
        end
    | None => h
    end.

(** [board.map((row) => row.map((sq) => (sq ? { ...sq } : null)))] *)
Fixpoint cloneRows (h : Heap) (rows : list nat) : option (list nat * Heap) :=
  match rows with
  | [] => Some ([], h)
  | a :: rest =>
      match rowAt h a with
      | Some cells =>
          let '(a', h1) := alloc h (ORow cells) in
          match cloneRows h1 rest with
          | Some (rs, h2) => Some (a' :: rs, h2)
          | None => None
          end
      | None => None
      end
  end.

Definition cloneBoard (h : Heap) (br : nat) : option (nat * Heap) :=
  match nth_error h br with
  | Some (OBoard rows) =>
      match cloneRows h rows with
      | Some (rs, h1) => Some (alloc h1 (OBoard rs))
      | None => None
      end
  | _ => None
  end.

Definition cloneState (h : Heap) (a : nat) : option (nat * Heap) :=
  match nth_error h a with
  | Some (OState br t cr ep hm fm) =>
      match cloneBoard h br with
      | Some (bn, h1) =>
          match nth_error h1 cr with
          | Some (OCastling c) =>
              let '(cn, h2) := alloc h1 (OCastling c) in
              Some (alloc h2 (OState bn t cn ep hm fm))
          | _ => None
          end
      | None => None
      end
  | _ => None
  end.

(** [applyRawMove] on the object graph: clone, then assign to the clone.
    The result is the address of the new state and the heap after the
    call; [None] is the [TypeError]. *)
Definition applyRawMoveH (h : Heap) (a : nat) (m : RawMove)
  : option (nat * Heap) :=
  match nth_error h a with
  | Some (OState _ t _ ep _ _) =>
      match cloneState h a with
      | Some (n, h1) =>
          match nth_error h1 n with
          | Some (OState bn _ cn _ hm fm) =>
              match nth_error h1 bn, nth_error h1 cn with
              | Some (OBoard rows), Some (OCastling cr) =>
                  let inRows r :=
                    (0 <=? r) && (r <? Z.of_nat (List.length rows)) in
                  if negb (inRows (fromR m)) || negb (inRows (toR m))
                  then None
                  else
                    match getSqH rows h1 (fromR m) (fromC m) with
                    | None => None
                    | Some piece =>
                        let captured := getSqH rows h1 (toR m) (toC m) in
                        let h2 :=
                          moveSquares (getSqH rows) (setSqH rows)
                            (epSquareOf ep) piece m h1 in
                        let h3 :=
                          store h2 cn
                            (OCastling (updateCastling cr piece captured m))
                        in
                        Some
                          (n,
                           store h3 n
                             (OState bn (nextTurn t) cn
                                (nextEnPassant piece m)
                                (nextHalfmove piece captured hm)
                                (nextFullmove t fm)))
                    end
              | _, _ => None
              end
          | _ => None
          end
      | None => None
      end
  | _ => None
  end.

(** [makeMove] on the object graph. The legal moves are computed from the
    value the state stands for: [getLegalMoves] and what it calls assign
    to nothing but the clones inside [applyRawMove]. The result carries the
    address of the new state. *)
Definition makeMoveH (fuel : nat) (h : Heap) (a : nat) (uci : string)
  : outcome (option (nat * LegalMove) * Heap) :=
  match readState h a with
  | None => Throw
  | Some s =>
      obind (getLegalMoves fuel s)
        (fun legalMoves =>
           match find (fun m => String.eqb (lm_uci m) uci) legalMoves with
           | None => Ret (None, h)
           | Some move =>
               match applyRawMoveH h a (rawOfLegal move) with
               | None => Throw
               | Some (n, h') => Ret (Some (n, move), h')
               end
           end)
  end.

(** The objects that make up the state at [a]: the state, its board
    array, its ranks and its castling object. *)
Definition objectsOf (h : Heap) (a : nat) : list nat :=
  match nth_error h a with
  | Some (OState br _ cr _ _ _) =>
      a :: br :: cr
      :: match nth_error h br with
         | Some (OBoard rows) => rows
         | _ => []
         end
  | _ => [a]
  end.

(** A state object with its board, ranks and castling object, as
    [parseFEN] builds them. *)
Definition heapOf (s : GameState) : Heap :=
  map ORow (board s)
  ++ [OBoard (seq 0 (List.length (board s)));
      OCastling (castling s);
      OState (List.length (board s)) (turn s) (S (List.length (board s)))
        (enPassant s) (halfmoveClock s) (fullmoveNumber s)].

Definition stateAddr (s : GameState) : nat := S (S (List.length (board s))).

(** A game played by coordinate strings: the last state and the notation
    of the moves, or [None] where [makeMove] applies none. *)
Fixpoint playAll (fuel : nat) (s : GameState) (ucis : list string)
  : option (GameState * list string) :=
  match ucis with
  | [] => Some (s, [])
  | u :: rest =>
      match makeMove fuel s u with
      | Ret (Some (s', lm)) =>
          option_map (fun r => (fst r, lm_san lm :: snd r))
            (playAll fuel s' rest)
      | _ => None
      end
  end.

(** ** Order of the squares *)

(** [(r, c)] comes strictly before [(r', c')] in the double loop over the
    ranks and the files. *)
Definition lexBefore (x y : Z * Z) : bool :=
  (fst x <? fst y) || ((fst x =? fst y) && (snd x <? snd y)).

(** Every element paired with each of the later ones. *)
Fixpoint pairsOf {A} (l : list A) : list (A * A) :=
  match l with
  | [] => []
  | x :: rest => map (fun y => (x, y)) rest ++ pairsOf rest
  end.

(** ** Attacks, stated over the board *)

(** A piece of kind [t] and side [by_] stands one of the [offsets] away
    from [(r, c)], on the board. *)
Definition stepAttack (b : Board) (r c : Z) (by_ : PieceColor)
  (offsets : list (Z * Z)) (t : PieceType) : Prop :=
  exists d p,
    In d offsets
    /\ inBounds (r + fst d) (c + snd d) = true
    /\ getSq b (r + fst d) (c + snd d) = Some p
    /\ color p = by_ /\ type p = t.

(** Walking from [(r, c)] along one of [dirs], the first piece met, with
    every square of the walk on the board, is of side [by_] and of one of
    the kinds [types]. *)
Definition lineAttack (b : Board) (r c : Z) (by_ : PieceColor)
  (dirs : list (Z * Z)) (types : list PieceType) : Prop :=
  exists d k p,
    In d dirs /\ 1 <= k
    /\ (forall j, 1 <= j <= k ->
                  inBounds (r + j * fst d) (c + j * snd d) = true)
    /\ (forall j, 1 <= j < k -> getSq b (r + j * fst d) (c + j * snd d) = None)
    /\ getSq b (r + k * fst d) (c + k * snd d) = Some p
    /\ color p = by_ /\ In (type p) types.

Definition pawnSources (by_ : PieceColor) : list (Z * Z) :=
  match by_ with
  | White => [(1, -1); (1, 1)]
  | Black => [(-1, -1); (-1, 1)]
  end.

(** The four ways a square is attacked. *)
Definition attacked (b : Board) (r c : Z) (by_ : PieceColor) : Prop :=
  stepAttack b r c by_ (pawnSources by_) Pawn
  \/ stepAttack b r c by_ knightMoves Knight
  \/ stepAttack b r c by_ kingSteps King
  \/ lineAttack b r c by_ rookDirs [Rook; Queen]
  \/ lineAttack b r c by_ bishopDirs [Bishop; Queen].

(** White to move, the pawn on e4 facing a black pawn on d5. *)
Definition pawnTension : GameState :=
  mkState
    (place [(0, 4, mkPiece Black King); (3, 3, mkPiece Black Pawn);
            (4, 4, mkPiece White Pawn); (7, 4, mkPiece White King)])
    "w" noRights None (Num 0) (Num 3).

(** ** Kings and castling rights *)

Definition homeOf (c : PieceColor) : Z :=
  match c with White => 7 | Black => 0 end.

(** The side [c] still holds one of its two castling rights. *)
Definition holdsRight (cr : CastlingRights) (c : PieceColor) : bool :=
  match c with
  | White => castK cr || castQ cr
  | Black => castk cr || castq cr
  end.

(** Every king of a side that still holds a right stands on the e-file of
    its home rank. *)
Definition kingsAtHome (s : GameState) : bool :=
  forallb
    (fun rc =>
       match getSq (board s) (fst rc) (snd rc) with
       | Some p =>
           negb (isType p King && holdsRight (castling s) (color p))
           || ((fst rc =? homeOf (color p)) && (snd rc =? 4))
       | None => true
       end)
    allSquares.

(** The piece that [applyRawMove] writes on the destination. *)
Definition arriving (piece : Piece) (m : RawMove) : Piece :=
  match promotion m with
  | Some t => mkPiece (color piece) t
  | None => piece
  end.

(** White to move, the pawn on e2 with a black pawn on d4 beside its
    arrival square. *)
Definition pushReady : GameState :=
  mkState
    (place [(0, 4, mkPiece Black King); (4, 3, mkPiece Black Pawn);
            (6, 4, mkPiece White Pawn); (7, 4, mkPiece White King)])
    "w" noRights None (Num 0) (Num 1).

(** ** Counting the moves of a game *)


(** Black to move with the en-passant target on a square that holds a
    black knight: "4k3/8/3n4/4p3/8/8/8/4K3 b - d6 0 1". *)
Definition ownOnTarget : GameState :=
  mkState
    (place [(0, 4, mkPiece Black King); (2, 3, mkPiece Black Knight);
            (1, 4, mkPiece Black Pawn); (7, 4, mkPiece White King)])
    "b" noRights (Some "d6"%string) (Num 0) (Num 1).

(** ** The last character of a notation *)

Fixpoint lastChar (str : string) : option ascii :=
  match str with
  | EmptyString => None
  | String ch EmptyString => Some ch
  | String _ rest => lastChar rest
  end.

(** The move of a king over two files, which the notation writes
    [O-O] or [O-O-O]. *)
Definition castlingShape (piece : Piece) (m : RawMove) : bool :=
  isType piece King
  && ((toC m - fromC m =? 2) || (fromC m - toC m =? 2)).

(** ** States of a game *)

(** The en-passant target [sq] of [s] is an empty square of the sixth rank
    of the side to move, behind an enemy pawn. *)
Definition passedOver (s : GameState) (sq : string) : Prop :=
  exists r c,
    sq = rcToSq r c /\ inBounds r c = true
    /\ r = (if String.eqb (turn s) "b" then 5 else 2)
    /\ getSq (board s) r c = None
    /\ exists p,
         getSq (board s) (r - pawnDirOf (turn s)) c = Some p
         /\ type p = Pawn /\ colorIs (color p) (turn s) = false.

(** What the moves of a game keep true of its states. *)
Definition wellPlayed (s : GameState) : Prop :=
  validState s = true
  /\ kingsAtHome s = true
  /\ (forall sq, enPassant s = Some sq -> passedOver s sq)
  /\ (exists r c, onlyKingAt (board s) "w" r c)
  /\ (exists r c, onlyKingAt (board s) "b" r c)
  /\ isInCheck (board s) (nextTurn (turn s)) = false.

(** ** Material *)

Definition occupied (sq : Square) : nat :=
  match sq with Some _ => 1 | None => 0 end.

(** The number of pieces on the board. *)
Definition material (b : Board) : nat := List.length (piecesOf b).

(** ** Rows on the heap *)

(** The heap [h'] holds the [n] rows of [b] from address [base] on, and is
    [h0] everywhere else. *)
Definition holdsRows (h0 : Heap) (base n : nat) (h' : Heap) (b : Board)
  : Prop :=
  List.length b = n
  /\ List.length h' = List.length h0
  /\ (forall k, (k < base \/ base + n <= k)%nat ->
                nth_error h' k = nth_error h0 k)
  /\ forall k row, nth_error b k = Some row ->
                   nth_error h' (base + k) = Some (ORow row).

(** ** The OpenVerb executor

    [src/unnamed/part_000] wraps the engine in five verbs that act on a
    mutable [OpenVerbGame] and append to its action log;
    [src/unnamed/part_001] builds the game. The game object is passed
    through the calls as a value. The two sources of values from outside,
    [Date.now()] and the module counter [actionCounter], are the [World]:
    the k-th call of [Date.now()] returns [now k]. An action id
    [act_<time>_<counter>] is kept as the pair of its two numbers and the
    game id [game_<time>] as its number; a [result] record is the
    constructor of its shape. A call that raises is [Throw]; what it had
    assigned to the game by then is not kept. [toFEN] does not raise on
    the states of the embedding, so the [catch] branch of [verbGetState]
    is not taken. *)

Record MoveRecord := mkRecord {
  mr_from : string;
  mr_to : string;
  mr_san : string;
  mr_uci : string;
  mr_fen : string;
  mr_ply : nat;
  mr_timestamp : Z;
  mr_piece : PieceType;
  mr_captured : option PieceType;
  mr_promotion : option PieceType
}.

Record Agent := mkAgent {
  agent_id : string;
  agent_name : string;
  agent_ai : bool;
  agent_color : PieceColor;
  agent_model : option string
}.

Inductive VerbResult :=
| RError (error : string)
| RState (fen turn_ : string) (status : GameStatus) (ply : nat)
    (inCheck : bool)
| RLegal (count : nat) (moves : list string)
| RHistory (moves : list (string * string * nat)) (totalMoves : nat)
| RMove (san newFen : string) (status : GameStatus) (ply : nat)
| RResign (winner : string) (status : GameStatus).

Record VerbAction := mkAction {
  va_id : Z * nat;
  va_verb : string;
  va_agent : string;
  va_moveUCI : option string;
  va_result : VerbResult;
  va_timestamp : Z;
  va_reasoning : option string
}.

Record OpenVerbGame := mkGame {
  g_id : Z;
  g_state : GameState;
  g_white : Agent;
  g_black : Agent;
  g_history : list MoveRecord;
  g_actionLog : list VerbAction;
  g_status : GameStatus;
  g_createdAt : Z
}.

Record World := mkWorld {
  actionCounter : nat;
  ticks : nat
}.

Section Executor.
Variable now : nat -> Z.

(** [Date.now()] *)
Definition dateNow (w : World) : Z * World :=
  (now (ticks w), mkWorld (actionCounter w) (S (ticks w))).

Definition createActionId (w : World) : (Z * nat) * World :=
  let '(t, w1) := dateNow w in
  ((t, S (actionCounter w1)), mkWorld (S (actionCounter w1)) (ticks w1)).

(** An action literal: the id first, the timestamp last. *)
Definition newAction (w : World) (verb agent : string)
  (moveUCI : option string) (result : VerbResult)
  (reasoning : option string) : VerbAction * World :=
  let '(id, w1) := createActionId w in
  let '(t, w2) := dateNow w1 in
  (mkAction id verb agent moveUCI result t reasoning, w2).

(** [game.actionLog.push(action)] *)
Definition logAction (g : OpenVerbGame) (a : VerbAction) : OpenVerbGame :=
  mkGame (g_id g) (g_state g) (g_white g) (g_black g) (g_history g)
    (g_actionLog g ++ [a]) (g_status g) (g_createdAt g).

Definition verbGetState (w : World) (g : OpenVerbGame) (agentId : string)
  : World * OpenVerbGame * VerbAction :=
  let '(a, w1) :=
    newAction w "chess.get_state" agentId None
      (RState (toFEN (g_state g)) (turn (g_state g)) (g_status g)
         (List.length (g_history g)) false)
      None in
  (w1, logAction g a, a).

Definition verbGetLegalMoves (fuel : nat) (w : World) (g : OpenVerbGame)
  (agentId : string)
  : outcome (World * OpenVerbGame * (VerbAction * list LegalMove)) :=
  obind (getLegalMoves fuel (g_state g))
    (fun moves =>
       let '(a, w1) :=
         newAction w "chess.get_legal_moves" agentId None
           (RLegal (List.length moves) (map lm_uci moves)) None in
       Ret (w1, logAction g a, (a, moves))).

Definition verbGetHistory (w : World) (g : OpenVerbGame) (agentId : string)
  : World * OpenVerbGame * VerbAction :=
  let '(a, w1) :=
    newAction w "chess.get_history" agentId None
      (RHistory (map (fun r => (mr_san r, mr_uci r, mr_ply r)) (g_history g))
         (List.length (g_history g)))
      None in
  (w1, logAction g a, a).

(** A refused move: the action is logged, nothing else changes. *)
Definition refuseMove (w : World) (g : OpenVerbGame)
  (agentId moveUCI : string) (reasoning : option string) (error : string)
  : World * OpenVerbGame * (VerbAction * bool * option string) :=
  let '(a, w1) :=
    newAction w "chess.make_move" agentId (Some moveUCI) (RError error)
      reasoning in
  (w1, logAction g a, (a, false, Some error)).

(** [game.agents[game.state.turn]]; reading [id] of [undefined] raises. *)
Definition currentAgent (g : OpenVerbGame) : option Agent :=
  if String.eqb (turn (g_state g)) "w" then Some (g_white g)
  else if String.eqb (turn (g_state g)) "b" then Some (g_black g)
  else None.

Definition isPlaying (st : GameStatus) : bool :=
  match st with playing => true | _ => false end.

Definition verbMakeMove (fuel : nat) (w : World) (g : OpenVerbGame)
  (agentId moveUCI : string) (reasoning : option string)
  : outcome (World * OpenVerbGame * (VerbAction * bool * option string)) :=
  match currentAgent g with
  | None => Throw
  | Some agent =>
      if negb (String.eqb (agent_id agent) agentId)
      then Ret (refuseMove w g agentId moveUCI reasoning "Not your turn")
      else if negb (isPlaying (g_status g))
      then Ret (refuseMove w g agentId moveUCI reasoning "Game is over")
      else
        obind (makeMove fuel (g_state g) moveUCI)
          (fun result =>
             match result with
             | None =>
                 Ret (refuseMove w g agentId moveUCI reasoning "Illegal move")
             | Some (newState, move) =>
                 let '(t, w1) := dateNow w in
                 let moveRecord :=
                   mkRecord (lm_from move) (lm_to move) (lm_san move)
                     (lm_uci move) (toFEN newState)
                     (List.length (g_history g) + 1) t (lm_piece move)
                     (lm_captured move) (lm_promotion move) in
                 let history := g_history g ++ [moveRecord] in
                 obind (getGameStatus fuel newState)
                   (fun status =>
                      let '(a, w2) :=
                        newAction w1 "chess.make_move" agentId (Some moveUCI)
                          (RMove (lm_san move) (toFEN newState) status
                             (List.length history))
                          reasoning in
                      Ret (w2,
                           mkGame (g_id g) newState (g_white g) (g_black g)
                             history (g_actionLog g ++ [a]) status
                             (g_createdAt g),
                           (a, true, None)))
             end)
  end.

Definition verbResign (w : World) (g : OpenVerbGame) (agentId : string)
  : World * OpenVerbGame * VerbAction :=
  let white := String.eqb (agent_id (g_white g)) agentId in
  let status := if white then checkmate_black else checkmate_white in
  let '(a, w1) :=
    newAction w "chess.resign" agentId None
      (RResign (if white then "black" else "white") status) None in
  (w1,
   mkGame (g_id g) (g_state g) (g_white g) (g_black g) (g_history g)
     (g_actionLog g ++ [a]) status (g_createdAt g),
   a).

(** [createOpenVerbGame]; the [color] of the two agents is set here. *)
Definition createOpenVerbGame (w : World) (whiteAgent blackAgent : Agent)
  : option (World * OpenVerbGame) :=
  let '(t, w1) := dateNow w in
  match createGame with
  | Some s =>
      let '(t', w2) := dateNow w1 in
      Some (w2,
            mkGame t s
              (mkAgent (agent_id whiteAgent) (agent_name whiteAgent)
                 (agent_ai whiteAgent) White (agent_model whiteAgent))
              (mkAgent (agent_id blackAgent) (agent_name blackAgent)
                 (agent_ai blackAgent) Black (agent_model blackAgent))
              [] [] playing t')
  | None => None
  end.

(** A call of one of the five verbs. *)
Inductive Call :=
| CallGetState (agentId : string)
| CallGetLegalMoves (agentId : string)
| CallGetHistory (agentId : string)
| CallMakeMove (agentId moveUCI : string) (reasoning : option string)
| CallResign (agentId : string).

Definition call (fuel : nat) (w : World) (g : OpenVerbGame) (c : Call)
  : outcome (World * OpenVerbGame) :=
  match c with
  | CallGetState agentId => Ret (fst (verbGetState w g agentId))
  | CallGetLegalMoves agentId =>
      obind (verbGetLegalMoves fuel w g agentId) (fun r => Ret (fst r))
  | CallGetHistory agentId => Ret (fst (verbGetHistory w g agentId))
  | CallMakeMove agentId moveUCI reasoning =>
      obind (verbMakeMove fuel w g agentId moveUCI reasoning)
        (fun r => Ret (fst r))
  | CallResign agentId => Ret (fst (verbResign w g agentId))
  end.

(** A session: the verbs called one after the other on the same game. *)
Fixpoint session (fuel : nat) (w : World) (g : OpenVerbGame)
  (calls : list Call) : outcome (World * OpenVerbGame) :=
  match calls with
  | [] => Ret (w, g)
  | c :: rest =>
      obind (call fuel w g c) (fun wg => session fuel (fst wg) (snd wg) rest)
  end.
End Executor.

(** The history records the moves that lead from [s0] to [s]: each record
    is the move that [makeMove] found for its [uci], with the text of the
    state it led to and its number. *)
Inductive recorded (s0 : GameState)
  : list MoveRecord -> GameState -> Prop :=
| recorded_nil : recorded s0 [] s0
| recorded_snoc recs s fuel s' lm r :
    recorded s0 recs s ->
    makeMove fuel s (mr_uci r) = Ret (Some (s', lm)) ->
    mr_from r = lm_from lm -> mr_to r = lm_to lm -> mr_san r = lm_san lm ->
    mr_uci r = lm_uci lm -> mr_piece r = lm_piece lm ->
    mr_captured r = lm_captured lm -> mr_promotion r = lm_promotion lm ->
    mr_fen r = toFEN s' ->
    mr_ply r = S (List.length recs) ->
    recorded s0 (recs ++ [r]) s'.

(** What holds of a game and the world after any number of calls, [c0]
    being the value of the counter when the game was created. *)
Definition sessionInv (c0 : nat) (w : World) (g : OpenVerbGame) : Prop :=
  recorded startState (g_history g) (g_state g)
  /\ map (fun a => snd (va_id a)) (g_actionLog g)
     = seq (S c0) (List.length (g_actionLog g))
  /\ actionCounter w = (c0 + List.length (g_actionLog g))%nat.

(** The status that the resignations among [calls] leave, from [st]. *)
Definition afterResigns (g : OpenVerbGame) (calls : list Call)
  (st : GameStatus) : GameStatus :=
  fold_left
    (fun st c =>
       match c with
       | CallResign agentId =>
           if String.eqb (agent_id (g_white g)) agentId
           then checkmate_black else checkmate_white
       | _ => st
       end)
    calls st.

(** ** The material count of the move planner

    [analyzeMaterial] of [src/unnamed/part_004] reads the piece-placement
    field of a position text character by character. *)

(** [pieceValues[char]], [None] when [char in pieceValues] is false. *)
Definition pieceValues (ch : ascii) : option Z :=
  if Ascii.eqb ch "q" || Ascii.eqb ch "Q" then Some 9
  else if Ascii.eqb ch "r" || Ascii.eqb ch "R" then Some 5
  else if Ascii.eqb ch "b" || Ascii.eqb ch "B" then Some 3
  else if Ascii.eqb ch "n" || Ascii.eqb ch "N" then Some 3
  else if Ascii.eqb ch "p" || Ascii.eqb ch "P" then Some 1
  else None.

(** The loop over the characters, with its two sums. *)
Fixpoint countMaterial (position : string) (whiteMaterial blackMaterial : Z)
  : Z * Z :=
  match position with
  | EmptyString => (whiteMaterial, blackMaterial)
  | String ch rest =>
      match pieceValues ch with
      | Some v =>
          if Ascii.eqb ch (toUpperCase ch)
          then countMaterial rest (whiteMaterial + v) blackMaterial
          else countMaterial rest whiteMaterial (blackMaterial + v)
      | None => countMaterial rest whiteMaterial blackMaterial
      end
  end.

Record MaterialReport := mkReport {
  am_white : Z;
  am_black : Z;
  am_advantage : Z;
  am_description : string
}.

Definition analyzeMaterial (fen : string) : MaterialReport :=
  let position := nth 0 (splitOn " " fen) EmptyString in
  let '(whiteMaterial, blackMaterial) := countMaterial position 0 0 in
  let advantage := whiteMaterial - blackMaterial in
  mkReport whiteMaterial blackMaterial advantage
    (if 0 <? advantage
     then ("White is ahead by " ++ showNum (Num advantage)
           ++ " points")%string
     else if advantage <? 0
          then ("Black is ahead by " ++ showNum (Num (Z.abs advantage))
                ++ " points")%string
          else "Material is equal"%string).

(** The value of a piece on the planner's scale; a king counts for
    nothing. *)
Definition worth (p : Piece) : Z :=
  match type p with
  | Queen => 9
  | Rook => 5
  | Bishop => 3
  | Knight => 3
  | Pawn => 1
  | _ => 0
  end.

(** The worth of the pieces of one side. *)
Definition sideWorth (c : PieceColor) (ps : list Piece) : Z :=
  fold_right (fun p acc => (if color_eqb (color p) c then worth p else 0) + acc)
    0 ps.

(** ** Pawns *)

(** No pawn stands on the first or the last rank. *)
Definition pawnsInside (b : Board) : Prop :=
  forall r c p, getSq b r c = Some p -> type p = Pawn -> 1 <= r <= 6.

(** ** The notation before its check mark *)

(** The text that [generateSAN] has built for a move that is no castling
    when it comes to the check mark: for a pawn the file of departure and
    [x] on a capture, the destination and the promotion; for a piece its
    letter, the disambiguation by file, by rank or by both, [x] on a
    capture and the destination. *)
Definition sanBase (s : GameState) (i : nat) (piece : Piece)
  (move : RawMove) (allMoves : list RawMove) : string :=
  let captured := getSq (board s) (toR move) (toC move) in
  let toSq := rcToSq (toR move) (toC move) in
  (if isType piece Pawn then
     (if negb (emptySq captured)
         || (truthyStr (enPassant s)
             && match enPassant s with
                | Some ep => String.eqb toSq ep
                | None => false
                end)
      then showChar (charAt FILES (fromC move)) ++ "x"
      else "")
     ++ toSq
     ++ match promotion move with
        | Some p => "=" ++ str1 (toUpperCase (typeChar p))
        | None => ""
        end
   else
     let same := samePieceMoves s i piece move allMoves in
     str1 (toUpperCase (typeChar (type piece)))
     ++ (if negb (Nat.eqb (List.length same) 0) then
           let sameFile :=
             existsb (fun m => (fromC m =? fromC move)%Z) same in
           let sameRank :=
             existsb (fun m => (fromR m =? fromR move)%Z) same in
           if negb sameFile then showChar (charAt FILES (fromC move))
           else if negb sameRank
                then showChar (charAt RANKS (fromR move))
                else rcToSq (fromR move) (fromC move)
         else "")
     ++ (if negb (emptySq captured) then "x" else "")
     ++ toSq)%string.

(** * Properties *)

(** ** Lists and boards *)

Lemma nth_error_setNth_same {A} (l : list A) n v pad :
  nth_error (setNth l n v pad) n = Some v.
Proof.
  revert l; induction n as [|n IH]; intros [|x l]; simpl; auto.
Qed.

Lemma nth_error_setNth_other {A} (l : list A) n k v (pad : A) :
  n <> k ->
  match nth_error (setNth l n v pad) k with
  | Some x => nth_error l k = Some x \/ (nth_error l k = None /\ x = pad)
  | None => nth_error l k = None
  end.
Proof.
  revert l k; induction n as [|n IH]; intros [|x l] [|k] Hne; simpl;
    try congruence; auto.
  - destruct k; simpl; auto.
  - destruct (nth_error l k); auto.
  - specialize (IH [] k ltac:(congruence)).
    destruct (nth_error (setNth [] n v pad) k); auto.
    right; split; auto. destruct IH as [IH | [_ IH]]; auto.
    destruct k; discriminate.
  - apply IH; congruence.
Qed.

Lemma length_setNth_in {A} (l : list A) n v pad :
  (n < List.length l)%nat -> List.length (setNth l n v pad) = List.length l.
Proof.
  revert l; induction n as [|n IH]; intros [|x l] H; simpl in *; try lia.
  rewrite IH; lia.
Qed.

Lemma length_updNth {A} (l : list A) n f :
  List.length (updNth l n f) = List.length l.
Proof.
  revert l; induction n as [|n IH]; intros [|x l]; simpl; auto.
Qed.

Lemma nth_error_updNth {A} (l : list A) n f k :
  nth_error (updNth l n f) k =
  if Nat.eqb n k then option_map f (nth_error l k) else nth_error l k.
Proof.
  revert l k; induction n as [|n IH]; intros [|x l] [|k]; simpl; auto;
    destruct (Nat.eqb _ _); auto.
Qed.

Lemma length_setSq b r c v : List.length (setSq b r c v) = List.length b.
Proof.
  unfold setSq. destruct (_ || _); auto using length_updNth.
Qed.

Lemma hasRow_setSq b r c v r' : hasRow (setSq b r c v) r' = hasRow b r'.
Proof. unfold hasRow. now rewrite length_setSq. Qed.

(** Reading a board after one write. *)
Lemma getSq_setSq b r c v r' c' :
  getSq (setSq b r c v) r' c' =
  if hasRow b r && (0 <=? c) && (r =? r') && (c =? c')
  then v else getSq b r' c'.
Proof.
  unfold getSq, getRow, setSq, hasRow.
  destruct (Z.ltb_spec r 0); simpl.
  - destruct (Z.leb_spec 0 r); try lia. reflexivity.
  - destruct (Z.ltb_spec c 0); simpl.
    + destruct (Z.leb_spec 0 r), (Z.leb_spec 0 c); simpl; try lia.
      now rewrite andb_false_r.
    + destruct (Z.leb_spec 0 r), (Z.leb_spec 0 c); simpl; try lia.
      destruct (Z.ltb_spec r' 0).
      { destruct (Z.eqb_spec r r'); try lia. now rewrite andb_false_r. }
      rewrite nth_error_updNth.
      destruct (Nat.eqb_spec (Z.to_nat r) (Z.to_nat r')) as [E|E].
      * assert (r = r') by lia. subst r'. rewrite Z.eqb_refl, andb_true_r.
        destruct (Z.ltb_spec r (Z.of_nat (List.length b))) as [L|L]; simpl.
        -- destruct (nth_error b (Z.to_nat r)) as [row|] eqn:Er.
           2:{ apply nth_error_None in Er. lia. }
           simpl. destruct (Z.ltb_spec c' 0).
           { destruct (Z.eqb_spec c c'); try lia. reflexivity. }
           destruct (Z.eqb_spec c c') as [->|Hc].
           ++ now rewrite nth_error_setNth_same.
           ++ pose proof (nth_error_setNth_other row (Z.to_nat c)
                            (Z.to_nat c') v None ltac:(lia)) as Hn.
              destruct (nth_error (setNth row (Z.to_nat c) v None)
                          (Z.to_nat c')).
              ** destruct Hn as [-> | [-> ->]]; reflexivity.
              ** now rewrite Hn.
        -- destruct (nth_error b (Z.to_nat r)) eqn:Er; auto.
           assert (nth_error b (Z.to_nat r) <> None) as Hs by congruence.
           apply nth_error_Some in Hs. lia.
      * destruct (Z.eqb_spec r r'); try lia.
        rewrite andb_false_r. reflexivity.
Qed.

(** ** Castling rights *)

Lemma rightsLe_refl cr : rightsLe cr cr.
Proof. unfold rightsLe; tauto. Qed.

Lemma rightsLe_trans a b c : rightsLe a b -> rightsLe b c -> rightsLe a c.
Proof. unfold rightsLe; tauto. Qed.

Lemma clearRookRight_le r c cr : rightsLe (clearRookRight r c cr) cr.
Proof.
  unfold rightsLe, clearRookRight; simpl.
  repeat split; destruct (_ && _); auto; discriminate.
Qed.

Lemma clearKingRights_le p cr : rightsLe (clearKingRights p cr) cr.
Proof.
  unfold rightsLe, clearKingRights.
  destruct (color p); simpl; repeat split; auto; discriminate.
Qed.

Lemma updateCastling_le cr piece captured m :
  rightsLe (updateCastling cr piece captured m) cr.
Proof.
  unfold updateCastling.
  destruct (capturedRook captured), (isType piece Rook), (isType piece King);
    repeat (eapply rightsLe_trans;
            [first [apply clearRookRight_le | apply clearKingRights_le]|]);
    apply rightsLe_refl.
Qed.

Lemma applyRawMove_castling s m s' :
  applyRawMove s m = Some s' ->
  exists piece,
    getSq (board s) (fromR m) (fromC m) = Some piece
    /\ castling s' =
       updateCastling (castling s) piece
         (getSq (board s) (toR m) (toC m)) m.
Proof.
  unfold applyRawMove. destruct (_ || _); try discriminate.
  destruct (getSq (board s) (fromR m) (fromC m)) as [piece|];
    try discriminate.
  intros [= <-]. exists piece. auto.
Qed.

Lemma applyRawMove_rightsLe s m s' :
  applyRawMove s m = Some s' -> rightsLe (castling s') (castling s).
Proof.
  intros H. destruct (applyRawMove_castling _ _ _ H) as (p & _ & ->).
  apply updateCastling_le.
Qed.

Lemma makeMove_applies fuel s uci s' lm :
  makeMove fuel s uci = Ret (Some (s', lm)) ->
  applyRawMove s (rawOfLegal lm) = Some s'.
Proof.
  unfold makeMove, obind, rawOfLegal.
  destruct (getLegalMoves fuel s) as [lms| |]; try discriminate.
  destruct (find _ lms) as [mv|]; try discriminate.
  destruct (sqToRC (lm_from mv)) as [fr fc] eqn:Ef.
  destruct (sqToRC (lm_to mv)) as [tr tc] eqn:Et.
  destruct (applyRawMove s _) as [ns|] eqn:Ea; try discriminate.
  intros [= <- <-]. rewrite Ef, Et. simpl. exact Ea.
Qed.

(** ** The pseudo-move generator *)

Lemma In_range8 z : In z range8 <-> 0 <= z < 8.
Proof.
  unfold range8; simpl. split.
  - intros H. repeat (destruct H as [<- | H]; [lia|]). contradiction.
  - intros H.
    assert (z = 0 \/ z = 1 \/ z = 2 \/ z = 3 \/ z = 4 \/ z = 5 \/ z = 6
            \/ z = 7) as E by lia.
    intuition (subst; auto 10).
Qed.

Lemma inBounds_iff r c : inBounds r c = true <-> 0 <= r < 8 /\ 0 <= c < 8.
Proof. unfold inBounds. lia. Qed.

Lemma In_allSquares r c : In (r, c) allSquares <-> inBounds r c = true.
Proof.
  unfold allSquares. rewrite in_flat_map, inBounds_iff. split.
  - intros (x & Hx & Hin). apply in_map_iff in Hin as (y & [= <- <-] & Hy).
    now rewrite In_range8 in Hx, Hy.
  - intros [Hr Hc]. exists r. rewrite In_range8. split; auto.
    apply in_map_iff. exists c. now rewrite In_range8.
Qed.

Lemma pawnArrive_ok t r c tr tc m :
  inBounds tr tc = true -> In m (pawnArrive t r c tr tc) -> okFrom r c m.
Proof.
  unfold pawnArrive, okFrom, promoOK. intros Hb.
  destruct (tr =? promoRankOf t).
  - intros Hin. apply in_map_iff in Hin as (p & <- & Hp). simpl.
    repeat split; auto. right. eauto.
  - intros [<- | []]. simpl. auto.
Qed.

Lemma pawnArrive_to t r c tr tc m :
  In m (pawnArrive t r c tr tc) -> toR m = tr /\ toC m = tc.
Proof.
  unfold pawnArrive. destruct (tr =? promoRankOf t).
  - intros Hin. apply in_map_iff in Hin as (p & <- & _). auto.
  - intros [<- | []]. auto.
Qed.

Lemma pawnDirOf_cases t : pawnDirOf t = -1 \/ pawnDirOf t = 1.
Proof. unfold pawnDirOf. destruct (String.eqb _ _); auto. Qed.

Lemma pawnForward_In s r c m :
  In m (pawnForward s r c) ->
  inBounds (r + pawnDirOf (turn s)) c = true
  /\ (In m (pawnArrive (turn s) r c (r + pawnDirOf (turn s)) c)
      \/ (r = startRankOf (turn s)
          /\ m = mkRaw r c (r + 2 * pawnDirOf (turn s)) c None)).
Proof.
  unfold pawnForward.
  destruct (inBounds (r + pawnDirOf (turn s)) c) eqn:Hb; simpl andb;
    [|contradiction].
  destruct (emptySq _); [|contradiction].
  intros Hin. split; auto. apply in_app_or in Hin as [Hin | Hin]; auto.
  destruct (Z.eqb_spec r (startRankOf (turn s))) as [E|E]; simpl andb in Hin;
    [|contradiction].
  destruct (emptySq _); [|contradiction].
  destruct Hin as [<- | []]. auto.
Qed.

Lemma pawnCapture_In s r c dc m :
  In m (pawnCapture s r c dc) ->
  inBounds (r + pawnDirOf (turn s)) (c + dc) = true
  /\ (In m (pawnArrive (turn s) r c (r + pawnDirOf (turn s)) (c + dc))
      \/ m = mkRaw r c (r + pawnDirOf (turn s)) (c + dc) None).
Proof.
  unfold pawnCapture.
  destruct (inBounds (r + pawnDirOf (turn s)) (c + dc)) eqn:Hb; simpl negb;
    cbv iota; [|contradiction].
  intros Hin. split; auto. destruct (enemyPiece _ _); auto.
  destruct (epSquare s) as [[er ec]|]; [|contradiction].
  destruct (_ && _); [|contradiction].
  destruct Hin as [<- | []]. auto.
Qed.

Lemma pawnMoves_ok s r c m :
  inBounds r c = true -> In m (pawnMoves s r c) -> okFrom r c m.
Proof.
  unfold pawnMoves. intros Hrc Hin. apply in_app_or in Hin as [Hin | Hin].
  - apply pawnForward_In in Hin as (Hb & [Hin | (E & ->)]).
    + eapply pawnArrive_ok; eauto.
    + unfold okFrom, promoOK; simpl. repeat split; auto.
      revert E Hb Hrc. unfold startRankOf, pawnDirOf.
      rewrite !inBounds_iff. destruct (String.eqb _ _); lia.
  - apply in_flat_map in Hin as (dc & _ & Hin).
    apply pawnCapture_In in Hin as (Hb & [Hin | ->]).
    + eapply pawnArrive_ok; eauto.
    + unfold okFrom, promoOK; simpl. auto.
Qed.

Lemma offsetMoves_In s r c offsets m :
  In m (offsetMoves s r c offsets) <->
  exists d, In d offsets
            /\ m = mkRaw r c (r + fst d) (c + snd d) None
            /\ inBounds (r + fst d) (c + snd d) = true
            /\ freeOrEnemy (getSq (board s) (r + fst d) (c + snd d)) (turn s)
               = true.
Proof.
  unfold offsetMoves. rewrite in_flat_map. split.
  - intros (d & Hd & Hin). exists d.
    destruct (inBounds _ _) eqn:Hb; simpl in Hin; [|contradiction].
    destruct (freeOrEnemy _ _) eqn:Hf; [|contradiction].
    destruct Hin as [<- | []]. auto.
  - intros (d & Hd & -> & Hb & Hf). exists d. split; auto.
    rewrite Hb, Hf. simpl. auto.
Qed.

Lemma offsetMoves_ok s r c offsets m :
  In m (offsetMoves s r c offsets) -> okFrom r c m.
Proof.
  rewrite offsetMoves_In. intros (d & _ & -> & Hb & _).
  unfold okFrom, promoOK; simpl. auto.
Qed.

(** A ray move is [k] steps along the ray, for some [k] below the fuel. *)
Lemma rayMoves_In fuel s r c nr nc dr dc m :
  In m (rayMoves fuel s r c nr nc dr dc) ->
  exists k, 0 <= k < Z.of_nat fuel
            /\ m = mkRaw r c (nr + k * dr) (nc + k * dc) None
            /\ inBounds (nr + k * dr) (nc + k * dc) = true.
Proof.
  revert nr nc; induction fuel as [|f IH]; intros nr nc; simpl;
    [contradiction|].
  destruct (inBounds nr nc) eqn:Hb; [|contradiction].
  assert (Hz : exists k, 0 <= k < Z.of_nat (S f)
            /\ mkRaw r c nr nc None = mkRaw r c (nr + k * dr) (nc + k * dc) None
            /\ inBounds (nr + k * dr) (nc + k * dc) = true).
  { exists 0. rewrite !Z.mul_0_l, !Z.add_0_r. split; [lia|auto]. }
  destruct (getSq (board s) nr nc) as [t|].
  - destruct (negb _); [|contradiction]. intros [<- | []]. exact Hz.
  - intros [<- | Hin]; [exact Hz|].
    apply IH in Hin as (k & Hk & -> & Hin). exists (k + 1).
    replace (nr + (k + 1) * dr) with (nr + dr + k * dr) by lia.
    replace (nc + (k + 1) * dc) with (nc + dc + k * dc) by lia.
    split; [lia|auto].
Qed.

Lemma slideMoves_In s r c dirs m :
  In m (slideMoves s r c dirs) ->
  exists d k, In d dirs /\ 1 <= k <= 8
              /\ m = mkRaw r c (r + k * fst d) (c + k * snd d) None
              /\ inBounds (r + k * fst d) (c + k * snd d) = true.
Proof.
  unfold slideMoves. rewrite in_flat_map. intros (d & Hd & Hin).
  apply rayMoves_In in Hin as (k & Hk & -> & Hb).
  exists d, (k + 1).
  replace (r + (k + 1) * fst d) with (r + fst d + k * fst d) by lia.
  replace (c + (k + 1) * snd d) with (c + snd d + k * snd d) by lia.
  repeat split; auto; lia.
Qed.

Lemma slideMoves_ok s r c dirs m :
  In m (slideMoves s r c dirs) -> okFrom r c m.
Proof.
  intros H. apply slideMoves_In in H as (d & k & _ & _ & -> & Hb).
  unfold okFrom, promoOK; simpl. auto.
Qed.

Lemma castlingMoves_ok s r c m :
  In m (castlingMoves s r c) -> okFrom r c m.
Proof.
  unfold castlingMoves. intros Hin.
  destruct (String.eqb (turn s) "w");
    apply in_app_or in Hin as [Hin | Hin];
    (destruct (_ && _) in Hin; [|contradiction]);
    destruct Hin as [<- | []]; unfold okFrom, promoOK; simpl; auto.
Qed.

Lemma pieceMoves_ok s r c m :
  inBounds r c = true -> In m (pieceMoves s r c) ->
  okFrom r c m
  /\ exists piece, getSq (board s) r c = Some piece
                   /\ colorIs (color piece) (turn s) = true.
Proof.
  unfold pieceMoves. intros Hb Hin.
  destruct (getSq (board s) r c) as [piece|]; [|contradiction].
  destruct (colorIs (color piece) (turn s)) eqn:Hc; cbv [negb] in Hin;
    [|contradiction].
  split; [|eauto].
  destruct (type piece).
  - now apply pawnMoves_ok with (s := s).
  - now apply offsetMoves_ok in Hin.
  - now apply slideMoves_ok in Hin.
  - now apply slideMoves_ok in Hin.
  - now apply slideMoves_ok in Hin.
  - apply in_app_or in Hin as [Hin | Hin].
    + now apply offsetMoves_ok in Hin.
    + now apply castlingMoves_ok in Hin.
  - contradiction.
Qed.

Lemma pseudo_In s m :
  In m (generatePseudoLegalMoves s) <->
  inBounds (fromR m) (fromC m) = true
  /\ In m (pieceMoves s (fromR m) (fromC m)).
Proof.
  unfold generatePseudoLegalMoves. rewrite in_flat_map. split.
  - intros ([r c] & Hrc & Hin). simpl in Hin. apply In_allSquares in Hrc.
    destruct (pieceMoves_ok _ _ _ _ Hrc Hin) as ((<- & <- & _) & _). auto.
  - intros [Hb Hin]. exists (fromR m, fromC m). split; auto.
    now apply In_allSquares.
Qed.

Lemma pseudo_ok s m :
  In m (generatePseudoLegalMoves s) ->
  inBounds (fromR m) (fromC m) = true
  /\ inBounds (toR m) (toC m) = true
  /\ promoOK m
  /\ exists piece, getSq (board s) (fromR m) (fromC m) = Some piece
                   /\ colorIs (color piece) (turn s) = true.
Proof.
  rewrite pseudo_In. intros [Hb Hin].
  destruct (pieceMoves_ok _ _ _ _ Hb Hin) as ((_ & _ & Ht & Hp) & Hx). auto.
Qed.

(** ** The legality filter and the list of legal moves *)

Lemma inBounds_hasRow b r c :
  List.length b = 8%nat -> inBounds r c = true -> hasRow b r = true.
Proof.
  unfold hasRow. rewrite inBounds_iff. intros ->.
  change (Z.of_nat 8) with 8. lia.
Qed.

Lemma applyRawMove_Some s m :
  applyRawMove s m <> None <->
  hasRow (board s) (fromR m) = true /\ hasRow (board s) (toR m) = true
  /\ getSq (board s) (fromR m) (fromC m) <> None.
Proof.
  unfold applyRawMove.
  destruct (hasRow (board s) (fromR m)), (hasRow (board s) (toR m)); simpl;
    try (split; [congruence | intros (? & ? & ?); congruence]).
  destruct (getSq (board s) (fromR m) (fromC m));
    split; try congruence; intuition congruence.
Qed.

Lemma applyRawMove_board s m s' :
  applyRawMove s m = Some s' ->
  exists piece, getSq (board s) (fromR m) (fromC m) = Some piece
                /\ board s' = moveBoard s piece m.
Proof.
  unfold applyRawMove. destruct (_ || _); try discriminate.
  destruct (getSq (board s) (fromR m) (fromC m)) as [piece|];
    try discriminate.
  intros [= <-]. eauto.
Qed.

Lemma length_moveBoard s piece m :
  List.length (moveBoard s piece m) = List.length (board s).
Proof.
  unfold moveBoard, moveSquares.
  repeat match goal with
         | |- context [if ?b then _ else _] => destruct b
         | |- context [match ?x with Some _ => _ | None => _ end] =>
             destruct x
         | |- context [let '(_, _) := ?x in _] => destruct x
         end; rewrite ?length_setSq; reflexivity.
Qed.

Lemma applyRawMove_rows s m s' :
  applyRawMove s m = Some s' ->
  List.length (board s') = List.length (board s).
Proof.
  intros H. apply applyRawMove_board in H as (p & _ & ->).
  apply length_moveBoard.
Qed.

Lemma pseudo_applies s m :
  List.length (board s) = 8%nat ->
  In m (generatePseudoLegalMoves s) -> applyRawMove s m <> None.
Proof.
  intros H8 Hin. apply pseudo_ok in Hin as (Hf & Ht & _ & p & Hp & _).
  apply applyRawMove_Some. rewrite Hp.
  repeat split; eauto using inBounds_hasRow. discriminate.
Qed.

Lemma filterLegal_filter s ms :
  (forall m, In m ms -> applyRawMove s m <> None) ->
  filterLegal s ms = Some (filter (staysSafe s) ms).
Proof.
  induction ms as [|m ms IH]; intros H; simpl; auto.
  unfold staysSafe at 1.
  destruct (applyRawMove s m) as [next|] eqn:E.
  - rewrite IH by (intros; apply H; now right).
    destruct (isInCheck (board next) (turn s)); reflexivity.
  - exfalso. apply (H m); auto. now left.
Qed.

Lemma legalRaw_eq s :
  List.length (board s) = 8%nat -> legalRaw s = Some (legalList s).
Proof.
  intros H8. apply filterLegal_filter. intros m. now apply pseudo_applies.
Qed.

Lemma legalList_In s m :
  In m (legalList s) <->
  In m (generatePseudoLegalMoves s)
  /\ exists next, applyRawMove s m = Some next
                  /\ isInCheck (board next) (turn s) = false.
Proof.
  unfold legalList, staysSafe. rewrite filter_In. split.
  - intros [Hin H]. split; auto.
    destruct (applyRawMove s m) as [next|]; try discriminate.
    exists next. split; auto. now apply negb_true_iff.
  - intros [Hin (next & -> & ->)]. auto.
Qed.

(** *** The records built for the legal moves *)

Lemma omap_Ret {A B} (f : A -> outcome B) l l' :
  omap f l = Ret l' -> Forall2 (fun x y => f x = Ret y) l l'.
Proof.
  revert l'; induction l as [|x l IH]; simpl; intros l'.
  - intros [= <-]. constructor.
  - destruct (f x) as [y| |] eqn:E; simpl; try discriminate.
    destruct (omap f l) as [ys| |]; simpl; try discriminate.
    intros [= <-]. constructor; auto.
Qed.

Lemma omap_Ret_intro {A B} (f : A -> outcome B) l :
  (forall x, In x l -> exists y, f x = Ret y) ->
  exists l', omap f l = Ret l'.
Proof.
  induction l as [|x l IH]; simpl; intros H; eauto.
  destruct (H x) as (y & ->); auto.
  destruct IH as (ys & ->); eauto. simpl. eauto.
Qed.

Lemma omap_not_Throw {A B} (f : A -> outcome B) l :
  (forall x, In x l -> f x <> Throw) -> omap f l <> Throw.
Proof.
  induction l as [|x l IH]; simpl; intros H; try discriminate.
  specialize (H x (or_introl eq_refl)) as Hx.
  destruct (f x); simpl; try congruence.
  assert (omap f l <> Throw) by (apply IH; intros; apply H; now right).
  destruct (omap f l); simpl; congruence.
Qed.

Lemma Forall2_indexed {A B} (P : A -> B -> Prop) i l l' :
  Forall2 (fun im y => P (snd im) y) (indexed i l) l' <-> Forall2 P l l'.
Proof.
  revert i l'; induction l as [|x l IH]; intros i l'; simpl.
  - split; inversion 1; constructor.
  - split; inversion 1; subst; constructor; auto; now apply (IH (S i)).
Qed.

Lemma In_indexed {A} i (l : list A) im : In im (indexed i l) -> In (snd im) l.
Proof.
  revert i; induction l as [|x l IH]; simpl; intros i; auto.
  intros [<- | H]; eauto.
Qed.

Lemma toLegalMove_Ret rec s all im lm :
  toLegalMove rec s all im = Ret lm -> describes s (snd im) lm.
Proof.
  unfold toLegalMove, describes.
  destruct (getSq (board s) _ _) as [piece|]; try discriminate.
  destruct (generateSAN _ _ _ _ _); simpl; try discriminate.
  intros [= <-]. simpl. repeat split; eauto.
Qed.

(** Whatever the fuel, a returned list describes the moves of [legalList]
    one for one, in order. *)
Lemma getLegalMoves_Ret fuel s lms :
  List.length (board s) = 8%nat ->
  getLegalMoves fuel s = Ret lms ->
  Forall2 (describes s) (legalList s) lms.
Proof.
  intros H8. destruct fuel as [|f]; simpl; try discriminate.
  rewrite legalRaw_eq by assumption. intros H.
  apply omap_Ret in H. apply (Forall2_indexed (describes s) 0).
  eapply Forall2_impl; [|exact H]. intros im lm. apply toLegalMove_Ret.
Qed.

Lemma getLegalMoves_length fuel s lms :
  List.length (board s) = 8%nat ->
  getLegalMoves fuel s = Ret lms ->
  List.length lms = List.length (legalList s).
Proof.
  intros H8 H. symmetry. eapply Forall2_length, getLegalMoves_Ret; eauto.
Qed.

(** ** The recursion through [generateSAN] *)

Lemma generateSAN_not_Throw rec s i m all piece next :
  getSq (board s) (fromR m) (fromC m) = Some piece ->
  applyRawMove s m = Some next ->
  rec next <> Throw ->
  generateSAN rec s i m all <> Throw.
Proof.
  unfold generateSAN. intros -> -> Hrec.
  repeat match goal with
         | |- (if ?b then _ else _) <> _ => destruct b
         end; try discriminate.
  destruct (rec next); simpl; congruence.
Qed.

Lemma generateSAN_Ret rec s i m all piece next :
  getSq (board s) (fromR m) (fromC m) = Some piece ->
  applyRawMove s m = Some next ->
  (isInCheck (board next) (turn next) = true -> exists l, rec next = Ret l) ->
  exists san, generateSAN rec s i m all = Ret san.
Proof.
  unfold generateSAN. intros -> -> Hrec.
  repeat match goal with
         | |- exists _, (if ?b then _ else _) = _ => destruct b eqn:?
         end; eauto.
  destruct Hrec as (l & ->); auto. simpl. eauto.
Qed.

Lemma generateSAN_mono (rec rec' : GameState -> outcome (list LegalMove))
  s i m all san :
  (forall x l, rec x = Ret l -> rec' x = Ret l) ->
  generateSAN rec s i m all = Ret san ->
  generateSAN rec' s i m all = Ret san.
Proof.
  unfold generateSAN. intros Hle.
  destruct (getSq (board s) (fromR m) (fromC m)); auto.
  repeat match goal with
         | |- (if ?b then _ else _) = _ -> _ => destruct b
         end; auto.
  destruct (applyRawMove s m) as [next|]; auto.
  destruct (isInCheck _ _); auto.
  destruct (rec next) as [l| |] eqn:E; simpl; try discriminate.
  now rewrite (Hle _ _ E).
Qed.

Lemma omap_mono {A B} (f g : A -> outcome B) l l' :
  (forall x y, In x l -> f x = Ret y -> g x = Ret y) ->
  omap f l = Ret l' -> omap g l = Ret l'.
Proof.
  revert l'; induction l as [|x l IH]; simpl; intros l' H; auto.
  destruct (f x) as [y| |] eqn:E; simpl; try discriminate.
  rewrite (H x y) by auto. simpl.
  destruct (omap f l) as [ys| |]; simpl; try discriminate.
  rewrite (IH ys) by auto. auto.
Qed.

(** More fuel never changes a returned list. *)
Lemma getLegalMoves_step fuel s lms :
  getLegalMoves fuel s = Ret lms -> getLegalMoves (S fuel) s = Ret lms.
Proof.
  revert s lms; induction fuel as [|f IH]; intros s lms; try discriminate.
  cbn [getLegalMoves]. destruct (legalRaw s) as [legal|]; auto.
  apply omap_mono. intros im lm _. unfold toLegalMove.
  destruct (getSq (board s) _ _); auto.
  destruct (generateSAN (getLegalMoves f) _ _ _ _) as [san| |] eqn:E;
    simpl; try discriminate.
  erewrite generateSAN_mono; eauto.
Qed.

Lemma getLegalMoves_mono fuel fuel' s lms :
  (fuel <= fuel')%nat ->
  getLegalMoves fuel s = Ret lms -> getLegalMoves fuel' s = Ret lms.
Proof.
  induction 1; auto using getLegalMoves_step.
Qed.

Lemma legalList_applies s m :
  List.length (board s) = 8%nat -> In m (legalList s) ->
  exists piece next,
    getSq (board s) (fromR m) (fromC m) = Some piece
    /\ applyRawMove s m = Some next
    /\ List.length (board next) = 8%nat.
Proof.
  intros H8 Hin. apply legalList_In in Hin as (Hp & next & Ha & _).
  apply pseudo_ok in Hp as (_ & _ & _ & piece & Hg & _).
  exists piece, next. repeat split; auto.
  now rewrite (applyRawMove_rows _ _ _ Ha).
Qed.

(** No call raises on a board of eight rows. *)
Lemma getLegalMoves_not_Throw fuel s :
  List.length (board s) = 8%nat -> getLegalMoves fuel s <> Throw.
Proof.
  revert s; induction fuel as [|f IH]; intros s H8; simpl; try discriminate.
  rewrite legalRaw_eq by assumption.
  apply omap_not_Throw. intros im Hin. apply In_indexed in Hin.
  destruct (legalList_applies _ _ H8 Hin) as (piece & next & Hg & Ha & Hn).
  unfold toLegalMove. rewrite Hg.
  pose proof (generateSAN_not_Throw (getLegalMoves f) s (fst im) (snd im)
                (legalList s) piece next Hg Ha (IH _ Hn)) as Hs.
  destruct (generateSAN _ _ _ _ _); simpl; congruence.
Qed.

Lemma bound_all {A} (P : A -> nat -> Prop) (l : list A) :
  (forall x n n', (n <= n')%nat -> P x n -> P x n') ->
  (forall x, In x l -> exists n, P x n) ->
  exists N, forall x, In x l -> P x N.
Proof.
  intros Hmono. induction l as [|x l IH]; intros H.
  - exists 0%nat. intros _ [].
  - destruct (H x (or_introl eq_refl)) as (n & Hn).
    destruct IH as (N & HN); [intros; apply H; now right|].
    exists (Nat.max n N). intros y [<- | Hy].
    + eapply Hmono; [|exact Hn]. lia.
    + eapply Hmono; [|apply HN, Hy]. lia.
Qed.

(** Where every chain of mutual checks ends, enough fuel returns the list. *)
Lemma getLegalMoves_total s :
  List.length (board s) = 8%nat -> checkChainsEnd s ->
  exists n lms, forall fuel, (n <= fuel)%nat -> getLegalMoves fuel s = Ret lms.
Proof.
  intros H8 Hacc. revert H8. induction Hacc as [s _ IH]. intros H8.
  assert (exists N, forall m, In m (legalList s) ->
            forall next, applyRawMove s m = Some next ->
              isInCheck (board next) (turn next) = true ->
              exists l, getLegalMoves N next = Ret l) as (N & HN).
  { apply (bound_all
             (fun m n => forall next, applyRawMove s m = Some next ->
                isInCheck (board next) (turn next) = true ->
                exists l, getLegalMoves n next = Ret l)).
    - intros m n n' Hle H next Ha Hc. destruct (H next Ha Hc) as (l & Hl).
      exists l. eapply getLegalMoves_mono; eauto.
    - intros m Hin.
      destruct (legalList_applies _ _ H8 Hin) as (piece & next & _ & Ha & Hn).
      destruct (isInCheck (board next) (turn next)) eqn:Hc.
      + destruct (IH next) as (n & l & Hl); auto.
        { exists m. auto. }
        exists n. intros next' Ha' _. rewrite Ha in Ha'.
        injection Ha' as <-. exists l. apply Hl. lia.
      + exists 0%nat. intros next' Ha'. rewrite Ha in Ha'.
        injection Ha' as <-. congruence. }
  assert (exists lms, getLegalMoves (S N) s = Ret lms) as (lms & Hl).
  { simpl. rewrite legalRaw_eq by assumption.
    apply omap_Ret_intro. intros im Hin. apply In_indexed in Hin.
    destruct (legalList_applies _ _ H8 Hin) as (piece & next & Hg & Ha & Hn).
    unfold toLegalMove. rewrite Hg.
    destruct (generateSAN_Ret (getLegalMoves N) s (fst im) (snd im)
                (legalList s) piece next Hg Ha) as (san & ->); eauto.
    simpl. eauto. }
  exists (S N), lms. intros fuel Hle. eapply getLegalMoves_mono; eauto.
Qed.

(** ** Square names *)

Lemma rcToSq_inBounds r c :
  inBounds r c = true ->
  exists f k, rcToSq r c = String f (String k EmptyString)
              /\ indexOfFrom k RANKS 0 = r /\ indexOfFrom f FILES 0 = c.
Proof.
  rewrite inBounds_iff. intros [Hr Hc].
  assert (r = 0 \/ r = 1 \/ r = 2 \/ r = 3 \/ r = 4 \/ r = 5 \/ r = 6
          \/ r = 7) as Er by lia.
  assert (c = 0 \/ c = 1 \/ c = 2 \/ c = 3 \/ c = 4 \/ c = 5 \/ c = 6
          \/ c = 7) as Ec by lia.
  repeat (destruct Er as [-> | Er]); try subst r;
    repeat (destruct Ec as [-> | Ec]); try subst c;
    do 2 eexists; (split; [reflexivity | split; reflexivity]).
Qed.

Lemma sqToRC_rcToSq r c :
  inBounds r c = true -> sqToRC (rcToSq r c) = (r, c).
Proof.
  intros H. destruct (rcToSq_inBounds _ _ H) as (f & k & -> & <- & <-).
  reflexivity.
Qed.

Lemma squareName_rcToSq r c :
  inBounds r c = true -> squareName (rcToSq r c) = true.
Proof.
  intros H. destruct (rcToSq_inBounds _ _ H) as (f & k & -> & Hk & Hf).
  unfold squareName. now rewrite Hk, Hf.
Qed.

Lemma rawOfLegal_describes s m lm :
  inBounds (fromR m) (fromC m) = true -> inBounds (toR m) (toC m) = true ->
  describes s m lm -> rawOfLegal lm = m.
Proof.
  intros Hf Ht (E1 & E2 & _ & E3 & _). unfold rawOfLegal.
  rewrite E1, E2, E3, !sqToRC_rcToSq by assumption. now destruct m.
Qed.

(** The coordinate string determines the move. *)
Lemma uciOf_inj m m' :
  inBounds (fromR m) (fromC m) = true -> inBounds (toR m) (toC m) = true ->
  inBounds (fromR m') (fromC m') = true ->
  inBounds (toR m') (toC m') = true ->
  promoOK m -> promoOK m' ->
  uciOf m = uciOf m' -> m = m'.
Proof.
  intros Hf Ht Hf' Ht' Hp Hp'. unfold uciOf.
  destruct (rcToSq_inBounds _ _ Hf) as (a & b & -> & Hb & Ha).
  destruct (rcToSq_inBounds _ _ Ht) as (c & d & -> & Hd & Hc).
  destruct (rcToSq_inBounds _ _ Hf') as (a' & b' & -> & Hb' & Ha').
  destruct (rcToSq_inBounds _ _ Ht') as (c' & d' & -> & Hd' & Hc').
  simpl. intros [= -> -> -> -> E].
  assert (promotion m = promotion m') as Ep.
  { unfold promoOK, promoKinds in Hp, Hp'.
    destruct (promotion m) as [p|], (promotion m') as [p'|];
      unfold str1 in E; simpl in E; try discriminate; auto.
    destruct Hp as [Hp | (q & [= <-] & Hq)]; [discriminate|].
    destruct Hp' as [Hp' | (q' & [= <-] & Hq')]; [discriminate|].
    simpl in Hq, Hq'.
    intuition subst; simpl in E; try discriminate; reflexivity. }
  destruct m, m'; simpl in *. congruence.
Qed.

Lemma uciOf_length m :
  inBounds (fromR m) (fromC m) = true -> inBounds (toR m) (toC m) = true ->
  String.length (uciOf m) =
  match promotion m with Some _ => 5%nat | None => 4%nat end.
Proof.
  intros Hf Ht. unfold uciOf.
  destruct (rcToSq_inBounds _ _ Hf) as (a & b & -> & _).
  destruct (rcToSq_inBounds _ _ Ht) as (c & d & -> & _).
  destruct (promotion m); reflexivity.
Qed.

(** ** Decoding *)

Lemma traverse_None {A B} (f : A -> option B) l :
  traverse f l = None <-> exists x, In x l /\ f x = None.
Proof.
  induction l as [|x l IH]; simpl.
  - split; [discriminate | intros (x & [] & _)].
  - destruct (f x) as [y|] eqn:E.
    + destruct (traverse f l) as [ys|].
      * split; [discriminate|]. intros (z & [<- | Hz] & Hn); [congruence|].
        destruct IH as [_ IH]. discriminate IH. eauto.
      * split; auto. intros _. destruct IH as [IH _].
        destruct (IH eq_refl) as (z & Hz & Hn). eauto.
    + split; eauto.
Qed.

Lemma traverse_length {A B} (f : A -> option B) l l' :
  traverse f l = Some l' -> List.length l' = List.length l.
Proof.
  revert l'; induction l as [|x l IH]; simpl; intros l'.
  - intros [= <-]. reflexivity.
  - destruct (f x); try discriminate.
    destruct (traverse f l); try discriminate.
    intros [= <-]. simpl. f_equal. auto.
Qed.

Lemma parseFEN_rows fen s :
  parseFEN fen = Some s -> List.length (board s) = 8%nat.
Proof.
  unfold parseFEN.
  destruct (traverse _ range8) as [b|] eqn:E; try discriminate.
  destruct (nth_error _ 2); try discriminate.
  intros [= <-]. simpl. now apply traverse_length in E.
Qed.

(** [parseFEN] raises exactly when a rank among the first eight or the
    castling field is absent. *)
Lemma parseFEN_None fen :
  parseFEN fen = None <->
  (List.length (rankTexts fen) < 8)%nat \/ (fieldCount fen < 3)%nat.
Proof.
  unfold parseFEN, rankTexts, placementField, fieldCount.
  set (parts := splitOn " " fen).
  set (rows := splitOn "/" (nth 0 parts EmptyString)).
  destruct (traverse _ range8) as [b|] eqn:E.
  - assert (~ (List.length rows < 8)%nat) as Hrows.
    { intros Hlt.
      assert (traverse
                (fun r => option_map parseRow (nth_error rows (Z.to_nat r)))
                range8 = None) as Hn; [|congruence].
      apply traverse_None. exists 7. split; [now apply In_range8|].
      assert (nth_error rows (Z.to_nat 7) = None) as ->; auto.
      apply nth_error_None. simpl. lia. }
    destruct (nth_error parts 2) eqn:E2.
    + split; [discriminate|]. intros [H | H]; [contradiction|].
      assert (nth_error parts 2 <> None) as Hs by congruence.
      apply nth_error_Some in Hs. lia.
    + split; auto. intros _. right. apply nth_error_None in E2. lia.
  - split; auto. intros _. left.
    apply traverse_None in E as (r & Hr & Hn). apply In_range8 in Hr.
    destruct (nth_error rows (Z.to_nat r)) eqn:En; try discriminate.
    apply nth_error_None in En. lia.
Qed.

(** ** En passant *)

Lemma getSq_Some_row b r c p :
  getSq b r c = Some p -> hasRow b r = true /\ 0 <= c.
Proof.
  unfold getSq, getRow, hasRow.
  destruct (Z.ltb_spec r 0); try discriminate.
  destruct (nth_error b (Z.to_nat r)) eqn:E; try discriminate.
  destruct (Z.ltb_spec c 0); try discriminate.
  intros _. assert (nth_error b (Z.to_nat r) <> None) as Hs by congruence.
  apply nth_error_Some in Hs. split; lia.
Qed.

Lemma epSquare_Some s ep :
  enPassant s = Some ep -> ep <> EmptyString ->
  epSquare s = Some (sqToRC ep).
Proof.
  unfold epSquare, epSquareOf, truthyStr. intros -> Hne.
  destruct (String.eqb_spec ep ""); [contradiction | reflexivity].
Qed.

Lemma isType_eq p t : type p = t -> knownType t = true -> isType p t = true.
Proof. unfold isType. intros ->. now destruct t. Qed.

Ltac eqb_cases :=
  repeat match goal with
         | |- context [Z.eqb ?a ?b] => destruct (Z.eqb_spec a b)
         | |- context [Z.leb ?a ?b] => destruct (Z.leb_spec a b)
         | H : context [Z.eqb ?a ?b] |- _ => destruct (Z.eqb_spec a b)
         end.



(** ** Castling *)

Lemma validState_turn s :
  validState s = true -> turn s = "w"%string \/ turn s = "b"%string.
Proof.
  unfold validState. rewrite !andb_true_iff, orb_true_iff, !String.eqb_eq.
  tauto.
Qed.

Lemma validState_rows s :
  validState s = true -> List.length (board s) = 8%nat.
Proof.
  unfold validState, validBoard.
  rewrite !andb_true_iff, Nat.eqb_eq. tauto.
Qed.

Lemma In_two_ifs {A} (b1 b2 : bool) (m1 m2 m : A) :
  In m ((if b1 then [m1] else []) ++ (if b2 then [m2] else [])) <->
  (b1 = true /\ m = m1) \/ (b2 = true /\ m = m2).
Proof.
  rewrite in_app_iff. destruct b1, b2; simpl; intuition congruence.
Qed.

Lemma castlingMoves_In s r c kingside :
  turn s = "w"%string \/ turn s = "b"%string ->
  In (castleMove s r c kingside) (castlingMoves s r c) <->
  castleAllowed s kingside = true.
Proof.
  unfold castlingMoves, castleMove, castleAllowed, castlingRight,
    sideToMove, homeRank, betweenFiles, rookFile, kingPath.
  intros [-> | ->].
  - change (String.eqb "w" "w") with true. cbv iota. rewrite In_two_ifs.
    destruct kingside; cbn [forallb]; rewrite ?andb_true_r, ?andb_assoc.
    + split; [intros [[H _] | [_ E]]; [exact H | discriminate E]|].
      intros H. left. split; [exact H | reflexivity].
    + split; [intros [[_ E] | [H _]]; [discriminate E | exact H]|].
      intros H. right. split; [exact H | reflexivity].
  - change (String.eqb "b" "w") with false. cbv iota. rewrite In_two_ifs.
    destruct kingside; cbn [forallb]; rewrite ?andb_true_r, ?andb_assoc.
    + split; [intros [[H _] | [_ E]]; [exact H | discriminate E]|].
      intros H. left. split; [exact H | reflexivity].
    + split; [intros [[_ E] | [H _]]; [discriminate E | exact H]|].
      intros H. right. split; [exact H | reflexivity].
Qed.

Lemma kingStep_not_castle s r c m :
  In m (offsetMoves s r c kingSteps) -> Z.abs (toC m - fromC m) <= 1.
Proof.
  rewrite offsetMoves_In. intros (d & Hd & -> & _). simpl.
  unfold kingSteps in Hd. simpl in Hd.
  intuition subst; simpl; lia.
Qed.

Lemma isPiece_Some sq c t :
  knownType t = true -> isPiece sq c t = true ->
  exists p, sq = Some p /\ color p = c /\ type p = t.
Proof.
  unfold isPiece. destruct sq as [[pc pt]|]; try discriminate.
  simpl. rewrite andb_true_iff. intros Hk [Hc Ht]. exists (mkPiece pc pt).
  destruct pc, c, pt, t; try discriminate; auto.
Qed.

Lemma colorIs_sideToMove s :
  turn s = "w"%string \/ turn s = "b"%string ->
  colorIs (sideToMove s) (turn s) = true.
Proof. unfold colorIs, sideToMove. now intros [-> | ->]. Qed.

Lemma kingMoves_In s r c p m :
  inBounds r c = true ->
  getSq (board s) r c = Some p -> type p = King ->
  colorIs (color p) (turn s) = true ->
  In m (castlingMoves s r c) -> In m (generatePseudoLegalMoves s).
Proof.
  intros Hb Hp Ht Hc Hin. apply pseudo_In.
  destruct (castlingMoves_ok _ _ _ _ Hin) as (-> & -> & _).
  split; auto. unfold pieceMoves. rewrite Hp, Hc, Ht. simpl negb. cbv iota.
  apply in_or_app. now right.
Qed.


(** ** Check *)

Lemma findKing_only b t r c : onlyKingAt b t r c -> findKing b t = (r, c).
Proof.
  intros (Hb & Hk & Huniq). unfold findKing.
  destruct (find _ allSquares) as [[r' c']|] eqn:E.
  - apply find_some in E as [Hin Hp]. simpl in Hp.
    apply In_allSquares in Hin. auto.
  - exfalso. apply In_allSquares in Hb.
    pose proof (find_none _ _ E _ Hb) as Hn. simpl in Hn. congruence.
Qed.

Lemma isInCheck_only b t r c :
  onlyKingAt b t r c -> isInCheck b t = isAttackedBy b r c (enemyOf t).
Proof.
  intros H. unfold isInCheck. now rewrite (findKing_only _ _ _ _ H).
Qed.

Lemma Forall2_In_r {A B} (P : A -> B -> Prop) l l' y :
  Forall2 P l l' -> In y l' -> exists x, In x l /\ P x y.
Proof.
  induction 1 as [|x z l l' Hxz _ IH]; simpl; [contradiction|].
  intros [<- | Hy]; eauto. destruct (IH Hy) as (x' & ? & ?). eauto.
Qed.

Lemma Forall2_In_l {A B} (P : A -> B -> Prop) l l' x :
  Forall2 P l l' -> In x l -> exists y, In y l' /\ P x y.
Proof.
  induction 1 as [|z y l l' Hzy _ IH]; simpl; [contradiction|].
  intros [<- | Hx]; eauto. destruct (IH Hx) as (y' & ? & ?). eauto.
Qed.

(** Every returned record stands for a move of [legalList], and
    [makeMove] rebuilds that move from it. *)
Lemma getLegalMoves_In fuel s lms lm :
  List.length (board s) = 8%nat ->
  getLegalMoves fuel s = Ret lms -> In lm lms ->
  In (rawOfLegal lm) (legalList s) /\ describes s (rawOfLegal lm) lm.
Proof.
  intros H8 Hret Hin.
  destruct (Forall2_In_r _ _ _ _ (getLegalMoves_Ret _ _ _ H8 Hret) Hin)
    as (m & Hm & Hd).
  assert (rawOfLegal lm = m) as ->; auto.
  apply legalList_In in Hm as (Hp & _).
  apply pseudo_ok in Hp as (Hf & Ht & _).
  eapply rawOfLegal_describes; eauto.
Qed.


(** ** Status *)

Lemma filter_split_length {A} (f g : A -> bool) l :
  List.length (filter f l) =
  (List.length (filter (fun x => g x && f x) l)
   + List.length (filter (fun x => negb (g x) && f x) l))%nat.
Proof.
  induction l as [|x l IH]; simpl; auto.
  destruct (f x), (g x); simpl; lia.
Qed.

Lemma find_filter {A} (f : A -> bool) l :
  find f l = match filter f l with x :: _ => Some x | [] => None end.
Proof.
  induction l as [|x l IH]; simpl; auto. destruct (f x); auto.
Qed.

Lemma color_eqb_Black c : color_eqb c Black = negb (color_eqb c White).
Proof. now destruct c. Qed.

(** With one king per side, three pieces leave exactly one that is not
    a king. *)
Lemma oneKingEach_nonKings b :
  oneKingEach b = true -> List.length (piecesOf b) = 3%nat ->
  exists p, nonKings b = [p].
Proof.
  unfold oneKingEach, countPieces, nonKings.
  rewrite andb_true_iff, !Nat.eqb_eq. intros [Hw Hb] H3.
  pose proof (filter_split_length (fun p => isType p King)
                (fun p => color_eqb (color p) White) (piecesOf b)) as Hk.
  pose proof (filter_split_length (fun _ => true)
                (fun p => isType p King) (piecesOf b)) as Hall.
  cbv beta in Hk, Hall. rewrite Hw in Hk.
  erewrite (filter_ext (fun x => negb (color_eqb (color x) White)
                                 && isType x King)) in Hk
    by (intros; now rewrite <- color_eqb_Black).
  rewrite Hb in Hk.
  erewrite (filter_ext (fun x => isType x King && true)) in Hall
    by (intros; apply andb_true_r).
  erewrite (filter_ext (fun x => negb (isType x King) && true)) in Hall
    by (intros; apply andb_true_r).
  rewrite Hk in Hall.
  assert (filter (fun _ : Piece => true) (piecesOf b) = piecesOf b) as Hid.
  { clear. induction (piecesOf b); simpl; congruence. }
  rewrite Hid, H3 in Hall.
  destruct (filter (fun p => negb (isType p King)) (piecesOf b))
    as [|p [|q rest]]; simpl in Hall; try lia. eauto.
Qed.

Lemma statusOf_spec s moves :
  oneKingEach (board s) = true ->
  List.length moves = List.length (legalList s) ->
  turn s = "w"%string \/ turn s = "b"%string ->
  statusOf s moves = statusSpec s.
Proof.
  intros Hk Hlen Ht. unfold statusOf, statusSpec, clockAtLeast,
    insufficientMaterial. rewrite Hlen.
  destruct (Nat.eqb (List.length (legalList s)) 0).
  { destruct (isInCheck _ _); auto. unfold enemyOf.
    destruct Ht as [-> | ->]; reflexivity. }
  destruct (halfmoveClock s) as [|z]; [|destruct (100 <=? z); auto];
    (destruct (Nat.eqb_spec (List.length (piecesOf (board s))) 2) as [E2|E2];
     [reflexivity|]; simpl orb;
     destruct (Nat.eqb_spec (List.length (piecesOf (board s))) 3) as [E3|E3];
     [|reflexivity]; simpl andb;
     destruct (oneKingEach_nonKings _ Hk E3) as (p & Hp);
     rewrite find_filter; fold (nonKings (board s)); rewrite Hp;
     reflexivity).
Qed.

Lemma getGameStatus_cases fuel s :
  validState s = true -> oneKingEach (board s) = true ->
  getGameStatus fuel s = Ret (statusSpec s)
  \/ getGameStatus fuel s = OutOfFuel.
Proof.
  intros Hv Hk. pose proof (validState_rows _ Hv) as H8.
  unfold getGameStatus.
  destruct (getLegalMoves fuel s) as [lms| |] eqn:E; simpl; auto.
  - left. f_equal. apply statusOf_spec; auto using validState_turn.
    eapply getLegalMoves_length; eauto.
  - exfalso. eapply getLegalMoves_not_Throw; eauto.
Qed.


(** ** No move is generated twice *)

Lemma NoDup_flat_map {A B} (f : A -> list B) l :
  NoDup l ->
  (forall x, In x l -> NoDup (f x)) ->
  (forall x y z, In x l -> In y l -> In z (f x) -> In z (f y) -> x = y) ->
  NoDup (flat_map f l).
Proof.
  induction 1 as [|x l Hx Hl IH]; simpl; intros Hf Hdisj; [constructor|].
  apply NoDup_app.
  - apply Hf. now left.
  - apply IH; [intros; apply Hf; now right|].
    intros a b z Ha Hb. apply Hdisj; now right.
  - intros z Hz Hz'. apply in_flat_map in Hz' as (y & Hy & Hzy).
    assert (x = y)
      by (apply (Hdisj x y z); [now left | now right | assumption..]).
    subst. contradiction.
Qed.

Lemma NoDup_map_inj {A B} (f : A -> B) l :
  (forall x y, In x l -> In y l -> f x = f y -> x = y) ->
  NoDup l -> NoDup (map f l).
Proof.
  intros Hinj. induction 1 as [|x l Hx Hl IH]; simpl; constructor.
  - intros Hin. apply in_map_iff in Hin as (y & E & Hy).
    assert (y = x) by (apply Hinj; [now right | now left | assumption]).
    subst. contradiction.
  - apply IH. intros a b Ha Hb. apply Hinj; now right.
Qed.

Lemma NoDup_map_inv {A B} (f : A -> B) l x y :
  NoDup (map f l) -> In x l -> In y l -> f x = f y -> x = y.
Proof.
  induction l as [|a l IH]; simpl; [contradiction|].
  intros Hnd. inversion Hnd as [|? ? Hn Hnd']; subst.
  intros [-> | Hx] [-> | Hy] E; auto.
  - exfalso. apply Hn. rewrite E. now apply in_map.
  - exfalso. apply Hn. rewrite <- E. now apply in_map.
Qed.

Lemma NoDup_range8 : NoDup range8.
Proof.
  unfold range8. repeat constructor; simpl; intuition discriminate.
Qed.

Lemma NoDup_allSquares : NoDup allSquares.
Proof.
  unfold allSquares. apply NoDup_flat_map.
  - apply NoDup_range8.
  - intros r _. apply NoDup_map_inj; [|apply NoDup_range8].
    intros c c' _ _ [= ->]. reflexivity.
  - intros r r' [a b] _ _ H H'.
    apply in_map_iff in H as (c & [= <- <-] & _).
    apply in_map_iff in H' as (c' & [= <- _] & _). reflexivity.
Qed.

Lemma NoDup_offsetMoves s r c offsets :
  NoDup offsets -> NoDup (offsetMoves s r c offsets).
Proof.
  intros Hnd. unfold offsetMoves. apply NoDup_flat_map; auto.
  - intros d _. destruct (_ && _); repeat constructor. intros [].
  - intros [a b] [a' b'] m _ _ H H'. simpl in H, H'.
    destruct (_ && _) in H; [|contradiction]. destruct H as [<- | []].
    destruct (_ && _) in H'; [|contradiction]. destruct H' as [H' | []].
    injection H' as. f_equal; lia.
Qed.

Lemma NoDup_rayMoves fuel s r c nr nc dr dc :
  (dr, dc) <> (0, 0) -> NoDup (rayMoves fuel s r c nr nc dr dc).
Proof.
  intros Hd. revert nr nc; induction fuel as [|f IH]; intros nr nc; simpl;
    [constructor|].
  destruct (inBounds nr nc); [|constructor].
  destruct (getSq (board s) nr nc).
  - destruct (negb _); repeat constructor. intros [].
  - constructor; auto. intros Hin.
    apply rayMoves_In in Hin as (k & Hk & [= E1 E2] & _).
    apply Hd. f_equal; nia.
Qed.

Lemma NoDup_slideMoves s r c dirs :
  NoDup dirs -> (forall d, In d dirs -> unitDir d) ->
  NoDup (slideMoves s r c dirs).
Proof.
  intros Hnd Hu. unfold slideMoves. apply NoDup_flat_map; auto.
  - intros [dr dc] Hd. apply NoDup_rayMoves. apply (Hu _ Hd).
  - intros [a b] [a' b'] m Hd Hd' H H'. cbn [fst snd] in H, H'.
    apply rayMoves_In in H as (k & Hk & -> & _).
    apply rayMoves_In in H' as (k' & Hk' & [= E1 E2] & _).
    destruct (Hu _ Hd) as (Ha & Hb & _), (Hu _ Hd') as (Ha' & Hb' & _).
    simpl in *.
    assert (a = -1 \/ a = 0 \/ a = 1) as Ea by lia.
    assert (b = -1 \/ b = 0 \/ b = 1) as Eb by lia.
    assert (a' = -1 \/ a' = 0 \/ a' = 1) as Ea' by lia.
    assert (b' = -1 \/ b' = 0 \/ b' = 1) as Eb' by lia.
    destruct Ea as [-> | [-> | ->]], Ea' as [-> | [-> | ->]],
        Eb as [-> | [-> | ->]], Eb' as [-> | [-> | ->]];
      try reflexivity; exfalso; lia.
Qed.

Lemma NoDup_pawnArrive t r c tr tc : NoDup (pawnArrive t r c tr tc).
Proof.
  unfold pawnArrive. destruct (_ =? _).
  - apply NoDup_map_inj; [now intros x y _ _ [= ->]|].
    unfold promoKinds. repeat constructor; simpl; intuition discriminate.
  - repeat constructor. intros [].
Qed.

Lemma NoDup_pawnForward s r c : NoDup (pawnForward s r c).
Proof.
  unfold pawnForward. destruct (_ && _); [|constructor].
  apply NoDup_app; [apply NoDup_pawnArrive| |].
  - destruct (_ && _); repeat constructor. intros [].
  - intros m Hm Hm'. apply pawnArrive_to in Hm as [Hm _].
    destruct (_ && _); [|contradiction]. destruct Hm' as [<- | []].
    cbn [toR] in Hm. destruct (pawnDirOf_cases (turn s)); lia.
Qed.

Lemma NoDup_pawnCapture s r c dc : NoDup (pawnCapture s r c dc).
Proof.
  unfold pawnCapture. destruct (negb _); [constructor|].
  destruct (enemyPiece _ _); [apply NoDup_pawnArrive|].
  destruct (epSquare s) as [[er ec]|]; [|constructor].
  destruct (_ && _); repeat constructor. intros [].
Qed.

Lemma pawnForward_toC s r c m : In m (pawnForward s r c) -> toC m = c.
Proof.
  intros H. apply pawnForward_In in H as (_ & [H | (_ & ->)]); auto.
  now apply pawnArrive_to in H.
Qed.

Lemma pawnCapture_toC s r c dc m :
  In m (pawnCapture s r c dc) -> toC m = c + dc.
Proof.
  intros H. apply pawnCapture_In in H as (_ & [H | ->]); auto.
  now apply pawnArrive_to in H.
Qed.

Lemma NoDup_pawnMoves s r c : NoDup (pawnMoves s r c).
Proof.
  unfold pawnMoves. apply NoDup_app; [apply NoDup_pawnForward| |].
  - apply NoDup_flat_map.
    + repeat constructor; simpl; intuition discriminate.
    + intros; apply NoDup_pawnCapture.
    + intros x y m _ _ Hx Hy. apply pawnCapture_toC in Hx, Hy. lia.
  - intros m Hm Hm'. apply pawnForward_toC in Hm.
    apply in_flat_map in Hm' as (dc & Hdc & Hm').
    apply pawnCapture_toC in Hm'. simpl in Hdc. lia.
Qed.

Lemma NoDup_castlingMoves s r c : NoDup (castlingMoves s r c).
Proof.
  unfold castlingMoves.
  destruct (String.eqb _ _);
    (apply NoDup_app;
     [destruct (_ && _); repeat constructor; intros []
     |destruct (_ && _); repeat constructor; intros []
     |intros m Hm Hm';
      (destruct (_ && _) in Hm; [|contradiction]);
      (destruct (_ && _) in Hm'; [|contradiction]);
      destruct Hm as [<- | []]; destruct Hm' as [[=] | []]]).
Qed.

Lemma castlingMoves_nonempty s r c m :
  In m (castlingMoves s r c) ->
  (castlingRight s true = true \/ castlingRight s false = true)
  /\ toR m = homeRank s /\ (toC m = 6 \/ toC m = 2).
Proof.
  unfold castlingMoves, castlingRight, sideToMove, homeRank.
  destruct (String.eqb _ _); intros Hin;
    apply in_app_or in Hin as [Hin | Hin];
    (destruct (_ && _) eqn:E in Hin; [|contradiction]);
    destruct Hin as [<- | []]; rewrite !andb_true_iff in E; simpl; tauto.
Qed.

Lemma rightsConsistent_king s r c p :
  rightsConsistent s = true ->
  castlingRight s true = true \/ castlingRight s false = true ->
  inBounds r c = true ->
  getSq (board s) r c = Some p -> type p = King ->
  colorIs (color p) (turn s) = true ->
  turn s = "w"%string \/ turn s = "b"%string ->
  c = 4.
Proof.
  unfold rightsConsistent. intros H Hr Hb Hp Hty Hc Ht.
  apply orb_true_iff in H as [H | H].
  - apply negb_true_iff, orb_false_iff in H. intuition congruence.
  - rewrite forallb_forall in H.
    specialize (H (r, c) (proj2 (In_allSquares r c) Hb)). simpl in H.
    rewrite Hp in H. unfold isPiece in H. rewrite Hty in H.
    assert (color_eqb (color p) (sideToMove s) = true) as Hcol.
    { revert Hc. unfold colorIs, sideToMove.
      destruct Ht as [-> | ->], (color p); simpl; auto. }
    rewrite Hcol in H. simpl in H. lia.
Qed.

Lemma NoDup_pieceMoves s r c :
  validState s = true -> rightsConsistent s = true ->
  inBounds r c = true -> NoDup (pieceMoves s r c).
Proof.
  intros Hv Hcons Hb. pose proof (validState_turn _ Hv) as Ht.
  unfold pieceMoves. destruct (getSq (board s) r c) as [p|] eqn:Hp;
    [|constructor].
  destruct (colorIs (color p) (turn s)) eqn:Hc; simpl negb; cbv iota;
    [|constructor].
  assert (Hunit : forall d, In d (bishopDirs ++ rookDirs) -> unitDir d).
  { intros d Hd. unfold unitDir. simpl in Hd.
    intuition (subst; simpl; try lia; discriminate). }
  destruct (type p) eqn:Hty.
  - apply NoDup_pawnMoves.
  - apply NoDup_offsetMoves.
    unfold knightMoves. repeat constructor; simpl; intuition discriminate.
  - apply NoDup_slideMoves.
    + unfold bishopDirs. repeat constructor; simpl; intuition discriminate.
    + intros d Hd. apply Hunit, in_or_app. now left.
  - apply NoDup_slideMoves.
    + unfold rookDirs. repeat constructor; simpl; intuition discriminate.
    + intros d Hd. apply Hunit, in_or_app. now right.
  - apply NoDup_slideMoves; auto.
    unfold bishopDirs, rookDirs. repeat constructor; simpl;
      intuition discriminate.
  - apply NoDup_app.
    + apply NoDup_offsetMoves.
      unfold kingSteps. repeat constructor; simpl; intuition discriminate.
    + apply NoDup_castlingMoves.
    + intros m Hm Hm'. pose proof (kingStep_not_castle _ _ _ _ Hm) as Hstep.
      apply offsetMoves_ok in Hm as (_ & Hfc & _).
      apply castlingMoves_nonempty in Hm' as (Hr & _ & Hto).
      pose proof (rightsConsistent_king _ _ _ _ Hcons Hr Hb Hp Hty Hc Ht).
      lia.
  - constructor.
Qed.

Lemma NoDup_pseudo s :
  validState s = true -> rightsConsistent s = true ->
  NoDup (generatePseudoLegalMoves s).
Proof.
  intros Hv Hcons. unfold generatePseudoLegalMoves. apply NoDup_flat_map.
  - apply NoDup_allSquares.
  - intros [r c] Hin. apply NoDup_pieceMoves; auto.
    now apply In_allSquares.
  - intros [r c] [r' c'] m Hin Hin' Hm Hm'. simpl in Hm, Hm'.
    apply In_allSquares in Hin, Hin'.
    destruct (pieceMoves_ok _ _ _ _ Hin Hm) as ((<- & <- & _) & _).
    destruct (pieceMoves_ok _ _ _ _ Hin' Hm') as ((<- & <- & _) & _).
    reflexivity.
Qed.

Lemma NoDup_legalList s :
  validState s = true -> rightsConsistent s = true -> NoDup (legalList s).
Proof. intros. apply NoDup_filter. now apply NoDup_pseudo. Qed.

(** ** Coordinate strings of the legal moves *)

Lemma describes_uci s l lms :
  Forall2 (describes s) l lms -> map lm_uci lms = map uciOf l.
Proof.
  induction 1 as [|m lm l lms (_ & _ & E & _) _ IH]; simpl; congruence.
Qed.

Lemma legalList_ok s m :
  In m (legalList s) ->
  inBounds (fromR m) (fromC m) = true /\ inBounds (toR m) (toC m) = true
  /\ promoOK m.
Proof.
  intros H. apply legalList_In in H as (H & _).
  apply pseudo_ok in H. tauto.
Qed.

Lemma NoDup_uci s :
  validState s = true -> rightsConsistent s = true ->
  NoDup (map uciOf (legalList s)).
Proof.
  intros Hv Hc. apply NoDup_map_inj; [|now apply NoDup_legalList].
  intros m m' Hm Hm'.
  apply legalList_ok in Hm as (? & ? & ?), Hm' as (? & ? & ?).
  now apply uciOf_inj.
Qed.

Lemma uciOf_fifth m p :
  inBounds (fromR m) (fromC m) = true -> inBounds (toR m) (toC m) = true ->
  promotion m = Some p ->
  String.get 4 (uciOf m) = Some (typeChar p).
Proof.
  intros Hf Ht Hp. unfold uciOf. rewrite Hp.
  destruct (rcToSq_inBounds _ _ Hf) as (a & b & -> & _).
  destruct (rcToSq_inBounds _ _ Ht) as (c & d & -> & _).
  reflexivity.
Qed.

Lemma makeMove_found fuel s uci s' lm lms :
  getLegalMoves fuel s = Ret lms ->
  makeMove fuel s uci = Ret (Some (s', lm)) ->
  In lm lms /\ lm_uci lm = uci.
Proof.
  unfold makeMove. intros ->. simpl.
  destruct (find _ lms) as [mv|] eqn:E; try discriminate.
  apply find_some in E as [Hin Hu]. apply String.eqb_eq in Hu.
  destruct (sqToRC (lm_from mv)), (sqToRC (lm_to mv)).
  destruct (applyRawMove s _); try discriminate.
  intros [= <- <-]. auto.
Qed.


(** ** Transitions keep states structurally valid *)

Lemma In_updNth {A} (l : list A) n f x :
  In x (updNth l n f) -> In x l \/ exists y, In y l /\ x = f y.
Proof.
  revert n; induction l as [|a l IH]; intros [|n]; simpl; auto.
  - intros [<- | H]; eauto.
  - intros [<- | H]; auto. destruct (IH _ H) as [? | (y & ? & ?)]; eauto.
Qed.

Lemma In_setNth_in {A} (l : list A) n v pad x :
  (n < List.length l)%nat -> In x (setNth l n v pad) -> x = v \/ In x l.
Proof.
  revert n; induction l as [|a l IH]; intros [|n]; simpl; try lia.
  - intros _ [<- | H]; auto.
  - intros Hn [<- | H]; auto. destruct (IH n ltac:(lia) H); auto.
Qed.

Lemma validBoard_iff b :
  validBoard b = true <->
  List.length b = 8%nat
  /\ forall row, In row b ->
       List.length row = 8%nat
       /\ forall sq, In sq row -> knownSquare sq = true.
Proof.
  unfold validBoard, validRow.
  rewrite andb_true_iff, Nat.eqb_eq, forallb_forall.
  split; intros [H8 H]; split; auto; intros row Hr; specialize (H _ Hr).
  - rewrite andb_true_iff, Nat.eqb_eq, forallb_forall in H. exact H.
  - rewrite andb_true_iff, Nat.eqb_eq, forallb_forall. exact H.
Qed.

Lemma validBoard_setSq b r c v :
  validBoard b = true -> inBounds r c = true -> knownSquare v = true ->
  validBoard (setSq b r c v) = true.
Proof.
  rewrite !validBoard_iff, inBounds_iff. intros [H8 H] [Hr Hc] Hv.
  unfold setSq. destruct (Z.ltb_spec r 0), (Z.ltb_spec c 0); try lia.
  simpl. rewrite length_updNth. split; auto.
  intros row Hin. apply In_updNth in Hin as [Hin | (y & Hy & ->)]; auto.
  destruct (H _ Hy) as [Hlen Hk].
  rewrite length_setNth_in by lia. split; auto.
  intros sq Hsq. apply In_setNth_in in Hsq as [-> | Hsq]; auto. lia.
Qed.

Lemma validBoard_getSq b r c :
  validBoard b = true -> knownSquare (getSq b r c) = true.
Proof.
  rewrite validBoard_iff. intros [_ H]. unfold getSq, getRow.
  destruct (r <? 0); auto.
  destruct (nth_error b (Z.to_nat r)) as [row|] eqn:Er; auto.
  destruct (c <? 0); auto.
  destruct (nth_error row (Z.to_nat c)) as [sq|] eqn:Ec; auto.
  apply nth_error_In in Er, Ec. apply H in Er as [_ Hk]. auto.
Qed.

Lemma validBoard_moveBoard s piece m :
  validBoard (board s) = true ->
  getSq (board s) (fromR m) (fromC m) = Some piece ->
  inBounds (fromR m) (fromC m) = true -> inBounds (toR m) (toC m) = true ->
  promoOK m ->
  validBoard (moveBoard s piece m) = true.
Proof.
  intros Hv Hp Hf Ht Hpr. unfold moveBoard, moveSquares.
  assert (Hpk : knownSquare (Some piece) = true)
    by (rewrite <- Hp; now apply validBoard_getSq).
  assert (Hfr : forall c, 0 <= c < 8 -> inBounds (fromR m) c = true).
  { intros c Hc. apply inBounds_iff in Hf. apply inBounds_iff. lia. }
  set (b1 := if isType piece Pawn then _ else _).
  assert (Hb1 : validBoard b1 = true).
  { subst b1. destruct (isType piece Pawn); auto.
    destruct (epSquare s) as [[epR epC]|]; auto.
    destruct (Z.eqb_spec (toR m) epR); simpl; auto.
    destruct (Z.eqb_spec (toC m) epC); simpl; auto.
    apply validBoard_setSq; auto. subst. apply Hfr.
    apply inBounds_iff in Ht. lia. }
  set (b2 := setSq b1 _ _ _).
  assert (Hb2 : validBoard b2 = true).
  { subst b2. apply validBoard_setSq; auto.
    destruct Hpr as [-> | (p & -> & Hin)]; auto.
    unfold promoKinds in Hin. simpl in Hin. intuition (subst; auto). }
  set (b3 := setSq b2 _ _ None).
  assert (Hb3 : validBoard b3 = true) by (apply validBoard_setSq; auto).
  destruct (isType piece King); auto.
  assert (Hrook : forall c c',
             0 <= c < 8 -> 0 <= c' < 8 ->
             validBoard
               (setSq (setSq b3 (fromR m) c (getSq b3 (fromR m) c'))
                  (fromR m) c' None) = true).
  { intros c c' Hc Hc'.
    apply validBoard_setSq; [apply validBoard_setSq| |]; auto.
    now apply validBoard_getSq. }
  repeat match goal with
         | |- context [if ?x then _ else _] => destruct x
         end; try exact Hb3; apply Hrook; lia.
Qed.

Lemma validNum_jsIncr n : validNum n = true -> validNum (jsIncr n) = true.
Proof. destruct n; simpl; auto. lia. Qed.

Lemma applyRawMove_valid s m s' :
  validState s = true ->
  inBounds (fromR m) (fromC m) = true -> inBounds (toR m) (toC m) = true ->
  promoOK m ->
  applyRawMove s m = Some s' -> validState s' = true.
Proof.
  intros Hv Hf Hto Hpr. unfold validState in Hv.
  rewrite !andb_true_iff in Hv.
  destruct Hv as ((((Hb & Ht) & He) & Hh) & Hfm).
  unfold applyRawMove.
  destruct (negb (hasRow _ _) || negb (hasRow _ _)); try discriminate.
  destruct (getSq (board s) (fromR m) (fromC m)) as [piece|] eqn:Hp;
    try discriminate.
  intros [= <-]. unfold validState. simpl.
  rewrite !andb_true_iff. repeat split.
  - now apply validBoard_moveBoard.
  - unfold nextTurn. destruct (String.eqb (turn s) "w"); reflexivity.
  - unfold nextEnPassant. destruct (isType piece Pawn); simpl; auto.
    destruct (Z.eqb_spec (Z.abs (toR m - fromR m)) 2); auto.
    apply squareName_rcToSq. apply inBounds_iff in Hf, Hto.
    apply inBounds_iff. split; [|lia].
    split; [apply Z.div_le_lower_bound | apply Z.div_lt_upper_bound]; lia.
  - unfold nextHalfmove. destruct (isType piece Pawn || _);
      [reflexivity | now apply validNum_jsIncr].
  - unfold nextFullmove.
    destruct (String.eqb (turn s) "b"); auto using validNum_jsIncr.
Qed.

Lemma makeMove_valid fuel s uci s' lm :
  validState s = true ->
  makeMove fuel s uci = Ret (Some (s', lm)) -> validState s' = true.
Proof.
  intros Hv Hmk. pose proof (validState_rows _ Hv) as H8.
  pose proof (makeMove_applies _ _ _ _ _ Hmk) as Ha.
  unfold makeMove in Hmk.
  destruct (getLegalMoves fuel s) as [lms| |] eqn:E; try discriminate.
  destruct (makeMove_found fuel s uci s' lm lms E) as [Hin _].
  { unfold makeMove. now rewrite E. }
  destruct (getLegalMoves_In _ _ _ _ H8 E Hin) as [Hm _].
  destruct (legalList_ok _ _ Hm) as (? & ? & ?).
  eapply applyRawMove_valid; eauto.
Qed.


(** ** The codec *)

Lemma splitOn_whole sep a : includes a sep = false -> splitOn sep a = [a].
Proof.
  induction a as [|x a IH]; simpl; auto.
  rewrite orb_false_iff. intros [Hx Ha]. rewrite Hx, IH; auto.
Qed.

Lemma splitOn_app sep a b :
  includes a sep = false ->
  splitOn sep (a ++ String sep b) = a :: splitOn sep b.
Proof.
  induction a as [|x a IH]; simpl.
  - intros _. now rewrite Ascii.eqb_refl.
  - rewrite orb_false_iff. intros [Hx Ha]. rewrite Hx, IH; auto.
Qed.

Lemma splitOn_concat sep rows :
  rows <> [] ->
  (forall r, In r rows -> includes r sep = false) ->
  splitOn sep (String.concat (String sep EmptyString) rows) = rows.
Proof.
  induction rows as [|a rows IH]; [congruence|]. intros _ H.
  destruct rows as [|b rows].
  - simpl. apply splitOn_whole. apply H. now left.
  - change (String.concat (String sep EmptyString) (a :: b :: rows))
      with (a ++ String sep
                   (String.concat (String sep EmptyString) (b :: rows)))%string.
    rewrite splitOn_app by (apply H; now left).
    rewrite IH; [reflexivity | discriminate |].
    intros r Hr. apply H. now right.
Qed.

(** *** Numbers *)

Lemma allChars_app P a b :
  allChars P (a ++ b) = allChars P a && allChars P b.
Proof.
  induction a as [|x a IH]; simpl; auto. now rewrite IH, andb_assoc.
Qed.

Lemma allChars_includes P s ch :
  allChars P s = true -> P ch = false -> includes s ch = false.
Proof.
  induction s as [|a s IH]; simpl; auto.
  rewrite andb_true_iff. intros [Ha Hs] Hch. rewrite IH by auto.
  destruct (Ascii.eqb_spec a ch); subst; auto. congruence.
Qed.

Lemma digitChar_spec n :
  (n < 10)%nat ->
  isDigit (digitChar n) = true
  /\ digitVal 10 (digitChar n) = Some (Z.of_nat n)
  /\ nat_of_ascii (digitChar n) = (48 + n)%nat.
Proof.
  intros H.
  do 10 (destruct n as [|n]; [repeat split; reflexivity|]). lia.
Qed.

Lemma showNatAux_digits fuel n acc :
  allChars isDigit acc = true ->
  allChars isDigit (showNatAux fuel n acc) = true.
Proof.
  revert n acc; induction fuel as [|f IH]; intros n acc Hacc; simpl; auto.
  assert (allChars isDigit (String (digitChar (n mod 10)) acc) = true) as H.
  { cbn [allChars]. rewrite Hacc, andb_true_r.
    apply digitChar_spec. now apply Nat.mod_upper_bound. }
  destruct (n <? 10)%nat; auto.
Qed.

Lemma showNat_digits n : allChars isDigit (showNat n) = true.
Proof. now apply showNatAux_digits. Qed.

Lemma parseDigits_showNatAux fuel n acc :
  (n < fuel)%nat ->
  parseDigits 10 (showNatAux fuel n acc) None =
  parseDigits 10 acc (Some (Z.of_nat n)).
Proof.
  revert n acc; induction fuel as [|f IH]; intros n acc Hn; [lia|].
  cbn [showNatAux]. destruct (Nat.ltb_spec n 10) as [Hlt|Hge].
  - cbn [parseDigits]. rewrite Nat.mod_small by assumption.
    destruct (digitChar_spec n Hlt) as (_ & -> & _). reflexivity.
  - assert (n / 10 < f)%nat as Hq.
    { apply Nat.Div0.div_lt_upper_bound. lia. }
    rewrite IH by assumption. cbn [parseDigits].
    destruct (digitChar_spec (n mod 10)) as (_ & -> & _).
    { now apply Nat.mod_upper_bound. }
    do 2 f_equal. rewrite (Nat.div_mod_eq n 10) at 3. lia.
Qed.

Lemma isDigit_plain ch :
  isDigit ch = true ->
  isWhiteSpace ch = false
  /\ Ascii.eqb ch "-" = false /\ Ascii.eqb ch "+" = false
  /\ Ascii.eqb ch "x" = false /\ Ascii.eqb ch "X" = false
  /\ Ascii.eqb ch " " = false /\ Ascii.eqb ch "/" = false.
Proof.
  destruct ch as [[] [] [] [] [] [] [] []]; vm_compute; intros H;
    try discriminate; repeat split; reflexivity.
Qed.

Lemma parseIntStr_digits s :
  allChars isDigit s = true ->
  parseIntStr s =
  match parseDigits 10 s None with
  | Some v => Num v
  | None => NaN
  end.
Proof.
  unfold parseIntStr. destruct s as [|d rest]; [reflexivity|].
  simpl allChars. rewrite andb_true_iff. intros [Hd Hrest].
  destruct (isDigit_plain _ Hd) as (Hw & Hm & Hp & _).
  simpl dropWhiteSpace. rewrite Hw, Hm, Hp.
  destruct rest as [|x rest']; [reflexivity|].
  simpl in Hrest. apply andb_true_iff in Hrest as [Hx _].
  destruct (isDigit_plain _ Hx) as (_ & _ & _ & Hx1 & Hx2 & _).
  rewrite Hx1, Hx2, andb_false_r. reflexivity.
Qed.

Lemma parseInt_showNum z :
  0 <= z -> parseInt (Some (showNum (Num z))) = Num z.
Proof.
  intros Hz. simpl. destruct (Z.ltb_spec z 0); [lia|].
  rewrite parseIntStr_digits by apply showNat_digits.
  unfold showNat. rewrite parseDigits_showNatAux by lia. simpl.
  now rewrite Z2Nat.id.
Qed.

Lemma showNum_plain n ch :
  validNum n = true -> isDigit ch = false ->
  includes (showNum n) ch = false.
Proof.
  destruct n as [|z]; [discriminate|]. simpl. intros Hz Hch.
  destruct (Z.ltb_spec z 0); [lia|].
  eapply allChars_includes; eauto using showNat_digits.
Qed.

(** *** Ranks *)

Lemma pieceChar_spec p :
  knownType (type p) = true ->
  fenChar (pieceChar p) = true
  /\ isRunDigit (pieceChar p) = false
  /\ pieceOfChar (pieceChar p) = p.
Proof.
  destruct p as [[] []]; try discriminate; intros _; repeat split;
    reflexivity.
Qed.

Lemma flushEmpty_spec e rest :
  (e <= 8)%nat ->
  allChars fenChar (flushEmpty e) = true
  /\ parseRow (flushEmpty e ++ rest) = repeat None e ++ parseRow rest.
Proof.
  intros He.
  do 9 (destruct e as [|e]; [split; reflexivity|]). lia.
Qed.

Lemma repeat_snoc {A} (x : A) n l : repeat x (S n) ++ l = repeat x n ++ x :: l.
Proof. induction n as [|n IH]; simpl in *; congruence. Qed.

Lemma string_app_nil (s : string) : (s ++ "")%string = s.
Proof. induction s as [|a s IH]; simpl; congruence. Qed.

Lemma rowFEN_spec cells e :
  (e + List.length cells <= 8)%nat ->
  forallb knownSquare cells = true ->
  allChars fenChar (rowFEN cells e) = true
  /\ parseRow (rowFEN cells e) = repeat None e ++ cells.
Proof.
  revert e; induction cells as [|[p|] cells IH]; intros e He Hk; simpl.
  - destruct (flushEmpty_spec e EmptyString) as [H1 H2]; [simpl in He; lia|].
    split; auto.
    rewrite string_app_nil in H2. rewrite H2. reflexivity.
  - simpl in He, Hk. apply andb_true_iff in Hk as [Hp Hk].
    destruct (flushEmpty_spec e (String (pieceChar p) (rowFEN cells 0)))
      as [H1 H2]; [lia|].
    destruct (pieceChar_spec p Hp) as (Hc & Hd & Hpc).
    destruct (IH 0%nat) as [H3 H4]; [simpl; lia | auto |].
    split.
    + rewrite allChars_app. simpl. now rewrite H1, Hc, H3.
    + rewrite H2. simpl. rewrite Hd, Hpc, H4. reflexivity.
  - simpl in He, Hk. destruct (IH (S e)) as [H1 H2]; [lia | auto |].
    split; auto. rewrite H2. apply repeat_snoc.
Qed.

Lemma fenChar_plain ch :
  fenChar ch = true ->
  Ascii.eqb ch " " = false /\ Ascii.eqb ch "/" = false.
Proof.
  destruct ch as [[] [] [] [] [] [] [] []]; vm_compute; intros H;
    try discriminate; split; reflexivity.
Qed.

Lemma includes_fenChar s :
  allChars fenChar s = true ->
  includes s " " = false /\ includes s "/" = false.
Proof.
  induction s as [|a s IH]; simpl; auto.
  rewrite andb_true_iff. intros [Ha Hs].
  destruct (fenChar_plain _ Ha) as [-> ->]. auto.
Qed.

(** A valid board read square by square is the board itself. *)
Lemma validRow_read row :
  validRow row = true ->
  map (fun c => match nth_error row (Z.to_nat c) with
                | Some sq => sq
                | None => None
                end) range8 = row.
Proof.
  unfold validRow. rewrite andb_true_iff, Nat.eqb_eq. intros [H _].
  do 9 (destruct row as [|? row]; try discriminate). reflexivity.
Qed.

Lemma getSq_nth b r c row :
  0 <= r -> 0 <= c -> nth_error b (Z.to_nat r) = Some row ->
  getSq b r c = match nth_error row (Z.to_nat c) with
                | Some sq => sq
                | None => None
                end.
Proof.
  intros Hr Hc E. unfold getSq, getRow.
  destruct (Z.ltb_spec r 0); [lia|]. rewrite E.
  destruct (Z.ltb_spec c 0); [lia|]. reflexivity.
Qed.

Lemma validBoard_read b :
  validBoard b = true ->
  map (fun r => map (fun c => getSq b r c) range8) range8 = b.
Proof.
  unfold validBoard. rewrite andb_true_iff, Nat.eqb_eq. intros [H Hr].
  rewrite forallb_forall in Hr.
  assert (Hrow : forall r row,
             0 <= r -> nth_error b (Z.to_nat r) = Some row ->
             map (fun c => getSq b r c) range8 = row).
  { intros r row Hr0 E.
    transitivity (map (fun c => match nth_error row (Z.to_nat c) with
                                | Some sq => sq
                                | None => None
                                end) range8).
    - apply map_ext_in. intros c Hc. apply In_range8 in Hc.
      apply getSq_nth; auto; lia.
    - apply validRow_read. apply Hr. eapply nth_error_In; eauto. }
  do 9 (destruct b as [|? b]; try discriminate).
  unfold range8 at 2. cbn [map].
  rewrite (Hrow 0 l), (Hrow 1 l0), (Hrow 2 l1), (Hrow 3 l2), (Hrow 4 l3),
    (Hrow 5 l4), (Hrow 6 l5), (Hrow 7 l6) by (try lia; reflexivity).
  reflexivity.
Qed.

(** *** The six fields *)

Lemma castleStr_spec cr :
  includes (castleStr cr) " " = false
  /\ mkCastling (includes (castleStr cr) "K") (includes (castleStr cr) "Q")
       (includes (castleStr cr) "k") (includes (castleStr cr) "q") = cr.
Proof. destruct cr as [[] [] [] []]; split; reflexivity. Qed.

Lemma boardChar_spec (s : string) ch :
  0 <= indexOfFrom ch s 0 -> includes s ch = true.
Proof.
  generalize 0 at 2. induction s as [|a s IH]; simpl; intros i; [lia|].
  destruct (Ascii.eqb a ch); simpl; eauto.
Qed.

Lemma includes_fen (s : string) ch :
  allChars fenChar s = true -> includes s ch = true -> fenChar ch = true.
Proof.
  induction s as [|a s IH]; simpl; [discriminate|].
  rewrite andb_true_iff, orb_true_iff. intros [Ha Hs] [E | H]; auto.
  apply Ascii.eqb_eq in E. now subst.
Qed.

Lemma squareName_spec ep :
  squareName ep = true ->
  allChars fenChar ep = true
  /\ String.eqb ep "-" = false /\ truthyStr (Some ep) = true.
Proof.
  destruct ep as [|f [|k [|? ?]]]; try discriminate. unfold squareName.
  rewrite inBounds_iff. intros [Hk Hf].
  split; [|split; [|reflexivity]].
  2:{ cbn [String.eqb]. destruct (Ascii.eqb f "-"); reflexivity. }
  cbn [allChars]. rewrite andb_true_r. apply andb_true_iff. split.
  - apply (includes_fen FILES); [reflexivity|]. apply boardChar_spec. lia.
  - apply (includes_fen RANKS); [reflexivity|]. apply boardChar_spec. lia.
Qed.

Lemma toFEN_fields s :
  toFEN s =
  (boardFEN (board s) ++
   String " " (turn s ++
   String " " (castleStr (castling s) ++
   String " " (match enPassant s with
               | Some ep => if truthyStr (Some ep) then ep else "-"
               | None => "-"
               end ++
   String " " (showNum (halfmoveClock s) ++
   String " " (showNum (fullmoveNumber s)))))))%string.
Proof. reflexivity. Qed.

Lemma boardFEN_rows b :
  validBoard b = true ->
  includes (boardFEN b) " " = false
  /\ map parseRow (splitOn "/" (boardFEN b)) = b.
Proof.
  intros Hv. unfold boardFEN.
  set (rows := map (fun r => rowFEN (map (fun c => getSq b r c) range8) 0)
                 range8).
  assert (Hrow : forall r,
             allChars fenChar
               (rowFEN (map (fun c => getSq b r c) range8) 0) = true
             /\ parseRow (rowFEN (map (fun c => getSq b r c) range8) 0)
                = map (fun c => getSq b r c) range8).
  { intros r. apply (rowFEN_spec _ 0).
    - simpl. lia.
    - apply forallb_forall. intros sq Hin.
      apply in_map_iff in Hin as (c & <- & _). now apply validBoard_getSq. }
  assert (Hall : forall x, In x rows -> allChars fenChar x = true).
  { intros x Hin. apply in_map_iff in Hin as (r & <- & _). apply Hrow. }
  split.
  - assert (forall l, (forall x, In x l -> includes x " " = false) ->
                      includes (String.concat "/" l) " " = false) as Hc.
    { induction l as [|a [|a' l] IH]; intros Hl; auto.
      - simpl. apply Hl. now left.
      - change (String.concat "/" (a :: a' :: l))
          with (a ++ String "/" (String.concat "/" (a' :: l)))%string.
        assert (forall u v, includes (u ++ v) " "
                            = includes u " " || includes v " ") as Happ.
        { induction u as [|x u IHu]; simpl; intros v; auto.
          now rewrite IHu, orb_assoc. }
        rewrite Happ, Hl by (now left). simpl. apply IH.
        intros x Hx. apply Hl. now right. }
    apply Hc. intros x Hx. apply includes_fenChar. auto.
  - rewrite splitOn_concat.
    + transitivity (map (fun r => map (fun c => getSq b r c) range8) range8);
        [|now apply validBoard_read].
      subst rows. rewrite map_map. apply map_ext. intros r. apply Hrow.
    + subst rows. discriminate.
    + intros x Hx. apply includes_fenChar. auto.
Qed.

Lemma traverse_rows (rows : list string) :
  List.length rows = 8%nat ->
  traverse (fun r => option_map parseRow (nth_error rows (Z.to_nat r)))
    range8 = Some (map parseRow rows).
Proof.
  intros H. do 9 (destruct rows as [|? rows]; try discriminate).
  reflexivity.
Qed.

(** Decoding what was encoded gives the state back. *)
Lemma parseFEN_toFEN s : validState s = true -> parseFEN (toFEN s) = Some s.
Proof.
  intros Hv. unfold validState in Hv. rewrite !andb_true_iff in Hv.
  destruct Hv as ((((Hb & Ht) & He) & Hh) & Hf).
  destruct (boardFEN_rows _ Hb) as [Hsp Hrows].
  destruct (castleStr_spec (castling s)) as [Hcs Hcr].
  assert (Hturn : includes (turn s) " " = false).
  { apply orb_true_iff in Ht as [Ht | Ht]; apply String.eqb_eq in Ht;
      now rewrite Ht. }
  set (epStr := match enPassant s with
                | Some ep => if truthyStr (Some ep) then ep else "-"%string
                | None => "-"%string
                end).
  assert (Hep : includes epStr " " = false
                /\ (if String.eqb epStr "-" then None else Some epStr)
                   = enPassant s).
  { subst epStr. destruct (enPassant s) as [ep|]; [|split; reflexivity].
    destruct (squareName_spec _ He) as (Hc & Hd & ->).
    rewrite Hd. split; auto. now apply includes_fenChar. }
  destruct Hep as [Hep1 Hep2].
  assert (Hnum : forall n, validNum n = true ->
                           includes (showNum n) " " = false
                           /\ parseInt (Some (showNum n)) = n).
  { intros [|z] Hz; [discriminate|]. split.
    - now apply showNum_plain.
    - apply parseInt_showNum. simpl in Hz. lia. }
  destruct (Hnum _ Hh) as [Hh1 Hh2], (Hnum _ Hf) as [Hf1 Hf2].
  unfold parseFEN. rewrite toFEN_fields. fold epStr.
  rewrite (splitOn_app " " (boardFEN (board s))) by exact Hsp.
  rewrite (splitOn_app " " (turn s)) by exact Hturn.
  rewrite (splitOn_app " " (castleStr (castling s))) by exact Hcs.
  rewrite (splitOn_app " " epStr) by exact Hep1.
  rewrite (splitOn_app " " (showNum (halfmoveClock s))) by exact Hh1.
  rewrite (splitOn_whole " " (showNum (fullmoveNumber s))) by exact Hf1.
  cbn [nth nth_error].
  rewrite traverse_rows.
  - rewrite Hrows, Hcr, Hep2, Hh2, Hf2. now destruct s.
  - rewrite <- (length_map parseRow), Hrows.
    unfold validBoard in Hb. apply andb_true_iff in Hb as [Hb _].
    now apply Nat.eqb_eq in Hb.
Qed.

(** * The claims *)

Lemma createGame_start : createGame = Some startState.
Proof. vm_compute. reflexivity. Qed.

(** C1, as stated, fails: an encoding whose first rank has seven files, and
    an encoding of three fields only, are both decoded into a state. The
    first state keeps its seven-square rank; the second has no en-passant
    square and [NaN] clocks. *)
Lemma parseFEN_accepts_malformed :
  (decodes8x8 "7/8/8/8/8/8/8/8 w - - 0 1" = false
   /\ parseFEN "7/8/8/8/8/8/8/8 w - - 0 1" =
      Some (mkState
              (repeat None 7 :: repeat emptyRow 7)
              "w" noRights None (Num 0) (Num 1)))
  /\ (fieldCount "8/8/8/8/8/8/8/8 w -" = 3%nat
      /\ parseFEN "8/8/8/8/8/8/8/8 w -" =
         Some (mkState (repeat emptyRow 8) "w" noRights None NaN NaN)).
Proof. vm_compute. repeat split; reflexivity. Qed.

(** C1, amended: [parseFEN] fails, by the [TypeError] of reading an absent
    value, exactly when the piece-placement field has fewer than eight
    ranks or the text has fewer than three fields; in every other case it
    returns a state, whose board has eight rows decoded rank by rank from
    the first eight rank texts as they are. *)
Theorem parseFEN_fails_iff (fen : string) :
  (parseFEN fen = None <->
   (List.length (rankTexts fen) < 8)%nat \/ (fieldCount fen < 3)%nat)
  /\ (forall s, parseFEN fen = Some s ->
        board s = map parseRow (firstn 8 (rankTexts fen))).
Proof.
  split; [apply parseFEN_None|].
  unfold parseFEN, rankTexts, placementField. intros s.
  set (rows := splitOn "/" _).
  destruct (traverse _ range8) as [b|] eqn:E; try discriminate.
  destruct (nth_error _ 2); try discriminate.
  intros [= <-]. simpl. unfold range8 in E. simpl in E.
  destruct rows as [|r0 [|r1 [|r2 [|r3 [|r4 [|r5 [|r6 [|r7 rest]]]]]]]];
    simpl in E; try discriminate.
  now injection E as <-.
Qed.

(** C8: castling rights never grow. A right that is false in [s] is false
    in the state any transition returns from [s], in the state [makeMove]
    returns, and in every state reached from [s] by a sequence of
    transitions. *)
Theorem castling_rights_monotone (s : GameState) :
  (forall m s', applyRawMove s m = Some s' ->
                rightsLe (castling s') (castling s))
  /\ (forall fuel uci s' lm,
        makeMove fuel s uci = Ret (Some (s', lm)) ->
        rightsLe (castling s') (castling s))
  /\ (forall s', playedFrom s s' -> rightsLe (castling s') (castling s)).
Proof.
  split; [|split].
  - intros m s'. apply applyRawMove_rightsLe.
  - intros fuel uci s' lm H. apply makeMove_applies in H.
    eapply applyRawMove_rightsLe; eauto.
  - induction 1 as [|s1 m s2 _ IH Hstep].
    + apply rightsLe_refl.
    + eapply rightsLe_trans; [|exact IH].
      eapply applyRawMove_rightsLe; eauto.
Qed.

(** The king steps from e1 to e2 with both white rights set: both are
    cleared and none is set. *)
Lemma castling_rights_monotone_witness :
  applyRawMove castleReady (mkRaw 7 4 6 4 None)
  = Some (mkState
            (place [(0, 4, mkPiece Black King); (7, 0, mkPiece White Rook);
                    (6, 4, mkPiece White King); (7, 7, mkPiece White Rook)])
            "b" noRights None (Num 1) (Num 1))
  /\ rightsLe noRights (castling castleReady).
Proof.
  split; [vm_compute; reflexivity|].
  apply (proj1 (castling_rights_monotone castleReady) (mkRaw 7 4 6 4 None)
           (mkState
              (place [(0, 4, mkPiece Black King); (7, 0, mkPiece White Rook);
                      (6, 4, mkPiece White King); (7, 7, mkPiece White Rook)])
              "b" noRights None (Num 1) (Num 1))).
  vm_compute. reflexivity.
Defined.

(** C6: a pawn that moves onto the en-passant target square, which is
    empty, removes what stands on the square of its own rank and of the
    file it arrives on; the pawn (or what it promotes to) stands on the
    destination, nothing else changes, and the record built for the move
    reports a captured pawn. *)
Theorem en_passant_capture (s : GameState) (m : RawMove) (piece : Piece)
  (ep : string) :
  List.length (board s) = 8%nat ->
  getSq (board s) (fromR m) (fromC m) = Some piece ->
  type piece = Pawn ->
  enPassant s = Some ep -> ep <> EmptyString ->
  sqToRC ep = (toR m, toC m) ->
  inBounds (toR m) (toC m) = true ->
  toR m <> fromR m ->
  getSq (board s) (toR m) (toC m) = None ->
  exists s',
    applyRawMove s m = Some s'
    /\ getSq (board s') (fromR m) (toC m) = None
    /\ getSq (board s') (toR m) (toC m) =
       Some match promotion m with
            | Some t => mkPiece (color piece) t
            | None => piece
            end
    /\ (forall r c,
          (r, c) <> (fromR m, fromC m) -> (r, c) <> (toR m, toC m) ->
          (r, c) <> (fromR m, toC m) ->
          getSq (board s') r c = getSq (board s) r c)
    /\ (forall rec all i lm,
          toLegalMove rec s all (i, m) = Ret lm ->
          lm_captured lm = Some Pawn).
Proof.
  intros H8 Hpiece Htype Hep Hne Hsq Hto Hrank Hempty.
  destruct (getSq_Some_row _ _ _ _ Hpiece) as [Hrow Hc0].
  pose proof (inBounds_hasRow _ _ _ H8 Hto) as Hrow'.
  apply inBounds_iff in Hto as [Htr Htc].
  pose proof (epSquare_Some _ _ Hep Hne) as Heps. rewrite Hsq in Heps.
  assert (isType piece Pawn = true) as HP by now apply isType_eq.
  assert (isType piece King = false) as HK
      by (unfold isType; now rewrite Htype).
  unfold applyRawMove. rewrite Hrow, Hrow', Hpiece. simpl negb. simpl orb.
  eexists. split; [reflexivity|]. simpl board.
  unfold moveBoard, moveSquares. rewrite HP, HK, Heps, !Z.eqb_refl. simpl andb.
  repeat split.
  - rewrite !getSq_setSq, !hasRow_setSq, Hrow, Hrow'. simpl andb.
    eqb_cases; simpl; try lia; auto.
  - rewrite !getSq_setSq, !hasRow_setSq, Hrow, Hrow'. simpl andb.
    eqb_cases; simpl; try lia; auto.
  - intros r c H1 H2 H3.
    rewrite !getSq_setSq, !hasRow_setSq, Hrow, Hrow'. simpl andb.
    eqb_cases; simpl; try lia; auto; subst; congruence.
  - intros rec all i lm. unfold toLegalMove. simpl snd. rewrite Hpiece.
    destruct (generateSAN _ _ _ _ _); simpl; try discriminate.
    intros [= <-]. simpl. unfold capturedKind.
    now rewrite Hempty, HP, Heps, !Z.eqb_refl.
Qed.

Lemma en_passant_capture_witness :
  exists s',
    applyRawMove epReady (mkRaw 3 4 2 3 None) = Some s'
    /\ getSq (board s') 3 3 = None
    /\ getSq (board s') 2 3 = Some (mkPiece White Pawn)
    /\ (forall r c,
          (r, c) <> (3, 4) -> (r, c) <> (2, 3) -> (r, c) <> (3, 3) ->
          getSq (board s') r c = getSq (board epReady) r c)
    /\ (forall rec all i lm,
          toLegalMove rec epReady all (i, mkRaw 3 4 2 3 None) = Ret lm ->
          lm_captured lm = Some Pawn).
Proof.
  apply (en_passant_capture epReady (mkRaw 3 4 2 3 None)
           (mkPiece White Pawn) "d6");
    try reflexivity; simpl; try discriminate; lia.
Defined.

(** C5: the castling block emits the castling action of a wing exactly when
    (a) the right is set, (b) the squares between king and rook are empty,
    (c) the rook of the side to move is on its home square and (d) none of
    the king's origin, transit and destination squares is attacked. The
    action is then among the pseudo-moves of the king, and with the king on
    its home square it is among the pseudo-moves in no other case; an
    attack on one of the three squares always excludes it. *)
Theorem castling_emitted_iff (s : GameState) (kingside : bool) :
  validState s = true ->
  (forall r c,
      In (castleMove s r c kingside) (castlingMoves s r c) <->
      castleAllowed s kingside = true)
  /\ (forall r c,
        inBounds r c = true ->
        isPiece (getSq (board s) r c) (sideToMove s) King = true ->
        castleAllowed s kingside = true ->
        In (castleMove s r c kingside) (generatePseudoLegalMoves s))
  /\ (isPiece (getSq (board s) (homeRank s) 4) (sideToMove s) King = true ->
      (In (castleMove s (homeRank s) 4 kingside)
          (generatePseudoLegalMoves s) <->
       castleAllowed s kingside = true))
  /\ (forall r c f,
        In f (kingPath kingside) ->
        isAttackedBy (board s) (homeRank s) f (enemyOf (turn s)) = true ->
        ~ In (castleMove s r c kingside) (castlingMoves s r c)).
Proof.
  intros Hv. pose proof (validState_turn _ Hv) as Ht.
  assert (Hblock : forall r c,
             In (castleMove s r c kingside) (castlingMoves s r c) <->
             castleAllowed s kingside = true)
    by (intros; now apply castlingMoves_In).
  assert (Hking : forall r c,
             inBounds r c = true ->
             isPiece (getSq (board s) r c) (sideToMove s) King = true ->
             castleAllowed s kingside = true ->
             In (castleMove s r c kingside) (generatePseudoLegalMoves s)).
  { intros r c Hb Hk Ha.
    apply isPiece_Some in Hk as (p & Hp & Hc & Hty); auto.
    eapply kingMoves_In; eauto.
    - rewrite Hc. now apply colorIs_sideToMove.
    - now apply Hblock. }
  assert (Hhome : inBounds (homeRank s) 4 = true)
    by (unfold homeRank; now destruct (String.eqb _ _)).
  split; [exact Hblock|]. split; [exact Hking|]. split.
  - intros Hk. split; [|now apply Hking].
    intros Hin. apply pseudo_In in Hin as [_ Hin].
    unfold castleMove in Hin at 2 3. simpl fromR in Hin. simpl fromC in Hin.
    apply isPiece_Some in Hk as (p & Hp & Hc & Hty); auto.
    unfold pieceMoves in Hin. rewrite Hp, Hc, Hty in Hin.
    rewrite colorIs_sideToMove in Hin by assumption.
    simpl negb in Hin. cbv iota in Hin.
    apply in_app_or in Hin as [Hin | Hin].
    + apply kingStep_not_castle in Hin. simpl in Hin.
      destruct kingside; lia.
    + now apply Hblock in Hin.
  - intros r c f Hf Hatt Hin. apply Hblock in Hin.
    unfold castleAllowed in Hin. rewrite !andb_true_iff in Hin.
    destruct Hin as (_ & Hsafe). rewrite forallb_forall in Hsafe.
    specialize (Hsafe f Hf). rewrite Hatt in Hsafe. discriminate.
Qed.

Lemma castling_emitted_iff_witness :
  validState castleReady = true
  /\ (In (castleMove castleReady 7 4 true)
         (generatePseudoLegalMoves castleReady) <->
      castleAllowed castleReady true = true).
Proof.
  split; [reflexivity|].
  apply (proj1 (proj2 (proj2 (castling_emitted_iff castleReady true
                                eq_refl)))).
  reflexivity.
Defined.

(** The king may castle on either wing in [castleReady]; a black rook on
    f8 attacks the transit square f1 and leaves only the queenside. *)
Example castleReady_both_wings :
  castleAllowed castleReady true = true
  /\ castleAllowed castleReady false = true.
Proof. split; reflexivity. Qed.

Example castle_through_check_rejected :
  let s := mkState (setSq (board castleReady) 0 5 (Some (mkPiece Black Rook)))
             "w" (castling castleReady) None (Num 0) (Num 1) in
  getSq (board s) 7 5 = None /\ getSq (board s) 7 6 = None
  /\ castleAllowed s true = false
  /\ ~ In (mkRaw 7 4 7 6 None) (generatePseudoLegalMoves s)
  /\ In (mkRaw 7 4 7 2 None) (generatePseudoLegalMoves s).
Proof.
  cbv zeta. repeat split; try reflexivity.
  - vm_compute. intuition discriminate.
  - vm_compute. tauto.
Qed.

(** C2: the legality filter keeps a pseudo-move exactly when the board
    that the transition returns does not have the mover in check, and
    every move of the list that [getLegalMoves] returns, applied as
    [makeMove] applies it, yields a state in which the side that moved is
    not in check: its king, standing on its only square, is not attacked
    by the opponent. *)
Theorem legal_moves_keep_king_safe (s : GameState) :
  validState s = true ->
  legalRaw s = Some (legalList s)
  /\ (forall m,
        In m (generatePseudoLegalMoves s) ->
        (In m (legalList s) <->
         exists next, applyRawMove s m = Some next
                      /\ isInCheck (board next) (turn s) = false))
  /\ (forall fuel lms lm,
        getLegalMoves fuel s = Ret lms -> In lm lms ->
        exists next,
          applyRawMove s (rawOfLegal lm) = Some next
          /\ isInCheck (board next) (turn s) = false
          /\ forall r c,
               onlyKingAt (board next) (turn s) r c ->
               isAttackedBy (board next) r c (enemyOf (turn s)) = false).
Proof.
  intros Hv. pose proof (validState_rows _ Hv) as H8.
  split; [now apply legalRaw_eq|]. split.
  - intros m Hp. rewrite legalList_In. tauto.
  - intros fuel lms lm Hret Hin.
    destruct (getLegalMoves_In _ _ _ _ H8 Hret Hin) as [Hm _].
    apply legalList_In in Hm as (_ & next & Ha & Hc).
    exists next. repeat split; auto.
    intros r c Hk. now rewrite <- (isInCheck_only _ _ _ _ Hk).
Qed.

Lemma legal_moves_keep_king_safe_witness :
  validState startState = true
  /\ exists lms lm,
       getLegalMoves 1 startState = Ret lms /\ In lm lms
       /\ exists next,
            applyRawMove startState (rawOfLegal lm) = Some next
            /\ isInCheck (board next) (turn startState) = false.
Proof.
  split; [reflexivity|].
  assert (exists lms, getLegalMoves 1 startState = Ret lms) as (lms & E)
      by (vm_compute; eauto).
  destruct lms as [|lm rest]; [vm_compute in E; discriminate|].
  exists (lm :: rest), lm. split; [exact E|]. split; [now left|].
  destruct (proj2 (proj2 (legal_moves_keep_king_safe startState eq_refl))
              1%nat _ lm E (or_introl eq_refl)) as (next & Ha & Hc & _).
  eauto.
Defined.

(** From the starting position there are twenty legal moves, and none of
    them needs the recursion of [generateSAN]. *)
Example start_has_twenty_moves :
  List.length (legalList startState) = 20%nat
  /\ exists lms, getLegalMoves 1 startState = Ret lms
                 /\ List.length lms = 20%nat.
Proof.
  split; [vm_compute; reflexivity|].
  eexists. split; vm_compute; reflexivity.
Qed.

(** C3, as stated, fails: with a white king, bishop and knight alone on
    the board (a structurally valid state) there are legal moves, the clock
    is 0 and no piece is the sole non-king piece, yet the status is the
    insufficient-material draw: the source looks at the first non-king
    piece it finds. *)
Lemma status_of_king_bishop_knight :
  validState kingBishopKnight = true
  /\ List.length (piecesOf (board kingBishopKnight)) = 3%nat
  /\ nonKings (board kingBishopKnight)
     = [mkPiece White Bishop; mkPiece White Knight]
  /\ statusSpec kingBishopKnight = playing
  /\ getGameStatus 2 kingBishopKnight = Ret draw_insufficient.
Proof. vm_compute. repeat split; reflexivity. Qed.

(** C3, amended: for every structurally valid state with exactly one king
    per side, [getGameStatus] never raises and the status it returns is
    the one of the decision order: no legal move gives checkmate, won by
    the side not to move, when the side to move is in check, else
    stalemate; otherwise a halfmove clock of at least 100 gives the
    fifty-move draw (at 100, not at 99); otherwise two pieces, or three
    with the sole non-king piece a bishop or knight, give the
    insufficient-material draw; otherwise the game is in progress. It
    returns with enough fuel wherever the chains of mutual checks end. *)
Theorem status_decision_order (s : GameState) :
  validState s = true -> oneKingEach (board s) = true ->
  (forall fuel,
      getGameStatus fuel s = Ret (statusSpec s)
      \/ getGameStatus fuel s = OutOfFuel)
  /\ (checkChainsEnd s ->
      exists n, forall fuel, (n <= fuel)%nat ->
                             getGameStatus fuel s = Ret (statusSpec s))
  /\ (legalList s <> [] -> halfmoveClock s = Num 100 ->
      statusSpec s = draw_50)
  /\ (halfmoveClock s = Num 99 -> statusSpec s <> draw_50).
Proof.
  intros Hv Hk. pose proof (validState_rows _ Hv) as H8.
  split; [intros; now apply getGameStatus_cases|]. split; [|split].
  - intros Hacc.
    destruct (getLegalMoves_total _ H8 Hacc) as (n & lms & Hn).
    exists n. intros fuel Hle.
    destruct (getGameStatus_cases fuel _ Hv Hk) as [H | H]; auto.
    unfold getGameStatus in H. rewrite (Hn _ Hle) in H. discriminate.
  - intros Hne Hc. unfold statusSpec. rewrite Hc.
    destruct (legalList s); [congruence | reflexivity].
  - intros Hc. unfold statusSpec. rewrite Hc.
    destruct (Nat.eqb _ 0).
    + destruct (isInCheck _ _); [|discriminate].
      destruct (enemyOf _); discriminate.
    + simpl. destruct (insufficientMaterial _); discriminate.
Qed.

Lemma bareKings_chains_end : checkChainsEnd bareKings.
Proof.
  constructor. intros s' (m & Hin & Ha & Hc). exfalso.
  vm_compute in Hin.
  repeat (destruct Hin as [<- | Hin];
          [vm_compute in Ha; injection Ha as <-; vm_compute in Hc;
           discriminate|]).
  exact Hin.
Qed.

Lemma status_decision_order_witness :
  validState bareKings = true /\ oneKingEach (board bareKings) = true
  /\ exists n, forall fuel, (n <= fuel)%nat ->
                            getGameStatus fuel bareKings
                            = Ret (statusSpec bareKings).
Proof.
  split; [reflexivity|]. split; [reflexivity|].
  exact (proj1 (proj2 (status_decision_order bareKings eq_refl eq_refl))
           bareKings_chains_end).
Defined.

(** The scenarios of the specification: bare kings, Fool's Mate, and the
    clock at 99 and at 100. *)
Example status_scenarios :
  getGameStatus 1 bareKings = Ret draw_insufficient
  /\ option_map (getGameStatus 1)
       (parseFEN
          "rnb1kbnr/pppp1ppp/8/4p3/6Pq/5P2/PPPPP2P/RNBQKBNR w KQkq - 1 3")
     = Some (Ret checkmate_black)
  /\ getGameStatus 1 startState = Ret playing
  /\ option_map (getGameStatus 2)
       (parseFEN "4k3/8/8/8/8/8/8/R3K3 w - - 99 80") = Some (Ret playing)
  /\ option_map (getGameStatus 2)
       (parseFEN "4k3/8/8/8/8/8/8/R3K3 w - - 100 80") = Some (Ret draw_50).
Proof. vm_compute. repeat split; reflexivity. Qed.

(** C10, as stated, fails: with the white king on g2, the rook on h1 and
    the kingside right still set (a structurally valid state with one king
    per side), the king's step to g1 and the castling block's move to g1
    are both returned, with the same coordinate string. *)
Lemma stray_king_repeats_uci :
  validState strayKing = true /\ oneKingEach (board strayKing) = true
  /\ exists lms a b,
       getLegalMoves 2 strayKing = Ret lms
       /\ nth_error lms 6 = Some a /\ nth_error lms 7 = Some b
       /\ lm_uci a = "g2g1"%string /\ lm_uci b = "g2g1"%string
       /\ ~ NoDup (map lm_uci lms).
Proof.
  split; [reflexivity|]. split; [reflexivity|].
  assert (exists lms, getLegalMoves 2 strayKing = Ret lms) as (lms & E)
      by (vm_compute; eauto).
  pose proof E as E'. vm_compute in E'. injection E' as E'.
  exists lms. subst lms. do 2 eexists.
  split; [exact E|]. split; [reflexivity|]. split; [reflexivity|].
  split; [reflexivity|]. split; [reflexivity|].
  simpl. intros Hnd.
  do 6 (inversion Hnd as [|? ? _ Hnd']; subst; clear Hnd; rename Hnd' into Hnd).
  inversion Hnd as [|? ? Hn _]. apply Hn. now left.
Qed.

(** C10, amended: for every structurally valid state in which the king of
    the side to move stands on its home square as long as that side holds
    a castling right, the coordinate strings of the moves that
    [getLegalMoves] returns are pairwise distinct; a promotion move has five
    characters, the fifth being the lowercase letter of one of the four
    promotion kinds, and any other move has four; so the record that
    [makeMove] applies for a string is the only one with that string, and
    a string of four characters never applies a promotion. *)
Theorem uci_strings_distinct (s : GameState) :
  validState s = true -> rightsConsistent s = true ->
  forall fuel lms,
    getLegalMoves fuel s = Ret lms ->
    NoDup (map lm_uci lms)
    /\ (forall lm,
          In lm lms ->
          match lm_promotion lm with
          | Some p =>
              String.length (lm_uci lm) = 5%nat
              /\ String.get 4 (lm_uci lm) = Some (typeChar p)
              /\ In (typeChar p) ["q"; "r"; "b"; "n"]%char
          | None => String.length (lm_uci lm) = 4%nat
          end)
    /\ (forall uci s' lm,
          makeMove fuel s uci = Ret (Some (s', lm)) ->
          In lm lms /\ lm_uci lm = uci
          /\ (forall lm', In lm' lms -> lm_uci lm' = uci -> lm' = lm)
          /\ (String.length uci = 4%nat -> lm_promotion lm = None)).
Proof.
  intros Hv Hc fuel lms Hret. pose proof (validState_rows _ Hv) as H8.
  pose proof (getLegalMoves_Ret _ _ _ H8 Hret) as Hd.
  assert (Hnd : NoDup (map lm_uci lms)).
  { rewrite (describes_uci _ _ _ Hd). now apply NoDup_uci. }
  assert (Hshape : forall lm,
             In lm lms ->
             match lm_promotion lm with
             | Some p =>
                 String.length (lm_uci lm) = 5%nat
                 /\ String.get 4 (lm_uci lm) = Some (typeChar p)
                 /\ In (typeChar p) ["q"; "r"; "b"; "n"]%char
             | None => String.length (lm_uci lm) = 4%nat
             end).
  { intros lm Hin.
    destruct (Forall2_In_r _ _ _ _ Hd Hin) as (m & Hm & Hdesc).
    destruct (legalList_ok _ _ Hm) as (Hf & Ht & Hp).
    destruct Hdesc as (_ & _ & -> & -> & _).
    pose proof (uciOf_length _ Hf Ht) as Hlen.
    destruct (promotion m) as [p|] eqn:Ep; auto.
    repeat split; auto using uciOf_fifth.
    destruct Hp as [Hp | (q & Eq & Hq)]; [congruence|].
    assert (q = p) by congruence. subst q.
    unfold promoKinds in Hq. simpl in Hq. simpl.
    intuition (subst; auto). }
  split; [exact Hnd|]. split; [exact Hshape|].
  intros uci s' lm Hmk.
  destruct (makeMove_found _ _ _ _ _ _ Hret Hmk) as [Hin Hu].
  repeat split; auto.
  - intros lm' Hin' Hu'. eapply NoDup_map_inv; eauto. congruence.
  - intros Hlen. specialize (Hshape _ Hin). rewrite Hu in Hshape.
    destruct (lm_promotion lm); auto. destruct Hshape as (H5 & _). lia.
Qed.

Lemma uci_strings_distinct_witness :
  validState startState = true /\ rightsConsistent startState = true
  /\ exists lms, getLegalMoves 1 startState = Ret lms
                 /\ NoDup (map lm_uci lms).
Proof.
  split; [reflexivity|]. split; [reflexivity|].
  assert (exists lms, getLegalMoves 1 startState = Ret lms) as (lms & E)
      by (vm_compute; eauto).
  exists lms. split; [exact E|].
  exact (proj1 (uci_strings_distinct startState eq_refl eq_refl 1%nat lms E)).
Defined.

Lemma reachable_valid s : reachable s -> validState s = true.
Proof.
  induction 1 as [|s fuel uci s' lm _ IH Hmk]; [reflexivity|].
  eapply makeMove_valid; eauto.
Qed.

(** C4: decoding the encoding of a state gives the state back, for every
    state reached from the starting position by legal moves (and for every
    structurally valid state); and encoding the decoding of a text gives
    the text back, for every text that is the encoding of such a state. *)
Theorem codec_round_trip :
  (forall s, reachable s -> parseFEN (toFEN s) = Some s)
  /\ (forall s, validState s = true -> parseFEN (toFEN s) = Some s)
  /\ (forall t,
        (exists s, (reachable s \/ validState s = true) /\ t = toFEN s) ->
        option_map toFEN (parseFEN t) = Some t).
Proof.
  split; [|split].
  - intros s Hr. apply parseFEN_toFEN. now apply reachable_valid.
  - apply parseFEN_toFEN.
  - intros t (s & Hs & ->). rewrite parseFEN_toFEN; [reflexivity|].
    destruct Hs; auto using reachable_valid.
Qed.

Lemma codec_round_trip_witness :
  reachable startState
  /\ parseFEN "rnbqkbnr/pppppppp/8/8/8/8/PPPPPPPP/RNBQKBNR w KQkq - 0 1"
     = Some startState
  /\ option_map toFEN
       (parseFEN "rnbqkbnr/pppppppp/8/8/8/8/PPPPPPPP/RNBQKBNR w KQkq - 0 1")
     = Some "rnbqkbnr/pppppppp/8/8/8/8/PPPPPPPP/RNBQKBNR w KQkq - 0 1"%string.
Proof.
  split; [constructor|]. split.
  - exact (proj1 codec_round_trip startState reach_start).
  - apply (proj2 (proj2 codec_round_trip)).
    exists startState. split; [left; constructor | reflexivity].
Defined.

(** The scripted opening of the specification: the notation of each move
    and the encoding after the last one. *)
Example scripted_opening :
  option_map (fun r => (toFEN (fst r), snd r))
    (playAll 2 startState ["e2e4"; "e7e5"; "f1c4"; "b8c6"; "d1h5"]%string)
  = Some ("r1bqkbnr/pppp1ppp/2n5/4p2Q/2B1P3/8/PPPP1PPP/RNB1K1NR b KQkq - 3 3",
          ["e4"; "e5"; "Bc4"; "Nc6"; "Qh5"])%string.
Proof. vm_compute. reflexivity. Qed.

(** * Further properties of the engine *)

(** ** Coordinates *)

Lemma fileChar_at f :
  0 <= indexOfFrom f FILES 0 ->
  charAt FILES (indexOfFrom f FILES 0) = Some f.
Proof.
  destruct f as [[] [] [] [] [] [] [] []]; vm_compute; intros H;
    try reflexivity; exfalso; apply H; reflexivity.
Qed.

Lemma rankChar_at k :
  0 <= indexOfFrom k RANKS 0 ->
  charAt RANKS (indexOfFrom k RANKS 0) = Some k.
Proof.
  destruct k as [[] [] [] [] [] [] [] []]; vm_compute; intros H;
    try reflexivity; exfalso; apply H; reflexivity.
Qed.

(** X1: [rcToSq] and [sqToRC] are inverse to each other between the
    squares of the board and the two-character square names: a square in
    bounds is named by a file letter and a rank digit from which [sqToRC]
    gives the square back, and a square name is read as a square in bounds
    that [rcToSq] names the same. *)
Theorem square_names_round_trip :
  (forall r c,
      inBounds r c = true ->
      squareName (rcToSq r c) = true /\ sqToRC (rcToSq r c) = (r, c))
  /\ (forall sq,
        squareName sq = true ->
        inBounds (fst (sqToRC sq)) (snd (sqToRC sq)) = true
        /\ rcToSq (fst (sqToRC sq)) (snd (sqToRC sq)) = sq).
Proof.
  split.
  - intros r c H. split; [now apply squareName_rcToSq | now apply sqToRC_rcToSq].
  - intros sq H. destruct sq as [|f [|k [|? ?]]]; try discriminate.
    unfold squareName in H. unfold sqToRC.
    change (charAt (String f (String k "")) 1) with (Some k).
    change (charAt (String f (String k "")) 0) with (Some f).
    cbn [indexOf fst snd]. split; [exact H|].
    apply inBounds_iff in H as [Hk Hf].
    unfold rcToSq. rewrite fileChar_at, rankChar_at by lia. reflexivity.
Qed.

Lemma square_names_round_trip_witness :
  inBounds 6 4 = true
  /\ rcToSq 6 4 = "e2"%string /\ sqToRC "e2" = (6, 4)
  /\ squareName "e2" = true.
Proof.
  split; [reflexivity|].
  pose proof (proj1 square_names_round_trip 6 4 eq_refl) as [H1 H2].
  pose proof (proj2 square_names_round_trip "e2"%string eq_refl) as [H3 H4].
  repeat split; auto.
Defined.

(** ** Finding the king *)

Lemma find_first {A} (f : A -> bool) l x :
  find f l = Some x ->
  exists l1 l2, l = l1 ++ x :: l2 /\ forall y, In y l1 -> f y = false.
Proof.
  induction l as [|a l IH]; simpl; [discriminate|].
  destruct (f a) eqn:E.
  - intros [= <-]. exists [], l. split; auto. intros y [].
  - intros H. destruct (IH H) as (l1 & l2 & -> & Hl1).
    exists (a :: l1), l2. split; auto. intros y [<- | Hy]; auto.
Qed.

Lemma lexBefore_sorted l :
  forallb (fun p => lexBefore (fst p) (snd p)) (pairsOf l) = true ->
  forall l1 x l2 y, l = l1 ++ x :: l2 -> In y l2 -> lexBefore x y = true.
Proof.
  induction l as [|a l IH]; intros H l1 x l2 y E Hy.
  - destruct l1; discriminate.
  - simpl in H. rewrite forallb_app, andb_true_iff in H. destruct H as [Ha Hl].
    destruct l1 as [|b l1]; simpl in E; injection E as -> ->.
    + rewrite forallb_forall in Ha. apply (Ha (x, y)).
      apply in_map_iff. exists y. auto.
    + eapply IH; eauto.
Qed.

Lemma allSquares_sorted :
  forallb (fun p => lexBefore (fst p) (snd p)) (pairsOf allSquares) = true.
Proof. vm_compute. reflexivity. Qed.

(** X2: [findKing] returns the first square, rank by rank from rank 8 and
    file by file from the a-file, that holds a king of the given side; it
    returns (-1, -1) exactly when no square of the board holds one. *)
Theorem findKing_first (b : Board) (c : string) :
  List.length b = 8%nat ->
  (findKing b c = (-1, -1) <->
   forall r k, inBounds r k = true -> isKingOf (getSq b r k) c = false)
  /\ (findKing b c <> (-1, -1) ->
      inBounds (fst (findKing b c)) (snd (findKing b c)) = true
      /\ isKingOf (getSq b (fst (findKing b c)) (snd (findKing b c))) c = true
      /\ forall r k,
           inBounds r k = true -> isKingOf (getSq b r k) c = true ->
           (r, k) = findKing b c \/ lexBefore (findKing b c) (r, k) = true).
Proof.
  intros _. unfold findKing.
  destruct (find _ allSquares) as [[kr kc]|] eqn:E.
  - pose proof (find_some _ _ E) as [Hin Hk]. simpl in Hk.
    apply In_allSquares in Hin. split.
    + split.
      * intros [= -> ->]. discriminate.
      * intros H. rewrite (H _ _ Hin) in Hk. discriminate.
    + intros _. simpl. repeat split; auto.
      intros r k Hb Hking.
      destruct (find_first _ _ _ E) as (l1 & l2 & Hl & Hl1).
      assert (In (r, k) allSquares) as Hrk by now apply In_allSquares.
      rewrite Hl in Hrk. apply in_app_or in Hrk as [Hrk | [Hrk | Hrk]].
      * apply Hl1 in Hrk. simpl in Hrk. congruence.
      * left. now symmetry.
      * right. eapply lexBefore_sorted; eauto using allSquares_sorted.
  - split; [|congruence]. split; auto. intros _ r k Hb.
    apply In_allSquares in Hb. apply (find_none _ _ E _ Hb).
Qed.

Lemma findKing_first_witness :
  findKing (board startState) "w" <> (-1, -1)
  /\ inBounds (fst (findKing (board startState) "w"))
       (snd (findKing (board startState) "w")) = true
  /\ isKingOf
       (getSq (board startState) (fst (findKing (board startState) "w"))
          (snd (findKing (board startState) "w"))) "w" = true.
Proof.
  assert (H : findKing (board startState) "w" <> (-1, -1))
    by (vm_compute; discriminate).
  split; [exact H|].
  destruct (proj2 (findKing_first (board startState) "w" eq_refl) H)
    as (H1 & H2 & _).
  split; assumption.
Defined.

(** ** Transitions on generated moves *)

(** X3: on a structurally valid state every pseudo-legal move can be
    applied (the transition does not raise) and the state it yields is
    structurally valid again: eight ranks of eight files holding pieces of
    the six kinds, a side to move, an en-passant field that is empty or
    names a square, and clocks that are natural numbers. The same holds
    for the state that [makeMove] returns. *)
Theorem transitions_keep_validity (s : GameState) :
  validState s = true ->
  (forall m,
      In m (generatePseudoLegalMoves s) ->
      exists s', applyRawMove s m = Some s' /\ validState s' = true)
  /\ (forall fuel uci s' lm,
        makeMove fuel s uci = Ret (Some (s', lm)) -> validState s' = true).
Proof.
  intros Hv. split.
  - intros m Hin. pose proof (validState_rows _ Hv) as H8.
    destruct (applyRawMove s m) as [s'|] eqn:E.
    + exists s'. split; auto.
      apply pseudo_ok in Hin as (Hf & Ht & Hp & _).
      eapply applyRawMove_valid; eauto.
    + exfalso. eapply pseudo_applies; eauto.
  - intros fuel uci s' lm. now apply makeMove_valid.
Qed.

Lemma transitions_keep_validity_witness :
  validState startState = true
  /\ exists s',
       applyRawMove startState (mkRaw 6 4 4 4 None) = Some s'
       /\ validState s' = true.
Proof.
  split; [reflexivity|].
  apply (proj1 (transitions_keep_validity startState eq_refl)).
  vm_compute. tauto.
Defined.

(** ** The attack oracle *)

Lemma color_eqb_eq a b : color_eqb a b = true <-> a = b.
Proof. destruct a, b; simpl; split; congruence. Qed.

Lemma type_eqb_eq a b : type_eqb a b = true <-> a = b.
Proof.
  destruct a, b; simpl; split; try congruence.
  - intros H. apply Ascii.eqb_eq in H. now subst.
  - intros [= ->]. apply Ascii.eqb_refl.
Qed.

Lemma attackerAt_iff b r c by_ t :
  attackerAt b r c by_ t = true <->
  inBounds r c = true
  /\ exists p, getSq b r c = Some p /\ color p = by_ /\ type p = t.
Proof.
  unfold attackerAt, isPiece. rewrite andb_true_iff. split.
  - intros [Hb H]. split; auto. destruct (getSq b r c) as [p|]; [|discriminate].
    apply andb_true_iff in H as [Hc Ht].
    apply color_eqb_eq in Hc. apply type_eqb_eq in Ht. eauto.
  - intros [Hb (p & -> & Hc & Ht)]. split; auto.
    apply andb_true_iff. split; [now apply color_eqb_eq | now apply type_eqb_eq].
Qed.

Lemma existsb_stepAttack b r c by_ offsets t :
  existsb (fun d => attackerAt b (r + fst d) (c + snd d) by_ t) offsets = true
  <-> stepAttack b r c by_ offsets t.
Proof.
  rewrite existsb_exists. unfold stepAttack. split.
  - intros (d & Hd & H). apply attackerAt_iff in H as (Hb & p & Hp & Hc & Ht).
    exists d, p. auto.
  - intros (d & p & Hd & Hb & Hp & Hc & Ht). exists d. split; auto.
    apply attackerAt_iff. eauto.
Qed.

(** The walk, seen from its first square [(nr, nc)]. *)
Lemma rayAttack_iff fuel b nr nc dr dc by_ types :
  rayAttack fuel b nr nc dr dc by_ types = true <->
  exists k p,
    0 <= k < Z.of_nat fuel
    /\ (forall j, 0 <= j <= k -> inBounds (nr + j * dr) (nc + j * dc) = true)
    /\ (forall j, 0 <= j < k -> getSq b (nr + j * dr) (nc + j * dc) = None)
    /\ getSq b (nr + k * dr) (nc + k * dc) = Some p
    /\ color p = by_ /\ In (type p) types.
Proof.
  revert nr nc. induction fuel as [|f IH]; intros nr nc.
  - simpl. split; [discriminate | intros (k & _ & Hk & _); lia].
  - cbn [rayAttack]. destruct (inBounds nr nc) eqn:Hb.
    + destruct (getSq b nr nc) as [q|] eqn:Hq.
      * split.
        -- intros H. apply andb_true_iff in H as [Hc Ht].
           apply color_eqb_eq in Hc. apply existsb_exists in Ht as (t & Ht & E).
           apply type_eqb_eq in E. subst t.
           exists 0, q. rewrite !Z.mul_0_l, !Z.add_0_r.
           split; [lia|]. split.
           { intros j Hj. assert (j = 0) as -> by lia.
             now rewrite !Z.mul_0_l, !Z.add_0_r. }
           split; [intros j Hj; lia|]. auto.
        -- intros (k & p & Hk & Hin & Hemp & Hp & Hc & Ht).
           assert (k = 0) as ->.
           { destruct (Z.eq_dec k 0); auto.
             specialize (Hemp 0 ltac:(lia)).
             rewrite !Z.mul_0_l, !Z.add_0_r in Hemp. congruence. }
           rewrite !Z.mul_0_l, !Z.add_0_r in Hp.
           assert (q = p) as -> by congruence.
           apply andb_true_iff. split; [now apply color_eqb_eq|].
           apply existsb_exists. exists (type p). split; auto.
           now apply type_eqb_eq.
      * rewrite IH. split.
        -- intros (k & p & Hk & Hin & Hemp & Hp & Hc & Ht).
           exists (k + 1), p. split; [lia|].
           assert (forall j, nr + j * dr = nr + dr + (j - 1) * dr) as Er
               by (intros; lia).
           assert (forall j, nc + j * dc = nc + dc + (j - 1) * dc) as Ec
               by (intros; lia).
           repeat split; auto.
           ++ intros j Hj. destruct (Z.eq_dec j 0) as [-> | Hne].
              ** now rewrite !Z.mul_0_l, !Z.add_0_r.
              ** rewrite Er, Ec. apply Hin. lia.
           ++ intros j Hj. destruct (Z.eq_dec j 0) as [-> | Hne].
              ** now rewrite !Z.mul_0_l, !Z.add_0_r.
              ** rewrite Er, Ec. apply Hemp. lia.
           ++ rewrite Er, Ec. now replace (k + 1 - 1) with k by lia.
        -- intros (k & p & Hk & Hin & Hemp & Hp & Hc & Ht).
           assert (k <> 0) as Hk0.
           { intros ->. rewrite !Z.mul_0_l, !Z.add_0_r in Hp. congruence. }
           exists (k - 1), p. split; [lia|].
           assert (forall j, nr + dr + j * dr = nr + (j + 1) * dr) as Er
               by (intros; lia).
           assert (forall j, nc + dc + j * dc = nc + (j + 1) * dc) as Ec
               by (intros; lia).
           repeat split; auto.
           ++ intros j Hj. rewrite Er, Ec. apply Hin. lia.
           ++ intros j Hj. rewrite Er, Ec. apply Hemp. lia.
           ++ rewrite Er, Ec. now replace (k - 1 + 1) with k by lia.
    + split; [discriminate|]. intros (k & p & Hk & Hin & _).
      specialize (Hin 0 ltac:(lia)). rewrite !Z.mul_0_l, !Z.add_0_r in Hin.
      congruence.
Qed.

(** A walk along a compass direction that stays on the board has at most
    eight squares. *)
Lemma walk_bound d r c k :
  unitDir d -> 1 <= k ->
  inBounds (r + fst d) (c + snd d) = true ->
  inBounds (r + k * fst d) (c + k * snd d) = true ->
  k <= 8.
Proof.
  intros (Ha & Hb & Hne) Hk H1 Hk'. destruct d as [a b]. simpl in *.
  apply inBounds_iff in H1, Hk'.
  assert (a <> 0 \/ b <> 0) as [H | H].
  { destruct (Z.eq_dec a 0), (Z.eq_dec b 0); auto.
    subst. exfalso. now apply Hne. }
  - assert (a = 1 \/ a = -1) as [-> | ->] by lia; lia.
  - assert (b = 1 \/ b = -1) as [-> | ->] by lia; lia.
Qed.

Lemma rayAttack_line b r c d by_ types :
  unitDir d ->
  rayAttack 8 b (r + fst d) (c + snd d) (fst d) (snd d) by_ types = true <->
  lineAttack b r c by_ [d] types.
Proof.
  intros Hu. rewrite rayAttack_iff. unfold lineAttack. split.
  - intros (k & p & Hk & Hin & Hemp & Hp & Hc & Ht).
    exists d, (k + 1), p.
    assert (forall j, r + j * fst d = r + fst d + (j - 1) * fst d) as Er
        by (intros; lia).
    assert (forall j, c + j * snd d = c + snd d + (j - 1) * snd d) as Ec
        by (intros; lia).
    split; [now left|]. split; [lia|]. repeat split; auto.
    + intros j Hj. rewrite Er, Ec. apply Hin. lia.
    + intros j Hj. rewrite Er, Ec. apply Hemp. lia.
    + rewrite Er, Ec. now replace (k + 1 - 1) with k by lia.
  - intros (d' & k & p & [<- | []] & Hk & Hin & Hemp & Hp & Hc & Ht).
    assert (k <= 8) as Hk8.
    { apply (walk_bound d r c k); auto.
      - specialize (Hin 1 ltac:(lia)). now rewrite !Z.mul_1_l in Hin.
      - apply Hin. lia. }
    exists (k - 1), p.
    assert (forall j, r + fst d + j * fst d = r + (j + 1) * fst d) as Er
        by (intros; lia).
    assert (forall j, c + snd d + j * snd d = c + (j + 1) * snd d) as Ec
        by (intros; lia).
    split; [simpl; lia|]. repeat split; auto.
    + intros j Hj. rewrite Er, Ec. apply Hin. lia.
    + intros j Hj. rewrite Er, Ec. apply Hemp. lia.
    + rewrite Er, Ec. now replace (k - 1 + 1) with k by lia.
Qed.

Lemma existsb_map {A B} (f : B -> bool) (g : A -> B) l :
  existsb f (map g l) = existsb (fun x => f (g x)) l.
Proof. induction l as [|x l IH]; simpl; congruence. Qed.

Lemma lineAttack_dirs b r c by_ dirs types :
  lineAttack b r c by_ dirs types <->
  exists d, In d dirs /\ lineAttack b r c by_ [d] types.
Proof.
  unfold lineAttack. split.
  - intros (d & k & p & Hd & H). exists d. split; auto.
    exists d, k, p. split; [now left | exact H].
  - intros (d & Hd & d' & k & p & [<- | []] & H). exists d, k, p. auto.
Qed.

Lemma compass_unit d : In d (rookDirs ++ bishopDirs) -> unitDir d.
Proof.
  unfold unitDir. simpl.
  intuition (subst; simpl; try lia; discriminate).
Qed.

Lemma existsb_lineAttack b r c by_ dirs types :
  (forall d, In d dirs -> unitDir d) ->
  existsb (fun d => rayAttack 8 b (r + fst d) (c + snd d) (fst d) (snd d)
                      by_ types) dirs = true
  <-> lineAttack b r c by_ dirs types.
Proof.
  intros Hu. rewrite existsb_exists, lineAttack_dirs. split.
  - intros (d & Hd & H). exists d. split; auto.
    apply rayAttack_line; auto.
  - intros (d & Hd & H). exists d. split; auto.
    apply rayAttack_line; auto.
Qed.

(** Splits the oracle into its four scans and reads each one. *)
Ltac oracle_cases :=
  match goal with
  | |- isAttackedBy ?b ?r ?c ?by_ = true <-> attacked ?b ?r ?c ?by_ =>
      unfold isAttackedBy, attacked, directions;
      rewrite !orb_true_iff, existsb_app, orb_true_iff, !existsb_map;
      replace (existsb
                 (fun dc =>
                    attackerAt b
                      (r + match by_ with White => 1 | Black => -1 end)
                      (c + dc) by_ Pawn) [-1; 1])
        with (existsb
                (fun d => attackerAt b (r + fst d) (c + snd d) by_ Pawn)
                (pawnSources by_))
        by (destruct by_; reflexivity);
      rewrite !existsb_stepAttack;
      rewrite (existsb_lineAttack b r c by_ rookDirs [Rook; Queen])
        by (intros ? ?; apply compass_unit, in_or_app; now left);
      rewrite (existsb_lineAttack b r c by_ bishopDirs [Bishop; Queen])
        by (intros ? ?; apply compass_unit, in_or_app; now right);
      tauto
  end.

(** X4: the attack oracle decides exactly the attacks of the rules. A
    square is attacked by a side when a pawn of that side stands on one of
    the two squares diagonally behind it, a knight a knight's move away, a
    king on an adjacent square, or when the first piece met walking from
    the square along a rank or file is a rook or queen of that side, or
    along a diagonal a bishop or queen; a piece of either side ends the
    walk. *)
Theorem isAttackedBy_iff (b : Board) (r c : Z) (by_ : PieceColor) :
  List.length b = 8%nat ->
  (isAttackedBy b r c by_ = true <-> attacked b r c by_).
Proof. intros _. oracle_cases. Qed.

Lemma isAttackedBy_iff_witness :
  isAttackedBy (board startState) 5 5 White = true
  <-> attacked (board startState) 5 5 White.
Proof. apply isAttackedBy_iff. reflexivity. Defined.

(** ** Sliding moves *)

(** The walk of a sliding piece, seen from its first square [(nr, nc)]. *)
Lemma rayMoves_iff fuel s r c nr nc dr dc m :
  In m (rayMoves fuel s r c nr nc dr dc) <->
  exists k,
    0 <= k < Z.of_nat fuel
    /\ m = mkRaw r c (nr + k * dr) (nc + k * dc) None
    /\ (forall j, 0 <= j <= k -> inBounds (nr + j * dr) (nc + j * dc) = true)
    /\ (forall j, 0 <= j < k ->
                  getSq (board s) (nr + j * dr) (nc + j * dc) = None)
    /\ freeOrEnemy (getSq (board s) (nr + k * dr) (nc + k * dc)) (turn s)
       = true.
Proof.
  revert nr nc. induction fuel as [|f IH]; intros nr nc.
  - simpl. split; [contradiction | intros (k & Hk & _); lia].
  - cbn [rayMoves]. destruct (inBounds nr nc) eqn:Hb.
    + assert (Hzero : forall j, 0 <= j <= 0 ->
                 inBounds (nr + j * dr) (nc + j * dc) = true).
      { intros j Hj. assert (j = 0) as -> by lia.
        now rewrite !Z.mul_0_l, !Z.add_0_r. }
      destruct (getSq (board s) nr nc) as [q|] eqn:Hq.
      * split.
        -- destruct (negb (colorIs (color q) (turn s))) eqn:Hc;
             [|contradiction].
           intros [<- | []]. exists 0. rewrite !Z.mul_0_l, !Z.add_0_r.
           split; [lia|]. split; auto. split; auto.
           split; [intros j Hj; lia|]. rewrite Hq. exact Hc.
        -- intros (k & Hk & -> & Hin & Hemp & Hfree).
           assert (k = 0) as ->.
           { destruct (Z.eq_dec k 0); auto.
             specialize (Hemp 0 ltac:(lia)).
             rewrite !Z.mul_0_l, !Z.add_0_r in Hemp. congruence. }
           rewrite !Z.mul_0_l, !Z.add_0_r in *. rewrite Hq in Hfree.
           simpl in Hfree. rewrite Hfree. now left.
      * cbn [In]. rewrite IH. split.
        -- intros [<- | (k & Hk & -> & Hin & Hemp & Hfree)].
           ++ exists 0. rewrite !Z.mul_0_l, !Z.add_0_r.
              split; [lia|]. split; auto. split; auto.
              split; [intros j Hj; lia|]. now rewrite Hq.
           ++ exists (k + 1). split; [lia|].
              assert (forall j, nr + j * dr = nr + dr + (j - 1) * dr) as Er
                  by (intros; lia).
              assert (forall j, nc + j * dc = nc + dc + (j - 1) * dc) as Ec
                  by (intros; lia).
              split; [|split; [|split]].
              ** rewrite (Er (k + 1)), (Ec (k + 1)).
                 now replace (k + 1 - 1) with k by lia.
              ** intros j Hj. destruct (Z.eq_dec j 0) as [-> | Hne].
                 --- now rewrite !Z.mul_0_l, !Z.add_0_r.
                 --- rewrite Er, Ec. apply Hin. lia.
              ** intros j Hj. destruct (Z.eq_dec j 0) as [-> | Hne].
                 --- now rewrite !Z.mul_0_l, !Z.add_0_r.
                 --- rewrite Er, Ec. apply Hemp. lia.
              ** rewrite (Er (k + 1)), (Ec (k + 1)).
                 now replace (k + 1 - 1) with k by lia.
        -- intros (k & Hk & -> & Hin & Hemp & Hfree).
           destruct (Z.eq_dec k 0) as [-> | Hne].
           ++ left. now rewrite !Z.mul_0_l, !Z.add_0_r.
           ++ right. exists (k - 1). split; [lia|].
              assert (forall j, nr + dr + j * dr = nr + (j + 1) * dr) as Er
                  by (intros; lia).
              assert (forall j, nc + dc + j * dc = nc + (j + 1) * dc) as Ec
                  by (intros; lia).
              split; [|split; [|split]].
              ** rewrite Er, Ec. now replace (k - 1 + 1) with k by lia.
              ** intros j Hj. rewrite Er, Ec. apply Hin. lia.
              ** intros j Hj. rewrite Er, Ec. apply Hemp. lia.
              ** rewrite Er, Ec. now replace (k - 1 + 1) with k by lia.
    + split; [contradiction|]. intros (k & Hk & _ & Hin & _).
      specialize (Hin 0 ltac:(lia)). rewrite !Z.mul_0_l, !Z.add_0_r in Hin.
      congruence.
Qed.

(** A bishop, rook or queen reaches exactly the squares on its lines up to
    the first piece: every square walked over is on the board and empty,
    and the last one is empty or holds an enemy piece. *)
Lemma slideMoves_iff (s : GameState) (r c : Z) (dirs : list (Z * Z))
  (m : RawMove) :
  (forall d, In d dirs -> unitDir d) ->
  (In m (slideMoves s r c dirs) <->
   exists d k,
     In d dirs /\ 1 <= k
     /\ m = mkRaw r c (r + k * fst d) (c + k * snd d) None
     /\ (forall j, 1 <= j <= k ->
                   inBounds (r + j * fst d) (c + j * snd d) = true)
     /\ (forall j, 1 <= j < k ->
                   getSq (board s) (r + j * fst d) (c + j * snd d) = None)
     /\ freeOrEnemy (getSq (board s) (r + k * fst d) (c + k * snd d))
          (turn s) = true).
Proof.
  intros Hu. unfold slideMoves. rewrite in_flat_map. split.
  - intros (d & Hd & Hin). apply rayMoves_iff in Hin
      as (k & Hk & -> & Hin & Hemp & Hfree).
    exists d, (k + 1).
    assert (forall j, r + j * fst d = r + fst d + (j - 1) * fst d) as Er
        by (intros; lia).
    assert (forall j, c + j * snd d = c + snd d + (j - 1) * snd d) as Ec
        by (intros; lia).
    split; auto. split; [lia|]. split; [|split; [|split]].
    + rewrite (Er (k + 1)), (Ec (k + 1)). now replace (k + 1 - 1) with k by lia.
    + intros j Hj. rewrite Er, Ec. apply Hin. lia.
    + intros j Hj. rewrite Er, Ec. apply Hemp. lia.
    + rewrite (Er (k + 1)), (Ec (k + 1)). now replace (k + 1 - 1) with k by lia.
  - intros (d & k & Hd & Hk & -> & Hin & Hemp & Hfree).
    exists d. split; auto. apply rayMoves_iff.
    assert (k <= 8) as Hk8.
    { apply (walk_bound d r c k); auto.
      - specialize (Hin 1 ltac:(lia)). now rewrite !Z.mul_1_l in Hin.
      - apply Hin. lia. }
    exists (k - 1).
    assert (forall j, r + fst d + j * fst d = r + (j + 1) * fst d) as Er
        by (intros; lia).
    assert (forall j, c + snd d + j * snd d = c + (j + 1) * snd d) as Ec
        by (intros; lia).
    split; [simpl; lia|]. split; [|split; [|split]].
    + rewrite Er, Ec. now replace (k - 1 + 1) with k by lia.
    + intros j Hj. rewrite Er, Ec. apply Hin. lia.
    + intros j Hj. rewrite Er, Ec. apply Hemp. lia.
    + rewrite Er, Ec. now replace (k - 1 + 1) with k by lia.
Qed.

(** ** The generator and the attack oracle agree *)

Lemma opposite_knight d : In d knightMoves -> In (- fst d, - snd d) knightMoves.
Proof. simpl. intuition (subst; simpl; tauto). Qed.

Lemma opposite_kingStep d : In d kingSteps -> In (- fst d, - snd d) kingSteps.
Proof. simpl. intuition (subst; simpl; tauto). Qed.

Lemma opposite_rookDir d : In d rookDirs -> In (- fst d, - snd d) rookDirs.
Proof. simpl. intuition (subst; simpl; tauto). Qed.

Lemma opposite_bishopDir d :
  In d bishopDirs -> In (- fst d, - snd d) bishopDirs.
Proof. simpl. intuition (subst; simpl; tauto). Qed.

Lemma enemy_freeOrEnemy sq t :
  enemyPiece sq t = true -> freeOrEnemy sq t = true.
Proof. now destruct sq. Qed.

Lemma colorIs_side s p :
  turn s = "w"%string \/ turn s = "b"%string ->
  colorIs (color p) (turn s) = true <-> color p = sideToMove s.
Proof.
  unfold colorIs, sideToMove.
  intros [-> | ->]; destruct (color p); simpl; split; congruence.
Qed.

Lemma pawnArrive_has t r c tr tc :
  exists pr, In (mkRaw r c tr tc pr) (pawnArrive t r c tr tc).
Proof.
  unfold pawnArrive. destruct (tr =? promoRankOf t).
  - exists (Some Queen). simpl. now left.
  - exists None. simpl. now left.
Qed.

Lemma pawnForward_empty s r c m :
  In m (pawnForward s r c) -> getSq (board s) (toR m) (toC m) = None.
Proof.
  unfold pawnForward.
  destruct (inBounds (r + pawnDirOf (turn s)) c
            && emptySq (getSq (board s) (r + pawnDirOf (turn s)) c)) eqn:E;
    [|contradiction].
  apply andb_true_iff in E as [_ E]. rewrite in_app_iff. intros [H | H].
  - apply pawnArrive_to in H as [-> ->].
    now destruct (getSq (board s) (r + pawnDirOf (turn s)) c).
  - destruct ((r =? startRankOf (turn s))
              && emptySq (getSq (board s) (r + 2 * pawnDirOf (turn s)) c))
      eqn:E2; [|contradiction].
    apply andb_true_iff in E2 as [_ E2]. destruct H as [<- | []].
    cbn [toR toC].
    now destruct (getSq (board s) (r + 2 * pawnDirOf (turn s)) c).
Qed.

Lemma pawnCapture_to s r c dc m :
  In m (pawnCapture s r c dc) ->
  toR m = r + pawnDirOf (turn s) /\ toC m = c + dc.
Proof.
  intros H. apply pawnCapture_In in H as [_ [H | ->]].
  - now apply pawnArrive_to in H.
  - now split.
Qed.

Lemma castlingMoves_empty s r c m :
  In m (castlingMoves s r c) -> getSq (board s) (toR m) (toC m) = None.
Proof.
  assert (Hsq : forall sq, emptySq sq = true -> sq = None)
    by (intros [q|]; [discriminate | reflexivity]).
  unfold castlingMoves.
  destruct (String.eqb (turn s) "w"); rewrite in_app_iff;
    (intros [H | H];
     match type of H with
     | In _ (if ?x then _ else _) =>
         destruct x eqn:E; [|contradiction]
     end;
     destruct H as [<- | []]; cbn [toR toC];
     rewrite !andb_true_iff in E; apply Hsq; tauto).
Qed.

(** A sliding move seen from its destination: the walk back from [(r, c)]
    along the opposite direction meets the origin first. *)
Lemma slideMoves_back s r c ar ac dirs :
  (forall d, In d dirs -> unitDir d) ->
  (forall d, In d dirs -> In (- fst d, - snd d) dirs) ->
  inBounds r c = true ->
  freeOrEnemy (getSq (board s) r c) (turn s) = true ->
  ((exists pr, In (mkRaw ar ac r c pr) (slideMoves s ar ac dirs)) <->
   exists d k,
     In d dirs /\ 1 <= k
     /\ ar = r + k * fst d /\ ac = c + k * snd d
     /\ (forall j, 1 <= j < k ->
                   inBounds (r + j * fst d) (c + j * snd d) = true)
     /\ (forall j, 1 <= j < k ->
                   getSq (board s) (r + j * fst d) (c + j * snd d) = None)).
Proof.
  intros Hu Hopp Hb Hfree. split.
  - intros (pr & H). apply slideMoves_iff in H
      as (d & k & Hd & Hk & Hm & Hin & Hemp & _); auto.
    injection Hm as Hr Hc _.
    exists (- fst d, - snd d), k. cbn [fst snd].
    split; [now apply Hopp|]. split; auto.
    split; [lia|]. split; [lia|]. split.
    + intros j Hj.
      replace (r + j * - fst d) with (ar + (k - j) * fst d) by lia.
      replace (c + j * - snd d) with (ac + (k - j) * snd d) by lia.
      apply Hin. lia.
    + intros j Hj.
      replace (r + j * - fst d) with (ar + (k - j) * fst d) by lia.
      replace (c + j * - snd d) with (ac + (k - j) * snd d) by lia.
      apply Hemp. lia.
  - intros (d & k & Hd & Hk & -> & -> & Hin & Hemp).
    exists None. apply slideMoves_iff; auto.
    exists (- fst d, - snd d), k. cbn [fst snd].
    assert (Er : forall j, r + k * fst d + j * - fst d = r + (k - j) * fst d)
      by (intros; lia).
    assert (Ec : forall j, c + k * snd d + j * - snd d = c + (k - j) * snd d)
      by (intros; lia).
    assert (Hz : forall z, z + (k - k) * fst d = z /\ z + (k - k) * snd d = z)
      by (intros; lia).
    split; [now apply Hopp|]. split; auto.
    split; [|split; [|split]].
    + rewrite Er, Ec. f_equal; lia.
    + intros j Hj. rewrite Er, Ec. destruct (Z.eq_dec j k) as [-> | Hne].
      * now rewrite (proj1 (Hz r)), (proj2 (Hz c)).
      * apply Hin. lia.
    + intros j Hj. rewrite Er, Ec. apply Hemp. lia.
    + rewrite Er, Ec. now rewrite (proj1 (Hz r)), (proj2 (Hz c)).
Qed.

(** Stepping pieces: a knight or king move onto an enemy piece, seen from
    its destination. *)
Lemma offsetMoves_back s r c ar ac offsets :
  (forall d, In d offsets -> In (- fst d, - snd d) offsets) ->
  inBounds r c = true ->
  freeOrEnemy (getSq (board s) r c) (turn s) = true ->
  ((exists pr, In (mkRaw ar ac r c pr) (offsetMoves s ar ac offsets)) <->
   exists d, In d offsets /\ ar = r + fst d /\ ac = c + snd d).
Proof.
  intros Hopp Hb Hfree. split.
  - intros (pr & H). apply offsetMoves_In in H as (d & Hd & Hm & _).
    injection Hm as Hr Hc _. exists (- fst d, - snd d). cbn [fst snd].
    split; [now apply Hopp|]. lia.
  - intros (d & Hd & -> & ->). exists None. apply offsetMoves_In.
    exists (- fst d, - snd d). cbn [fst snd].
    replace (r + fst d + - fst d) with r by lia.
    replace (c + snd d + - snd d) with c by lia.
    split; [now apply Hopp|]. auto.
Qed.

(** The pawn's capture block, seen from its destination. *)
Lemma pawnMoves_back s r c ar ac :
  turn s = "w"%string \/ turn s = "b"%string ->
  inBounds r c = true ->
  enemyPiece (getSq (board s) r c) (turn s) = true ->
  ((exists pr, In (mkRaw ar ac r c pr) (pawnMoves s ar ac)) <->
   exists d, In d (pawnSources (sideToMove s))
             /\ ar = r + fst d /\ ac = c + snd d).
Proof.
  intros Ht Hb He. unfold pawnMoves. split.
  - intros (pr & H). apply in_app_or in H as [H | H].
    + apply pawnForward_empty in H. cbn [toR toC] in H.
      rewrite H in He. discriminate.
    + apply in_flat_map in H as (dc & Hdc & H).
      apply pawnCapture_to in H as [Hr Hc]. cbn [toR toC] in Hr, Hc.
      exists (- pawnDirOf (turn s), - dc). cbn [fst snd].
      split; [|lia].
      unfold sideToMove, pawnDirOf.
      destruct Ht as [-> | ->]; simpl in *; intuition (subst; simpl; tauto).
  - intros (d & Hd & -> & ->).
    destruct (pawnArrive_has (turn s) (r + fst d) (c + snd d) r c) as [pr Hpr].
    exists pr. apply in_or_app. right. apply in_flat_map.
    exists (- snd d). split.
    + unfold sideToMove in Hd.
      destruct Ht as [Ht | Ht]; rewrite Ht in Hd; simpl in Hd;
        intuition (subst; simpl; tauto).
    + unfold pawnCapture.
      assert (Hdir : fst d = - pawnDirOf (turn s)).
      { unfold sideToMove, pawnDirOf in *.
        destruct Ht as [Ht | Ht]; rewrite Ht in *; simpl in Hd;
          intuition (subst; reflexivity). }
      replace (r + fst d + pawnDirOf (turn s)) with r by lia.
      replace (c + snd d + - snd d) with c by lia.
      now rewrite Hb, He.
Qed.

(** The squares that hold an enemy piece: a pseudo-legal move lands on one
    exactly when the side to move attacks it. *)
Lemma moves_onto_iff_attacked (s : GameState) (r c : Z) :
  turn s = "w"%string \/ turn s = "b"%string ->
  inBounds r c = true ->
  enemyPiece (getSq (board s) r c) (turn s) = true ->
  (attacked (board s) r c (sideToMove s) <->
   exists m, In m (generatePseudoLegalMoves s) /\ toR m = r /\ toC m = c).
Proof.
  intros Ht Hb He.
  assert (Hfree := enemy_freeOrEnemy _ _ He).
  assert (Hrook : forall d, In d rookDirs -> unitDir d)
    by (intros d Hd; apply compass_unit, in_or_app; now left).
  assert (Hbishop : forall d, In d bishopDirs -> unitDir d)
    by (intros d Hd; apply compass_unit, in_or_app; now right).
  assert (Hqueen : forall d, In d (bishopDirs ++ rookDirs) -> unitDir d).
  { intros d Hd. apply in_app_or in Hd as [Hd | Hd]; auto. }
  assert (Hoq : forall d, In d (bishopDirs ++ rookDirs) ->
                          In (- fst d, - snd d) (bishopDirs ++ rookDirs)).
  { intros d Hd. apply in_or_app. apply in_app_or in Hd as [Hd | Hd];
      [left; now apply opposite_bishopDir | right; now apply opposite_rookDir]. }
  (* what the generator emits from one square onto (r, c) *)
  assert (Hfrom : forall ar ac p,
             inBounds ar ac = true ->
             getSq (board s) ar ac = Some p ->
             ((exists pr, In (mkRaw ar ac r c pr) (pieceMoves s ar ac)) <->
              color p = sideToMove s /\
              match type p with
              | Pawn => exists d, In d (pawnSources (sideToMove s))
                                  /\ ar = r + fst d /\ ac = c + snd d
              | Knight => exists d, In d knightMoves
                                    /\ ar = r + fst d /\ ac = c + snd d
              | King => exists d, In d kingSteps
                                  /\ ar = r + fst d /\ ac = c + snd d
              | OtherType _ => False
              | _ =>
                  exists d k,
                    In d (match type p with
                          | Bishop => bishopDirs
                          | Rook => rookDirs
                          | _ => bishopDirs ++ rookDirs
                          end)
                    /\ 1 <= k /\ ar = r + k * fst d /\ ac = c + k * snd d
                    /\ (forall j, 1 <= j < k ->
                          inBounds (r + j * fst d) (c + j * snd d) = true)
                    /\ (forall j, 1 <= j < k ->
                          getSq (board s) (r + j * fst d) (c + j * snd d)
                          = None)
              end)).
  { intros ar ac p Hab Hp. unfold pieceMoves. rewrite Hp.
    rewrite <- (colorIs_side s p Ht).
    destruct (colorIs (color p) (turn s)); cbn [negb].
    2:{ split; [intros (pr & []) | intros [Hf _]; discriminate]. }
    destruct (type p).
    - rewrite pawnMoves_back by assumption. tauto.
    - rewrite (offsetMoves_back s r c ar ac knightMoves opposite_knight)
        by assumption. tauto.
    - rewrite (slideMoves_back s r c ar ac bishopDirs Hbishop
                 opposite_bishopDir) by assumption. tauto.
    - rewrite (slideMoves_back s r c ar ac rookDirs Hrook opposite_rookDir)
        by assumption. tauto.
    - rewrite (slideMoves_back s r c ar ac _ Hqueen Hoq) by assumption. tauto.
    - rewrite <- (offsetMoves_back s r c ar ac kingSteps opposite_kingStep)
        by assumption.
      split.
      + intros (pr & H). split; auto. apply in_app_or in H as [H | H]; eauto.
        apply castlingMoves_empty in H. cbn [toR toC] in H.
        rewrite H in He. discriminate.
      + intros [_ (pr & H)]. exists pr. apply in_or_app. now left.
    - split; [intros (pr & []) | tauto]. }
  split.
  - (* every attack is a generated move *)
    assert (Hgen : forall ar ac p,
               inBounds ar ac = true ->
               getSq (board s) ar ac = Some p ->
               (exists pr, In (mkRaw ar ac r c pr) (pieceMoves s ar ac)) ->
               exists m, In m (generatePseudoLegalMoves s)
                         /\ toR m = r /\ toC m = c).
    { intros ar ac p Hab Hp (pr & H). exists (mkRaw ar ac r c pr).
      split; [|now split]. apply pseudo_In. now split. }
    intros [H | [H | [H | [H | H]]]].
    + destruct H as (d & p & Hd & Hin & Hp & Hc & Hty).
      apply (Hgen _ _ p Hin Hp). apply (Hfrom _ _ p Hin Hp).
      rewrite Hty. split; auto. now exists d.
    + destruct H as (d & p & Hd & Hin & Hp & Hc & Hty).
      apply (Hgen _ _ p Hin Hp). apply (Hfrom _ _ p Hin Hp).
      rewrite Hty. split; auto. now exists d.
    + destruct H as (d & p & Hd & Hin & Hp & Hc & Hty).
      apply (Hgen _ _ p Hin Hp). apply (Hfrom _ _ p Hin Hp).
      rewrite Hty. split; auto. now exists d.
    + destruct H as (d & k & p & Hd & Hk & Hin & Hemp & Hp & Hc & Hty).
      assert (Hab := Hin k ltac:(lia)).
      apply (Hgen _ _ p Hab Hp). apply (Hfrom _ _ p Hab Hp).
      split; auto.
      destruct Hty as [Hty | [Hty | []]]; rewrite <- Hty;
        exists d, k; repeat split; auto;
        try (apply in_or_app; now right);
        intros j Hj; apply Hin; lia.
    + destruct H as (d & k & p & Hd & Hk & Hin & Hemp & Hp & Hc & Hty).
      assert (Hab := Hin k ltac:(lia)).
      apply (Hgen _ _ p Hab Hp). apply (Hfrom _ _ p Hab Hp).
      split; auto.
      destruct Hty as [Hty | [Hty | []]]; rewrite <- Hty;
        exists d, k; repeat split; auto;
        try (apply in_or_app; now left);
        intros j Hj; apply Hin; lia.
  - (* every generated move onto the square is an attack *)
    intros (m & Hm & Hr & Hc). apply pseudo_In in Hm as [Hab Hm].
    destruct m as [ar ac tr tc pr]. cbn [fromR fromC toR toC] in *. subst tr tc.
    destruct (getSq (board s) ar ac) as [p|] eqn:Hp.
    2:{ unfold pieceMoves in Hm. rewrite Hp in Hm. contradiction. }
    assert (H : exists pr, In (mkRaw ar ac r c pr) (pieceMoves s ar ac))
      by eauto.
    apply (Hfrom _ _ p Hab Hp) in H as [Hcol H].
    destruct (type p) eqn:Hty.
    + destruct H as (d & Hd & -> & ->). left. exists d, p. auto.
    + destruct H as (d & Hd & -> & ->). right. left. exists d, p. auto.
    + destruct H as (d & k & Hd & Hk & -> & -> & Hin & Hemp).
      do 4 right. exists d, k, p. rewrite Hty.
      repeat split; auto; try (simpl; tauto).
      intros j Hj. destruct (Z.eq_dec j k) as [-> | Hne]; auto.
      apply Hin. lia.
    + destruct H as (d & k & Hd & Hk & -> & -> & Hin & Hemp).
      do 3 right. left. exists d, k, p. rewrite Hty.
      repeat split; auto; try (simpl; tauto).
      intros j Hj. destruct (Z.eq_dec j k) as [-> | Hne]; auto.
      apply Hin. lia.
    + destruct H as (d & k & Hd & Hk & -> & -> & Hin & Hemp).
      apply in_app_or in Hd as [Hd | Hd].
      * do 4 right. exists d, k, p. rewrite Hty.
        repeat split; auto; try (simpl; tauto).
        intros j Hj. destruct (Z.eq_dec j k) as [-> | Hne]; auto.
        apply Hin. lia.
      * do 3 right. left. exists d, k, p. rewrite Hty.
        repeat split; auto; try (simpl; tauto).
        intros j Hj. destruct (Z.eq_dec j k) as [-> | Hne]; auto.
        apply Hin. lia.
    + destruct H as (d & Hd & -> & ->). do 2 right. left. exists d, p. auto.
    + contradiction.
Qed.

(** X5: the move generator and the attack oracle, two separate scans of
    the board, agree on captures. When it is White's or Black's turn and an
    enemy piece stands on a square of the board, the oracle reports the
    square as attacked by the side to move exactly when the generator
    emits a pseudo-legal move that lands on it. *)
Theorem captures_iff_attacked (s : GameState) (r c : Z) :
  List.length (board s) = 8%nat ->
  turn s = "w"%string \/ turn s = "b"%string ->
  inBounds r c = true ->
  enemyPiece (getSq (board s) r c) (turn s) = true ->
  (isAttackedBy (board s) r c (sideToMove s) = true <->
   exists m, In m (generatePseudoLegalMoves s) /\ toR m = r /\ toC m = c).
Proof.
  intros _ Ht Hb He.
  rewrite <- (moves_onto_iff_attacked s r c Ht Hb He). oracle_cases.
Qed.

Lemma captures_iff_attacked_witness :
  isAttackedBy (board pawnTension) 3 3 (sideToMove pawnTension) = true <->
  exists m,
    In m (generatePseudoLegalMoves pawnTension) /\ toR m = 3 /\ toC m = 3.
Proof.
  apply captures_iff_attacked;
    [reflexivity | now left | reflexivity | reflexivity].
Defined.

(** ** Kings stay at home while their side may castle *)

Lemma kingsAtHome_spec s :
  kingsAtHome s = true <->
  forall r c p,
    inBounds r c = true -> getSq (board s) r c = Some p ->
    type p = King -> holdsRight (castling s) (color p) = true ->
    r = homeOf (color p) /\ c = 4.
Proof.
  unfold kingsAtHome. rewrite forallb_forall. split.
  - intros H r c p Hb Hp Hty Hr.
    specialize (H (r, c) (proj2 (In_allSquares r c) Hb)). cbn [fst snd] in H.
    rewrite Hp in H. unfold isType in H. rewrite Hty, Hr in H.
    simpl in H. lia.
  - intros H [r c] Hin. cbn [fst snd]. apply In_allSquares in Hin.
    destruct (getSq (board s) r c) as [p|] eqn:Hp; auto.
    destruct (isType p King && holdsRight (castling s) (color p)) eqn:E; auto.
    apply andb_true_iff in E as [Hty Hr]. apply type_eqb_eq in Hty.
    destruct (H r c p Hin Hp Hty Hr) as [-> ->].
    rewrite !Z.eqb_refl. reflexivity.
Qed.

(** What a square holds after the writes of [applyRawMove]. *)
Lemma moveBoard_cases s piece m r c :
  getSq (moveBoard s piece m) r c = None
  \/ getSq (moveBoard s piece m) r c = Some (arriving piece m)
  \/ getSq (moveBoard s piece m) r c = getSq (board s) r c
  \/ (isType piece King = true /\ toC m - fromC m = 2
      /\ getSq (moveBoard s piece m) r c = getSq (board s) (fromR m) 7)
  \/ (isType piece King = true /\ fromC m - toC m = 2
      /\ getSq (moveBoard s piece m) r c = getSq (board s) (fromR m) 0).
Proof.
  unfold moveBoard, moveSquares. fold (arriving piece m).
  set (b1 := if isType piece Pawn then _ else _).
  assert (H1 : forall r c, getSq b1 r c = None
                           \/ getSq b1 r c = getSq (board s) r c).
  { intros r' c'. subst b1. destruct (isType piece Pawn); auto.
    destruct (epSquare s) as [[er ec]|]; auto.
    destruct ((toR m =? er) && (toC m =? ec)); auto.
    rewrite getSq_setSq. destruct (_ && _); auto. }
  assert (H3 : forall r c,
             getSq (setSq (setSq b1 (toR m) (toC m) (Some (arriving piece m)))
                      (fromR m) (fromC m) None) r c = None
             \/ getSq (setSq (setSq b1 (toR m) (toC m)
                                (Some (arriving piece m)))
                         (fromR m) (fromC m) None) r c
                = Some (arriving piece m)
             \/ getSq (setSq (setSq b1 (toR m) (toC m)
                                (Some (arriving piece m)))
                         (fromR m) (fromC m) None) r c
                = getSq (board s) r c).
  { intros r' c'. rewrite !getSq_setSq.
    destruct (_ && _); auto. destruct (_ && _); auto.
    destruct (H1 r' c') as [-> | ->]; auto. }
  set (b3 := setSq (setSq b1 _ _ _) _ _ _) in *.
  destruct (isType piece King) eqn:EK.
  - destruct (toC m - fromC m =? 2) eqn:E1.
    + apply Z.eqb_eq in E1. rewrite !getSq_setSq.
      destruct (_ && _); auto. destruct (_ && _).
      * destruct (H3 (fromR m) 7) as [-> | [-> | ->]]; auto.
        right. right. right. left. auto.
      * destruct (H3 r c) as [-> | [-> | ->]]; auto.
    + destruct (fromC m - toC m =? 2) eqn:E2.
      * apply Z.eqb_eq in E2. rewrite !getSq_setSq.
        destruct (_ && _); auto. destruct (_ && _).
        -- destruct (H3 (fromR m) 0) as [-> | [-> | ->]]; auto.
           do 4 right. auto.
        -- destruct (H3 r c) as [-> | [-> | ->]]; auto.
      * destruct (H3 r c) as [-> | [-> | ->]]; auto.
  - destruct (H3 r c) as [-> | [-> | ->]]; auto.
Qed.

(** A side keeps a right only if it held one and its king did not move. *)
Lemma holdsRight_updateCastling cr piece captured m col :
  holdsRight (updateCastling cr piece captured m) col = true ->
  holdsRight cr col = true
  /\ (isType piece King = true -> color piece <> col).
Proof.
  unfold updateCastling, clearKingRights, clearRookRight, holdsRight.
  destruct cr as [K Q k q]. cbn [castK castQ castk castq].
  destruct (isType piece King), (isType piece Rook), (capturedRook captured),
    (color piece), col; cbn [castK castQ castk castq];
    repeat match goal with
           | |- context [if ?x then _ else _] => destruct x
           end;
    destruct K, Q, k, q; simpl; intros H; split;
    try discriminate; try reflexivity; intros; congruence.
Qed.

(** A castling move is emitted only with the rook on its corner. *)
Lemma castlingMoves_rook s r c m :
  In m (castlingMoves s r c) ->
  fromR m = r /\ fromC m = c
  /\ (castlingRight s true = true \/ castlingRight s false = true)
  /\ exists col,
       (toC m = 6 /\ col = 7 \/ toC m = 2 /\ col = 0)
       /\ exists q, getSq (board s) (homeRank s) col = Some q
                    /\ type q = Rook.
Proof.
  assert (Hrk : forall sq col, isPiece sq col Rook = true ->
                               exists q, sq = Some q /\ type q = Rook).
  { intros [q|] col H; [|discriminate]. exists q. split; auto.
    unfold isPiece in H. apply andb_true_iff in H as [_ H].
    now apply type_eqb_eq in H. }
  unfold castlingMoves, castlingRight, sideToMove, homeRank.
  destruct (String.eqb (turn s) "w"); rewrite in_app_iff;
    (intros [H | H];
     match type of H with
     | In _ (if ?x then _ else _) =>
         destruct x eqn:E; [|contradiction]
     end;
     destruct H as [<- | []]; cbn [fromR fromC toR toC];
     rewrite !andb_true_iff in E).
  all: split; [reflexivity|].
  all: split; [reflexivity|].
  all: split; [tauto|].
  all: destruct E as [[_ E] _].
  all: eexists; split;
    [first [left; split; reflexivity | right; split; reflexivity]|].
  all: eapply Hrk; apply E.
Qed.

(** One transition keeps the kings at home. *)
Lemma kingsAtHome_step s m s' :
  validState s = true -> kingsAtHome s = true ->
  In m (generatePseudoLegalMoves s) -> applyRawMove s m = Some s' ->
  kingsAtHome s' = true.
Proof.
  intros Hv Hk Hm Ha. pose proof (validState_turn _ Hv) as Ht.
  rewrite kingsAtHome_spec in *. intros r c p Hb Hp Hty Hr.
  destruct (applyRawMove_board _ _ _ Ha) as (piece & Hpc & Hbd).
  rewrite Hbd in Hp.
  assert (Hcr : castling s'
                = updateCastling (castling s) piece
                    (getSq (board s) (toR m) (toC m)) m).
  { unfold applyRawMove in Ha.
    destruct (negb (hasRow _ _) || negb (hasRow _ _)); [discriminate|].
    rewrite Hpc in Ha. now injection Ha as <-. }
  rewrite Hcr in Hr. apply holdsRight_updateCastling in Hr as [Hr Hnk].
  destruct (pseudo_ok _ _ Hm) as (Hfb & Htb & Hpr & piece' & Hpc' & Hcol).
  assert (piece' = piece) by congruence. subst piece'.
  destruct (moveBoard_cases s piece m r c) as [H | [H | [H | H]]].
  - congruence.
  - rewrite H in Hp. injection Hp as <-. exfalso.
    unfold arriving in *. destruct Hpr as [Hn | (t & Ht' & Hin)].
    + rewrite Hn in *. apply (Hnk (proj2 (type_eqb_eq _ _) Hty)).
      reflexivity.
    + rewrite Ht' in Hty. cbn [type] in Hty. subst t.
      simpl in Hin. intuition discriminate.
  - rewrite H in Hp. now apply Hk.
  - exfalso.
    assert (EK : isType piece King = true) by tauto.
    apply type_eqb_eq in EK.
    apply pseudo_In in Hm as [_ Hm]. unfold pieceMoves in Hm.
    rewrite Hpc, Hcol, EK in Hm. cbn [negb] in Hm.
    apply in_app_or in Hm as [Hm | Hm].
    + apply offsetMoves_In in Hm as (d & Hd & Hmeq & _).
      apply (f_equal toC) in Hmeq. cbn [toC] in Hmeq.
      assert (-1 <= snd d <= 1)
        by (simpl in Hd; intuition (subst; simpl; lia)).
      lia.
    + apply castlingMoves_rook in Hm
        as (_ & _ & Hright & col & Hcolumn & q & Hq & Hrook).
      apply (colorIs_side s piece Ht) in Hcol.
      assert (Hhold : holdsRight (castling s) (color piece) = true).
      { rewrite Hcol. revert Hright.
        unfold castlingRight, holdsRight.
        destruct (sideToMove s); rewrite orb_true_iff; tauto. }
      destruct (Hk _ _ _ Hfb Hpc EK Hhold) as [Hfr Hfc].
      assert (Hhome : homeRank s = fromR m).
      { rewrite Hfr, Hcol. unfold homeRank, sideToMove.
        now destruct (String.eqb (turn s) "w"). }
      rewrite Hhome in Hq.
      destruct H as [(_ & Hd & H) | (_ & Hd & H)]; rewrite H in Hp;
        destruct Hcolumn as [[Hto ->] | [Hto ->]]; try lia;
        congruence.
Qed.

Lemma makeMove_pseudo fuel s uci s' lm :
  validState s = true ->
  makeMove fuel s uci = Ret (Some (s', lm)) ->
  In (rawOfLegal lm) (generatePseudoLegalMoves s)
  /\ applyRawMove s (rawOfLegal lm) = Some s'.
Proof.
  intros Hv Hmk. pose proof (validState_rows _ Hv) as H8.
  pose proof (makeMove_applies _ _ _ _ _ Hmk) as Ha. split; auto.
  destruct (getLegalMoves fuel s) as [lms| |] eqn:E;
    try (unfold makeMove in Hmk; rewrite E in Hmk; discriminate).
  destruct (makeMove_found fuel s uci s' lm lms E Hmk) as [Hin _].
  destruct (getLegalMoves_In _ _ _ _ H8 E Hin) as [Hm _].
  now apply legalList_In in Hm.
Qed.

Lemma reachable_kingsAtHome s :
  reachable s -> validState s = true /\ kingsAtHome s = true.
Proof.
  induction 1 as [|s fuel uci s' lm _ [Hv Hk] Hmk].
  - split; reflexivity.
  - split; [eapply makeMove_valid; eauto|].
    destruct (makeMove_pseudo _ _ _ _ _ Hv Hmk) as [Hm Ha].
    eapply kingsAtHome_step; eauto.
Qed.

Lemma kingsAtHome_rightsConsistent s :
  turn s = "w"%string \/ turn s = "b"%string ->
  kingsAtHome s = true -> rightsConsistent s = true.
Proof.
  intros Ht Hk. rewrite kingsAtHome_spec in Hk. unfold rightsConsistent.
  destruct (castlingRight s true || castlingRight s false) eqn:Hr; auto.
  cbn [negb orb]. apply forallb_forall. intros [r c] Hin. cbn [fst snd].
  apply In_allSquares in Hin.
  destruct (getSq (board s) r c) as [p|] eqn:Hp; auto.
  unfold isPiece.
  destruct (color_eqb (color p) (sideToMove s)) eqn:Hc; auto.
  destruct (type_eqb (type p) King) eqn:Hty; auto.
  apply color_eqb_eq in Hc. apply type_eqb_eq in Hty.
  assert (Hhold : holdsRight (castling s) (color p) = true).
  { rewrite Hc. revert Hr. unfold castlingRight, holdsRight.
    now destruct (sideToMove s). }
  destruct (Hk _ _ _ Hin Hp Hty Hhold) as [-> ->].
  rewrite Hc. unfold homeRank, sideToMove, homeOf.
  destruct (String.eqb (turn s) "w"); reflexivity.
Qed.

(** X6: in every state reached from the starting position by [makeMove],
    a king of a side that still holds a castling right stands on e1
    (White) or e8 (Black): [applyRawMove] withdraws both rights of a side
    as soon as its king moves, and nothing else moves a king. *)
Theorem reachable_kings_at_home (s : GameState) :
  reachable s ->
  forall r c p,
    inBounds r c = true -> getSq (board s) r c = Some p ->
    type p = King -> holdsRight (castling s) (color p) = true ->
    rcToSq r c = match color p with White => "e1" | Black => "e8" end%string.
Proof.
  intros Hr r c p Hb Hp Hty Hh.
  destruct (reachable_kingsAtHome _ Hr) as [_ Hk].
  rewrite kingsAtHome_spec in Hk.
  destruct (Hk _ _ _ Hb Hp Hty Hh) as [-> ->].
  now destruct (color p).
Qed.

Lemma reachable_kings_at_home_witness :
  reachable startState /\ rcToSq 0 4 = "e8"%string.
Proof.
  split; [exact reach_start|].
  apply (reachable_kings_at_home startState reach_start 0 4
           (mkPiece Black King)); reflexivity.
Defined.

(** X7: in every state reached from the starting position, the legal
    moves that [getLegalMoves] returns have pairwise different UCI
    strings, so that [makeMove] selects by its string a single move. *)
Theorem reachable_uci_distinct (s : GameState) :
  reachable s ->
  forall fuel lms,
    getLegalMoves fuel s = Ret lms -> NoDup (map lm_uci lms).
Proof.
  intros Hr fuel lms Hret.
  destruct (reachable_kingsAtHome _ Hr) as [Hv Hk].
  pose proof (validState_rows _ Hv) as H8.
  pose proof (getLegalMoves_Ret _ _ _ H8 Hret) as Hd.
  rewrite (describes_uci _ _ _ Hd). apply NoDup_uci; auto.
  apply kingsAtHome_rightsConsistent; auto using validState_turn.
Qed.

Lemma reachable_uci_distinct_witness :
  exists lms,
    getLegalMoves 1 startState = Ret lms /\ NoDup (map lm_uci lms).
Proof.
  assert (exists lms, getLegalMoves 1 startState = Ret lms) as (lms & E)
    by (vm_compute; eauto).
  exists lms. split; [exact E|].
  exact (reachable_uci_distinct startState reach_start 1%nat lms E).
Defined.

(** ** What a transition writes *)

Lemma isType_true p t : isType p t = true <-> type p = t.
Proof. apply type_eqb_eq. Qed.

Lemma isType_false p t : isType p t = false <-> type p <> t.
Proof.
  unfold isType. destruct (type_eqb (type p) t) eqn:E.
  - apply type_eqb_eq in E. split; [discriminate | congruence].
  - split; auto. intros _ H. apply type_eqb_eq in H. congruence.
Qed.

Lemma getSq_setSq_eq b r c v :
  hasRow b r = true -> 0 <= c -> getSq (setSq b r c v) r c = v.
Proof.
  intros Hr Hc. rewrite getSq_setSq, Hr, !Z.eqb_refl.
  now replace (0 <=? c) with true by (symmetry; now apply Z.leb_le).
Qed.

Lemma getSq_setSq_ne b r c v r' c' :
  (r, c) <> (r', c') -> getSq (setSq b r c v) r' c' = getSq b r' c'.
Proof.
  intros Hne. rewrite getSq_setSq. destruct (_ && _) eqn:E; auto.
  rewrite !andb_true_iff in E. destruct E as [[_ E1] E2].
  apply Z.eqb_eq in E1, E2. congruence.
Qed.

(** Reads the squares of a board after a chain of assignments. *)
Ltac read_squares :=
  rewrite ?getSq_setSq, ?hasRow_setSq;
  repeat match goal with
         | H : hasRow _ _ = true |- _ => rewrite !H
         end;
  cbn [andb];
  eqb_cases; cbn [andb]; try lia; try congruence; auto.

(** The board after a move that is no castling. *)
Lemma moveBoard_plain (s : GameState) (m : RawMove) (piece : Piece) :
  List.length (board s) = 8%nat ->
  inBounds (fromR m) (fromC m) = true ->
  inBounds (toR m) (toC m) = true ->
  (fromR m, fromC m) <> (toR m, toC m) ->
  (type piece = King -> Z.abs (toC m - fromC m) <> 2) ->
  getSq (moveBoard s piece m) (fromR m) (fromC m) = None
  /\ getSq (moveBoard s piece m) (toR m) (toC m) = Some (arriving piece m)
  /\ (forall r c,
        (r, c) <> (fromR m, fromC m) -> (r, c) <> (toR m, toC m) ->
        (type piece = Pawn -> epSquare s = Some (toR m, toC m) ->
         (r, c) <> (fromR m, toC m)) ->
        getSq (moveBoard s piece m) r c = getSq (board s) r c).
Proof.
  intros H8 Hfb Htb Hne Hking.
  pose proof (inBounds_hasRow _ _ _ H8 Hfb) as Hrow.
  pose proof (inBounds_hasRow _ _ _ H8 Htb) as Hrow'.
  apply inBounds_iff in Hfb as [Hfr Hfc]. apply inBounds_iff in Htb as [Htr Htc].
  unfold moveBoard, moveSquares. fold (arriving piece m).
  assert (HK : (if isType piece King
                then (toC m - fromC m =? 2) || (fromC m - toC m =? 2)
                else false) = false).
  { destruct (isType piece King) eqn:EK; auto.
    apply isType_true in EK. specialize (Hking EK).
    apply orb_false_iff. split; apply Z.eqb_neq; lia. }
  set (b1 := if isType piece Pawn then _ else _).
  assert (Hb1 : forall r c,
             (isType piece Pawn = true ->
              epSquare s = Some (toR m, toC m) -> (r, c) <> (fromR m, toC m)) ->
             getSq b1 r c = getSq (board s) r c).
  { intros r c Hv. subst b1. destruct (isType piece Pawn); auto.
    destruct (epSquare s) as [[er ec]|]; auto.
    destruct ((toR m =? er) && (toC m =? ec)) eqn:E; auto.
    apply andb_true_iff in E as [E1 E2].
    apply Z.eqb_eq in E1, E2. subst er ec.
    specialize (Hv eq_refl eq_refl).
    rewrite getSq_setSq.
    destruct (_ && _) eqn:E; auto.
    rewrite !andb_true_iff in E. destruct E as [[_ E1] E2].
    apply Z.eqb_eq in E1, E2. subst r c. congruence. }
  assert (Hr1 : forall r, hasRow b1 r = hasRow (board s) r).
  { intros r. subst b1. destruct (isType piece Pawn); auto.
    destruct (epSquare s) as [[er ec]|]; auto.
    destruct ((toR m =? er) && (toC m =? ec)); auto.
    apply hasRow_setSq. }
  assert (Hend :
            (if isType piece King then
               if toC m - fromC m =? 2 then
                 setSq (setSq (setSq (setSq b1 (toR m) (toC m)
                                        (Some (arriving piece m)))
                                 (fromR m) (fromC m) None)
                          (fromR m) 5
                          (getSq (setSq (setSq b1 (toR m) (toC m)
                                           (Some (arriving piece m)))
                                    (fromR m) (fromC m) None) (fromR m) 7))
                   (fromR m) 7 None
               else if fromC m - toC m =? 2 then
                 setSq (setSq (setSq (setSq b1 (toR m) (toC m)
                                        (Some (arriving piece m)))
                                 (fromR m) (fromC m) None)
                          (fromR m) 3
                          (getSq (setSq (setSq b1 (toR m) (toC m)
                                           (Some (arriving piece m)))
                                    (fromR m) (fromC m) None) (fromR m) 0))
                   (fromR m) 0 None
               else setSq (setSq b1 (toR m) (toC m) (Some (arriving piece m)))
                      (fromR m) (fromC m) None
             else setSq (setSq b1 (toR m) (toC m) (Some (arriving piece m)))
                    (fromR m) (fromC m) None)
            = setSq (setSq b1 (toR m) (toC m) (Some (arriving piece m)))
                (fromR m) (fromC m) None).
  { destruct (isType piece King); auto.
    apply orb_false_iff in HK as [-> ->]. reflexivity. }
  rewrite Hend. clear Hend.
  split; [|split].
  - rewrite !getSq_setSq, !hasRow_setSq, !Hr1, Hrow.
    eqb_cases; cbn [andb]; try lia; auto.
  - rewrite !getSq_setSq, !hasRow_setSq, !Hr1, Hrow, Hrow'.
    eqb_cases; cbn [andb]; try lia; auto. congruence.
  - intros r c H1 H2 H3. rewrite !getSq_setSq, !hasRow_setSq, !Hr1, Hrow, Hrow'.
    eqb_cases; cbn [andb]; try lia; try (subst; congruence).
    all: apply Hb1; intros HP; apply H3; now apply isType_true.
Qed.

(** X8: a move that is neither a castling nor an en-passant capture
    writes two squares. On a board of eight ranks, with the origin and the
    destination on the board and different, [applyRawMove] succeeds; in the
    new state the origin is empty, the destination holds the piece (or the
    piece it promotes to), and every other square is as before, except the
    square beside the origin on the destination's file when a pawn moves
    onto the en-passant target. *)
Theorem plain_move_effect (s : GameState) (m : RawMove) (piece : Piece) :
  List.length (board s) = 8%nat ->
  inBounds (fromR m) (fromC m) = true ->
  inBounds (toR m) (toC m) = true ->
  (fromR m, fromC m) <> (toR m, toC m) ->
  getSq (board s) (fromR m) (fromC m) = Some piece ->
  (type piece = King -> Z.abs (toC m - fromC m) <> 2) ->
  exists s',
    applyRawMove s m = Some s'
    /\ getSq (board s') (fromR m) (fromC m) = None
    /\ getSq (board s') (toR m) (toC m) = Some (arriving piece m)
    /\ (forall r c,
          (r, c) <> (fromR m, fromC m) -> (r, c) <> (toR m, toC m) ->
          (type piece = Pawn -> epSquare s = Some (toR m, toC m) ->
           (r, c) <> (fromR m, toC m)) ->
          getSq (board s') r c = getSq (board s) r c).
Proof.
  intros H8 Hfb Htb Hne Hpiece Hking.
  pose proof (inBounds_hasRow _ _ _ H8 Hfb) as Hrow.
  pose proof (inBounds_hasRow _ _ _ H8 Htb) as Hrow'.
  unfold applyRawMove. rewrite Hrow, Hrow', Hpiece. cbn [negb orb].
  eexists. split; [reflexivity|]. cbn [board].
  now apply moveBoard_plain.
Qed.

Lemma plain_move_effect_witness :
  exists s',
    applyRawMove startState (mkRaw 6 4 4 4 None) = Some s'
    /\ getSq (board s') 6 4 = None
    /\ getSq (board s') 4 4 = Some (mkPiece White Pawn)
    /\ (forall r c,
          (r, c) <> (6, 4) -> (r, c) <> (4, 4) ->
          (Pawn = Pawn -> epSquare startState = Some (4, 4) ->
           (r, c) <> (6, 4)) ->
          getSq (board s') r c = getSq (board startState) r c).
Proof.
  apply (plain_move_effect startState (mkRaw 6 4 4 4 None)
           (mkPiece White Pawn));
    try reflexivity; cbn [fromR fromC toR toC type]; discriminate.
Defined.

(** A king that moves leaves its side without castling rights. *)
Lemma holdsRight_king_moved cr piece captured m :
  isType piece King = true ->
  holdsRight (updateCastling cr piece captured m) (color piece) = false.
Proof.
  intros HK. unfold updateCastling. rewrite HK.
  unfold clearKingRights, holdsRight.
  destruct (color piece), (isType piece Rook), (capturedRook _);
    unfold clearRookRight; cbn [castK castQ castk castq];
    repeat match goal with
           | |- context [if ?x then _ else _] => destruct x
           end; reflexivity.
Qed.

(** The board after the two-file move of a king from the e-file. *)
Lemma moveBoard_castle (s : GameState) (m : RawMove) (king : Piece)
  (kingside : bool) :
  List.length (board s) = 8%nat ->
  inBounds (fromR m) (fromC m) = true ->
  fromC m = 4 -> toR m = fromR m ->
  toC m = (if kingside then 6 else 2) ->
  promotion m = None ->
  type king = King ->
  getSq (moveBoard s king m) (fromR m) 4 = None
  /\ getSq (moveBoard s king m) (fromR m) (toC m) = Some king
  /\ getSq (moveBoard s king m) (fromR m) (if kingside then 5 else 3)
     = getSq (board s) (fromR m) (if kingside then 7 else 0)
  /\ getSq (moveBoard s king m) (fromR m) (if kingside then 7 else 0) = None
  /\ (forall r c,
        r <> fromR m
        \/ (c <> 4 /\ c <> toC m
            /\ c <> (if kingside then 5 else 3)
            /\ c <> (if kingside then 7 else 0)) ->
        getSq (moveBoard s king m) r c = getSq (board s) r c).
Proof.
  intros H8 Hfb Hfc Htr Htc Hpr Hty.
  pose proof (inBounds_hasRow _ _ _ H8 Hfb) as Hrow.
  apply inBounds_iff in Hfb as [Hfr _].
  assert (HK : isType king King = true) by now apply isType_true.
  assert (HP : isType king Pawn = false)
    by (apply isType_false; congruence).
  unfold moveBoard, moveSquares. rewrite HK, HP, Hpr, Htr, Htc, Hfc.
  assert (Hne : forall (r c c' : Z), c <> c' -> (r, c) <> (r, c'))
    by (intros; congruence).
  assert (Hnr : forall (r r' c c' : Z), r <> r' -> (r, c) <> (r', c'))
    by (intros; congruence).
  destruct kingside.
  - change (6 - 4 =? 2) with true. cbv iota.
    split; [|split; [|split; [|split]]].
    + rewrite !(getSq_setSq_ne _ _ _ _ (fromR m) 4) by (apply Hne; lia).
      apply getSq_setSq_eq; [now rewrite hasRow_setSq | lia].
    + rewrite !(getSq_setSq_ne _ _ _ _ (fromR m) 6) by (apply Hne; lia).
      apply getSq_setSq_eq; [assumption | lia].
    + rewrite (getSq_setSq_ne _ _ 7 _ (fromR m) 5) by (apply Hne; lia).
      rewrite getSq_setSq_eq by (rewrite ?hasRow_setSq; auto; lia).
      now rewrite !(getSq_setSq_ne _ _ _ _ (fromR m) 7) by (apply Hne; lia).
    + apply getSq_setSq_eq; [now rewrite !hasRow_setSq | lia].
    + intros r c [Hr | (H4 & H6 & H5 & H7)].
      * rewrite !(getSq_setSq_ne _ (fromR m) _ _ r c); auto.
      * rewrite !(getSq_setSq_ne _ _ _ _ r c); auto; congruence.
  - change (2 - 4 =? 2) with false. change (4 - 2 =? 2) with true. cbv iota.
    split; [|split; [|split; [|split]]].
    + rewrite !(getSq_setSq_ne _ _ _ _ (fromR m) 4) by (apply Hne; lia).
      apply getSq_setSq_eq; [now rewrite hasRow_setSq | lia].
    + rewrite !(getSq_setSq_ne _ _ _ _ (fromR m) 2) by (apply Hne; lia).
      apply getSq_setSq_eq; [assumption | lia].
    + rewrite (getSq_setSq_ne _ _ 0 _ (fromR m) 3) by (apply Hne; lia).
      rewrite getSq_setSq_eq by (rewrite ?hasRow_setSq; auto; lia).
      now rewrite !(getSq_setSq_ne _ _ _ _ (fromR m) 0) by (apply Hne; lia).
    + apply getSq_setSq_eq; [now rewrite !hasRow_setSq | lia].
    + intros r c [Hr | (H4 & H6 & H5 & H7)].
      * rewrite !(getSq_setSq_ne _ (fromR m) _ _ r c); auto.
      * rewrite !(getSq_setSq_ne _ _ _ _ r c); auto; congruence.
Qed.


(** X9: castling moves the rook with the king. When the king on the
    e-file moves two files along its rank, [applyRawMove] puts it on the
    g- or c-file, carries what stands on the h- or a-file corner of that
    rank to the f- or d-file, empties the king's square and the corner,
    leaves every other square as it was, and withdraws both castling
    rights of the king's side. *)
Theorem castling_move_effect (s : GameState) (m : RawMove) (king : Piece)
  (kingside : bool) :
  List.length (board s) = 8%nat ->
  inBounds (fromR m) (fromC m) = true ->
  fromC m = 4 -> toR m = fromR m ->
  toC m = (if kingside then 6 else 2) ->
  promotion m = None ->
  getSq (board s) (fromR m) (fromC m) = Some king ->
  type king = King ->
  exists s',
    applyRawMove s m = Some s'
    /\ getSq (board s') (fromR m) 4 = None
    /\ getSq (board s') (fromR m) (toC m) = Some king
    /\ getSq (board s') (fromR m) (if kingside then 5 else 3)
       = getSq (board s) (fromR m) (if kingside then 7 else 0)
    /\ getSq (board s') (fromR m) (if kingside then 7 else 0) = None
    /\ (forall r c,
          r <> fromR m
          \/ (c <> 4 /\ c <> toC m
              /\ c <> (if kingside then 5 else 3)
              /\ c <> (if kingside then 7 else 0)) ->
          getSq (board s') r c = getSq (board s) r c)
    /\ holdsRight (castling s') (color king) = false.
Proof.
  intros H8 Hfb Hfc Htr Htc Hpr Hking Hty.
  pose proof (inBounds_hasRow _ _ _ H8 Hfb) as Hrow.
  destruct (moveBoard_castle s m king kingside H8 Hfb Hfc Htr Htc Hpr Hty)
    as (H1 & H2 & H3 & H4 & H5).
  unfold applyRawMove. rewrite Htr, Hrow, Hking. cbn [negb orb].
  eexists. split; [reflexivity|]. cbn [board castling].
  repeat split; auto.
  apply holdsRight_king_moved. now apply isType_true.
Qed.

Lemma castling_move_effect_witness :
  exists s',
    applyRawMove castleReady (mkRaw 7 4 7 6 None) = Some s'
    /\ getSq (board s') 7 4 = None
    /\ getSq (board s') 7 6 = Some (mkPiece White King)
    /\ getSq (board s') 7 5 = getSq (board castleReady) 7 7
    /\ getSq (board s') 7 7 = None
    /\ (forall r c,
          r <> 7 \/ (c <> 4 /\ c <> 6 /\ c <> 5 /\ c <> 7) ->
          getSq (board s') r c = getSq (board castleReady) r c)
    /\ holdsRight (castling s') White = false.
Proof.
  apply (castling_move_effect castleReady (mkRaw 7 4 7 6 None)
           (mkPiece White King) true); reflexivity.
Defined.

(** ** The en-passant target, from the push that sets it to the capture *)

Lemma rcToSq_truthy r c :
  inBounds r c = true -> epSquareOf (Some (rcToSq r c)) = Some (r, c).
Proof.
  intros Hb. unfold epSquareOf. rewrite (sqToRC_rcToSq _ _ Hb).
  destruct (rcToSq_inBounds _ _ Hb) as (f & k & -> & _). reflexivity.
Qed.

(** A pawn that advances two ranks stood on its start rank, with the two
    squares ahead of it empty. *)
Lemma double_push_shape s m piece :
  In m (generatePseudoLegalMoves s) ->
  getSq (board s) (fromR m) (fromC m) = Some piece ->
  type piece = Pawn ->
  Z.abs (toR m - fromR m) = 2 ->
  toR m = fromR m + 2 * pawnDirOf (turn s) /\ toC m = fromC m
  /\ promotion m = None
  /\ inBounds (fromR m + pawnDirOf (turn s)) (fromC m) = true
  /\ getSq (board s) (fromR m + pawnDirOf (turn s)) (fromC m) = None
  /\ colorIs (color piece) (turn s) = true
  /\ fromR m = startRankOf (turn s).
Proof.
  intros Hm Hp Hty Habs.
  apply pseudo_In in Hm as [_ Hm]. unfold pieceMoves in Hm.
  rewrite Hp, Hty in Hm.
  destruct (colorIs (color piece) (turn s)) eqn:Hc; [|contradiction].
  cbn [negb] in Hm. unfold pawnMoves in Hm.
  pose proof (pawnDirOf_cases (turn s)) as Hdir.
  apply in_app_or in Hm as [Hm | Hm].
  - unfold pawnForward in Hm.
    destruct (inBounds (fromR m + pawnDirOf (turn s)) (fromC m)
              && emptySq (getSq (board s) (fromR m + pawnDirOf (turn s))
                            (fromC m))) eqn:E; [|contradiction].
    apply andb_true_iff in E as [Hb He].
    apply in_app_or in Hm as [Hm | Hm].
    + apply pawnArrive_to in Hm as [Hr _]. lia.
    + destruct ((fromR m =? startRankOf (turn s)) && _) eqn:E2 in Hm;
        [|contradiction].
      apply andb_true_iff in E2 as [E2 _]. apply Z.eqb_eq in E2.
      destruct Hm as [Hm | []].
      pose proof (f_equal toR Hm) as Hr. pose proof (f_equal toC Hm) as Hcc.
      pose proof (f_equal promotion Hm) as Hpr.
      cbn [toR toC promotion] in Hr, Hcc, Hpr.
      repeat split; auto.
      now destruct (getSq (board s) (fromR m + pawnDirOf (turn s)) (fromC m)).
  - apply in_flat_map in Hm as (dc & _ & Hm).
    apply pawnCapture_to in Hm as [Hr _]. lia.
Qed.

(** X10: a two-square pawn advance can be answered by an en-passant
    capture. After a pseudo-legal move of a pawn over two ranks,
    [applyRawMove] names the square passed over as the en-passant target,
    and in the new state the generator gives every enemy pawn standing
    beside the arrival square the capture onto the passed square. *)
Theorem double_push_enables_en_passant (s : GameState) (m : RawMove)
  (piece q : Piece) (dc : Z) :
  validState s = true ->
  In m (generatePseudoLegalMoves s) ->
  getSq (board s) (fromR m) (fromC m) = Some piece ->
  type piece = Pawn ->
  Z.abs (toR m - fromR m) = 2 ->
  dc = 1 \/ dc = -1 ->
  inBounds (toR m) (toC m + dc) = true ->
  getSq (board s) (toR m) (toC m + dc) = Some q ->
  type q = Pawn -> color q <> color piece ->
  exists s',
    applyRawMove s m = Some s'
    /\ enPassant s' = Some (rcToSq ((fromR m + toR m) / 2) (fromC m))
    /\ In (mkRaw (toR m) (toC m + dc) ((fromR m + toR m) / 2) (fromC m) None)
         (generatePseudoLegalMoves s').
Proof.
  intros Hv Hm Hp Hty Habs Hdc Hqb Hq Hqty Hqc.
  pose proof (validState_rows _ Hv) as H8.
  pose proof (validState_turn _ Hv) as Ht.
  destruct (pseudo_ok _ _ Hm) as (Hfb & Htb & _).
  destruct (double_push_shape _ _ _ Hm Hp Hty Habs)
    as (Hr & Hc & Hpr & Hmb & Hmid & Hcol & _).
  pose proof (pawnDirOf_cases (turn s)) as Hdir.
  assert (Hhalf : (fromR m + toR m) / 2 = fromR m + pawnDirOf (turn s)).
  { rewrite Hr.
    replace (fromR m + (fromR m + 2 * pawnDirOf (turn s)))
      with ((fromR m + pawnDirOf (turn s)) * 2) by lia.
    apply Z.div_mul. lia. }
  rewrite Hhalf.
  pose proof (inBounds_hasRow _ _ _ H8 Hfb) as Hrow.
  pose proof (inBounds_hasRow _ _ _ H8 Htb) as Hrow'.
  assert (HP : isType piece Pawn = true) by now apply isType_true.
  assert (Hne : (fromR m, fromC m) <> (toR m, toC m))
    by (intros [= E _]; lia).
  assert (HnK : type piece = King -> Z.abs (toC m - fromC m) <> 2)
    by (intros; congruence).
  destruct (moveBoard_plain s m piece H8 Hfb Htb Hne HnK)
    as (_ & _ & Hframe).
  unfold applyRawMove. rewrite Hrow, Hrow', Hp. cbn [negb orb].
  eexists. split; [reflexivity|]. cbn [enPassant].
  split.
  { unfold nextEnPassant. rewrite HP, Hhalf.
    replace (Z.abs (toR m - fromR m) =? 2) with true
      by (symmetry; now apply Z.eqb_eq).
    reflexivity. }
  set (s' := mkState _ _ _ _ _ _).
  assert (Hturn : turn s' = nextTurn (turn s)) by reflexivity.
  assert (Hdir' : pawnDirOf (turn s') = - pawnDirOf (turn s)).
  { rewrite Hturn. unfold nextTurn, pawnDirOf.
    destruct Ht as [-> | ->]; reflexivity. }
  assert (Hqcol : colorIs (color q) (turn s') = true).
  { rewrite Hturn. revert Hcol Hqc. unfold colorIs, nextTurn.
    destruct Ht as [-> | ->], (color q), (color piece); simpl; congruence. }
  assert (Hq' : getSq (board s') (toR m) (toC m + dc) = Some q).
  { rewrite <- Hq. apply Hframe.
    - intros [= E _]; lia.
    - intros [= E]; lia.
    - intros _ _ [= E _]; lia. }
  assert (Hmid' : getSq (board s') (fromR m + pawnDirOf (turn s)) (fromC m)
                  = None).
  { rewrite <- Hmid. apply Hframe.
    - intros [= E]; lia.
    - intros [= E _]; lia.
    - intros _ _ [= E _]; lia. }
  apply pseudo_In. cbn [fromR fromC]. split; [exact Hqb|].
  unfold pieceMoves. rewrite Hq', Hqcol, Hqty. cbn [negb].
  unfold pawnMoves. apply in_or_app. right. apply in_flat_map.
  exists (- dc). split; [simpl; lia|].
  unfold pawnCapture. rewrite Hdir'.
  replace (toR m + - pawnDirOf (turn s))
    with (fromR m + pawnDirOf (turn s)) by lia.
  replace (toC m + dc + - dc) with (fromC m) by lia.
  rewrite Hmb, Hmid'. cbn [negb enemyPiece].
  assert (Hep : epSquare s'
                = Some (fromR m + pawnDirOf (turn s), fromC m)).
  { unfold epSquare. subst s'. cbn [enPassant]. unfold nextEnPassant.
    rewrite HP, Hhalf.
    replace (Z.abs (toR m - fromR m) =? 2) with true
      by (symmetry; now apply Z.eqb_eq).
    cbn [andb]. now apply rcToSq_truthy. }
  rewrite Hep, !Z.eqb_refl. left. reflexivity.
Qed.

Lemma double_push_enables_en_passant_witness :
  exists s',
    applyRawMove pushReady (mkRaw 6 4 4 4 None) = Some s'
    /\ enPassant s' = Some "e3"%string
    /\ In (mkRaw 4 3 5 4 None) (generatePseudoLegalMoves s').
Proof.
  apply (double_push_enables_en_passant pushReady (mkRaw 6 4 4 4 None)
           (mkPiece White Pawn) (mkPiece Black Pawn) (-1));
    try reflexivity; try (vm_compute; tauto); try discriminate.
Defined.

(** ** The clocks *)





(** ** Where a move may land *)

Lemma pawnCapture_lands s r c dc m :
  In m (pawnCapture s r c dc) ->
  enemyPiece (getSq (board s) (toR m) (toC m)) (turn s) = true
  \/ epSquare s = Some (toR m, toC m).
Proof.
  unfold pawnCapture.
  destruct (negb (inBounds (r + pawnDirOf (turn s)) (c + dc)));
    [contradiction|].
  destruct (enemyPiece _ _) eqn:E.
  - intros H. apply pawnArrive_to in H as [-> ->]. now left.
  - destruct (epSquare s) as [[er ec]|]; [|contradiction].
    destruct ((er =? r + pawnDirOf (turn s)) && (ec =? c + dc)) eqn:E2;
      [|contradiction].
    apply andb_true_iff in E2 as [E1 E2]. apply Z.eqb_eq in E1, E2.
    intros [<- | []]. cbn [toR toC]. right. congruence.
Qed.

Lemma colorIs_true_side s p :
  colorIs (color p) (turn s) = true -> color p = sideToMove s.
Proof.
  unfold colorIs. intros H. apply String.eqb_eq in H.
  unfold sideToMove. rewrite <- H. now destruct (color p).
Qed.

(** Where the generator lets a piece land. *)
Lemma pseudo_lands (s : GameState) (m : RawMove) :
  In m (generatePseudoLegalMoves s) ->
  freeOrEnemy (getSq (board s) (toR m) (toC m)) (turn s) = true
  \/ (isPiece (getSq (board s) (fromR m) (fromC m)) (sideToMove s) Pawn
      = true
      /\ epSquare s = Some (toR m, toC m)
      /\ Z.abs (toC m - fromC m) = 1).
Proof.
  intros Hm. apply pseudo_In in Hm as [_ Hm]. unfold pieceMoves in Hm.
  destruct (getSq (board s) (fromR m) (fromC m)) as [piece|] eqn:Hp;
    [|contradiction].
  destruct (colorIs (color piece) (turn s)) eqn:Hc; [|contradiction].
  cbn [negb] in Hm.
  assert (Hempty : forall sq, sq = None -> freeOrEnemy sq (turn s) = true)
    by (intros sq ->; reflexivity).
  destruct (type piece) eqn:Hty.
  - apply in_app_or in Hm as [Hm | Hm].
    + left. apply Hempty. now apply (pawnForward_empty s (fromR m) (fromC m) m).
    + apply in_flat_map in Hm as (dc & Hdc & Hm).
      destruct (pawnCapture_lands _ _ _ _ _ Hm) as [H | H].
      * left. now apply enemy_freeOrEnemy.
      * right. apply pawnCapture_to in Hm as [_ Hto].
        split; [|split; auto].
        -- unfold isPiece. rewrite Hty, (colorIs_true_side _ _ Hc).
           now destruct (sideToMove s).
        -- simpl in Hdc. lia.
  - apply offsetMoves_In in Hm as (d & _ & Hmeq & _ & Hf).
    left. rewrite Hmeq. exact Hf.
  - apply slideMoves_iff in Hm as (d & k & _ & _ & Hmeq & _ & _ & Hf).
    + left. rewrite Hmeq. exact Hf.
    + intros d Hd. apply compass_unit, in_or_app. now right.
  - apply slideMoves_iff in Hm as (d & k & _ & _ & Hmeq & _ & _ & Hf).
    + left. rewrite Hmeq. exact Hf.
    + intros d Hd. apply compass_unit, in_or_app. now left.
  - apply slideMoves_iff in Hm as (d & k & _ & _ & Hmeq & _ & _ & Hf).
    + left. rewrite Hmeq. exact Hf.
    + intros d Hd. apply compass_unit.
      apply in_app_or in Hd as [Hd | Hd]; apply in_or_app; auto.
  - apply in_app_or in Hm as [Hm | Hm].
    + apply offsetMoves_In in Hm as (d & _ & Hmeq & _ & Hf).
      left. rewrite Hmeq. exact Hf.
    + left. apply Hempty. now apply (castlingMoves_empty s (fromR m) (fromC m) m).
  - contradiction.
Qed.


(** X12: no piece is sent onto a piece of its own side, en passant apart.
    Every pseudo-legal move lands on an empty square or on an enemy piece,
    unless it is the diagonal step of a pawn onto the en-passant target of
    the state, for which the generator does not look at the target
    square. *)
Theorem moves_land_on_free_or_enemy (s : GameState) (m : RawMove) :
  List.length (board s) = 8%nat ->
  In m (generatePseudoLegalMoves s) ->
  freeOrEnemy (getSq (board s) (toR m) (toC m)) (turn s) = true
  \/ (isPiece (getSq (board s) (fromR m) (fromC m)) (sideToMove s) Pawn
      = true
      /\ epSquare s = Some (toR m, toC m)
      /\ Z.abs (toC m - fromC m) = 1).
Proof. intros _. apply pseudo_lands. Qed.

Lemma moves_land_on_free_or_enemy_witness :
  freeOrEnemy (getSq (board startState) 4 4) (turn startState) = true
  \/ (isPiece (getSq (board startState) 6 4) (sideToMove startState) Pawn
      = true
      /\ epSquare startState = Some (4, 4)
      /\ Z.abs (4 - 4) = 1).
Proof.
  apply (moves_land_on_free_or_enemy startState (mkRaw 6 4 4 4 None));
    [reflexivity|].
  vm_compute. tauto.
Defined.

(** The exception occurs: with the target on a square that holds a black
    knight, the black pawn beside it is given the move onto the knight. *)
Example pawn_onto_own_knight :
  In (mkRaw 1 4 2 3 None) (generatePseudoLegalMoves ownOnTarget)
  /\ getSq (board ownOnTarget) 2 3 = Some (mkPiece Black Knight).
Proof. vm_compute. tauto. Qed.

(** The en-passant target after a transition from a valid state. *)
Lemma en_passant_after s m s' sq :
  validState s = true ->
  In m (generatePseudoLegalMoves s) ->
  applyRawMove s m = Some s' ->
  enPassant s' = Some sq ->
  exists r c,
    sq = rcToSq r c /\ inBounds r c = true
    /\ r = (if String.eqb (turn s') "b" then 5 else 2)
    /\ getSq (board s') r c = None
    /\ exists p,
         getSq (board s') (r - pawnDirOf (turn s')) c = Some p
         /\ type p = Pawn /\ colorIs (color p) (turn s') = false.
Proof.
  intros Hv Hm Ha Hep.
  pose proof (validState_rows _ Hv) as H8.
  pose proof (validState_turn _ Hv) as Ht.
  destruct (pseudo_ok _ _ Hm) as (Hfb & Htb & _ & piece & Hp & _).
  pose proof (inBounds_hasRow _ _ _ H8 Hfb) as Hrow.
  pose proof (inBounds_hasRow _ _ _ H8 Htb) as Hrow'.
  unfold applyRawMove in Ha. rewrite Hrow, Hrow', Hp in Ha.
  cbn [negb orb] in Ha. injection Ha as <-.
  cbn [enPassant board turn] in *. unfold nextEnPassant in Hep.
  destruct (isType piece Pawn) eqn:HP; [|discriminate].
  destruct (Z.abs (toR m - fromR m) =? 2) eqn:Habs; [|discriminate].
  cbn [andb] in Hep. injection Hep as <-.
  apply Z.eqb_eq in Habs. apply isType_true in HP.
  destruct (double_push_shape _ _ _ Hm Hp HP Habs)
    as (Hr & Hc & Hpr & Hmb & Hmid & Hcol & Hstart).
  pose proof (pawnDirOf_cases (turn s)) as Hdir.
  assert (Hhalf : (fromR m + toR m) / 2 = fromR m + pawnDirOf (turn s)).
  { rewrite Hr.
    replace (fromR m + (fromR m + 2 * pawnDirOf (turn s)))
      with ((fromR m + pawnDirOf (turn s)) * 2) by lia.
    apply Z.div_mul. lia. }
  rewrite Hhalf.
  assert (Hne : (fromR m, fromC m) <> (toR m, toC m))
    by (intros [= E _]; lia).
  assert (HnK : type piece = King -> Z.abs (toC m - fromC m) <> 2)
    by (intros; congruence).
  destruct (moveBoard_plain s m piece H8 Hfb Htb Hne HnK)
    as (_ & Hto & Hframe).
  exists (fromR m + pawnDirOf (turn s)), (fromC m).
  split; [reflexivity|]. split; [exact Hmb|]. split; [|split].
  - rewrite Hstart. unfold startRankOf, pawnDirOf, nextTurn.
    destruct Ht as [-> | ->]; reflexivity.
  - rewrite <- Hmid. apply Hframe.
    + intros [= E]; lia.
    + intros [= E _]; lia.
    + intros _ _ [= E _]; lia.
  - exists piece.
    replace (fromR m + pawnDirOf (turn s) - pawnDirOf (nextTurn (turn s)))
      with (toR m).
    2:{ rewrite Hr. unfold pawnDirOf, nextTurn.
        destruct Ht as [-> | ->]; simpl; lia. }
    rewrite <- Hc. split; [|split; auto].
    + rewrite Hto. unfold arriving. now rewrite Hpr.
    + revert Hcol. unfold colorIs, nextTurn.
      destruct Ht as [-> | ->], (color piece); simpl; congruence.
Qed.

(** X13: in every state reached from the starting position, an
    en-passant target is the name of an empty square of the sixth rank of
    the side to move, and the enemy pawn that has just passed over it
    stands on the next square of its file. *)
Theorem reachable_en_passant_target (s : GameState) (sq : string) :
  reachable s ->
  enPassant s = Some sq ->
  exists r c,
    sq = rcToSq r c /\ inBounds r c = true
    /\ r = (if String.eqb (turn s) "b" then 5 else 2)
    /\ getSq (board s) r c = None
    /\ exists p,
         getSq (board s) (r - pawnDirOf (turn s)) c = Some p
         /\ type p = Pawn /\ colorIs (color p) (turn s) = false.
Proof.
  intros Hr Hep. destruct Hr as [|s0 fuel uci s lm Hr0 Hmk].
  - discriminate.
  - destruct (reachable_kingsAtHome _ Hr0) as [Hv _].
    destruct (makeMove_pseudo _ _ _ _ _ Hv Hmk) as [Hm Ha].
    eapply en_passant_after; eauto.
Qed.

Lemma reachable_en_passant_target_witness :
  exists s lm,
    makeMove 1 startState "e2e4" = Ret (Some (s, lm))
    /\ exists r c,
         "e3"%string = rcToSq r c /\ inBounds r c = true
         /\ r = (if String.eqb (turn s) "b" then 5 else 2)
         /\ getSq (board s) r c = None
         /\ exists p,
              getSq (board s) (r - pawnDirOf (turn s)) c = Some p
              /\ type p = Pawn /\ colorIs (color p) (turn s) = false.
Proof.
  assert (exists s lm,
             makeMove 1 startState "e2e4" = Ret (Some (s, lm))
             /\ enPassant s = Some "e3"%string) as (s & lm & E & Hep)
    by (vm_compute; eauto).
  exists s, lm. split; [exact E|].
  exact (reachable_en_passant_target s "e3"
           (reach_move _ _ _ _ _ reach_start E) Hep).
Defined.

(** ** The check marks of the notation *)

Lemma lastChar_app_r a b ch :
  lastChar b = Some ch -> lastChar (a ++ b) = Some ch.
Proof.
  intros Hb. induction a as [|x a IH]; [exact Hb|].
  cbn [append lastChar]. destruct (a ++ b)%string eqn:E; [|exact IH].
  simpl in IH. discriminate.
Qed.

Lemma lastChar_rcToSq r c :
  inBounds r c = true ->
  exists ch, lastChar (rcToSq r c) = Some ch
             /\ ch <> "#"%char /\ ch <> "+"%char.
Proof.
  intros Hb. destruct (rcToSq_inBounds _ _ Hb) as (f & k & -> & Hk & _).
  apply inBounds_iff in Hb as [Hr _].
  exists k. split; [reflexivity|].
  split; intros ->; vm_compute in Hk; lia.
Qed.

(** The notation of a move that is no castling: a text that ends in a rank
    digit or a promotion letter, then the mark. *)
Lemma generateSAN_shape rec s i m all piece next :
  getSq (board s) (fromR m) (fromC m) = Some piece ->
  applyRawMove s m = Some next ->
  inBounds (toR m) (toC m) = true -> promoOK m ->
  castlingShape piece m = false ->
  exists base ch,
    lastChar base = Some ch /\ ch <> "#"%char /\ ch <> "+"%char
    /\ generateSAN rec s i m all
       = if isInCheck (board next) (turn next)
         then obind (rec next)
                (fun nextMoves =>
                   Ret (base ++ (if Nat.eqb (List.length nextMoves) 0
                                 then "#" else "+"))%string)
         else Ret base.
Proof.
  intros Hp Ha Hb Hpr Hshape.
  destruct (lastChar_rcToSq _ _ Hb) as (k & Hk & Hk1 & Hk2).
  unfold castlingShape in Hshape.
  unfold generateSAN. rewrite Hp, Ha. cbv zeta.
  destruct (isType piece King) eqn:EK.
  - cbn [andb] in Hshape. apply orb_false_iff in Hshape as [-> ->].
    cbn [andb]. cbv iota.
    assert (HP : isType piece Pawn = false).
    { apply isType_false. apply isType_true in EK. congruence. }
    rewrite HP. eexists; exists k.
    split; [|split; [|split; [|reflexivity]]]; auto.
    now repeat apply lastChar_app_r.
  - cbn [andb]. cbv iota.
    destruct (isType piece Pawn) eqn:HP.
    + destruct Hpr as [Hn | (p & Hn & Hin)]; rewrite Hn.
      * eexists; exists k.
        split; [|split; [|split; [|reflexivity]]]; auto.
        apply lastChar_app_r. now rewrite string_app_nil.
      * eexists; exists (toUpperCase (typeChar p)).
        split; [|split; [|split; [|reflexivity]]].
        -- now repeat apply lastChar_app_r.
        -- simpl in Hin. intuition (subst; discriminate).
        -- simpl in Hin. intuition (subst; discriminate).
    + eexists; exists k.
      split; [|split; [|split; [|reflexivity]]]; auto.
      now repeat apply lastChar_app_r.
Qed.

(** Every returned record was built by the callback from a legal move. *)
Lemma getLegalMoves_callback f s lms lm :
  List.length (board s) = 8%nat ->
  getLegalMoves (S f) s = Ret lms -> In lm lms ->
  exists i m,
    In m (legalList s)
    /\ toLegalMove (getLegalMoves f) s (legalList s) (i, m) = Ret lm.
Proof.
  intros H8 H Hin. cbn [getLegalMoves] in H.
  rewrite legalRaw_eq in H by assumption.
  apply omap_Ret in H.
  destruct (Forall2_In_r _ _ _ _ H Hin) as ([i m] & Him & Hcall).
  exists i, m. split; auto. now apply In_indexed in Him.
Qed.

Lemma lastChar_snoc a ch : lastChar (a ++ String ch EmptyString) = Some ch.
Proof. now apply lastChar_app_r. Qed.

(** X14: the check marks of the notation tell the state of the opponent.
    For every record that [getLegalMoves] returns, the move applies; when
    it is the two-file move of a king, the notation is [O-O] or [O-O-O]
    without any mark; otherwise the notation ends in [#] exactly when the
    opponent is left in check without a legal move, and in [+] exactly
    when it is left in check with one. *)
Theorem san_check_marks (fuel : nat) (s : GameState) (lms : list LegalMove)
  (lm : LegalMove) :
  validState s = true ->
  getLegalMoves fuel s = Ret lms -> In lm lms ->
  exists piece next,
    getSq (board s) (fromR (rawOfLegal lm)) (fromC (rawOfLegal lm))
    = Some piece
    /\ applyRawMove s (rawOfLegal lm) = Some next
    /\ if castlingShape piece (rawOfLegal lm)
       then lm_san lm = "O-O"%string \/ lm_san lm = "O-O-O"%string
       else
         (lastChar (lm_san lm) = Some "#"%char <->
          isInCheck (board next) (turn next) = true /\ legalList next = [])
         /\ (lastChar (lm_san lm) = Some "+"%char <->
             isInCheck (board next) (turn next) = true
             /\ legalList next <> []).
Proof.
  intros Hv Hret Hin. pose proof (validState_rows _ Hv) as H8.
  destruct fuel as [|f]; [discriminate|].
  destruct (getLegalMoves_callback _ _ _ _ H8 Hret Hin)
    as (i & m & Hm & Hcall).
  pose proof (toLegalMove_Ret _ _ _ _ _ Hcall) as Hdesc. cbn [snd] in Hdesc.
  destruct (legalList_ok _ _ Hm) as (Hfb & Htb & Hpr).
  rewrite (rawOfLegal_describes _ _ _ Hfb Htb Hdesc).
  destruct (legalList_applies _ _ H8 Hm) as (piece & next & Hp & Ha & H8').
  exists piece, next. split; auto. split; auto.
  unfold toLegalMove in Hcall. cbn [fst snd] in Hcall. rewrite Hp in Hcall.
  destruct (generateSAN (getLegalMoves f) s i m (legalList s)) as [san| |]
    eqn:Hsan; try discriminate.
  cbn [obind] in Hcall. injection Hcall as <-. cbn [lm_san].
  destruct (castlingShape piece m) eqn:Hshape.
  - unfold castlingShape in Hshape.
    apply andb_true_iff in Hshape as [EK Hd].
    unfold generateSAN in Hsan. rewrite Hp, EK in Hsan. cbv zeta in Hsan.
    cbn [andb] in Hsan.
    destruct (toC m - fromC m =? 2); [left; congruence|].
    cbn [orb] in Hd. rewrite Hd in Hsan. right. congruence.
  - destruct (generateSAN_shape (getLegalMoves f) s i m (legalList s)
                piece next Hp Ha Htb Hpr Hshape)
      as (base & ch & Hlast & Hch1 & Hch2 & Heq).
    rewrite Heq in Hsan.
    destruct (isInCheck (board next) (turn next)) eqn:Hchk.
    + destruct (getLegalMoves f next) as [nextMoves| |] eqn:Hnext;
        try discriminate.
      cbn [obind] in Hsan. injection Hsan as <-.
      pose proof (getLegalMoves_length _ _ _ H8' Hnext) as Hlen.
      destruct (Nat.eqb (List.length nextMoves) 0) eqn:E0.
      * apply Nat.eqb_eq in E0. rewrite E0 in Hlen.
        assert (legalList next = [])
          by (destruct (legalList next); [reflexivity | discriminate]).
        rewrite lastChar_snoc.
        split; split; try tauto; try discriminate;
          intros [_ Hne]; congruence.
      * apply Nat.eqb_neq in E0.
        assert (legalList next <> [])
          by (intros E; rewrite E in Hlen; simpl in Hlen; lia).
        rewrite lastChar_snoc.
        split; split; try tauto; try discriminate;
          intros [_ Hne]; congruence.
    + injection Hsan as <-. rewrite Hlast.
      split; split; try (intros [H _]; discriminate); intros [= H];
        congruence.
Qed.

Lemma san_check_marks_witness :
  exists lms lm,
    getLegalMoves 1 startState = Ret lms /\ In lm lms
    /\ exists piece next,
         getSq (board startState) (fromR (rawOfLegal lm))
           (fromC (rawOfLegal lm)) = Some piece
         /\ applyRawMove startState (rawOfLegal lm) = Some next
         /\ if castlingShape piece (rawOfLegal lm)
            then lm_san lm = "O-O"%string \/ lm_san lm = "O-O-O"%string
            else
              (lastChar (lm_san lm) = Some "#"%char <->
               isInCheck (board next) (turn next) = true
               /\ legalList next = [])
              /\ (lastChar (lm_san lm) = Some "+"%char <->
                  isInCheck (board next) (turn next) = true
                  /\ legalList next <> []).
Proof.
  assert (exists lm rest, getLegalMoves 1 startState = Ret (lm :: rest))
    as (lm & rest & E) by (vm_compute; eauto).
  exists (lm :: rest), lm. split; [exact E|]. split; [now left|].
  exact (san_check_marks 1 startState (lm :: rest) lm eq_refl E
           (or_introl eq_refl)).
Defined.

(** The scholar's mate, in the notation of the engine. *)
Example scholars_mate_notation :
  option_map snd
    (playAll 2 startState
       ["e2e4"; "e7e5"; "f1c4"; "b8c6"; "d1h5"; "g8f6"; "h5f7"]%string)
  = Some ["e4"; "e5"; "Bc4"; "Nc6"; "Qh5"; "Nf6"; "Qxf7#"]%string.
Proof. vm_compute. reflexivity. Qed.

(** ** Check on a side without a king *)

Lemma findKing_none b t :
  (forall r c, inBounds r c = true -> isKingOf (getSq b r c) t = false) ->
  findKing b t = (-1, -1).
Proof.
  intros H. unfold findKing.
  destruct (find _ allSquares) as [[r c]|] eqn:E; auto.
  apply find_some in E as [Hin Hk]. apply In_allSquares in Hin.
  cbn [fst snd] in Hk. rewrite (H _ _ Hin) in Hk. discriminate.
Qed.

(** X15: a side without a king can still be in check. When no square
    holds a king of the side, [findKing] gives (-1, -1) and [isInCheck]
    asks the oracle about that square off the board; the answer is yes
    exactly when an enemy king, or a white enemy pawn, stands on a8, an
    enemy knight on a7 or b8, or the first piece on the diagonal from a8
    to h1 is an enemy bishop or queen. *)
Theorem check_without_king (b : Board) (t : string) :
  List.length b = 8%nat ->
  (forall r c, inBounds r c = true -> isKingOf (getSq b r c) t = false) ->
  (isInCheck b t = true <->
   (exists p, getSq b 0 0 = Some p /\ color p = enemyOf t
              /\ (type p = King \/ (type p = Pawn /\ enemyOf t = White)))
   \/ (exists p, (getSq b 1 0 = Some p \/ getSq b 0 1 = Some p)
                 /\ color p = enemyOf t /\ type p = Knight)
   \/ (exists k p,
         0 <= k < 8
         /\ (forall j, 0 <= j < k -> getSq b j j = None)
         /\ getSq b k k = Some p /\ color p = enemyOf t
         /\ (type p = Bishop \/ type p = Queen))).
Proof.
  intros H8 Hnone. unfold isInCheck. rewrite (findKing_none _ _ Hnone).
  assert (Hatt : isAttackedBy b (-1) (-1) (enemyOf t) = true
                 <-> attacked b (-1) (-1) (enemyOf t)) by oracle_cases.
  rewrite Hatt. unfold attacked. split.
  - intros [H | [H | [H | [H | H]]]].
    + destruct H as (d & p & Hd & Hin & Hp & Hc & Hty).
      left. exists p. apply inBounds_iff in Hin.
      destruct (enemyOf t) eqn:Ee; simpl in Hd;
        destruct Hd as [<- | [<- | []]]; simpl in Hin; try lia.
      simpl in Hp. auto.
    + destruct H as (d & p & Hd & Hin & Hp & Hc & Hty).
      right. left. exists p. apply inBounds_iff in Hin.
      simpl in Hd.
      repeat (destruct Hd as [<- | Hd]; [simpl in Hin, Hp; try lia; auto|]).
      contradiction.
    + destruct H as (d & p & Hd & Hin & Hp & Hc & Hty).
      left. exists p. apply inBounds_iff in Hin.
      simpl in Hd.
      repeat (destruct Hd as [<- | Hd]; [simpl in Hin, Hp; try lia; auto|]).
      contradiction.
    + destruct H as (d & k & p & Hd & Hk & Hin & _).
      specialize (Hin 1 ltac:(lia)). apply inBounds_iff in Hin.
      simpl in Hd.
      repeat (destruct Hd as [<- | Hd]; [simpl in Hin; lia|]).
      contradiction.
    + destruct H as (d & k & p & Hd & Hk & Hin & Hemp & Hp & Hc & Hty).
      assert (d = (1, 1)) as ->.
      { specialize (Hin 1 ltac:(lia)). apply inBounds_iff in Hin.
        simpl in Hd.
        repeat (destruct Hd as [<- | Hd]; [simpl in Hin; try lia; auto|]).
        contradiction. }
      cbn [fst snd] in *. right. right. exists (k - 1), p.
      assert (Hsq : forall j, -1 + j * 1 = j - 1) by (intros; lia).
      rewrite Hsq in Hp. split; [|split; [|split; [|split]]]; auto.
      * specialize (Hin k ltac:(lia)). apply inBounds_iff in Hin. lia.
      * intros j Hj. specialize (Hemp (j + 1) ltac:(lia)).
        rewrite Hsq in Hemp. now replace (j + 1 - 1) with j in Hemp by lia.
      * simpl in Hty. intuition congruence.
  - intros [(p & Hp & Hc & [Hty | [Hty Hw]])
           | [(p & Hp & Hc & Hty) | (k & p & Hk & Hemp & Hp & Hc & Hty)]].
    + right. right. left. exists (1, 1), p. cbn [fst snd].
      change (-1 + 1) with 0. repeat split; auto. simpl. tauto.
    + left. exists (1, 1), p. rewrite Hw. cbn [fst snd].
      change (-1 + 1) with 0. repeat split; auto; try congruence.
      simpl. tauto.
    + right. left. destruct Hp as [Hp | Hp].
      * exists (2, 1), p. cbn [fst snd].
        change (-1 + 2) with 1. change (-1 + 1) with 0.
        repeat split; auto. simpl. tauto.
      * exists (1, 2), p. cbn [fst snd].
        change (-1 + 2) with 1. change (-1 + 1) with 0.
        repeat split; auto. simpl. tauto.
    + do 4 right. exists (1, 1), (k + 1), p. cbn [fst snd].
      assert (Hsq : forall j, -1 + j * 1 = j - 1) by (intros; lia).
      split; [simpl; tauto|]. split; [lia|]. split; [|split; [|split]].
      * intros j Hj. rewrite Hsq. apply inBounds_iff. lia.
      * intros j Hj. rewrite Hsq. apply Hemp. lia.
      * rewrite Hsq. now replace (k + 1 - 1) with k by lia.
      * split; auto. simpl. destruct Hty as [-> | ->]; auto.
Qed.

Lemma kingBishopKnight_no_black_king r c :
  inBounds r c = true ->
  isKingOf (getSq (board kingBishopKnight) r c) "b" = false.
Proof.
  intros H. apply In_allSquares in H.
  assert (Hall : forallb
                   (fun rc =>
                      negb (isKingOf
                              (getSq (board kingBishopKnight) (fst rc)
                                 (snd rc)) "b"))
                   allSquares = true) by (vm_compute; reflexivity).
  rewrite forallb_forall in Hall. specialize (Hall _ H).
  now apply negb_true_iff in Hall.
Qed.

Lemma check_without_king_witness :
  isInCheck (board kingBishopKnight) "b" = true <->
  (exists p, getSq (board kingBishopKnight) 0 0 = Some p
             /\ color p = enemyOf "b"
             /\ (type p = King \/ (type p = Pawn /\ enemyOf "b" = White)))
  \/ (exists p, (getSq (board kingBishopKnight) 1 0 = Some p
                 \/ getSq (board kingBishopKnight) 0 1 = Some p)
                /\ color p = enemyOf "b" /\ type p = Knight)
  \/ (exists k p,
        0 <= k < 8
        /\ (forall j, 0 <= j < k -> getSq (board kingBishopKnight) j j = None)
        /\ getSq (board kingBishopKnight) k k = Some p
        /\ color p = enemyOf "b"
        /\ (type p = Bishop \/ type p = Queen)).
Proof.
  apply check_without_king;
    [reflexivity | exact kingBishopKnight_no_black_king].
Defined.

(** ** One king on each side *)

Lemma isKingOf_Some sq t :
  isKingOf sq t = true <->
  exists p, sq = Some p /\ colorIs (color p) t = true /\ type p = King.
Proof.
  unfold isKingOf. destruct sq as [p|].
  - rewrite andb_true_iff, type_eqb_eq. split.
    + intros [H1 H2]. exists p. auto.
    + intros (q & [= <-] & H1 & H2). auto.
  - split; [discriminate | intros (p & H & _); discriminate].
Qed.

Lemma colorIs_nextTurn c a :
  a = "w"%string \/ a = "b"%string ->
  colorIs c (nextTurn a) = negb (colorIs c a).
Proof. intros [-> | ->]; now destruct c. Qed.

Lemma nextTurn_twice a :
  a = "w"%string \/ a = "b"%string -> nextTurn (nextTurn a) = a.
Proof. now intros [-> | ->]. Qed.

Lemma nextTurn_valid a :
  a = "w"%string \/ a = "b"%string ->
  nextTurn a = "w"%string \/ nextTurn a = "b"%string.
Proof. intros [-> | ->]; [now right | now left]. Qed.

Lemma enemyOf_nextTurn s :
  turn s = "w"%string \/ turn s = "b"%string ->
  enemyOf (nextTurn (turn s)) = sideToMove s.
Proof. unfold sideToMove. now intros [-> | ->]. Qed.

(** The castling moves, with what the generator has checked. *)
Lemma castlingMoves_shape s r c m :
  In m (castlingMoves s r c) ->
  (castlingRight s true = true \/ castlingRight s false = true)
  /\ exists kingside : bool,
       m = mkRaw r c (homeRank s) (if kingside then 6 else 2) None
       /\ getSq (board s) (homeRank s) (if kingside then 5 else 3) = None
       /\ exists q, getSq (board s) (homeRank s) (if kingside then 7 else 0)
                    = Some q /\ type q = Rook.
Proof.
  assert (Hrk : forall sq col, isPiece sq col Rook = true ->
                               exists q, sq = Some q /\ type q = Rook).
  { intros [q|] col H; [|discriminate]. exists q. split; auto.
    unfold isPiece in H. apply andb_true_iff in H as [_ H].
    now apply type_eqb_eq in H. }
  assert (Hsq : forall sq, emptySq sq = true -> sq = None)
    by (intros [q|]; [discriminate | reflexivity]).
  unfold castlingMoves, castlingRight, sideToMove, homeRank.
  destruct (String.eqb (turn s) "w"); rewrite in_app_iff;
    (intros [H | H];
     match type of H with
     | In _ (if ?x then _ else _) =>
         destruct x eqn:E; [|contradiction]
     end;
     destruct H as [<- | []];
     rewrite !andb_true_iff in E).
  all: split; [tauto|].
  1, 3: exists true.
  3, 4: exists false.
  all: split; [reflexivity|].
  all: split; [apply Hsq; tauto|].
  all: destruct E as [[_ E] _]; eapply Hrk; apply E.
Qed.

(** The three kinds of pseudo-legal move. *)
Lemma pseudo_kinds s m piece :
  In m (generatePseudoLegalMoves s) ->
  getSq (board s) (fromR m) (fromC m) = Some piece ->
  (type piece = King /\ In m (castlingMoves s (fromR m) (fromC m)))
  \/ ((fromR m, fromC m) <> (toR m, toC m)
      /\ (type piece = King ->
          Z.abs (toC m - fromC m) <= 1 /\ promotion m = None)
      /\ (type piece = Pawn ->
          toR m = fromR m + pawnDirOf (turn s)
          \/ (toR m = fromR m + 2 * pawnDirOf (turn s)
              /\ toC m = fromC m))).
Proof.
  intros Hm Hp. apply pseudo_In in Hm as [_ Hm]. unfold pieceMoves in Hm.
  rewrite Hp in Hm.
  destruct (negb (colorIs (color piece) (turn s))); [contradiction|].
  pose proof (pawnDirOf_cases (turn s)) as Hdir.
  assert (Hoff : forall offsets,
             (forall d, In d offsets -> d <> (0, 0) /\ -1 <= snd d <= 1
                                        \/ d <> (0, 0) /\ type piece <> King) ->
             In m (offsetMoves s (fromR m) (fromC m) offsets) ->
             (fromR m, fromC m) <> (toR m, toC m)
             /\ (type piece = King ->
                 Z.abs (toC m - fromC m) <= 1 /\ promotion m = None)).
  { intros offsets Hall H. apply offsetMoves_In in H as (d & Hd & Hmeq & _).
    pose proof (f_equal toR Hmeq) as Hr. pose proof (f_equal toC Hmeq) as Hc.
    pose proof (f_equal promotion Hmeq) as Hpr.
    cbn [toR toC promotion] in Hr, Hc, Hpr.
    destruct d as [dr dc]. cbn [fst snd] in *.
    destruct (Hall _ Hd) as [[Hne Hs] | [Hne Hk]].
    - split.
      + intros [= E1 E2]. apply Hne. f_equal; lia.
      + intros _. split; auto. cbn [snd] in Hs. lia.
    - split.
      + intros [= E1 E2]. apply Hne. f_equal; lia.
      + intros Hk'. congruence. }
  assert (Hsl : forall dirs,
             (forall d, In d dirs -> unitDir d) ->
             In m (slideMoves s (fromR m) (fromC m) dirs) ->
             (fromR m, fromC m) <> (toR m, toC m)).
  { intros dirs Hu H. apply slideMoves_iff in H
      as (d & k & Hd & Hk & Hmeq & _); auto.
    pose proof (f_equal toR Hmeq) as Hr. pose proof (f_equal toC Hmeq) as Hc.
    cbn [toR toC] in Hr, Hc.
    destruct (Hu _ Hd) as (H1 & H2 & Hne). destruct d as [dr dc].
    cbn [fst snd] in *. intros [= E1 E2].
    apply Hne. f_equal; nia. }
  destruct (type piece) eqn:Hty.
  - right. unfold pawnMoves in Hm. apply in_app_or in Hm as [Hm | Hm].
    + apply pawnForward_In in Hm as [_ [Hm | [_ Hm]]].
      * apply pawnArrive_to in Hm as [Hr Hc].
        split; [intros [= E _]; lia|]. split; [discriminate|]. auto.
      * pose proof (f_equal toR Hm) as Hr. pose proof (f_equal toC Hm) as Hc.
        cbn [toR toC] in Hr, Hc.
        split; [intros [= E _]; lia|]. split; [discriminate|]. auto.
    + apply in_flat_map in Hm as (dc & _ & Hm).
      apply pawnCapture_to in Hm as [Hr Hc].
      split; [intros [= E _]; lia|]. split; [discriminate|]. auto.
  - right. destruct (Hoff knightMoves) as [H1 H2]; auto.
    + intros d Hd. right. split; [|discriminate].
      simpl in Hd. intuition (subst; discriminate).
    + split; auto. split; [discriminate | discriminate].
  - right. split; [|split; discriminate].
    apply (Hsl bishopDirs); auto.
    intros d Hd. apply compass_unit, in_or_app. now right.
  - right. split; [|split; discriminate].
    apply (Hsl rookDirs); auto.
    intros d Hd. apply compass_unit, in_or_app. now left.
  - right. split; [|split; discriminate].
    apply (Hsl (bishopDirs ++ rookDirs)); auto.
    intros d Hd. apply compass_unit.
    apply in_app_or in Hd as [Hd | Hd]; apply in_or_app; auto.
  - apply in_app_or in Hm as [Hm | Hm].
    + right. destruct (Hoff kingSteps) as [H1 H2]; auto.
      * intros d Hd. left. simpl in Hd.
        intuition (subst; simpl; try lia; discriminate).
      * split; auto. split; [auto | discriminate].
    + left. auto.
  - contradiction.
Qed.

(** A castling move of a state whose kings are at home. *)
Lemma castling_from_home s m piece :
  validState s = true -> kingsAtHome s = true ->
  In m (generatePseudoLegalMoves s) ->
  getSq (board s) (fromR m) (fromC m) = Some piece ->
  type piece = King ->
  In m (castlingMoves s (fromR m) (fromC m)) ->
  exists kingside : bool,
    fromC m = 4 /\ toR m = fromR m
    /\ toC m = (if kingside then 6 else 2) /\ promotion m = None
    /\ getSq (board s) (fromR m) (if kingside then 5 else 3) = None
    /\ exists q, getSq (board s) (fromR m) (if kingside then 7 else 0)
                 = Some q /\ type q = Rook.
Proof.
  intros Hv Hk Hm Hp Hty Hc.
  pose proof (validState_turn _ Hv) as Ht.
  destruct (pseudo_ok _ _ Hm) as (Hfb & _ & _ & piece' & Hp' & Hcol).
  assert (piece' = piece) by congruence. subst piece'.
  apply castlingMoves_shape in Hc as (Hright & kingside & Hmeq & Hmid & Hrook).
  apply (colorIs_side s piece Ht) in Hcol.
  assert (Hhold : holdsRight (castling s) (color piece) = true).
  { rewrite Hcol. revert Hright. unfold castlingRight, holdsRight.
    destruct (sideToMove s); rewrite orb_true_iff; tauto. }
  rewrite kingsAtHome_spec in Hk.
  destruct (Hk _ _ _ Hfb Hp Hty Hhold) as [Hfr Hfc].
  assert (Hhome : homeRank s = fromR m).
  { rewrite Hfr, Hcol. unfold homeRank, sideToMove.
    now destruct (String.eqb (turn s) "w"). }
  rewrite Hhome in *.
  pose proof (f_equal toR Hmeq) as Hr. pose proof (f_equal toC Hmeq) as Hcc.
  pose proof (f_equal promotion Hmeq) as Hpr.
  cbn [toR toC promotion] in Hr, Hcc, Hpr.
  exists kingside. repeat split; auto.
Qed.

(** The situation of a pawn that moves onto the en-passant target. *)
Lemma beside_target s m piece :
  validState s = true ->
  (forall sq, enPassant s = Some sq -> passedOver s sq) ->
  In m (generatePseudoLegalMoves s) ->
  getSq (board s) (fromR m) (fromC m) = Some piece ->
  type piece = Pawn ->
  epSquare s = Some (toR m, toC m) ->
  getSq (board s) (toR m) (toC m) = None
  /\ ((fromR m, toC m) = (fromR m, fromC m)
      \/ exists p, getSq (board s) (fromR m) (toC m) = Some p
                   /\ type p = Pawn /\ colorIs (color p) (turn s) = false).
Proof.
  intros Hv Hep Hm Hp Hty Heq.
  unfold epSquare, epSquareOf in Heq.
  destruct (enPassant s) as [sq|] eqn:Esq; [|discriminate].
  destruct (truthyStr (Some sq)); [|discriminate].
  destruct (Hep sq eq_refl) as (r & c & -> & Hb & _ & Hnone & p & Hpp & Hpt & Hpc).
  rewrite (sqToRC_rcToSq _ _ Hb) in Heq. injection Heq as -> ->.
  split; auto.
  destruct (pseudo_kinds _ _ _ Hm Hp) as [[Hk _] | (_ & _ & Hrows)];
    [congruence|].
  destruct (Hrows Hty) as [Hr | [_ Hc]].
  - right. exists p. replace (fromR m) with (toR m - pawnDirOf (turn s)) by lia.
    auto.
  - left. congruence.
Qed.

(** The king of the side that does not move stays where it is. *)
Lemma opponent_king_kept s m s' kr kc :
  validState s = true -> kingsAtHome s = true ->
  (forall sq, enPassant s = Some sq -> passedOver s sq) ->
  isInCheck (board s) (nextTurn (turn s)) = false ->
  In m (generatePseudoLegalMoves s) ->
  applyRawMove s m = Some s' ->
  onlyKingAt (board s) (nextTurn (turn s)) kr kc ->
  onlyKingAt (board s') (nextTurn (turn s)) kr kc.
Proof.
  intros Hv Hhome Hep Hsafe Hm Ha Hking.
  pose proof (validState_rows _ Hv) as H8.
  pose proof (validState_turn _ Hv) as Ht.
  destruct (applyRawMove_board _ _ _ Ha) as (piece & Hp & Hbd).
  destruct (pseudo_ok _ _ Hm) as (Hfb & Htb & Hpr & piece' & Hp' & Hcol).
  assert (piece' = piece) by congruence. subst piece'.
  pose proof Hking as (Hkb & Hk & Huniq).
  apply isKingOf_Some in Hk as (K & HK & HKc & HKt).
  rewrite (colorIs_nextTurn _ _ Ht) in HKc. apply negb_true_iff in HKc.
  (* the king is not captured *)
  assert (Hto : (toR m, toC m) <> (kr, kc)).
  { intros [= E1 E2].
    assert (Hatt : attacked (board s) kr kc (sideToMove s)).
    { apply (moves_onto_iff_attacked s kr kc Ht Hkb).
      - rewrite HK. cbn [enemyPiece]. now rewrite HKc.
      - exists m. auto. }
    assert (Hor : isAttackedBy (board s) kr kc (sideToMove s) = true
                  <-> attacked (board s) kr kc (sideToMove s))
      by oracle_cases.
    apply Hor in Hatt.
    rewrite (isInCheck_only _ _ _ _ Hking), (enemyOf_nextTurn _ Ht) in Hsafe.
    congruence. }
  assert (Hfrom : (fromR m, fromC m) <> (kr, kc)).
  { intros [= E1 E2]. rewrite E1, E2 in Hp. congruence. }
  (* its square is not written *)
  assert (Hsame : getSq (board s') kr kc = getSq (board s) kr kc).
  { rewrite Hbd.
    destruct (pseudo_kinds _ _ _ Hm Hp) as [[Hty Hc] | (Hne & Hkg & Hpw)].
    - destruct (castling_from_home _ _ _ Hv Hhome Hm Hp Hty Hc)
        as (kingside & Hfc & Htr & Htc & Hprm & Hmid & q & Hq & Hqt).
      destruct (moveBoard_castle s m piece kingside H8 Hfb Hfc Htr Htc
                  Hprm Hty) as (_ & _ & _ & _ & Hframe).
      apply Hframe.
      destruct (Z.eq_dec kr (fromR m)) as [-> | Hr]; [right | now left].
      repeat split; intros ->.
      + apply Hfrom. congruence.
      + apply Hto. congruence.
      + congruence.
      + assert (q = K) by congruence. subst q. congruence.
    - assert (HnK : type piece = King -> Z.abs (toC m - fromC m) <> 2)
        by (intros Hty; destruct (Hkg Hty); lia).
      destruct (moveBoard_plain s m piece H8 Hfb Htb Hne HnK)
        as (_ & _ & Hframe).
      apply Hframe; auto.
      intros Hty Heq.
      destruct (beside_target _ _ _ Hv Hep Hm Hp Hty Heq)
        as [_ [E | (p & Hpp & Hpt & _)]].
      + congruence.
      + intros [= E1 E2]. rewrite <- E1, <- E2 in Hpp.
        assert (p = K) by congruence. subst p. congruence. }
  split; [exact Hkb|]. split.
  - rewrite Hsame, HK. apply isKingOf_Some. exists K.
    rewrite (colorIs_nextTurn _ _ Ht), HKc. auto.
  - intros r' c' Hb' Hk'. apply Huniq; auto.
    apply isKingOf_Some in Hk' as (K' & HK' & HKc' & HKt').
    rewrite (colorIs_nextTurn _ _ Ht) in HKc'. apply negb_true_iff in HKc'.
    rewrite Hbd in HK'.
    destruct (moveBoard_cases s piece m r' c') as [H | [H | [H | H]]].
    + congruence.
    + exfalso. rewrite H in HK'. injection HK' as <-.
      unfold arriving in HKc'. destruct (promotion m); cbn [color] in HKc';
        congruence.
    + rewrite <- H, HK'. apply isKingOf_Some. exists K'.
      rewrite (colorIs_nextTurn _ _ Ht), HKc'. auto.
    + exfalso.
      assert (Hty : type piece = King) by (apply isType_true; tauto).
      destruct (pseudo_kinds _ _ _ Hm Hp) as [[_ Hc] | (_ & Hkg & _)].
      * destruct (castling_from_home _ _ _ Hv Hhome Hm Hp Hty Hc)
          as (kingside & Hfc & Htr & Htc & Hprm & Hmid & q & Hq & Hqt).
        destruct H as [(_ & Hd & H) | (_ & Hd & H)]; rewrite H in HK';
          destruct kingside; try lia; congruence.
      * destruct (Hkg Hty) as [Habs _].
        destruct H as [(_ & Hd & _) | (_ & Hd & _)]; lia.
Qed.

(** The side that moves keeps its one king: where it was, or where it has
    gone. *)
Lemma mover_king_kept s m s' kr kc :
  validState s = true -> kingsAtHome s = true ->
  (forall sq, enPassant s = Some sq -> passedOver s sq) ->
  In m (generatePseudoLegalMoves s) ->
  applyRawMove s m = Some s' ->
  onlyKingAt (board s) (turn s) kr kc ->
  exists r c, onlyKingAt (board s') (turn s) r c.
Proof.
  intros Hv Hhome Hep Hm Ha Hking.
  pose proof (validState_rows _ Hv) as H8.
  pose proof (validState_turn _ Hv) as Ht.
  destruct (applyRawMove_board _ _ _ Ha) as (piece & Hp & Hbd).
  destruct (pseudo_ok _ _ Hm) as (Hfb & Htb & Hpr & piece' & Hp' & Hcol).
  assert (piece' = piece) by congruence. subst piece'.
  pose proof Hking as (Hkb & Hk & Huniq).
  apply isKingOf_Some in Hk as (K & HK & HKc & HKt).
  rewrite Hbd.
  destruct (type_eqb (type piece) King) eqn:EK.
  - (* the king moves *)
    apply type_eqb_eq in EK.
    assert (Hfrom : (fromR m, fromC m) = (kr, kc)).
    { apply Huniq; auto. apply isKingOf_Some. exists piece. auto. }
    assert (Hpiece : isKingOf (Some piece) (turn s) = true)
      by (apply isKingOf_Some; eauto).
    exists (toR m), (toC m).
    destruct (pseudo_kinds _ _ _ Hm Hp) as [[_ Hc] | (Hne & Hkg & _)].
    + destruct (castling_from_home _ _ _ Hv Hhome Hm Hp EK Hc)
        as (kingside & Hfc & Htr & Htc & Hprm & Hmid & q & Hq & Hqt).
      destruct (moveBoard_castle s m piece kingside H8 Hfb Hfc Htr Htc
                  Hprm EK) as (H4 & Hnew & Hrook & Hcorner & Hframe).
      split; [exact Htb|]. split.
      * rewrite Htr, Hnew. exact Hpiece.
      * intros r' c' Hb' Hk'. rewrite Htr.
        destruct (Z.eq_dec r' (fromR m)) as [-> | Hr].
        2:{ rewrite Hframe in Hk' by now left.
            specialize (Huniq _ _ Hb' Hk'). congruence. }
        destruct (Z.eq_dec c' (toC m)) as [-> | H1]; [reflexivity|].
        exfalso.
        destruct (Z.eq_dec c' 4) as [-> | H2];
          [rewrite H4 in Hk'; discriminate|].
        destruct (Z.eq_dec c' (if kingside then 5 else 3)) as [-> | H3].
        { rewrite Hrook, Hq in Hk'.
          apply isKingOf_Some in Hk' as (q' & [= <-] & _ & Hq').
          congruence. }
        destruct (Z.eq_dec c' (if kingside then 7 else 0)) as [-> | H5];
          [rewrite Hcorner in Hk'; discriminate|].
        rewrite Hframe in Hk' by (right; auto).
        specialize (Huniq _ _ Hb' Hk'). congruence.
    + destruct (Hkg EK) as [Habs Hprm].
      assert (HnK : type piece = King -> Z.abs (toC m - fromC m) <> 2)
        by (intros _; lia).
      destruct (moveBoard_plain s m piece H8 Hfb Htb Hne HnK)
        as (Hempty & Hnew & Hframe).
      split; [exact Htb|]. split.
      * rewrite Hnew. unfold arriving. rewrite Hprm. exact Hpiece.
      * intros r' c' Hb' Hk'.
        assert (Hdec : forall x y : Z * Z, {x = y} + {x <> y})
          by (decide equality; apply Z.eq_dec).
        destruct (Hdec (r', c') (toR m, toC m)) as [E | Hnt]; [exact E|].
        exfalso.
        destruct (Hdec (r', c') (fromR m, fromC m)) as [E | Hnf].
        -- injection E as -> ->. rewrite Hempty in Hk'. discriminate.
        -- rewrite Hframe in Hk'; auto; [|congruence].
           specialize (Huniq _ _ Hb' Hk'). congruence.
  - (* another piece moves *)
    assert (Hty : type piece <> King).
    { intros E. apply type_eqb_eq in E. congruence. }
    assert (Hfrom : (fromR m, fromC m) <> (kr, kc)).
    { intros [= E1 E2]. rewrite E1, E2 in Hp. congruence. }
    destruct (pseudo_kinds _ _ _ Hm Hp) as [[E _] | (Hne & _ & Hpw)];
      [congruence|].
    assert (HnK : type piece = King -> Z.abs (toC m - fromC m) <> 2)
      by (intros E; congruence).
    destruct (moveBoard_plain s m piece H8 Hfb Htb Hne HnK)
      as (_ & _ & Hframe).
    assert (Hto : (toR m, toC m) <> (kr, kc)).
    { intros [= E1 E2].
      destruct (pseudo_lands _ _ Hm) as [Hf | (Hpawn & Heq & _)].
      - rewrite E1, E2, HK in Hf. cbn [freeOrEnemy] in Hf.
        rewrite HKc in Hf. discriminate.
      - assert (Hpt : type piece = Pawn).
        { rewrite Hp in Hpawn. unfold isPiece in Hpawn.
          apply andb_true_iff in Hpawn as [_ Hpawn].
          now apply type_eqb_eq in Hpawn. }
        destruct (beside_target _ _ _ Hv Hep Hm Hp Hpt Heq) as [Hnone _].
        rewrite E1, E2 in Hnone. congruence. }
    exists kr, kc. split; [exact Hkb|]. split.
    + rewrite Hframe; auto.
      * rewrite HK. apply isKingOf_Some. eauto.
      * intros Hpt Heq.
        destruct (beside_target _ _ _ Hv Hep Hm Hp Hpt Heq)
          as [_ [E | (p & Hpp & _ & Hpc)]].
        -- congruence.
        -- intros [= E1 E2]. rewrite <- E1, <- E2 in Hpp.
           assert (p = K) by congruence. subst p. congruence.
    + intros r' c' Hb' Hk'. apply Huniq; auto.
      apply isKingOf_Some in Hk' as (K' & HK' & HKc' & HKt').
      destruct (moveBoard_cases s piece m r' c') as [H | [H | [H | H]]].
      * congruence.
      * exfalso. rewrite H in HK'. injection HK' as <-.
        unfold arriving in HKt'.
        destruct Hpr as [Hn | (t & Hn & Hin)]; rewrite Hn in HKt'.
        -- congruence.
        -- cbn [type] in HKt'. subst t. simpl in Hin.
           intuition discriminate.
      * rewrite <- H, HK'. apply isKingOf_Some. eauto.
      * exfalso. apply Hty. apply isType_true. tauto.
Qed.

Lemma applyRawMove_turn s m s' :
  applyRawMove s m = Some s' -> turn s' = nextTurn (turn s).
Proof.
  unfold applyRawMove.
  destruct (negb (hasRow _ _) || negb (hasRow _ _)); [discriminate|].
  destruct (getSq (board s) (fromR m) (fromC m)); [|discriminate].
  now intros [= <-].
Qed.

Lemma makeMove_legal fuel s uci s' lm :
  validState s = true ->
  makeMove fuel s uci = Ret (Some (s', lm)) ->
  In (rawOfLegal lm) (legalList s)
  /\ applyRawMove s (rawOfLegal lm) = Some s'.
Proof.
  intros Hv Hmk. pose proof (validState_rows _ Hv) as H8.
  pose proof (makeMove_applies _ _ _ _ _ Hmk) as Ha. split; auto.
  destruct (getLegalMoves fuel s) as [lms| |] eqn:E;
    try (unfold makeMove in Hmk; rewrite E in Hmk; discriminate).
  destruct (makeMove_found fuel s uci s' lm lms E Hmk) as [Hin _].
  now destruct (getLegalMoves_In _ _ _ _ H8 E Hin).
Qed.

Lemma wellPlayed_start : wellPlayed startState.
Proof.
  assert (Hone : forall t r c,
             forallb
               (fun rc =>
                  negb (isKingOf (getSq (board startState) (fst rc) (snd rc)) t)
                  || ((fst rc =? r) && (snd rc =? c)))
               allSquares = true ->
             inBounds r c = true ->
             isKingOf (getSq (board startState) r c) t = true ->
             onlyKingAt (board startState) t r c).
  { intros t r c Hall Hb Hk. split; auto. split; auto.
    intros r' c' Hb' Hk'. rewrite forallb_forall in Hall.
    specialize (Hall (r', c') (proj2 (In_allSquares _ _) Hb')).
    cbn [fst snd] in Hall. rewrite Hk' in Hall. cbn [negb orb] in Hall.
    apply andb_true_iff in Hall as [E1 E2].
    apply Z.eqb_eq in E1, E2. congruence. }
  split; [reflexivity|]. split; [reflexivity|].
  split; [discriminate|].
  split; [|split].
  - exists 7, 4. apply Hone; vm_compute; reflexivity.
  - exists 0, 4. apply Hone; vm_compute; reflexivity.
  - vm_compute. reflexivity.
Qed.

(** A legal move leads from a well-played state to a well-played state. *)
Lemma wellPlayed_step s m s' :
  wellPlayed s -> In m (legalList s) -> applyRawMove s m = Some s' ->
  wellPlayed s'.
Proof.
  intros (Hv & Hhome & Hep & Hw & Hb & Hsafe) Hm Ha.
  pose proof (validState_turn _ Hv) as Ht.
  apply legalList_In in Hm as (Hm & next & Ha' & Hnext).
  assert (next = s') by congruence. subst next.
  destruct (pseudo_ok _ _ Hm) as (Hfb & Htb & Hpr & _).
  pose proof (applyRawMove_turn _ _ _ Ha) as Hturn.
  assert (Hkings : (exists r c, onlyKingAt (board s') (turn s) r c)
                   /\ exists r c,
                        onlyKingAt (board s') (nextTurn (turn s)) r c).
  { assert (Hmover : exists r c, onlyKingAt (board s) (turn s) r c)
      by (destruct Ht as [-> | ->]; assumption).
    assert (Hother : exists r c,
               onlyKingAt (board s) (nextTurn (turn s)) r c)
      by (destruct Ht as [-> | ->]; assumption).
    destruct Hmover as (r & c & Hk). destruct Hother as (r' & c' & Hk').
    split.
    - eapply mover_king_kept; eauto.
    - exists r', c'. eapply opponent_king_kept; eauto. }
  split; [eapply applyRawMove_valid; eauto|].
  split; [eapply kingsAtHome_step; eauto|].
  split; [intros sq Hsq; eapply en_passant_after; eauto|].
  rewrite Hturn, (nextTurn_twice _ Ht).
  split; [|split; [|exact Hnext]].
  - destruct Ht as [E | E]; rewrite E in Hkings; tauto.
  - destruct Ht as [E | E]; rewrite E in Hkings; tauto.
Qed.

Lemma reachable_wellPlayed s : reachable s -> wellPlayed s.
Proof.
  induction 1 as [|s fuel uci s' lm _ IH Hmk]; [exact wellPlayed_start|].
  destruct (makeMove_legal _ _ _ _ _ (proj1 IH) Hmk) as [Hm Ha].
  eapply wellPlayed_step; eauto.
Qed.



(** ** Material *)

Lemma cells_setNth (row : list Square) n v :
  (List.length
     (flat_map (fun sq : option Piece =>
                  match sq with Some p => [p] | None => [] end)
        (setNth row n v None))
   + occupied (match nth_error row n with Some sq => sq | None => None end)
   = List.length
       (flat_map (fun sq : option Piece =>
                    match sq with Some p => [p] | None => [] end) row)
     + occupied v)%nat.
Proof.
  revert row. induction n as [|n IH]; intros [|x row]; cbn [setNth nth_error].
  - destruct v; simpl; lia.
  - cbn [flat_map]. rewrite !length_app. destruct x, v; simpl; lia.
  - cbn [flat_map]. rewrite length_app. specialize (IH []).
    destruct n; cbn [nth_error] in IH; simpl in *; lia.
  - cbn [flat_map]. rewrite !length_app. specialize (IH row). lia.
Qed.

Lemma material_updNth (b : Board) n f row :
  nth_error b n = Some row ->
  (material (updNth b n f) + material [row]
   = material b + material [f row])%nat.
Proof.
  unfold material, piecesOf. revert b.
  induction n as [|n IH]; intros [|x b]; cbn [nth_error]; try discriminate.
  - intros [= ->]. cbn [updNth flat_map]. rewrite !length_app. simpl. lia.
  - intros H. cbn [updNth flat_map]. rewrite !length_app.
    specialize (IH b H). cbn [flat_map] in IH. rewrite !length_app in IH.
    simpl in *. lia.
Qed.

(** An assignment to a square changes the material by what it puts there
    and what it finds there. *)
Lemma material_setSq b r c v :
  hasRow b r = true -> 0 <= c ->
  (material (setSq b r c v) + occupied (getSq b r c)
   = material b + occupied v)%nat.
Proof.
  intros Hr Hc. unfold hasRow in Hr. apply andb_true_iff in Hr as [H0 Hlt].
  apply Z.leb_le in H0. apply Z.ltb_lt in Hlt.
  destruct (nth_error b (Z.to_nat r)) as [row|] eqn:Erow.
  2:{ apply nth_error_None in Erow. lia. }
  rewrite (getSq_nth b r c row H0 Hc Erow).
  unfold setSq.
  replace ((r <? 0) || (c <? 0)) with false
    by (symmetry; apply orb_false_iff; split; apply Z.ltb_ge; lia).
  cbv iota.
  pose proof (material_updNth b (Z.to_nat r)
                (fun row => setNth row (Z.to_nat c) v None) row Erow) as H.
  pose proof (cells_setNth row (Z.to_nat c) v) as Hcells.
  unfold material, piecesOf in *. cbn [flat_map] in H.
  rewrite !app_nil_r in H. lia.
Qed.

(** In a well-played state the pawn that moves onto the en-passant target
    comes from beside the pawn that has passed. *)
Lemma en_passant_victim s m piece :
  validState s = true ->
  (forall sq, enPassant s = Some sq -> passedOver s sq) ->
  In m (generatePseudoLegalMoves s) ->
  getSq (board s) (fromR m) (fromC m) = Some piece ->
  type piece = Pawn ->
  epSquare s = Some (toR m, toC m) ->
  getSq (board s) (toR m) (toC m) = None
  /\ toR m <> fromR m /\ toC m <> fromC m
  /\ exists p, getSq (board s) (fromR m) (toC m) = Some p.
Proof.
  intros Hv Hep Hm Hp Hty Heq.
  destruct (pseudo_ok _ _ Hm) as (_ & _ & _ & piece' & Hp' & Hcol).
  assert (piece' = piece) by congruence. subst piece'.
  pose proof (pawnDirOf_cases (turn s)) as Hdir.
  destruct (beside_target _ _ _ Hv Hep Hm Hp Hty Heq) as [Hnone Hside].
  unfold epSquare, epSquareOf in Heq.
  destruct (enPassant s) as [sq|] eqn:Esq; [|discriminate].
  destruct (truthyStr (Some sq)); [|discriminate].
  destruct (Hep sq eq_refl)
    as (r & c & -> & Hb & _ & _ & p & Hpp & Hpt & Hpc).
  rewrite (sqToRC_rcToSq _ _ Hb) in Heq. injection Heq as -> ->.
  destruct (pseudo_kinds _ _ _ Hm Hp) as [[Hk _] | (_ & _ & Hrows)];
    [congruence|].
  split; auto.
  destruct (Hrows Hty) as [Hr | [Hr Hc]].
  - replace (toR m - pawnDirOf (turn s)) with (fromR m) in Hpp by lia.
    split; [lia|]. split; [|eauto].
    intros E. rewrite E, Hp in Hpp. injection Hpp as <-. congruence.
  - exfalso.
    assert (Habs : Z.abs (toR m - fromR m) = 2) by lia.
    destruct (double_push_shape _ _ _ Hm Hp Hty Habs)
      as (_ & _ & _ & _ & Hmid & _).
    replace (toR m - pawnDirOf (turn s))
      with (fromR m + pawnDirOf (turn s)) in Hpp by lia.
    rewrite Hc in Hpp. congruence.
Qed.

(** The material after a move and the capture that the move records. *)
Lemma material_moveBoard s m piece :
  wellPlayed s ->
  In m (generatePseudoLegalMoves s) ->
  getSq (board s) (fromR m) (fromC m) = Some piece ->
  (material (moveBoard s piece m)
   + match capturedKind s piece m with Some _ => 1 | None => 0 end
   = material (board s))%nat.
Proof.
  intros (Hv & Hhome & Hep & _) Hm Hp.
  pose proof (validState_rows _ Hv) as H8.
  destruct (pseudo_ok _ _ Hm) as (Hfb & Htb & _).
  pose proof (inBounds_hasRow _ _ _ H8 Hfb) as Hrow.
  pose proof (inBounds_hasRow _ _ _ H8 Htb) as Hrow'.
  pose proof Hfb as Hfb'. pose proof Htb as Htb'.
  apply inBounds_iff in Hfb' as [Hfr Hfc]. apply inBounds_iff in Htb' as [Htr Htc].
  assert (Hpair : forall (a b a' b' : Z), a <> a' \/ b <> b' ->
                                          (a, b) <> (a', b'))
    by (intros a b a' b' [H | H] [= E1 E2]; congruence).
  destruct (pseudo_kinds _ _ _ Hm Hp) as [[Hty Hc] | (Hne & Hkg & Hpw)].
  - (* castling *)
    destruct (castling_from_home _ _ _ Hv Hhome Hm Hp Hty Hc)
      as (kingside & Hfc4 & Htr' & Htc' & Hprm & Hmid & q & Hq & Hqt).
    pose proof (castlingMoves_empty _ _ _ _ Hc) as Hto.
    assert (HK : isType piece King = true) by now apply isType_true.
    assert (HP : isType piece Pawn = false)
      by (apply isType_false; congruence).
    unfold capturedKind. rewrite Hto, HP.
    unfold moveBoard, moveSquares. rewrite HK, HP, Hprm.
    set (b2 := setSq (board s) (toR m) (toC m) (Some piece)).
    set (b3 := setSq b2 (fromR m) (fromC m) None).
    assert (H2 : (material b2 = material (board s) + 1)%nat).
    { pose proof (material_setSq (board s) (toR m) (toC m) (Some piece)
                    Hrow' ltac:(lia)) as H.
      rewrite Hto in H. simpl in H. fold b2 in H. lia. }
    assert (H3 : (material b3 + 1 = material b2)%nat).
    { assert (Hr2 : hasRow b2 (fromR m) = true)
        by (unfold b2; now rewrite hasRow_setSq).
      assert (Hg2 : getSq b2 (fromR m) (fromC m) = Some piece).
      { unfold b2. rewrite getSq_setSq_ne; auto.
        apply Hpair. destruct kingside; lia. }
      pose proof (material_setSq b2 (fromR m) (fromC m) None Hr2
                    ltac:(lia)) as H.
      rewrite Hg2 in H. fold b3 in H. simpl in H. lia. }
    assert (Hb3 : forall col, col <> fromC m -> col <> toC m ->
                              getSq b3 (fromR m) col
                              = getSq (board s) (fromR m) col).
    { intros col H1 H2'. unfold b3, b2.
      rewrite !getSq_setSq_ne; auto. }
    assert (Hrow3 : hasRow b3 (fromR m) = true)
      by (unfold b3, b2; now rewrite !hasRow_setSq).
    destruct kingside.
    + replace (toC m - fromC m =? 2) with true by (symmetry; apply Z.eqb_eq; lia).
      rewrite (Hb3 7) by lia.
      assert (Hocc : occupied (getSq (board s) (fromR m) 7) = 1%nat)
        by now rewrite Hq.
      pose proof (material_setSq b3 (fromR m) 5
                    (getSq (board s) (fromR m) 7) Hrow3 ltac:(lia)) as H4.
      rewrite (Hb3 5), Hmid, Hocc in H4 by lia.
      set (b4 := setSq b3 (fromR m) 5 (getSq (board s) (fromR m) 7)) in *.
      assert (Hr4 : hasRow b4 (fromR m) = true)
        by (unfold b4; now rewrite hasRow_setSq).
      assert (Hg4 : getSq b4 (fromR m) 7 = Some q).
      { unfold b4. rewrite getSq_setSq_ne by (apply Hpair; lia).
        rewrite (Hb3 7) by lia. exact Hq. }
      pose proof (material_setSq b4 (fromR m) 7 None Hr4
                    ltac:(lia)) as H5.
      rewrite Hg4 in H5. simpl in *. lia.
    + replace (toC m - fromC m =? 2) with false
        by (symmetry; apply Z.eqb_neq; lia).
      replace (fromC m - toC m =? 2) with true
        by (symmetry; apply Z.eqb_eq; lia).
      rewrite (Hb3 0) by lia.
      assert (Hocc : occupied (getSq (board s) (fromR m) 0) = 1%nat)
        by now rewrite Hq.
      pose proof (material_setSq b3 (fromR m) 3
                    (getSq (board s) (fromR m) 0) Hrow3 ltac:(lia)) as H4.
      rewrite (Hb3 3), Hmid, Hocc in H4 by lia.
      set (b4 := setSq b3 (fromR m) 3 (getSq (board s) (fromR m) 0)) in *.
      assert (Hr4 : hasRow b4 (fromR m) = true)
        by (unfold b4; now rewrite hasRow_setSq).
      assert (Hg4 : getSq b4 (fromR m) 0 = Some q).
      { unfold b4. rewrite getSq_setSq_ne by (apply Hpair; lia).
        rewrite (Hb3 0) by lia. exact Hq. }
      pose proof (material_setSq b4 (fromR m) 0 None Hr4
                    ltac:(lia)) as H5.
      rewrite Hg4 in H5. simpl in *. lia.
  - (* any other move *)
    assert (HnK : (if isType piece King
                   then (toC m - fromC m =? 2) || (fromC m - toC m =? 2)
                   else false) = false).
    { destruct (isType piece King) eqn:EK; auto.
      apply isType_true in EK. destruct (Hkg EK) as [Habs _].
      apply orb_false_iff. split; apply Z.eqb_neq; lia. }
    unfold moveBoard, moveSquares. fold (arriving piece m).
    set (b1 := if isType piece Pawn then _ else _).
    assert (Hend : forall b3 b4 b5 : Board,
               (if isType piece King then
                  if toC m - fromC m =? 2 then b4
                  else if fromC m - toC m =? 2 then b5 else b3
                else b3) = b3).
    { intros. destruct (isType piece King); auto.
      apply orb_false_iff in HnK as [-> ->]. reflexivity. }
    rewrite Hend. clear Hend.
    assert (H1 : hasRow b1 (toR m) = true /\ hasRow b1 (fromR m) = true
                 /\ getSq b1 (fromR m) (fromC m) = Some piece
                 /\ (material b1 + occupied (getSq b1 (toR m) (toC m))
                     + match capturedKind s piece m with
                       | Some _ => 1 | None => 0
                       end
                     = material (board s)
                       + occupied (getSq b1 (toR m) (toC m))
                       + occupied (getSq b1 (toR m) (toC m)))%nat).
    { subst b1. unfold capturedKind.
      destruct (isType piece Pawn) eqn:HP.
      2:{ repeat split; auto.
          destruct (getSq (board s) (toR m) (toC m)); simpl; lia. }
      destruct (epSquare s) as [[er ec]|] eqn:Eep.
      2:{ repeat split; auto.
          destruct (getSq (board s) (toR m) (toC m)); simpl; lia. }
      destruct ((toR m =? er) && (toC m =? ec)) eqn:Ematch.
      2:{ repeat split; auto.
          destruct (getSq (board s) (toR m) (toC m)); simpl; lia. }
      apply andb_true_iff in Ematch as [E1 E2].
      apply Z.eqb_eq in E1, E2. subst er ec.
      apply isType_true in HP.
      destruct (en_passant_victim _ _ _ Hv Hep Hm Hp HP Eep)
        as (Hnone & Hr & Hc & p & Hpp).
      rewrite !hasRow_setSq.
      rewrite !getSq_setSq_ne by (apply Hpair; auto).
      rewrite Hnone.
      pose proof (material_setSq (board s) (fromR m) (toC m) None
                    Hrow ltac:(lia)) as H.
      rewrite Hpp in H. simpl in *. repeat split; auto. lia. }
    destruct H1 as (Hr1 & Hr1' & Hp1 & Hcount).
    pose proof (material_setSq b1 (toR m) (toC m) (Some (arriving piece m))
                  Hr1 ltac:(lia)) as H2.
    set (b2 := setSq b1 (toR m) (toC m) (Some (arriving piece m))) in *.
    assert (Hr2 : hasRow b2 (fromR m) = true)
      by (unfold b2; now rewrite hasRow_setSq).
    assert (Hg2 : getSq b2 (fromR m) (fromC m) = Some piece).
    { unfold b2. rewrite getSq_setSq_ne by congruence. exact Hp1. }
    pose proof (material_setSq b2 (fromR m) (fromC m) None Hr2
                  ltac:(lia)) as H3.
    rewrite Hg2 in H3. simpl in *. lia.
Qed.

Lemma makeMove_describes fuel s uci s' lm :
  validState s = true ->
  makeMove fuel s uci = Ret (Some (s', lm)) ->
  In (rawOfLegal lm) (legalList s)
  /\ applyRawMove s (rawOfLegal lm) = Some s'
  /\ describes s (rawOfLegal lm) lm.
Proof.
  intros Hv Hmk. pose proof (validState_rows _ Hv) as H8.
  pose proof (makeMove_applies _ _ _ _ _ Hmk) as Ha.
  destruct (getLegalMoves fuel s) as [lms| |] eqn:E;
    try (unfold makeMove in Hmk; rewrite E in Hmk; discriminate).
  destruct (makeMove_found fuel s uci s' lm lms E Hmk) as [Hin _].
  destruct (getLegalMoves_In _ _ _ _ H8 E Hin). auto.
Qed.

Lemma makeMove_material fuel s uci s' lm :
  wellPlayed s ->
  makeMove fuel s uci = Ret (Some (s', lm)) ->
  (material (board s')
   + match lm_captured lm with Some _ => 1 | None => 0 end
   = material (board s))%nat.
Proof.
  intros Hw Hmk. pose proof Hw as (Hv & _).
  destruct (makeMove_describes _ _ _ _ _ Hv Hmk) as (Hm & Ha & Hd).
  apply legalList_In in Hm as [Hm _].
  destruct Hd as (_ & _ & _ & _ & piece & Hp & _ & ->).
  destruct (applyRawMove_board _ _ _ Ha) as (piece' & Hp' & ->).
  assert (piece' = piece) by congruence. subst piece'.
  now apply material_moveBoard.
Qed.

(** X17: the material of a game only decreases, and by the captures that
    the moves record. In every state reached from the starting position
    there are at most 32 pieces, and a move played by [makeMove] leaves
    one piece less when its record has a [captured] kind, en passant
    included, and as many pieces as before when it has none. *)
Theorem captures_take_one_piece (s : GameState) :
  reachable s ->
  (material (board s) <= 32)%nat
  /\ forall fuel uci s' lm,
       makeMove fuel s uci = Ret (Some (s', lm)) ->
       (material (board s')
        + match lm_captured lm with Some _ => 1 | None => 0 end
        = material (board s))%nat.
Proof.
  intros Hr. split.
  - induction Hr as [|s fuel uci s' lm Hr IH Hmk].
    + vm_compute. lia.
    + pose proof (makeMove_material _ _ _ _ _ (reachable_wellPlayed _ Hr) Hmk).
      lia.
  - intros fuel uci s' lm. apply makeMove_material.
    now apply reachable_wellPlayed.
Qed.

Lemma captures_take_one_piece_witness :
  exists s lm,
    makeMove 1 startState "e2e4" = Ret (Some (s, lm))
    /\ (material (board s)
        + match lm_captured lm with Some _ => 1 | None => 0 end
        = material (board startState))%nat.
Proof.
  assert (exists s lm, makeMove 1 startState "e2e4" = Ret (Some (s, lm)))
    as (s & lm & E) by (vm_compute; eauto).
  exists s, lm. split; [exact E|].
  exact (proj2 (captures_take_one_piece startState reach_start) 1%nat
           "e2e4"%string s lm E).
Defined.

(** ** The transition on the object graph *)

(** The writes of [applyRawMove] carry a relation between two stores of
    squares along. *)
Section Simulation.
Variables B1 B2 : Type.
Variable get1 : B1 -> Z -> Z -> Square.
Variable set1 : B1 -> Z -> Z -> Square -> B1.
Variable get2 : B2 -> Z -> Z -> Square.
Variable set2 : B2 -> Z -> Z -> Square -> B2.
Variable R : B1 -> B2 -> Prop.
Hypothesis R_get : forall x y r c, R x y -> get1 x r c = get2 y r c.
Hypothesis R_set :
  forall x y r c v, R x y -> R (set1 x r c v) (set2 y r c v).

Lemma moveSquares_sim ep piece m x y :
  R x y ->
  R (moveSquares get1 set1 ep piece m x) (moveSquares get2 set2 ep piece m y).
Proof using R_get R_set.
  intros H. unfold moveSquares.
  assert (H1 : R (if isType piece Pawn then
                    match ep with
                    | Some (epR, epC) =>
                        if (toR m =? epR) && (toC m =? epC)
                        then set1 x (fromR m) epC None else x
                    | None => x
                    end
                  else x)
                 (if isType piece Pawn then
                    match ep with
                    | Some (epR, epC) =>
                        if (toR m =? epR) && (toC m =? epC)
                        then set2 y (fromR m) epC None else y
                    | None => y
                    end
                  else y)).
  { destruct (isType piece Pawn); auto.
    destruct ep as [[er ec]|]; auto.
    destruct ((toR m =? er) && (toC m =? ec)); auto. }
  pose proof (R_set _ _ (toR m) (toC m)
                (Some match promotion m with
                      | Some t => mkPiece (color piece) t
                      | None => piece
                      end) H1) as H2.
  pose proof (R_set _ _ (fromR m) (fromC m) None H2) as H3.
  destruct (isType piece King); auto.
  destruct (toC m - fromC m =? 2).
  - rewrite (R_get _ _ (fromR m) 7 H3). auto.
  - destruct (fromC m - toC m =? 2); auto.
    rewrite (R_get _ _ (fromR m) 0 H3). auto.
Qed.
End Simulation.

(** *** Reading rows *)

Lemma nth_error_alloc (h : Heap) o k :
  (k < List.length h)%nat -> nth_error (snd (alloc h o)) k = nth_error h k.
Proof. intros H. cbn [alloc snd]. now apply nth_error_app1. Qed.

Lemma nth_error_app_keep {A} (l l' : list A) k x :
  nth_error l k = Some x -> nth_error (l ++ l') k = Some x.
Proof.
  intros H. rewrite nth_error_app1; auto.
  apply nth_error_Some. congruence.
Qed.

Lemma rowAt_app h h' a cells :
  rowAt h a = Some cells -> rowAt (h ++ h') a = Some cells.
Proof.
  unfold rowAt. destruct (nth_error h a) as [o|] eqn:E; [|discriminate].
  now rewrite (nth_error_app_keep _ h' _ _ E).
Qed.

Lemma readBoard_app h h' rows b :
  readBoard h rows = Some b -> readBoard (h ++ h') rows = Some b.
Proof.
  unfold readBoard. revert b. induction rows as [|a rows IH]; intros b.
  - auto.
  - cbn [traverse]. destruct (rowAt h a) as [cells|] eqn:E; [|discriminate].
    rewrite (rowAt_app _ h' _ _ E).
    destruct (traverse (rowAt h) rows) as [b'|]; [|discriminate].
    intros [= <-]. now rewrite (IH b' eq_refl).
Qed.

(** The rows stored from address [base] on are those of the board. *)
Lemma readBoard_seq h base b :
  readBoard h (seq base (List.length b)) = Some b <->
  forall k row, nth_error b k = Some row ->
                nth_error h (base + k) = Some (ORow row).
Proof.
  unfold readBoard. revert base. induction b as [|row b IH]; intros base.
  - split; [intros _ [|k] row H; discriminate | reflexivity].
  - cbn [List.length seq traverse]. split.
    + unfold rowAt at 1.
      destruct (nth_error h base) as [[cells| | |]|] eqn:E; try discriminate.
      destruct (traverse (rowAt h) (seq (S base) (List.length b)))
        as [b'|] eqn:Et; [|discriminate].
      intros [= -> ->]. intros [|k] row' Hk.
      * injection Hk as <-. now rewrite Nat.add_0_r.
      * cbn [nth_error] in Hk. rewrite Nat.add_succ_r.
        apply (proj1 (IH (S base)) Et k row' Hk).
    + intros H. unfold rowAt at 1.
      pose proof (H 0%nat row eq_refl) as H0. rewrite Nat.add_0_r in H0.
      rewrite H0.
      assert (Ht : traverse (rowAt h) (seq (S base) (List.length b)) = Some b).
      { apply IH. intros k row' Hk. specialize (H (S k) row' Hk).
        now rewrite Nat.add_succ_r in H. }
      now rewrite Ht.
Qed.

Lemma cloneRows_spec rows : forall h b,
  readBoard h rows = Some b ->
  cloneRows h rows
  = Some (seq (List.length h) (List.length rows), h ++ map ORow b).
Proof.
  unfold readBoard. induction rows as [|a rows IH]; intros h b.
  - intros [= <-]. cbn. now rewrite app_nil_r.
  - cbn [traverse cloneRows].
    destruct (rowAt h a) as [cells|] eqn:E; [|discriminate].
    destruct (traverse (rowAt h) rows) as [b'|] eqn:Et; [|discriminate].
    intros [= <-]. cbn [alloc].
    assert (Ht : traverse (rowAt (h ++ [ORow cells])) rows = Some b')
      by (apply (readBoard_app h); exact Et).
    rewrite (IH _ _ Ht). rewrite length_app. cbn [List.length seq map].
    rewrite Nat.add_1_r, <- app_assoc. reflexivity.
Qed.

(** *** Squares through the rows of a cloned board *)

Lemma nth_error_store (h : Heap) a o k :
  nth_error (store h a o) k =
  if Nat.eqb a k then option_map (fun _ => o) (nth_error h k)
  else nth_error h k.
Proof. unfold store. apply nth_error_updNth. Qed.

Lemma length_store (h : Heap) a o :
  List.length (store h a o) = List.length h.
Proof. unfold store. apply length_updNth. Qed.

Lemma holdsRows_get h0 base n h' b r c :
  holdsRows h0 base n h' b ->
  getSqH (seq base n) h' r c = getSq b r c.
Proof.
  intros (<- & _ & _ & Hrows). unfold getSqH, getSq, getRow.
  destruct (r <? 0); auto.
  destruct (nth_error b (Z.to_nat r)) as [row|] eqn:E.
  - assert (Hlt : (Z.to_nat r < List.length b)%nat)
      by (apply nth_error_Some; congruence).
    rewrite (nth_error_nth' _ 0%nat) by (rewrite length_seq; exact Hlt).
    rewrite seq_nth by exact Hlt.
    unfold rowAt. rewrite (Hrows _ _ E). reflexivity.
  - apply nth_error_None in E.
    replace (nth_error (seq base (List.length b)) (Z.to_nat r)) with
      (@None nat); auto.
    symmetry. apply nth_error_None. now rewrite length_seq.
Qed.

Lemma holdsRows_set h0 base n h' b r c v :
  holdsRows h0 base n h' b ->
  holdsRows h0 base n (setSqH (seq base n) h' r c v) (setSq b r c v).
Proof.
  intros H. pose proof H as (Hn & Hlen & Hframe & Hrows). subst n.
  unfold setSqH, setSq.
  destruct ((r <? 0) || (c <? 0)); auto.
  destruct (nth_error b (Z.to_nat r)) as [row|] eqn:E.
  - assert (Hlt : (Z.to_nat r < List.length b)%nat)
      by (apply nth_error_Some; congruence).
    rewrite (nth_error_nth' _ 0%nat) by (rewrite length_seq; exact Hlt).
    rewrite seq_nth by exact Hlt.
    unfold rowAt. rewrite (Hrows _ _ E).
    split; [apply length_updNth|]. split; [|split].
    + now rewrite length_store.
    + intros k Hk. rewrite nth_error_store.
      destruct (Nat.eqb_spec (base + Z.to_nat r) k); [lia|].
      now apply Hframe.
    + intros k row' Hk. rewrite nth_error_updNth in Hk.
      rewrite nth_error_store.
      destruct (Nat.eqb_spec (Z.to_nat r) k) as [<- | Hne].
      * rewrite Nat.eqb_refl. rewrite E in Hk. cbn [option_map] in Hk.
        injection Hk as <-. now rewrite (Hrows _ _ E).
      * destruct (Nat.eqb_spec (base + Z.to_nat r) (base + k)); [lia|].
        now apply Hrows.
  - assert (Hn : nth_error (seq base (List.length b)) (Z.to_nat r) = None).
    { apply nth_error_None. rewrite length_seq.
      now apply nth_error_None in E. }
    rewrite Hn.
    replace (updNth b (Z.to_nat r)
               (fun row => setNth row (Z.to_nat c) v None)) with b; auto.
    clear -E. revert E. generalize (Z.to_nat r) as n.
    induction b as [|x b IH]; intros [|n] E; cbn [updNth]; auto;
      try discriminate.
    cbn [nth_error] in E. now rewrite <- (IH _ E).
Qed.

(** *** The clone *)

Lemma readState_inv h a s :
  readState h a = Some s ->
  exists br cr rows,
    nth_error h a
    = Some (OState br (turn s) cr (enPassant s) (halfmoveClock s)
              (fullmoveNumber s))
    /\ nth_error h br = Some (OBoard rows)
    /\ nth_error h cr = Some (OCastling (castling s))
    /\ readBoard h rows = Some (board s).
Proof.
  unfold readState.
  destruct (nth_error h a) as [[| | |br t cr ep hm fm]|]; try discriminate.
  destruct (nth_error h br) as [[|rows| |]|] eqn:Eb; try discriminate.
  destruct (nth_error h cr) as [[| |c|]|] eqn:Ec; try discriminate.
  destruct (readBoard h rows) as [b|] eqn:Er; [|discriminate].
  intros [= <-]. exists br, cr, rows. cbn. auto.
Qed.

Lemma readState_intro h a br cr rows t c ep hm fm b :
  nth_error h a = Some (OState br t cr ep hm fm) ->
  nth_error h br = Some (OBoard rows) ->
  nth_error h cr = Some (OCastling c) ->
  readBoard h rows = Some b ->
  readState h a = Some (mkState b t c ep hm fm).
Proof.
  intros Ha Hb Hc Hr. unfold readState. now rewrite Ha, Hb, Hc, Hr.
Qed.

(** Reading a state uses only the addresses that exist. *)
Lemma readState_frame h h' a s :
  (forall k, (k < List.length h)%nat -> nth_error h' k = nth_error h k) ->
  readState h a = Some s -> readState h' a = Some s.
Proof.
  intros Hframe H.
  assert (Hkeep : forall k o, nth_error h k = Some o ->
                              nth_error h' k = Some o).
  { intros k o E. rewrite Hframe; auto. apply nth_error_Some. congruence. }
  destruct (readState_inv _ _ _ H) as (br & cr & rows & Ha & Hb & Hc & Hr).
  destruct s as [b t c ep hm fm]. cbn [turn enPassant halfmoveClock
                                        fullmoveNumber castling board] in *.
  apply (readState_intro h' a br cr rows); auto.
  clear -Hr Hkeep. unfold readBoard in *. revert b Hr.
  induction rows as [|x rows IH]; intros b; cbn [traverse]; auto.
  unfold rowAt at 1 3.
  destruct (nth_error h x) as [o|] eqn:E; [|discriminate].
  rewrite (Hkeep _ _ E). destruct o; try discriminate.
  destruct (traverse (rowAt h) rows) as [b'|]; [|discriminate].
  intros [= <-]. now rewrite (IH b' eq_refl).
Qed.

(** [cloneState] appends a copy of the graph of the state. *)
Lemma cloneState_spec h a s :
  readState h a = Some s ->
  cloneState h a
  = Some ((List.length h + List.length (board s) + 2)%nat,
          h ++ map ORow (board s)
            ++ [OBoard (seq (List.length h) (List.length (board s)));
                OCastling (castling s);
                OState (List.length h + List.length (board s)) (turn s)
                  (List.length h + List.length (board s) + 1)
                  (enPassant s) (halfmoveClock s) (fullmoveNumber s)]).
Proof.
  intros H.
  destruct (readState_inv _ _ _ H) as (br & cr & rows & Ha & Hb & Hc & Hr).
  unfold cloneState, cloneBoard. rewrite Ha, Hb, (cloneRows_spec _ _ _ Hr).
  pose proof (traverse_length _ _ _ Hr) as Hlen.
  cbn [alloc]. rewrite (nth_error_app_keep _ _ _ _
                          (nth_error_app_keep _ _ _ _ Hc)).
  rewrite !length_app, length_map. cbn [List.length].
  rewrite <- Hlen. rewrite <- !app_assoc. cbn [app].
  unfold alloc. rewrite !length_app, length_map. cbn [List.length].
  rewrite <- !app_assoc. cbn [app]. f_equal. f_equal. lia.
Qed.

Lemma graph_nth (h : Heap) (b : Board) o1 o2 o3 :
  let hc := h ++ map ORow b ++ [o1; o2; o3] in
  nth_error hc (List.length h + List.length b) = Some o1
  /\ nth_error hc (List.length h + List.length b + 1) = Some o2
  /\ nth_error hc (List.length h + List.length b + 2) = Some o3
  /\ (forall k row, nth_error b k = Some row ->
                    nth_error hc (List.length h + k) = Some (ORow row))
  /\ List.length hc = (List.length h + List.length b + 3)%nat.
Proof.
  intros hc. subst hc.
  assert (Hin : forall k, nth_error (h ++ map ORow b ++ [o1; o2; o3])
                            (List.length h + List.length b + k)
                          = nth_error [o1; o2; o3] k).
  { intros k. rewrite nth_error_app2 by lia.
    rewrite nth_error_app2 by (rewrite length_map; lia).
    rewrite length_map. f_equal. lia. }
  split; [rewrite <- (Nat.add_0_r (_ + _)); apply Hin|].
  split; [apply Hin|]. split; [apply Hin|]. split.
  - intros k row Hk. rewrite nth_error_app2 by lia.
    replace (List.length h + k - List.length h)%nat with k by lia.
    apply nth_error_app_keep. rewrite nth_error_map, Hk. reflexivity.
  - rewrite !length_app, length_map. simpl. lia.
Qed.

(** X18: [applyRawMove] works on a clone and leaves its argument alone.
    On the graph of objects that a state is in the source (a state object,
    its board array, the row arrays, the castling object), the call
    allocates new objects, assigns only to them, and returns a state
    object that stands for the value computed by the value-level
    [applyRawMove]; every object that existed before the call is
    unchanged, so the argument still stands for the same state. It raises
    exactly when the value-level function does. *)
Theorem applyRawMoveH_refines (h : Heap) (a : nat) (s : GameState)
  (m : RawMove) :
  readState h a = Some s ->
  match applyRawMove s m with
  | Some s' =>
      exists n h',
        applyRawMoveH h a m = Some (n, h')
        /\ readState h' n = Some s'
        /\ (List.length h <= n)%nat
        /\ (forall k, (k < List.length h)%nat ->
                      nth_error h' k = nth_error h k)
        /\ readState h' a = Some s
  | None => applyRawMoveH h a m = None
  end.
Proof.
  intros H.
  destruct (readState_inv _ _ _ H) as (br & cr & rows & Ha & _).
  unfold applyRawMoveH. rewrite Ha, (cloneState_spec _ _ _ H).
  set (L := List.length h). set (nb := List.length (board s)).
  set (o1 := OBoard (seq L nb)). set (o2 := OCastling (castling s)).
  set (o3 := OState (L + nb) (turn s) (L + nb + 1) (enPassant s)
               (halfmoveClock s) (fullmoveNumber s)).
  destruct (graph_nth h (board s) o1 o2 o3) as (H1 & H2 & H3 & Hrows & Hlen).
  fold L nb in H1, H2, H3, Hrows, Hlen.
  set (hc := h ++ map ORow (board s) ++ [o1; o2; o3]) in *.
  rewrite H3. unfold o3. cbv beta iota zeta.
  rewrite H1. unfold o1. cbv beta iota. rewrite H2. unfold o2. cbv beta iota.
  rewrite length_seq.
  assert (Hhold : holdsRows hc L nb hc (board s)).
  { split; [reflexivity|]. split; [reflexivity|]. split; auto. }
  rewrite !(holdsRows_get _ _ _ _ _ _ _ Hhold).
  unfold applyRawMove, hasRow. fold nb.
  destruct (negb ((0 <=? fromR m) && (fromR m <? Z.of_nat nb))
            || negb ((0 <=? toR m) && (toR m <? Z.of_nat nb))); auto.
  destruct (getSq (board s) (fromR m) (fromC m)) as [piece|]; auto.
  pose proof (moveSquares_sim _ _ (getSqH (seq L nb)) (setSqH (seq L nb))
                getSq setSq (holdsRows hc L nb)
                (fun x y r c => holdsRows_get hc L nb x y r c)
                (fun x y r c v => holdsRows_set hc L nb x y r c v)
                (epSquareOf (enPassant s)) piece m hc (board s) Hhold)
    as Hsim.
  fold (epSquare s) in Hsim. fold (moveBoard s piece m) in Hsim.
  set (h2 := moveSquares (getSqH (seq L nb)) (setSqH (seq L nb))
               (epSquareOf (enPassant s)) piece m hc) in *.
  destruct Hsim as (Hnb & Hlen2 & Hframe2 & Hrows2).
  set (cr' := updateCastling (castling s) piece
                (getSq (board s) (toR m) (toC m)) m).
  set (st' := OState (L + nb) (nextTurn (turn s)) (L + nb + 1)
                (nextEnPassant piece m)
                (nextHalfmove piece (getSq (board s) (toR m) (toC m))
                   (halfmoveClock s))
                (nextFullmove (turn s) (fullmoveNumber s))).
  set (hf := store (store h2 (L + nb + 1) (OCastling cr')) (L + nb + 2) st').
  assert (Hf : forall k,
             nth_error hf k
             = if Nat.eqb (L + nb + 2) k then Some st'
               else if Nat.eqb (L + nb + 1) k then Some (OCastling cr')
                    else nth_error h2 k).
  { intros k. unfold hf. rewrite !nth_error_store.
    destruct (Nat.eqb_spec (L + nb + 2) k) as [<- | Hk2].
    - destruct (Nat.eqb_spec (L + nb + 1) (L + nb + 2)); [lia|].
      rewrite Hframe2 by lia. now rewrite H3.
    - destruct (Nat.eqb_spec (L + nb + 1) k) as [<- | Hk1]; auto.
      rewrite Hframe2 by lia. now rewrite H2. }
  exists (L + nb + 2)%nat, hf. split; [reflexivity|].
  assert (Hprefix : forall k, (k < L)%nat -> nth_error hf k = nth_error h k).
  { intros k Hk. rewrite Hf.
    destruct (Nat.eqb_spec (L + nb + 2) k); [lia|].
    destruct (Nat.eqb_spec (L + nb + 1) k); [lia|].
    rewrite Hframe2 by lia. unfold hc. now apply nth_error_app1. }
  split; [|split; [lia|split; [exact Hprefix|]]].
  - apply (readState_intro hf _ (L + nb)%nat (L + nb + 1)%nat (seq L nb)).
    + rewrite Hf, Nat.eqb_refl. reflexivity.
    + rewrite Hf.
      destruct (Nat.eqb_spec (L + nb + 2) (L + nb)); [lia|].
      destruct (Nat.eqb_spec (L + nb + 1) (L + nb)); [lia|].
      rewrite Hframe2 by lia. exact H1.
    + rewrite Hf.
      destruct (Nat.eqb_spec (L + nb + 2) (L + nb + 1)); [lia|].
      now rewrite Nat.eqb_refl.
    + rewrite <- Hnb. apply readBoard_seq. intros k row Hk.
      assert (k < nb)%nat
        by (rewrite <- Hnb; apply nth_error_Some; congruence).
      rewrite Hf.
      destruct (Nat.eqb_spec (L + nb + 2) (L + k)); [lia|].
      destruct (Nat.eqb_spec (L + nb + 1) (L + k)); [lia|].
      now apply Hrows2.
  - now apply (readState_frame h).
Qed.

Lemma applyRawMoveH_refines_witness :
  match applyRawMove startState (mkRaw 6 4 4 4 None) with
  | Some s' =>
      exists n h',
        applyRawMoveH (heapOf startState) (stateAddr startState)
          (mkRaw 6 4 4 4 None) = Some (n, h')
        /\ readState h' n = Some s'
        /\ (List.length (heapOf startState) <= n)%nat
        /\ (forall k, (k < List.length (heapOf startState))%nat ->
                      nth_error h' k = nth_error (heapOf startState) k)
        /\ readState h' (stateAddr startState) = Some startState
  | None =>
      applyRawMoveH (heapOf startState) (stateAddr startState)
        (mkRaw 6 4 4 4 None) = None
  end.
Proof. apply applyRawMoveH_refines. reflexivity. Defined.

(** ** Sessions of the executor *)

Lemma newAction_counter now w verb agent uci res reasoning :
  snd (va_id (fst (newAction now w verb agent uci res reasoning)))
  = S (actionCounter w)
  /\ actionCounter (snd (newAction now w verb agent uci res reasoning))
     = S (actionCounter w).
Proof. split; reflexivity. Qed.

(** One more action in the log, numbered by the counter. *)
Lemma sessionInv_log now c0 w g verb agent uci res reasoning
  (history : list MoveRecord) (s : GameState) (st : GameStatus) :
  sessionInv c0 w g ->
  recorded startState history s ->
  sessionInv c0 (snd (newAction now w verb agent uci res reasoning))
    (mkGame (g_id g) s (g_white g) (g_black g) history
       (g_actionLog g ++ [fst (newAction now w verb agent uci res reasoning)])
       st (g_createdAt g)).
Proof.
  intros (_ & Hids & Hc) Hrec.
  destruct (newAction_counter now w verb agent uci res reasoning) as [H1 H2].
  split; [exact Hrec|]. cbn [g_actionLog g_history g_state].
  rewrite map_app, length_app, Hids, H2. cbn [map List.length].
  rewrite H1, Hc. split; [|lia].
  rewrite Nat.add_1_r, seq_S. f_equal; f_equal; lia.
Qed.

Lemma sessionInv_dateNow now c0 w g :
  sessionInv c0 w g -> sessionInv c0 (snd (dateNow now w)) g.
Proof. intros (H1 & H2 & H3). repeat split; auto. Qed.

Lemma call_keeps now fuel c0 w g c w' g' :
  sessionInv c0 w g ->
  call now fuel w g c = Ret (w', g') ->
  sessionInv c0 w' g'
  /\ List.length (g_actionLog g') = S (List.length (g_actionLog g)).
Proof.
  intros Hinv. pose proof Hinv as (Hrec & _).
  assert (Hlen : forall a : VerbAction,
             List.length (g_actionLog g ++ [a])
             = S (List.length (g_actionLog g)))
    by (intros; rewrite length_app; simpl; lia).
  destruct c as [agent | agent | agent | agent uci reasoning | agent];
    cbn [call].
  - unfold verbGetState, logAction.
    destruct (newAction _ _ _ _ _ _ _) as [a w1] eqn:E.
    cbn [fst]. intros [= <- <-]. split; [|apply Hlen].
    pose proof (sessionInv_log now c0 w g "chess.get_state" agent None
                  (RState (toFEN (g_state g)) (turn (g_state g)) (g_status g)
                     (List.length (g_history g)) false) None
                  (g_history g) (g_state g) (g_status g) Hinv Hrec) as H.
    now rewrite E in H.
  - unfold verbGetLegalMoves, logAction.
    destruct (getLegalMoves fuel (g_state g)) as [moves| |]; try discriminate.
    cbn [obind].
    destruct (newAction _ _ _ _ _ _ _) as [a w1] eqn:E.
    cbn [obind fst]. intros [= <- <-]. split; [|apply Hlen].
    pose proof (sessionInv_log now c0 w g "chess.get_legal_moves" agent None
                  (RLegal (List.length moves) (map lm_uci moves)) None
                  (g_history g) (g_state g) (g_status g) Hinv Hrec) as H.
    now rewrite E in H.
  - unfold verbGetHistory, logAction.
    destruct (newAction _ _ _ _ _ _ _) as [a w1] eqn:E.
    cbn [fst]. intros [= <- <-]. split; [|apply Hlen].
    pose proof (sessionInv_log now c0 w g "chess.get_history" agent None
                  (RHistory
                     (map (fun r => (mr_san r, mr_uci r, mr_ply r))
                        (g_history g))
                     (List.length (g_history g))) None
                  (g_history g) (g_state g) (g_status g) Hinv Hrec) as H.
    now rewrite E in H.
  - assert (Hrefuse : forall err,
               Ret (fst (refuseMove now w g agent uci reasoning err))
               = Ret (w', g') ->
               sessionInv c0 w' g'
               /\ List.length (g_actionLog g')
                  = S (List.length (g_actionLog g))).
    { intros err. unfold refuseMove, logAction.
      destruct (newAction _ _ _ _ _ _ _) as [a w1] eqn:E.
      cbn [fst]. intros [= <- <-]. split; [|apply Hlen].
      pose proof (sessionInv_log now c0 w g "chess.make_move" agent
                    (Some uci) (RError err) reasoning
                    (g_history g) (g_state g) (g_status g) Hinv Hrec) as H.
      now rewrite E in H. }
    unfold verbMakeMove.
    destruct (currentAgent g) as [ag|]; [|discriminate].
    destruct (negb (String.eqb (agent_id ag) agent)); [apply Hrefuse|].
    destruct (negb (isPlaying (g_status g))); [apply Hrefuse|].
    destruct (makeMove fuel (g_state g) uci) as [[[s1 lm]|]| |] eqn:Hmk;
      try discriminate; [|apply Hrefuse].
    cbn [obind].
    destruct (dateNow now w) as [t w1] eqn:Et.
    destruct (getGameStatus fuel s1) as [st| |]; try discriminate.
    cbn [obind].
    destruct (newAction _ _ _ _ _ _ _) as [a w2] eqn:E.
    cbn [obind fst]. intros [= <- <-]. split; [|apply Hlen].
    pose proof (sessionInv_dateNow now c0 w g Hinv) as Hinv1.
    rewrite Et in Hinv1. cbn [snd] in Hinv1.
    set (r := mkRecord (lm_from lm) (lm_to lm) (lm_san lm) (lm_uci lm)
                (toFEN s1) (List.length (g_history g) + 1) t (lm_piece lm)
                (lm_captured lm) (lm_promotion lm)) in *.
    assert (Hrec' : recorded startState (g_history g ++ [r]) s1).
    { assert (Hu : lm_uci lm = uci).
      { destruct (getLegalMoves fuel (g_state g)) as [lms| |] eqn:El;
          try (unfold makeMove in Hmk; rewrite El in Hmk; discriminate).
        now destruct (makeMove_found _ _ _ _ _ _ El Hmk). }
      apply (recorded_snoc startState (g_history g) (g_state g) fuel s1 lm r);
        auto.
      - cbn [mr_uci r]. unfold r. cbn [mr_uci]. now rewrite Hu.
      - unfold r. cbn [mr_ply]. lia. }
    pose proof (sessionInv_log now c0 w1 g "chess.make_move" agent
                  (Some uci)
                  (RMove (lm_san lm) (toFEN s1) st
                     (List.length (g_history g ++ [r]))) reasoning
                  (g_history g ++ [r]) s1 st Hinv1 Hrec') as H.
    now rewrite E in H.
  - unfold verbResign.
    destruct (newAction _ _ _ _ _ _ _) as [a w1] eqn:E.
    cbn [fst]. intros [= <- <-]. split; [|apply Hlen].
    pose proof (sessionInv_log now c0 w g "chess.resign" agent None
                  (RResign
                     (if String.eqb (agent_id (g_white g)) agent
                      then "black" else "white")
                     (if String.eqb (agent_id (g_white g)) agent
                      then checkmate_black else checkmate_white)) None
                  (g_history g) (g_state g)
                  (if String.eqb (agent_id (g_white g)) agent
                   then checkmate_black else checkmate_white) Hinv Hrec)
      as H.
    now rewrite E in H.
Qed.

Lemma session_keeps now fuel c0 calls : forall w g w' g',
  sessionInv c0 w g ->
  session now fuel w g calls = Ret (w', g') ->
  sessionInv c0 w' g'
  /\ List.length (g_actionLog g')
     = (List.length (g_actionLog g) + List.length calls)%nat.
Proof.
  induction calls as [|c calls IH]; intros w g w' g' Hinv; cbn [session].
  - intros [= <- <-]. split; auto.
  - destruct (call now fuel w g c) as [[w1 g1]| |] eqn:Ec; try discriminate.
    cbn [obind fst snd]. intros Hs.
    destruct (call_keeps _ _ _ _ _ _ _ _ Hinv Ec) as [Hinv1 Hlen1].
    destruct (IH _ _ _ _ Hinv1 Hs) as [Hinv' Hlen'].
    split; auto. rewrite Hlen', Hlen1. simpl. lia.
Qed.

Lemma recorded_reachable recs s :
  recorded startState recs s -> reachable s.
Proof.
  induction 1; [apply reach_start|]. eapply reach_move; eauto.
Qed.

Lemma recorded_plies s0 recs s :
  recorded s0 recs s -> map mr_ply recs = seq 1 (List.length recs).
Proof.
  induction 1 as [|recs s fuel s' lm r _ IH _ _ _ _ _ _ _ _ _ Hply]; auto.
  rewrite map_app, length_app, IH. cbn [map List.length].
  rewrite Nat.add_1_r, seq_S, Hply. reflexivity.
Qed.

Lemma recorded_fens recs s :
  recorded startState recs s ->
  forall r, In r recs ->
            exists s', parseFEN (mr_fen r) = Some s' /\ reachable s'.
Proof.
  induction 1 as [|recs s fuel s' lm r Hrec IH Hmk _ _ _ _ _ _ _ Hfen _].
  - intros r [].
  - intros r' Hin. apply in_app_or in Hin as [Hin | [<- | []]]; auto.
    assert (Hr : reachable s')
      by (eapply reach_move; eauto using recorded_reachable).
    exists s'. split; auto. rewrite Hfen. apply parseFEN_toFEN.
    now destruct (reachable_kingsAtHome _ Hr).
Qed.

Lemma recorded_last recs s :
  recorded startState recs s ->
  (recs = [] -> s = startState)
  /\ forall recs' r, recs = recs' ++ [r] -> parseFEN (mr_fen r) = Some s.
Proof.
  intros H. pose proof (recorded_reachable _ _ H) as Hr.
  destruct H as [|recs s fuel s' lm r Hrec Hmk _ _ _ _ _ _ _ Hfen _].
  - split; auto. intros [|x recs'] r E; discriminate.
  - split.
    + intros E. destruct recs; discriminate.
    + intros recs' r' E. apply app_inj_tail in E as [_ <-].
      rewrite Hfen. apply parseFEN_toFEN.
      now destruct (reachable_kingsAtHome _ Hr).
Qed.

Lemma createOpenVerbGame_inv now w0 wa ba w1 g0 :
  createOpenVerbGame now w0 wa ba = Some (w1, g0) ->
  sessionInv (actionCounter w0) w1 g0 /\ g_actionLog g0 = []
  /\ g_status g0 = playing.
Proof.
  unfold createOpenVerbGame. rewrite createGame_start. cbn.
  intros [= <- <-]. cbn. repeat split; auto using recorded_nil.
Qed.

(** X19: what a session of the executor keeps. After any sequence of calls
    of the five verbs on a game made by [createOpenVerbGame], the history
    holds, in order and numbered from 1, the moves that [makeMove] applied
    one after the other from the starting position to the state of the
    game; the state is one reached from the starting position; every
    recorded position text decodes, the last one to the state of the game;
    and each call has logged one action, the actions carrying consecutive
    counter values. *)
Theorem session_invariants (now : nat -> Z) (fuel : nat) (w0 w1 w : World)
  (whiteAgent blackAgent : Agent) (g0 g : OpenVerbGame)
  (calls : list Call) :
  createOpenVerbGame now w0 whiteAgent blackAgent = Some (w1, g0) ->
  session now fuel w1 g0 calls = Ret (w, g) ->
  recorded startState (g_history g) (g_state g)
  /\ reachable (g_state g)
  /\ map mr_ply (g_history g) = seq 1 (List.length (g_history g))
  /\ (forall r, In r (g_history g) ->
                exists s, parseFEN (mr_fen r) = Some s /\ reachable s)
  /\ (g_history g = [] -> g_state g = startState)
  /\ (forall recs r, g_history g = recs ++ [r] ->
                     parseFEN (mr_fen r) = Some (g_state g))
  /\ map (fun a => snd (va_id a)) (g_actionLog g)
     = seq (S (actionCounter w0)) (List.length calls).
Proof.
  intros Hc Hs.
  destruct (createOpenVerbGame_inv _ _ _ _ _ _ Hc) as (Hinv0 & Hlog0 & _).
  destruct (session_keeps _ _ _ _ _ _ _ _ Hinv0 Hs) as [(Hrec & Hids & _) Hlen].
  rewrite Hlog0 in Hlen. cbn [List.length Nat.add] in Hlen.
  destruct (recorded_last _ _ Hrec) as [Hnil Hlast].
  repeat split; auto.
  - eapply recorded_reachable; eauto.
  - eapply recorded_plies; eauto.
  - eapply recorded_fens; eauto.
  - now rewrite Hids, Hlen.
Qed.

Lemma session_invariants_witness :
  exists w1 g0 w g,
    createOpenVerbGame Z.of_nat (mkWorld 0 0)
      (mkAgent "alice" "Alice" false White None)
      (mkAgent "bob" "Bob" true Black None) = Some (w1, g0)
    /\ session Z.of_nat 2 w1 g0
         [CallGetState "alice"; CallMakeMove "alice" "e2e4" None;
          CallMakeMove "alice" "e7e5" None; CallMakeMove "bob" "e7e5" None;
          CallResign "bob"]%string = Ret (w, g)
    /\ reachable (g_state g)
    /\ map mr_ply (g_history g) = seq 1 (List.length (g_history g))
    /\ map (fun a => snd (va_id a)) (g_actionLog g) = seq 1 5.
Proof.
  assert (exists w1 g0,
             createOpenVerbGame Z.of_nat (mkWorld 0 0)
               (mkAgent "alice" "Alice" false White None)
               (mkAgent "bob" "Bob" true Black None) = Some (w1, g0))
    as (w1 & g0 & Hc) by (vm_compute; eauto).
  assert (exists w g,
             session Z.of_nat 2 w1 g0
               [CallGetState "alice"; CallMakeMove "alice" "e2e4" None;
                CallMakeMove "alice" "e7e5" None;
                CallMakeMove "bob" "e7e5" None; CallResign "bob"]%string
             = Ret (w, g)) as (w & g & Hs).
  { vm_compute in Hc. injection Hc as <- <-. vm_compute. eauto. }
  exists w1, g0, w, g. split; [exact Hc|]. split; [exact Hs|].
  destruct (session_invariants _ _ _ _ _ _ _ _ _ _ Hc Hs)
    as (_ & H1 & H2 & _ & _ & _ & H3).
  auto.
Defined.

Lemma call_when_over now fuel w g c w' g' :
  g_status g <> playing ->
  call now fuel w g c = Ret (w', g') ->
  g_state g' = g_state g /\ g_history g' = g_history g
  /\ g_white g' = g_white g /\ g_black g' = g_black g
  /\ g_status g' <> playing
  /\ g_status g' = afterResigns g [c] (g_status g).
Proof.
  intros Hover.
  assert (Hno : isPlaying (g_status g) = false)
    by (destruct (g_status g); auto; congruence).
  destruct c as [agent | agent | agent | agent uci reasoning | agent];
    cbn [call afterResigns fold_left].
  - unfold verbGetState, logAction.
    destruct (newAction _ _ _ _ _ _ _) as [a w1].
    cbn [fst]. intros [= <- <-]. cbn. repeat split; auto.
  - unfold verbGetLegalMoves, logAction.
    destruct (getLegalMoves fuel (g_state g)) as [moves| |]; try discriminate.
    cbn [obind]. destruct (newAction _ _ _ _ _ _ _) as [a w1].
    cbn [obind fst]. intros [= <- <-]. cbn. repeat split; auto.
  - unfold verbGetHistory, logAction.
    destruct (newAction _ _ _ _ _ _ _) as [a w1].
    cbn [fst]. intros [= <- <-]. cbn. repeat split; auto.
  - unfold verbMakeMove, refuseMove, logAction.
    destruct (currentAgent g) as [ag|]; [|discriminate].
    rewrite Hno. cbn [negb].
    destruct (negb (String.eqb (agent_id ag) agent));
      destruct (newAction _ _ _ _ _ _ _) as [a w1];
      cbn [obind fst]; intros [= <- <-]; cbn; repeat split; auto.
  - unfold verbResign.
    destruct (newAction _ _ _ _ _ _ _) as [a w1].
    cbn [fst]. intros [= <- <-]. cbn.
    repeat split; auto.
    destruct (String.eqb (agent_id (g_white g)) agent); discriminate.
Qed.

(** X20: a finished game takes no more moves, but can still be resigned.
    Once the status is not [playing], no sequence of calls changes the
    state or the history of the game; the status stays different from
    [playing], and it is the one the game had unless [verbResign] was
    called, whose last call decides it, whatever the result of the game
    was. *)
Theorem finished_game_is_final (now : nat -> Z) (fuel : nat)
  (calls : list Call) :
  forall (w : World) (g : OpenVerbGame) (w' : World) (g' : OpenVerbGame),
    g_status g <> playing ->
    session now fuel w g calls = Ret (w', g') ->
    g_state g' = g_state g /\ g_history g' = g_history g
    /\ g_status g' <> playing
    /\ g_status g' = afterResigns g calls (g_status g).
Proof.
  induction calls as [|c calls IH]; intros w g w' g' Hover; cbn [session].
  - intros [= <- <-]. auto.
  - destruct (call now fuel w g c) as [[w1 g1]| |] eqn:Ec; try discriminate.
    cbn [obind fst snd]. intros Hs.
    destruct (call_when_over _ _ _ _ _ _ _ Hover Ec)
      as (H1 & H2 & H3 & H4 & H5 & H6).
    destruct (IH _ _ _ _ H5 Hs) as (K1 & K2 & K3 & K4).
    repeat split; try congruence.
    rewrite K4, H6. unfold afterResigns. cbn [fold_left]. now rewrite H3.
Qed.

Lemma finished_game_is_final_witness :
  exists w' g',
    session Z.of_nat 1 (mkWorld 0 0)
      (mkGame 0 startState (mkAgent "alice" "Alice" false White None)
         (mkAgent "bob" "Bob" true Black None) [] [] stalemate 0)
      [CallMakeMove "alice" "e2e4" None; CallResign "bob"]%string
    = Ret (w', g')
    /\ g_state g' = startState /\ g_history g' = []
    /\ g_status g' = checkmate_white.
Proof.
  assert (exists w' g',
             session Z.of_nat 1 (mkWorld 0 0)
               (mkGame 0 startState (mkAgent "alice" "Alice" false White None)
                  (mkAgent "bob" "Bob" true Black None) [] [] stalemate 0)
               [CallMakeMove "alice" "e2e4" None; CallResign "bob"]%string
             = Ret (w', g')) as (w' & g' & Hs)
    by (vm_compute; eauto).
  exists w', g'. split; [exact Hs|].
  pose proof Hs as Hfin.
  apply finished_game_is_final in Hfin as (H1 & H2 & _ & H4);
    [|cbn; discriminate].
  repeat split; auto.
Defined.

(** ** The material count and the decoder *)

Lemma sideWorth_app c ps qs :
  sideWorth c (ps ++ qs) = sideWorth c ps + sideWorth c qs.
Proof.
  unfold sideWorth. induction ps as [|p ps IH]; cbn [app fold_right]; lia.
Qed.

Lemma piecesOf_cons row b :
  piecesOf (row :: b) = piecesOf [row] ++ piecesOf b.
Proof. unfold piecesOf. cbn [flat_map]. now rewrite app_nil_r. Qed.

Lemma piecesOf_blank k row :
  piecesOf [repeat None k ++ row] = piecesOf [row].
Proof.
  unfold piecesOf. cbn [flat_map]. rewrite !app_nil_r.
  induction k as [|k IH]; auto.
Qed.

(** What one character adds to the two sums and to the decoded board. *)
Lemma char_worth ch :
  Ascii.eqb ch "/" = false -> isRunDigit ch = false ->
  match pieceValues ch with
  | Some v =>
      worth (pieceOfChar ch) = v
      /\ color_eqb (color (pieceOfChar ch)) White
         = Ascii.eqb ch (toUpperCase ch)
  | None => worth (pieceOfChar ch) = 0
  end.
Proof.
  destruct ch as [[] [] [] [] [] [] [] []]; vm_compute; intros; auto;
    discriminate.
Qed.

Lemma char_blank ch :
  Ascii.eqb ch "/" = true \/ isRunDigit ch = true -> pieceValues ch = None.
Proof.
  destruct ch as [[] [] [] [] [] [] [] []]; vm_compute; intros [H | H];
    auto; discriminate.
Qed.

Lemma color_eqb_sides p :
  color_eqb (color p) Black = negb (color_eqb (color p) White).
Proof. now destruct (color p). Qed.

Lemma countMaterial_rows position : forall w b,
  countMaterial position w b
  = (w + sideWorth White (piecesOf (map parseRow (splitOn "/" position))),
     b + sideWorth Black (piecesOf (map parseRow (splitOn "/" position)))).
Proof.
  induction position as [|ch rest IH]; intros w b.
  - cbn. f_equal; lia.
  - cbn [countMaterial splitOn].
    destruct (Ascii.eqb ch "/") eqn:Esep.
    + rewrite (char_blank ch) by now left. rewrite IH.
      cbn [map]. rewrite piecesOf_cons. cbn [parseRow].
      rewrite !sideWorth_app. cbn. f_equal; lia.
    + destruct (splitOn "/" rest) as [|x xs] eqn:Es.
      { destruct rest; cbn in Es; try discriminate.
        destruct (Ascii.eqb a "/"); try discriminate.
        destruct (splitOn "/" rest); discriminate. }
      cbn [map] in *. rewrite piecesOf_cons in IH.
      rewrite piecesOf_cons. rewrite !sideWorth_app in *.
      cbn [parseRow].
      destruct (isRunDigit ch) eqn:Ed.
      * rewrite (char_blank ch) by now right. rewrite IH.
        rewrite piecesOf_blank. reflexivity.
      * pose proof (char_worth ch Esep Ed) as Hw.
        assert (Hcons : forall c,
                   sideWorth c (piecesOf [Some (pieceOfChar ch) :: parseRow x])
                   = (if color_eqb (color (pieceOfChar ch)) c
                      then worth (pieceOfChar ch) else 0)
                     + sideWorth c (piecesOf [parseRow x])).
        { intros c. unfold piecesOf. cbn [flat_map]. rewrite !app_nil_r.
          reflexivity. }
        rewrite !Hcons, color_eqb_sides.
        destruct (pieceValues ch) as [v|].
        -- destruct Hw as [Hv Hc]. rewrite Hc, Hv.
           destruct (Ascii.eqb ch (toUpperCase ch)); rewrite IH;
             cbn [negb]; f_equal; lia.
        -- rewrite Hw, IH.
           destruct (color_eqb (color (pieceOfChar ch)) White);
             cbn [negb]; f_equal; lia.
Qed.

(** X21: the material count of the planner agrees with the decoder. For
    every position text, the two sums of [analyzeMaterial] are the worth
    (queen 9, rook 5, bishop and knight 3, pawn 1) of the white and of the
    black pieces that [parseFEN]'s row decoder reads from the ranks of the
    text, and the advantage is their difference; for the text that [toFEN]
    writes of a valid state they are the worth of the pieces on its
    board. *)
Theorem analyzeMaterial_agrees :
  (forall fen,
      let pieces := piecesOf (map parseRow (rankTexts fen)) in
      am_white (analyzeMaterial fen) = sideWorth White pieces
      /\ am_black (analyzeMaterial fen) = sideWorth Black pieces
      /\ am_advantage (analyzeMaterial fen)
         = sideWorth White pieces - sideWorth Black pieces)
  /\ (forall s,
        validState s = true ->
        am_white (analyzeMaterial (toFEN s))
        = sideWorth White (piecesOf (board s))
        /\ am_black (analyzeMaterial (toFEN s))
           = sideWorth Black (piecesOf (board s))).
Proof.
  assert (Hgen : forall fen,
             let pieces := piecesOf (map parseRow (rankTexts fen)) in
             am_white (analyzeMaterial fen) = sideWorth White pieces
             /\ am_black (analyzeMaterial fen) = sideWorth Black pieces
             /\ am_advantage (analyzeMaterial fen)
                = sideWorth White pieces - sideWorth Black pieces).
  { intros fen pieces. unfold analyzeMaterial.
    rewrite countMaterial_rows. cbn [am_white am_black am_advantage].
    unfold pieces, rankTexts, placementField. repeat split; lia. }
  split; [exact Hgen|].
  intros s Hv. destruct (Hgen (toFEN s)) as (H1 & H2 & _).
  assert (Hb : validBoard (board s) = true).
  { unfold validState in Hv. rewrite !andb_true_iff in Hv. tauto. }
  destruct (boardFEN_rows _ Hb) as [Hsp Hrows].
  assert (Hranks : map parseRow (rankTexts (toFEN s)) = board s).
  { unfold rankTexts, placementField. rewrite toFEN_fields.
    rewrite (splitOn_app " " (boardFEN (board s))) by exact Hsp.
    cbn [nth]. exact Hrows. }
  rewrite Hranks in H1, H2. auto.
Qed.

Lemma analyzeMaterial_agrees_witness :
  am_white (analyzeMaterial (toFEN startState))
  = sideWorth White (piecesOf (board startState))
  /\ am_black (analyzeMaterial (toFEN startState))
     = sideWorth Black (piecesOf (board startState)).
Proof. apply (proj2 analyzeMaterial_agrees startState). reflexivity. Defined.

(** ** No call raises *)

Lemma getGameStatus_not_Throw fuel s :
  List.length (board s) = 8%nat -> getGameStatus fuel s <> Throw.
Proof.
  intros H8. unfold getGameStatus.
  pose proof (getLegalMoves_not_Throw fuel s H8) as H.
  destruct (getLegalMoves fuel s); cbn [obind]; congruence.
Qed.

Lemma makeMove_not_Throw fuel s uci :
  List.length (board s) = 8%nat -> makeMove fuel s uci <> Throw.
Proof.
  intros H8. unfold makeMove.
  pose proof (getLegalMoves_not_Throw fuel s H8) as H.
  destruct (getLegalMoves fuel s) as [lms| |] eqn:E; cbn [obind];
    try congruence.
  destruct (find _ lms) as [lm|] eqn:Ef; [|discriminate].
  apply find_some in Ef as [Hin _].
  destruct (getLegalMoves_In _ _ _ _ H8 E Hin) as [Hm _].
  destruct (legalList_applies _ _ H8 Hm) as (piece & next & _ & Ha & _).
  unfold rawOfLegal in Ha.
  destruct (sqToRC (lm_from lm)), (sqToRC (lm_to lm)). cbn [fst snd] in Ha.
  rewrite Ha. discriminate.
Qed.

Lemma call_not_Throw now fuel c0 w g c :
  sessionInv c0 w g -> call now fuel w g c <> Throw.
Proof.
  intros (Hrec & _).
  pose proof (recorded_reachable _ _ Hrec) as Hr.
  destruct (reachable_kingsAtHome _ Hr) as [Hv _].
  pose proof (validState_rows _ Hv) as H8.
  pose proof (validState_turn _ Hv) as Ht.
  destruct c as [agent | agent | agent | agent uci reasoning | agent];
    cbn [call]; try discriminate.
  - unfold verbGetLegalMoves.
    pose proof (getLegalMoves_not_Throw fuel (g_state g) H8) as H.
    destruct (getLegalMoves fuel (g_state g)); cbn [obind]; try congruence.
    destruct (newAction _ _ _ _ _ _ _). discriminate.
  - unfold verbMakeMove, currentAgent.
    assert (Hag : exists ag,
               (if String.eqb (turn (g_state g)) "w" then Some (g_white g)
                else if String.eqb (turn (g_state g)) "b"
                     then Some (g_black g) else None) = Some ag)
      by (destruct Ht as [-> | ->]; cbn; eauto).
    destruct Hag as (ag & ->).
    destruct (negb (String.eqb (agent_id ag) agent)); [discriminate|].
    destruct (negb (isPlaying (g_status g))); [discriminate|].
    pose proof (makeMove_not_Throw fuel (g_state g) uci H8) as Hmk.
    destruct (makeMove fuel (g_state g) uci) as [[[s1 lm]|]| |] eqn:E;
      cbn [obind]; try congruence; try discriminate.
    destruct (dateNow now w) as [t w1].
    assert (H8' : List.length (board s1) = 8%nat).
    { apply validState_rows. eapply makeMove_valid; eauto. }
    pose proof (getGameStatus_not_Throw fuel s1 H8') as Hst.
    destruct (getGameStatus fuel s1); cbn [obind]; try congruence.
    destruct (newAction _ _ _ _ _ _ _). discriminate.
Qed.

Lemma session_not_Throw now fuel c0 calls : forall w g,
  sessionInv c0 w g -> session now fuel w g calls <> Throw.
Proof.
  induction calls as [|c calls IH]; intros w g Hinv; cbn [session];
    [discriminate|].
  pose proof (call_not_Throw now fuel c0 w g c Hinv) as Hc.
  destruct (call now fuel w g c) as [[w1 g1]| |] eqn:Ec; cbn [obind];
    try congruence.
  cbn [fst snd]. apply IH.
  now destruct (call_keeps _ _ _ _ _ _ _ _ Hinv Ec).
Qed.

(** X22: no call raises. On a board of eight ranks [getLegalMoves],
    [getGameStatus] and [makeMove] do not raise a [TypeError]: every move
    that is returned can be applied, and the move that [makeMove] finds is
    applied. Neither does any sequence of calls of the five verbs on a game
    made by [createOpenVerbGame]: the side to move always names one of the
    two agents. *)
Theorem calls_never_raise :
  (forall s fuel uci,
      List.length (board s) = 8%nat ->
      getLegalMoves fuel s <> Throw
      /\ getGameStatus fuel s <> Throw
      /\ makeMove fuel s uci <> Throw)
  /\ (forall now fuel w0 whiteAgent blackAgent w1 g0 calls,
        createOpenVerbGame now w0 whiteAgent blackAgent = Some (w1, g0) ->
        session now fuel w1 g0 calls <> Throw).
Proof.
  split.
  - intros s fuel uci H8.
    auto using getLegalMoves_not_Throw, getGameStatus_not_Throw,
      makeMove_not_Throw.
  - intros now fuel w0 wa ba w1 g0 calls Hc.
    destruct (createOpenVerbGame_inv _ _ _ _ _ _ Hc) as (Hinv & _).
    eapply session_not_Throw; eauto.
Qed.

Lemma calls_never_raise_witness :
  getLegalMoves 1 strayKing <> Throw
  /\ getGameStatus 1 strayKing <> Throw
  /\ makeMove 1 strayKing "g2g1" <> Throw.
Proof. apply (proj1 calls_never_raise). reflexivity. Defined.

(** ** The status of the states of a game *)

Lemma pieces_by_square (g : Z -> Z -> Square) (cols rows : list Z) :
  piecesOf (map (fun r => map (fun c => g r c) cols) rows)
  = flat_map
      (fun rc : Z * Z =>
         match g (fst rc) (snd rc) with Some p => [p] | None => [] end)
      (flat_map (fun r => map (fun c => (r, c)) cols) rows).
Proof.
  unfold piecesOf. induction rows as [|r rows IH]; auto.
  cbn [map flat_map]. rewrite flat_map_app, IH. f_equal.
  clear. induction cols as [|c cols IH]; auto.
  cbn [map flat_map fst snd]. now rewrite IH.
Qed.

Lemma filter_by_square {A} (f : Piece -> bool) (g : A -> Square) l :
  filter f (flat_map (fun x => match g x with Some p => [p] | None => [] end) l)
  = flat_map
      (fun x => match g x with
                | Some p => if f p then [p] else []
                | None => []
                end) l.
Proof.
  induction l as [|x l IH]; auto.
  cbn [flat_map]. rewrite filter_app, IH. f_equal.
  destruct (g x) as [p|]; auto.
Qed.

Lemma flat_map_nil {A B} (h : A -> list B) l :
  (forall y, In y l -> h y = []) -> flat_map h l = [].
Proof.
  induction l as [|a l IH]; intros H; auto.
  cbn [flat_map]. rewrite (H a) by now left.
  apply IH. intros y Hy. apply H. now right.
Qed.

Lemma only_one {A} (h : A -> list Piece) l x p :
  NoDup l -> In x l -> h x = [p] ->
  (forall y, In y l -> y <> x -> h y = []) ->
  flat_map h l = [p].
Proof.
  intros Hnd. induction l as [|a l IH]; intros Hin Hx Hothers; [contradiction|].
  inversion Hnd as [|a' l' Hna Hnd']; subst. cbn [flat_map].
  destruct Hin as [-> | Hin].
  - rewrite Hx, flat_map_nil; auto.
    intros y Hy. apply Hothers; [now right|].
    intros ->. contradiction.
  - rewrite (Hothers a); [|now left|intros ->; contradiction].
    apply IH; auto. intros y Hy. apply Hothers. now right.
Qed.

(** One king square means one king in the count. *)
Lemma onlyKingAt_count b col r c :
  validBoard b = true ->
  onlyKingAt b (colorStr col) r c ->
  countPieces b col King = 1%nat.
Proof.
  intros Hv (Hb & Hk & Huniq). unfold countPieces.
  rewrite <- (validBoard_read b Hv) at 1.
  rewrite (pieces_by_square (getSq b) range8 range8).
  fold allSquares. rewrite filter_by_square.
  apply isKingOf_Some in Hk as (K & HK & HKc & HKt).
  assert (Hcol : forall p, colorIs (color p) (colorStr col)
                           = color_eqb (color p) col)
    by (intros p; destruct (color p), col; reflexivity).
  rewrite (only_one _ allSquares (r, c) K); auto.
  - apply NoDup_allSquares.
  - now apply In_allSquares.
  - cbn [fst snd]. rewrite HK. rewrite <- Hcol, HKc.
    unfold isType. rewrite HKt. reflexivity.
  - intros [r' c'] Hin Hne. cbn [fst snd].
    destruct (getSq b r' c') as [p|] eqn:Hp; auto.
    destruct (color_eqb (color p) col && isType p King) eqn:E; auto.
    exfalso. apply Hne. apply Huniq; [now apply In_allSquares|].
    rewrite Hp. apply andb_true_iff in E as [E1 E2].
    apply isKingOf_Some. exists p. rewrite Hcol.
    split; auto. split; auto. now apply type_eqb_eq.
Qed.

(** X23: the status of the states of a game. In every state reached from
    the starting position each side counts exactly one king, and a status
    that [getGameStatus] returns is the one of the decision order: with no
    legal move, the win of the side that has moved if the side to move is
    in check and a stalemate if not; else the fifty-move draw from a
    halfmove clock of 100; else the draw by insufficient material with two
    pieces, or with three of which the one that is no king is a bishop or
    a knight; else the game goes on. *)
Theorem reachable_status (s : GameState) :
  reachable s ->
  oneKingEach (board s) = true
  /\ forall fuel st,
       getGameStatus fuel s = Ret st -> st = statusSpec s.
Proof.
  intros Hr.
  destruct (reachable_wellPlayed _ Hr) as (Hv & _ & _ & Hw & Hb & _).
  assert (Hvb : validBoard (board s) = true).
  { unfold validState in Hv. rewrite !andb_true_iff in Hv. tauto. }
  assert (Hone : oneKingEach (board s) = true).
  { unfold oneKingEach. destruct Hw as (r & c & Hkw). destruct Hb as (r' & c' & Hkb).
    rewrite (onlyKingAt_count _ White _ _ Hvb Hkw).
    rewrite (onlyKingAt_count _ Black _ _ Hvb Hkb). reflexivity. }
  split; auto. intros fuel st Hst.
  destruct (getGameStatus_cases fuel s Hv Hone) as [H | H]; congruence.
Qed.

Lemma reachable_status_witness :
  oneKingEach (board startState) = true
  /\ forall fuel st,
       getGameStatus fuel startState = Ret st -> st = statusSpec startState.
Proof. exact (reachable_status startState reach_start). Defined.

(** ** Pawns and promotion *)

Lemma pawnArrive_promotion t r c tr tc m :
  In m (pawnArrive t r c tr tc) ->
  (promotion m = None <-> tr <> promoRankOf t).
Proof.
  unfold pawnArrive. destruct (Z.eqb_spec tr (promoRankOf t)) as [E | E].
  - intros H. apply in_map_iff in H as (p & <- & _). cbn [promotion].
    split; [discriminate | contradiction].
  - intros [<- | []]. cbn [promotion]. tauto.
Qed.

Lemma pawnCapture_cases s r c dc m :
  In m (pawnCapture s r c dc) ->
  In m (pawnArrive (turn s) r c (r + pawnDirOf (turn s)) (c + dc))
  \/ (epSquare s = Some (r + pawnDirOf (turn s), c + dc)
      /\ m = mkRaw r c (r + pawnDirOf (turn s)) (c + dc) None).
Proof.
  unfold pawnCapture.
  destruct (negb (inBounds _ _)); [contradiction|].
  destruct (enemyPiece _ _); auto.
  destruct (epSquare s) as [[er ec]|]; [|contradiction].
  destruct (Z.eqb_spec er (r + pawnDirOf (turn s))) as [-> |];
    [|contradiction].
  destruct (Z.eqb_spec ec (c + dc)) as [-> |]; [|contradiction].
  intros [<- | []]. auto.
Qed.

(** Where a pawn that does not promote arrives. *)
Lemma pawn_stays_inside s m piece :
  validState s = true ->
  (forall sq, enPassant s = Some sq -> passedOver s sq) ->
  In m (generatePseudoLegalMoves s) ->
  getSq (board s) (fromR m) (fromC m) = Some piece ->
  type piece = Pawn -> 1 <= fromR m <= 6 ->
  promotion m = None -> 1 <= toR m <= 6.
Proof.
  intros Hv Hep Hm Hp Hty Hfrom Hpr.
  pose proof (validState_turn _ Hv) as Ht.
  destruct (pseudo_ok _ _ Hm) as (_ & Htb & _).
  apply inBounds_iff in Htb as [Htr _].
  apply pseudo_In in Hm as [_ Hm]. unfold pieceMoves in Hm.
  rewrite Hp, Hty in Hm.
  destruct (negb (colorIs (color piece) (turn s))); [contradiction|].
  assert (Harr : forall tc,
             In m (pawnArrive (turn s) (fromR m) (fromC m)
                     (fromR m + pawnDirOf (turn s)) tc) ->
             1 <= toR m <= 6).
  { intros tc H. pose proof (pawnArrive_to _ _ _ _ _ _ H) as [Hr _].
    apply pawnArrive_promotion in H. apply H in Hpr.
    revert Hpr Hr. unfold promoRankOf, pawnDirOf.
    destruct Ht as [-> | ->]; cbn; lia. }
  unfold pawnMoves in Hm. apply in_app_or in Hm as [Hm | Hm].
  - apply pawnForward_In in Hm as [_ [Hm | [Hs Hm]]]; [eauto|].
    apply (f_equal toR) in Hm. cbn [toR] in Hm. revert Hs Hm.
    unfold startRankOf, pawnDirOf. destruct Ht as [-> | ->]; cbn; lia.
  - apply in_flat_map in Hm as (dc & _ & Hm).
    apply pawnCapture_cases in Hm as [Hm | [Heq Hm]]; [eauto|].
    apply (f_equal toR) in Hm. cbn [toR] in Hm.
    unfold epSquare, epSquareOf in Heq.
    destruct (enPassant s) as [sq|] eqn:Esq; [|discriminate].
    destruct (Hep sq eq_refl) as (r & c & -> & Hb & Hr & _).
    destruct (truthyStr _); [|discriminate].
    rewrite (sqToRC_rcToSq _ _ Hb) in Heq.
    assert (r = fromR m + pawnDirOf (turn s)) by congruence.
    destruct (String.eqb (turn s) "b"); lia.
Qed.

(** One transition keeps the pawns off the first and the last rank. *)
Lemma pawnsInside_step s m s' :
  wellPlayed s -> pawnsInside (board s) ->
  In m (generatePseudoLegalMoves s) -> applyRawMove s m = Some s' ->
  pawnsInside (board s').
Proof.
  intros (Hv & Hhome & Hep & _) Hin Hm Ha r c p Hp Hty.
  destruct (applyRawMove_board _ _ _ Ha) as (piece & Hpc & Hbd).
  destruct (pseudo_ok _ _ Hm) as (Hfb & Htb & Hpr & _).
  rewrite Hbd in Hp.
  destruct (pseudo_kinds _ _ _ Hm Hpc) as [[Hk Hc] | (Hne & Hkg & _)].
  - destruct (castling_from_home _ _ _ Hv Hhome Hm Hpc Hk Hc)
      as (kingside & Hfc & Htr & Htc & Hprm & Hmid & q & Hq & Hqt).
    destruct (moveBoard_cases s piece m r c) as [H | [H | [H | H]]].
    + congruence.
    + rewrite H in Hp. injection Hp as <-. unfold arriving in Hty.
      rewrite Hprm in Hty. congruence.
    + rewrite H in Hp. eapply Hin; eauto.
    + destruct H as [(_ & Hd & H) | (_ & Hd & H)]; rewrite H in Hp;
        destruct kingside; try lia; congruence.
  - assert (HnK : type piece = King -> Z.abs (toC m - fromC m) <> 2)
      by (intros E; destruct (Hkg E); lia).
    destruct (moveBoard_plain s m piece (validState_rows _ Hv) Hfb Htb
                Hne HnK) as (Hempty & Hto & Hframe).
    assert (Hdec : forall x y : Z * Z, {x = y} + {x <> y})
      by (decide equality; apply Z.eq_dec).
    destruct (Hdec (r, c) (fromR m, fromC m)) as [[= -> ->] | Hnf];
      [congruence|].
    destruct (Hdec (r, c) (toR m, toC m)) as [[= -> ->] | Hnt].
    + rewrite Hto in Hp. injection Hp as <-. unfold arriving in Hty.
      destruct (promotion m) as [t|] eqn:Hn.
      * cbn [type] in Hty. subst t.
        destruct Hpr as [Hpr | (t & Hpr & Hk)]; [congruence|].
        assert (t = Pawn) by congruence. subst t.
        simpl in Hk. intuition discriminate.
      * eapply pawn_stays_inside; eauto.
    + assert (Hcase : (type piece = Pawn /\ r = fromR m)
                      \/ (type piece = Pawn -> r <> fromR m)).
      { destruct (Z.eq_dec r (fromR m)); [|now right].
        destruct (type piece); try (right; discriminate). now left. }
      destruct Hcase as [[Hpw ->] | Hcase]; [eapply Hin; eassumption|].
      rewrite Hframe in Hp; auto.
      * eapply Hin; eauto.
      * intros Hpw _ [= E _]. now apply Hcase.
Qed.

(** Only the squares of the board hold a piece. *)
Lemma getSq_Some_inBounds b r c p :
  validBoard b = true -> getSq b r c = Some p -> inBounds r c = true.
Proof.
  intros Hv Hp. apply validBoard_iff in Hv as [H8 Hrows].
  destruct (getSq_Some_row _ _ _ _ Hp) as [Hrow Hc].
  unfold hasRow in Hrow. rewrite H8 in Hrow. change (Z.of_nat 8) with 8 in Hrow.
  apply andb_true_iff in Hrow as [H0 H7].
  apply Z.leb_le in H0. apply Z.ltb_lt in H7.
  apply inBounds_iff. split; [lia|]. split; [assumption|].
  destruct (nth_error b (Z.to_nat r)) as [row|] eqn:E.
  - rewrite (getSq_nth _ _ _ _ H0 Hc E) in Hp.
    destruct (nth_error row (Z.to_nat c)) eqn:Ec; [|discriminate].
    assert (Hlt : (Z.to_nat c < List.length row)%nat)
      by (apply nth_error_Some; congruence).
    apply nth_error_In in E. apply Hrows in E as [E _]. lia.
  - apply nth_error_None in E. lia.
Qed.

Lemma pawnsInside_start : pawnsInside (board startState).
Proof.
  intros r c p Hp Hty.
  assert (Hb : inBounds r c = true)
    by (eapply getSq_Some_inBounds; [|exact Hp]; reflexivity).
  apply inBounds_iff in Hb as [Hr Hc].
  assert (Hend : r = 0 \/ r = 7 -> False).
  { intros Hr'.
    assert (Hcs : c = 0 \/ c = 1 \/ c = 2 \/ c = 3 \/ c = 4 \/ c = 5
                  \/ c = 6 \/ c = 7) by lia.
    destruct Hr' as [-> | ->];
      intuition (subst c; vm_compute in Hp; injection Hp as <-;
                 discriminate). }
  lia.
Qed.

Lemma reachable_pawnsInside s : reachable s -> pawnsInside (board s).
Proof.
  induction 1 as [|s fuel uci s' lm Hs IH Hmk]; [exact pawnsInside_start|].
  pose proof (reachable_wellPlayed _ Hs) as Hwp.
  destruct (makeMove_pseudo _ _ _ _ _ (proj1 Hwp) Hmk) as [Hm Ha].
  eapply pawnsInside_step; eauto.
Qed.

(** Which moves carry a promotion. *)
Lemma promotion_iff s m piece :
  validState s = true ->
  (forall sq, enPassant s = Some sq -> passedOver s sq) ->
  In m (generatePseudoLegalMoves s) ->
  getSq (board s) (fromR m) (fromC m) = Some piece ->
  (promotion m <> None <->
   type piece = Pawn /\ toR m = promoRankOf (turn s)).
Proof.
  intros Hv Hep Hm Hp.
  pose proof (validState_turn _ Hv) as Ht.
  apply pseudo_In in Hm as [_ Hm]. unfold pieceMoves in Hm.
  rewrite Hp in Hm.
  destruct (negb (colorIs (color piece) (turn s))); [contradiction|].
  assert (Hplain : forall r c tr tc,
             m = mkRaw r c tr tc None -> promotion m = None)
    by (intros r c tr tc ->; reflexivity).
  assert (Hoff : forall offs, In m (offsetMoves s (fromR m) (fromC m) offs) ->
                              promotion m = None).
  { intros offs H. apply offsetMoves_In in H as (d & _ & H & _); eauto. }
  assert (Hsl : forall dirs, In m (slideMoves s (fromR m) (fromC m) dirs) ->
                             promotion m = None).
  { intros dirs H. apply slideMoves_In in H as (d & k & _ & _ & H & _);
      eauto. }
  destruct (type piece) eqn:Hty;
    try solve [split; [intros Hn; exfalso; apply Hn; eauto
                      | intros [? _]; discriminate]].
  - (* the pawn *)
    assert (Harr : forall tc,
               In m (pawnArrive (turn s) (fromR m) (fromC m)
                       (fromR m + pawnDirOf (turn s)) tc) ->
               (promotion m <> None <->
                Pawn = Pawn /\ toR m = promoRankOf (turn s))).
    { intros tc H. pose proof (pawnArrive_to _ _ _ _ _ _ H) as [Hr _].
      apply pawnArrive_promotion in H. rewrite Hr.
      destruct (Z.eq_dec (fromR m + pawnDirOf (turn s))
                  (promoRankOf (turn s))); tauto. }
    unfold pawnMoves in Hm. apply in_app_or in Hm as [Hm | Hm].
    + apply pawnForward_In in Hm as [_ [Hm | [Hs Hm]]]; [eauto|].
      rewrite (Hplain _ _ _ _ Hm).
      apply (f_equal toR) in Hm. cbn [toR] in Hm.
      split; [congruence|]. intros [_ Hpr]. exfalso. revert Hs Hm Hpr.
      unfold startRankOf, pawnDirOf, promoRankOf.
      destruct Ht as [-> | ->]; cbn; lia.
    + apply in_flat_map in Hm as (dc & _ & Hm).
      apply pawnCapture_cases in Hm as [Hm | [Heq Hm]]; [eauto|].
      rewrite (Hplain _ _ _ _ Hm).
      apply (f_equal toR) in Hm. cbn [toR] in Hm.
      split; [congruence|]. intros [_ Hpr]. exfalso.
      unfold epSquare, epSquareOf in Heq.
      destruct (enPassant s) as [sq|] eqn:Esq; [|discriminate].
      destruct (Hep sq eq_refl) as (r & c & -> & Hb & Hr & _).
      destruct (truthyStr _); [|discriminate].
      rewrite (sqToRC_rcToSq _ _ Hb) in Heq.
      assert (r = fromR m + pawnDirOf (turn s)) by congruence.
      revert Hr Hpr. unfold promoRankOf.
      destruct Ht as [-> | ->]; cbn; lia.
  - (* the king *)
    split; [|intros [? _]; discriminate].
    intros Hn. exfalso. apply Hn.
    apply in_app_or in Hm as [Hm | Hm]; [eauto|].
    apply castlingMoves_shape in Hm as (_ & k & Hm & _). eauto.
  - contradiction.
Qed.

Lemma playAll_reachable fuel s ucis s' sans :
  reachable s -> playAll fuel s ucis = Some (s', sans) -> reachable s'.
Proof.
  revert s sans. induction ucis as [|u rest IH]; intros s sans Hs Hplay.
  - injection Hplay as <- _. exact Hs.
  - cbn [playAll] in Hplay.
    destruct (makeMove fuel s u) as [[[s1 lm]|]| |] eqn:E; try discriminate.
    destruct (playAll fuel s1 rest) as [[s2 sans2]|] eqn:Hrest;
      [|discriminate].
    injection Hplay as <- _.
    eapply IH; [|exact Hrest]. eapply reach_move; eauto.
Qed.

(** X24: pawns promote. In every state reached from the starting position
    no pawn stands on the first or on the last rank, and a move that
    [generatePseudoLegalMoves] gives carries a promotion exactly when it
    brings a pawn to the last rank of the side to move: no pawn arrives
    there as a pawn, and no other move promotes. *)
Theorem pawns_promote (s : GameState) :
  reachable s ->
  (forall r c p, getSq (board s) r c = Some p -> type p = Pawn -> 1 <= r <= 6)
  /\ forall m piece,
       In m (generatePseudoLegalMoves s) ->
       getSq (board s) (fromR m) (fromC m) = Some piece ->
       (promotion m <> None <->
        type piece = Pawn /\ toR m = promoRankOf (turn s)).
Proof.
  intros Hr. split; [exact (reachable_pawnsInside s Hr)|].
  destruct (reachable_wellPlayed _ Hr) as (Hv & _ & Hep & _).
  intros m piece. now apply promotion_iff.
Qed.

Lemma pawns_promote_witness :
  exists s sans,
    playAll 2 startState
      ["h2h4"; "g7g5"; "h4g5"; "h7h6"; "g5h6"; "g8f6"; "h6h7"; "f6g8"]%string
    = Some (s, sans)
    /\ (forall r c p,
          getSq (board s) r c = Some p -> type p = Pawn -> 1 <= r <= 6)
    /\ forall m piece,
         In m (generatePseudoLegalMoves s) ->
         getSq (board s) (fromR m) (fromC m) = Some piece ->
         (promotion m <> None <->
          type piece = Pawn /\ toR m = promoRankOf (turn s)).
Proof.
  assert (exists s sans,
             playAll 2 startState
               ["h2h4"; "g7g5"; "h4g5"; "h7h6"; "g5h6"; "g8f6"; "h6h7";
                "f6g8"]%string = Some (s, sans))
    as (s & sans & E) by (vm_compute; eauto).
  exists s, sans. split; [exact E|].
  exact (pawns_promote s (playAll_reachable _ _ _ _ _ reach_start E)).
Defined.

(** ** The notation names one move *)

(** [generateSAN] on a move that is no castling: the text of [sanBase],
    then the mark. *)
Lemma generateSAN_base rec s i m all piece :
  getSq (board s) (fromR m) (fromC m) = Some piece ->
  castlingShape piece m = false ->
  generateSAN rec s i m all
  = match applyRawMove s m with
    | None => Throw
    | Some next =>
        if isInCheck (board next) (turn next)
        then obind (rec next)
               (fun nextMoves =>
                  Ret (sanBase s i piece m all
                       ++ (if Nat.eqb (List.length nextMoves) 0
                           then "#" else "+"))%string)
        else Ret (sanBase s i piece m all)
    end.
Proof.
  intros Hp Hshape. unfold castlingShape in Hshape.
  unfold generateSAN, sanBase. rewrite Hp. cbv zeta.
  destruct (isType piece King).
  - cbn [andb] in Hshape. apply orb_false_iff in Hshape as [-> ->].
    reflexivity.
  - reflexivity.
Qed.

Lemma generateSAN_castle rec s i m all piece san :
  getSq (board s) (fromR m) (fromC m) = Some piece ->
  castlingShape piece m = true ->
  generateSAN rec s i m all = Ret san ->
  (san = "O-O"%string /\ toC m - fromC m = 2)
  \/ (san = "O-O-O"%string /\ fromC m - toC m = 2).
Proof.
  intros Hp Hshape. unfold castlingShape in Hshape.
  apply andb_true_iff in Hshape as [HK Hd].
  unfold generateSAN. rewrite Hp, HK. cbv zeta. cbn [andb].
  destruct (Z.eqb_spec (toC m - fromC m) 2) as [E | E].
  - intros [= <-]. auto.
  - cbn [orb] in Hd. rewrite Hd. apply Z.eqb_eq in Hd.
    intros [= <-]. auto.
Qed.

(** The characters of a square name. *)
Lemma square_chars r c :
  inBounds r c = true ->
  exists f k,
    charAt FILES c = Some f /\ charAt RANKS r = Some k
    /\ rcToSq r c = String f (String k EmptyString)
    /\ indexOfFrom f FILES 0 = c /\ indexOfFrom k RANKS 0 = r
    /\ (97 <= nat_of_ascii f <= 104)%nat
    /\ (49 <= nat_of_ascii k <= 56)%nat.
Proof.
  rewrite inBounds_iff. intros [Hr Hc].
  assert (r = 0 \/ r = 1 \/ r = 2 \/ r = 3 \/ r = 4 \/ r = 5 \/ r = 6
          \/ r = 7) as Er by lia.
  assert (c = 0 \/ c = 1 \/ c = 2 \/ c = 3 \/ c = 4 \/ c = 5 \/ c = 6
          \/ c = 7) as Ec by lia.
  repeat (destruct Er as [-> | Er]); try subst r;
    repeat (destruct Ec as [-> | Ec]); try subst c;
    do 2 eexists;
    (split; [reflexivity|]); (split; [reflexivity|]);
    (split; [reflexivity|]); (split; [reflexivity|]);
    (split; [reflexivity|]); cbn; lia.
Qed.

Lemma snoc_inj a b ch ch' :
  (a ++ String ch EmptyString = b ++ String ch' EmptyString)%string ->
  a = b /\ ch = ch'.
Proof.
  revert b. induction a as [|x a IH]; intros [|y b] H; cbn [append] in H.
  - injection H as ->. auto.
  - injection H as _ H. destruct b; discriminate.
  - injection H as _ H. destruct a; discriminate.
  - injection H as -> H. apply IH in H as [-> ->]. auto.
Qed.

(** The mark can be told from the text before it. *)
Lemma strip_mark base base' mk mk' ch ch' :
  mk = ""%string \/ mk = "#"%string \/ mk = "+"%string ->
  mk' = ""%string \/ mk' = "#"%string \/ mk' = "+"%string ->
  lastChar base = Some ch -> ch <> "#"%char -> ch <> "+"%char ->
  lastChar base' = Some ch' -> ch' <> "#"%char -> ch' <> "+"%char ->
  (base ++ mk = base' ++ mk')%string -> base = base'.
Proof.
  intros Hmk Hmk' Hl H1 H2 Hl' H1' H2' E.
  assert (Hsn : forall a x y, lastChar a = Some x ->
                  lastChar (a ++ String y EmptyString) = Some y)
    by (intros; apply lastChar_snoc).
  destruct Hmk as [-> | [-> | ->]], Hmk' as [-> | [-> | ->]];
    rewrite ?string_app_nil in E;
    try (apply snoc_inj in E as [E _]; exact E);
    try exact E;
    exfalso;
    try (rewrite E, lastChar_snoc in Hl; congruence);
    try (rewrite <- E, lastChar_snoc in Hl'; congruence);
    apply snoc_inj in E as [_ E]; discriminate.
Qed.

Ltac text_inj :=
  repeat match goal with
         | H : ?a = ?a |- _ => clear H
         | H : String _ _ = String _ _ |- _ =>
             first [injection H as ? ? | injection H as ?]
         | H : String _ _ = EmptyString |- _ => discriminate H
         | H : EmptyString = String _ _ |- _ => discriminate H
         end;
  subst;
  repeat match goal with
         | H : (_ <= nat_of_ascii (Ascii _ _ _ _ _ _ _ _) <= _)%nat |- _ =>
             vm_compute in H
         end.

(** Reading the text of a pawn move. *)
Lemma pawn_text_inj (cap cap' : bool) (F F' f f' k k' : ascii)
  (post post' : string) :
  (97 <= nat_of_ascii F <= 104)%nat -> (97 <= nat_of_ascii F' <= 104)%nat ->
  (97 <= nat_of_ascii f <= 104)%nat -> (97 <= nat_of_ascii f' <= 104)%nat ->
  (49 <= nat_of_ascii k <= 56)%nat -> (49 <= nat_of_ascii k' <= 56)%nat ->
  (post = EmptyString \/ exists P, post = String "=" (String P EmptyString)) ->
  (post' = EmptyString
   \/ exists P, post' = String "=" (String P EmptyString)) ->
  ((if cap then String F "x" else "") ++ String f (String k post)
   = (if cap' then String F' "x" else "") ++ String f' (String k' post'))
    %string ->
  cap = cap' /\ (cap = true -> F = F') /\ f = f' /\ k = k' /\ post = post'.
Proof.
  intros HF HF' Hf Hf' Hk Hk' [-> | [P ->]] [-> | [P' ->]] E;
    destruct cap, cap'; cbn [append] in E; text_inj;
    try (exfalso; lia); repeat split; auto; discriminate.
Qed.

(** Reading the text of a piece move after the letter of the piece. *)
Lemma piece_text_inj (dis dis' xs xs' : string) (F K F' K' f k f' k' : ascii) :
  (97 <= nat_of_ascii F <= 104)%nat -> (97 <= nat_of_ascii F' <= 104)%nat ->
  (49 <= nat_of_ascii K <= 56)%nat -> (49 <= nat_of_ascii K' <= 56)%nat ->
  (97 <= nat_of_ascii f <= 104)%nat -> (97 <= nat_of_ascii f' <= 104)%nat ->
  (49 <= nat_of_ascii k <= 56)%nat -> (49 <= nat_of_ascii k' <= 56)%nat ->
  (dis = EmptyString \/ dis = String F EmptyString
   \/ dis = String K EmptyString \/ dis = String F (String K EmptyString)) ->
  (dis' = EmptyString \/ dis' = String F' EmptyString
   \/ dis' = String K' EmptyString
   \/ dis' = String F' (String K' EmptyString)) ->
  (xs = EmptyString \/ xs = "x"%string) ->
  (xs' = EmptyString \/ xs' = "x"%string) ->
  (dis ++ xs ++ String f (String k EmptyString)
   = dis' ++ xs' ++ String f' (String k' EmptyString))%string ->
  dis = dis' /\ xs = xs' /\ f = f' /\ k = k'.
Proof.
  intros HF HF' HK HK' Hf Hf' Hk Hk' Hd Hd' Hx Hx' E.
  destruct Hd as [-> | [-> | [-> | ->]]], Hd' as [-> | [-> | [-> | ->]]],
      Hx as [-> | ->], Hx' as [-> | ->];
    cbn [append] in E; text_inj; try (exfalso; lia); repeat split; auto.
Qed.

Lemma truthy_rcToSq r c :
  inBounds r c = true -> truthyStr (Some (rcToSq r c)) = true.
Proof.
  intros Hb. destruct (rcToSq_inBounds _ _ Hb) as (f & k & -> & _).
  reflexivity.
Qed.

(** The en-passant target, when there is one, names a square. *)
Lemma epSquare_passedOver s r c :
  (forall sq, enPassant s = Some sq -> passedOver s sq) ->
  (epSquare s = Some (r, c) <->
   inBounds r c = true /\ enPassant s = Some (rcToSq r c)).
Proof.
  intros Hep. unfold epSquare.
  destruct (enPassant s) as [sq|] eqn:E.
  - destruct (Hep sq eq_refl) as (r' & c' & -> & Hb & _).
    rewrite (rcToSq_truthy _ _ Hb). split.
    + intros [= <- <-]. auto.
    + intros [Hb' [= H]]. apply (f_equal sqToRC) in H.
      rewrite !sqToRC_rcToSq in H by assumption. congruence.
  - split; [discriminate | intros [_ H]; discriminate].
Qed.

(** A pawn move is written as a capture exactly when it changes file. *)
Lemma pawn_move_forms s m piece :
  validState s = true ->
  (forall sq, enPassant s = Some sq -> passedOver s sq) ->
  In m (generatePseudoLegalMoves s) ->
  getSq (board s) (fromR m) (fromC m) = Some piece ->
  type piece = Pawn ->
  (negb (emptySq (getSq (board s) (toR m) (toC m)))
   || (truthyStr (enPassant s)
       && match enPassant s with
          | Some ep => String.eqb (rcToSq (toR m) (toC m)) ep
          | None => false
          end) = false
   /\ toC m = fromC m
   /\ (toR m = fromR m + pawnDirOf (turn s)
       \/ (toR m = fromR m + 2 * pawnDirOf (turn s)
           /\ getSq (board s) (fromR m + pawnDirOf (turn s)) (fromC m)
              = None)))
  \/ (negb (emptySq (getSq (board s) (toR m) (toC m)))
      || (truthyStr (enPassant s)
          && match enPassant s with
             | Some ep => String.eqb (rcToSq (toR m) (toC m)) ep
             | None => false
             end) = true
      /\ toC m <> fromC m
      /\ toR m = fromR m + pawnDirOf (turn s)).
Proof.
  intros Hv Hep Hm Hp Hty.
  pose proof (validState_turn _ Hv) as Ht.
  destruct (pseudo_ok _ _ Hm) as (_ & Htb & _ & q & Hq & Hown).
  assert (q = piece) by congruence. subst q.
  pose proof Hm as Hm0.
  apply pseudo_In in Hm as [_ Hm]. unfold pieceMoves in Hm.
  rewrite Hp, Hty, Hown in Hm. cbn [negb] in Hm.
  unfold pawnMoves in Hm. apply in_app_or in Hm as [Hm | Hm].
  - left. pose proof (pawnForward_empty _ _ _ _ Hm) as Hempty.
    pose proof (pawnForward_toC _ _ _ _ Hm) as Hc.
    assert (Hrows : toR m = fromR m + pawnDirOf (turn s)
                    \/ (toR m = fromR m + 2 * pawnDirOf (turn s)
                        /\ fromR m = startRankOf (turn s)
                        /\ getSq (board s) (fromR m + pawnDirOf (turn s))
                             (fromC m) = None)).
    { apply pawnForward_In in Hm as [_ [Hm | [Hs Hm]]].
      - left. now apply pawnArrive_to in Hm.
      - right. pose proof (f_equal toR Hm) as Hr. cbn [toR] in Hr.
        assert (Habs : Z.abs (toR m - fromR m) = 2)
          by (destruct (pawnDirOf_cases (turn s)) as [E | E];
              rewrite E in Hr; lia).
        destruct (double_push_shape _ _ _ Hm0 Hp Hty Habs)
          as (_ & _ & _ & _ & Hmid & _ & _). auto. }
    split; [|split; [assumption | tauto]].
    rewrite Hempty. cbn [emptySq negb orb].
    destruct (enPassant s) as [sq|] eqn:Esq; [|reflexivity].
    destruct (Hep sq eq_refl)
      as (r & c & -> & Hb & Hr & _ & p & Hpp & _ & Hcol).
    rewrite (truthy_rcToSq _ _ Hb). cbn [andb].
    apply String.eqb_neq. intros E. apply (f_equal sqToRC) in E.
    rewrite !sqToRC_rcToSq in E by assumption. injection E as Er Ec.
    destruct Hrows as [Hrow | (Hrow & Hs & _)].
    + replace (r - pawnDirOf (turn s)) with (fromR m) in Hpp by lia.
      rewrite <- Ec, Hc, Hp in Hpp. congruence.
    + revert Hr Hrow Hs. unfold pawnDirOf, startRankOf.
      destruct Ht as [-> | ->]; cbn; lia.
  - right. apply in_flat_map in Hm as (dc & Hdc & Hm).
    pose proof (pawnCapture_to _ _ _ _ _ Hm) as [Hr Hc].
    split; [|split; [simpl in Hdc; lia | assumption]].
    apply pawnCapture_lands in Hm as [He | He].
    + destruct (getSq (board s) (toR m) (toC m)); [reflexivity|discriminate].
    + apply (epSquare_passedOver _ _ _ Hep) in He as [Hb He].
      rewrite He, (truthy_rcToSq _ _ Hb), String.eqb_refl.
      now rewrite orb_true_r.
Qed.

Lemma promo_text m :
  promoOK m ->
  match promotion m with
  | Some p => ("=" ++ str1 (toUpperCase (typeChar p)))%string
  | None => EmptyString
  end = EmptyString
  \/ exists P,
       match promotion m with
       | Some p => ("=" ++ str1 (toUpperCase (typeChar p)))%string
       | None => EmptyString
       end = String "=" (String P EmptyString)
       /\ P <> "#"%char /\ P <> "+"%char.
Proof.
  intros [-> | (p & -> & Hin)]; [now left|]. right.
  exists (toUpperCase (typeChar p)). split; [reflexivity|].
  simpl in Hin. intuition (subst; discriminate).
Qed.

(** A piece that moves is of one of the six kinds. *)
Lemma mover_kind s m piece :
  In m (generatePseudoLegalMoves s) ->
  getSq (board s) (fromR m) (fromC m) = Some piece ->
  In (type piece) [Pawn; Knight; Bishop; Rook; Queen; King].
Proof.
  intros Hm Hp. apply pseudo_In in Hm as [_ Hm]. unfold pieceMoves in Hm.
  rewrite Hp in Hm. destruct (negb _); [contradiction|].
  destruct (type piece); simpl; tauto.
Qed.

(** The first character of the text: a file letter for a pawn, a capital
    other than O for a piece. *)
Lemma sanBase_first s i m all piece :
  In m (generatePseudoLegalMoves s) ->
  getSq (board s) (fromR m) (fromC m) = Some piece ->
  exists ch rest,
    sanBase s i piece m all = String ch rest
    /\ ch <> "O"%char
    /\ (type piece = Pawn -> (97 <= nat_of_ascii ch <= 104)%nat)
    /\ (type piece <> Pawn -> (nat_of_ascii ch <= 82)%nat).
Proof.
  intros Hm Hp. pose proof (mover_kind _ _ _ Hm Hp) as Hk.
  destruct (pseudo_ok _ _ Hm) as (Hfb & Htb & _).
  destruct (square_chars _ _ Hfb) as (F & K & HF & _ & _ & _ & _ & HFc & _).
  destruct (square_chars _ _ Htb) as (f & k & _ & _ & Hsq & _ & _ & Hfc & _).
  unfold sanBase. cbv zeta. rewrite Hsq, HF.
  assert (Hne : forall ch, (97 <= nat_of_ascii ch)%nat -> ch <> "O"%char)
    by (intros ch H ->; vm_compute in H; lia).
  destruct (isType piece Pawn) eqn:HP.
  - apply isType_true in HP.
    destruct (_ || _); cbn [showChar append]; do 2 eexists;
      (split; [reflexivity|]); (split; [apply Hne; lia|]);
      (split; [intros _; assumption | intros H; contradiction]).
  - apply isType_false in HP.
    cbn [str1 append]. do 2 eexists. split; [reflexivity|].
    simpl in Hk.
    destruct Hk as [E | [E | [E | [E | [E | [E | []]]]]]]; rewrite <- E;
      try (symmetry in E; contradiction);
      (split; [discriminate|]);
      (split; [intros; discriminate | intros _; vm_compute; lia]).
Qed.

(** The last character of the text is no mark. *)
Lemma sanBase_last s i m all piece :
  inBounds (toR m) (toC m) = true -> promoOK m ->
  exists ch,
    lastChar (sanBase s i piece m all) = Some ch
    /\ ch <> "#"%char /\ ch <> "+"%char.
Proof.
  intros Hb Hpr.
  destruct (lastChar_rcToSq _ _ Hb) as (k & Hk & Hk1 & Hk2).
  unfold sanBase. cbv zeta. destruct (isType piece Pawn).
  - destruct Hpr as [Hn | (p & Hn & Hin)]; rewrite Hn.
    + exists k. split; auto. apply lastChar_app_r.
      now rewrite string_app_nil.
    + exists (toUpperCase (typeChar p)). split.
      * now repeat apply lastChar_app_r.
      * simpl in Hin. intuition (subst; discriminate).
  - exists k. split; auto. now repeat apply lastChar_app_r.
Qed.

Lemma rawMove_eq m m' :
  fromR m = fromR m' -> fromC m = fromC m' -> toR m = toR m' ->
  toC m = toC m' -> promotion m = promotion m' -> m = m'.
Proof. destruct m, m'. cbn. intros -> -> -> -> ->. reflexivity. Qed.

Lemma promo_letter_inj p p' :
  In p promoKinds -> In p' promoKinds ->
  toUpperCase (typeChar p) = toUpperCase (typeChar p') -> p = p'.
Proof.
  simpl. intros H H'.
  destruct H as [<- | [<- | [<- | [<- | []]]]],
      H' as [<- | [<- | [<- | [<- | []]]]];
    intros E; try reflexivity; vm_compute in E; discriminate.
Qed.

(** The text of a pawn move names the move. *)
Lemma sanBase_pawn_inj s i j m m' p p' all :
  validState s = true ->
  (forall sq, enPassant s = Some sq -> passedOver s sq) ->
  In m (generatePseudoLegalMoves s) -> In m' (generatePseudoLegalMoves s) ->
  getSq (board s) (fromR m) (fromC m) = Some p ->
  getSq (board s) (fromR m') (fromC m') = Some p' ->
  type p = Pawn -> type p' = Pawn ->
  sanBase s i p m all = sanBase s j p' m' all -> m = m'.
Proof.
  intros Hv Hep Hm Hm' Hp Hp' Hty Hty' E.
  destruct (pseudo_ok _ _ Hm) as (Hfb & Htb & Hpr & _).
  destruct (pseudo_ok _ _ Hm') as (Hfb' & Htb' & Hpr' & _).
  destruct (square_chars _ _ Hfb)
    as (F & K & HF & _ & _ & HFi & _ & HFc & _).
  destruct (square_chars _ _ Hfb')
    as (F' & K' & HF' & _ & _ & HFi' & _ & HFc' & _).
  destruct (square_chars _ _ Htb)
    as (f & k & _ & _ & Hsq & Hfi & Hki & Hfc & Hkc).
  destruct (square_chars _ _ Htb')
    as (f' & k' & _ & _ & Hsq' & Hfi' & Hki' & Hfc' & Hkc').
  unfold sanBase in E. cbv zeta in E.
  rewrite (proj2 (isType_true p Pawn) Hty) in E.
  rewrite (proj2 (isType_true p' Pawn) Hty') in E.
  rewrite Hsq, Hsq', HF, HF' in E. cbn [showChar] in E.
  assert (Hpost : forall m0, promoOK m0 ->
             match promotion m0 with
             | Some p => ("=" ++ str1 (toUpperCase (typeChar p)))%string
             | None => EmptyString
             end = EmptyString
             \/ exists P,
                  match promotion m0 with
                  | Some p => ("=" ++ str1 (toUpperCase (typeChar p)))%string
                  | None => EmptyString
                  end = String "=" (String P EmptyString)).
  { intros m0 H. destruct (promo_text m0 H) as [H0 | (P & H0 & _)]; eauto. }
  set (flag := negb _ || _) in E. set (flag' := negb _ || _) in E.
  change ((String F EmptyString ++ "x")%string) with (String F "x") in E.
  change ((String F' EmptyString ++ "x")%string) with (String F' "x") in E.
  cbn [append] in E.
  change (?a ++ String f (String k ?post))%string
    with (a ++ String f (String k post))%string in E.
  destruct (pawn_text_inj flag flag' F F' f f' k k' _ _
              HFc HFc' Hfc Hfc' Hkc Hkc' (Hpost m Hpr) (Hpost m' Hpr'))
    as (Hflag & HFF & -> & -> & Hpp).
  { revert E. destruct flag, flag'; cbn [append]; auto. }
  assert (Htr : toR m = toR m') by congruence.
  assert (Htc : toC m = toC m') by congruence.
  assert (Hprom : promotion m = promotion m').
  { destruct Hpr as [Hn | (t & Hn & Hin)], Hpr' as [Hn' | (t' & Hn' & Hin')];
      rewrite Hn, Hn' in *; try discriminate; auto.
    cbn [append str1] in Hpp. injection Hpp as Hpp.
    f_equal. now apply promo_letter_inj. }
  pose proof (pawn_move_forms _ _ _ Hv Hep Hm Hp Hty) as Hforms.
  pose proof (pawn_move_forms _ _ _ Hv Hep Hm' Hp' Hty') as Hforms'.
  rewrite Hsq in Hforms. rewrite Hsq' in Hforms'.
  fold flag in Hforms. fold flag' in Hforms'.
  destruct Hforms as [(Hfl & Hc & Hr) | (Hfl & Hc & Hr)];
    destruct Hforms' as [(Hfl' & Hc' & Hr') | (Hfl' & Hc' & Hr')];
    try congruence.
  - apply rawMove_eq; auto; try congruence.
    destruct Hr as [Hr | [Hr Hmid]], Hr' as [Hr' | [Hr' Hmid']]; try lia.
    + exfalso.
      replace (fromR m' + pawnDirOf (turn s)) with (fromR m) in Hmid' by lia.
      replace (fromC m') with (fromC m) in Hmid' by congruence.
      congruence.
    + exfalso.
      replace (fromR m + pawnDirOf (turn s)) with (fromR m') in Hmid by lia.
      replace (fromC m) with (fromC m') in Hmid by congruence.
      congruence.
  - assert (HFeq : F = F') by (apply HFF; assumption).
    apply rawMove_eq; auto; try lia. congruence.
Qed.

Lemma indexed_In {A} k (l : list A) i x :
  In (i, x) (indexed k l) <->
  (k <= i)%nat /\ nth_error l (i - k) = Some x.
Proof.
  revert k. induction l as [|y l IH]; intros k; cbn [indexed].
  - split; [contradiction|]. intros [_ H]. destruct (i - k)%nat; discriminate.
  - cbn [In]. rewrite IH. split.
    + intros [[= <- <-] | [Hk H]].
      * rewrite Nat.sub_diag. auto.
      * split; [lia|]. replace (i - k)%nat with (S (i - S k)) by lia.
        exact H.
    + intros [Hk H]. destruct (Nat.eq_dec k i) as [<- | Hne].
      * rewrite Nat.sub_diag in H. injection H as <-. auto.
      * right. split; [lia|].
        replace (i - k)%nat with (S (i - S k)) in H by lia. exact H.
Qed.

(** The other moves of the same kind onto the same square. *)
Lemma samePieceMoves_In s i piece m all j m' q :
  nth_error all j = Some m' -> j <> i ->
  getSq (board s) (fromR m') (fromC m') = Some q -> type q = type piece ->
  toR m' = toR m -> toC m' = toC m ->
  In m' (samePieceMoves s i piece m all).
Proof.
  intros Hj Hne Hq Hty Hr Hc. unfold samePieceMoves.
  apply in_map_iff. exists (j, m'). split; [reflexivity|].
  apply filter_In. split.
  - apply indexed_In. rewrite Nat.sub_0_r. split; [lia | exact Hj].
  - cbn [fst snd]. rewrite Hq, Hr, Hc, !Z.eqb_refl.
    rewrite (proj2 (type_eqb_eq _ _) Hty).
    destruct (Nat.eqb_spec j i); [contradiction | reflexivity].
Qed.

Lemma piece_letter_inj t t' :
  In t [Knight; Bishop; Rook; Queen; King] ->
  In t' [Knight; Bishop; Rook; Queen; King] ->
  toUpperCase (typeChar t) = toUpperCase (typeChar t') -> t = t'.
Proof.
  simpl. intros H H'.
  destruct H as [<- | [<- | [<- | [<- | [<- | []]]]]],
      H' as [<- | [<- | [<- | [<- | [<- | []]]]]];
    intros E; try reflexivity; vm_compute in E; discriminate.
Qed.

(** The text of a piece move names the move among the moves of the
    list. *)
Lemma sanBase_piece_inj s i j m m' p p' all :
  validState s = true ->
  (forall sq, enPassant s = Some sq -> passedOver s sq) ->
  In m (generatePseudoLegalMoves s) -> In m' (generatePseudoLegalMoves s) ->
  nth_error all i = Some m -> nth_error all j = Some m' -> i <> j ->
  getSq (board s) (fromR m) (fromC m) = Some p ->
  getSq (board s) (fromR m') (fromC m') = Some p' ->
  type p <> Pawn -> type p' <> Pawn ->
  sanBase s i p m all = sanBase s j p' m' all -> m = m'.
Proof.
  intros Hv Hep Hm Hm' Hi Hj Hij Hp Hp' Hty Hty' E.
  destruct (pseudo_ok _ _ Hm) as (Hfb & Htb & Hpr & _).
  destruct (pseudo_ok _ _ Hm') as (Hfb' & Htb' & Hpr' & _).
  destruct (square_chars _ _ Hfb)
    as (F & K & HF & HK & Hfrom & HFi & HKi & HFc & HKc).
  destruct (square_chars _ _ Hfb')
    as (F' & K' & HF' & HK' & Hfrom' & HFi' & HKi' & HFc' & HKc').
  destruct (square_chars _ _ Htb)
    as (f & k & _ & _ & Hsq & Hfi & Hki & Hfc & Hkc).
  destruct (square_chars _ _ Htb')
    as (f' & k' & _ & _ & Hsq' & Hfi' & Hki' & Hfc' & Hkc').
  assert (Hkind : forall m0 q,
             In m0 (generatePseudoLegalMoves s) ->
             getSq (board s) (fromR m0) (fromC m0) = Some q ->
             type q <> Pawn ->
             In (type q) [Knight; Bishop; Rook; Queen; King]).
  { intros m0 q H0 Hq Hn. pose proof (mover_kind _ _ _ H0 Hq) as H.
    simpl in H. simpl. intuition congruence. }
  assert (Hplain : forall m0 q,
             In m0 (generatePseudoLegalMoves s) ->
             getSq (board s) (fromR m0) (fromC m0) = Some q ->
             type q <> Pawn -> promotion m0 = None).
  { intros m0 q H0 Hq Hn. destruct (promotion m0) eqn:Epr; auto.
    exfalso. apply Hn.
    apply (promotion_iff _ _ _ Hv Hep H0 Hq). congruence. }
  unfold sanBase in E. cbv zeta in E.
  rewrite (proj2 (isType_false p Pawn) Hty) in E.
  rewrite (proj2 (isType_false p' Pawn) Hty') in E.
  rewrite Hsq, Hsq', HF, HF', HK, HK', Hfrom, Hfrom' in E.
  cbn [showChar str1 append] in E. injection E as EL E.
  assert (Htype : type p = type p').
  { apply piece_letter_inj; [exact (Hkind _ _ Hm Hp Hty)
                            | exact (Hkind _ _ Hm' Hp' Hty') | exact EL]. }
  assert (Hx : forall sq : Square,
             (if negb (emptySq sq) then "x"%string else ""%string)
             = EmptyString
             \/ (if negb (emptySq sq) then "x"%string else ""%string)
                = "x"%string)
    by (intros [q|]; auto).
  assert (Hd : forall (b1 b2 b3 : bool) (x y : ascii),
             let d := if b1
                      then if b2 then String x EmptyString
                           else if b3 then String y EmptyString
                                else String x (String y EmptyString)
                      else EmptyString in
             d = EmptyString \/ d = String x EmptyString
             \/ d = String y EmptyString
             \/ d = String x (String y EmptyString))
    by (intros [] [] [] x y; cbv zeta; auto 6).
  set (same := samePieceMoves s i p m all) in *.
  set (same' := samePieceMoves s j p' m' all) in *.
  pose proof (Hx (getSq (board s) (toR m) (toC m))) as Hxs.
  pose proof (Hx (getSq (board s) (toR m') (toC m'))) as Hxs'.
  pose proof (Hd (negb (Nat.eqb (List.length same) 0))
                (negb (existsb (fun x => fromC x =? fromC m) same))
                (negb (existsb (fun x => fromR x =? fromR m) same)) F K)
    as Hdis.
  pose proof (Hd (negb (Nat.eqb (List.length same') 0))
                (negb (existsb (fun x => fromC x =? fromC m') same'))
                (negb (existsb (fun x => fromR x =? fromR m') same')) F' K')
    as Hdis'.
  cbv zeta in Hdis, Hdis'.
  set (xs := if negb (emptySq (getSq (board s) (toR m) (toC m)))
             then "x"%string else ""%string) in *.
  set (xs' := if negb (emptySq (getSq (board s) (toR m') (toC m')))
              then "x"%string else ""%string) in *.
  set (dis := if negb (Nat.eqb (List.length same) 0) then _ else _) in *.
  set (dis' := if negb (Nat.eqb (List.length same') 0) then _ else _) in *.
  destruct (piece_text_inj dis dis' xs xs' F K F' K' f k f' k'
              HFc HFc' HKc HKc' Hfc Hfc' Hkc Hkc' Hdis Hdis' Hxs Hxs' E)
    as (Ed & _ & -> & ->).
  assert (Htr : toR m = toR m') by congruence.
  assert (Htc : toC m = toC m') by congruence.
  assert (Hin' : In m' same)
    by (eapply samePieceMoves_In; eauto; congruence).
  assert (Hin : In m same')
    by (eapply samePieceMoves_In; eauto; congruence).
  assert (Hlen : forall (l : list RawMove) x,
             In x l -> negb (Nat.eqb (List.length l) 0) = true)
    by (intros [|y l] x H; [contradiction | reflexivity]).
  unfold dis, dis' in Ed.
  rewrite (Hlen _ _ Hin), (Hlen _ _ Hin') in Ed.
  destruct (existsb (fun x => fromC x =? fromC m) same) eqn:Efile;
    cbn [negb] in Ed.
  - destruct (existsb (fun x => fromR x =? fromR m) same) eqn:Erank;
      cbn [negb] in Ed.
    + (* file and rank were written *)
      assert (F = F' /\ K = K') as [-> ->].
      { revert Ed.
        destruct (existsb (fun x => fromC x =? fromC m') same');
          [destruct (existsb (fun x => fromR x =? fromR m') same')|];
          cbn [negb]; intros Ed; text_inj; try (exfalso; lia); auto. }
      apply rawMove_eq; try congruence.
      rewrite (Hplain _ _ Hm Hp Hty), (Hplain _ _ Hm' Hp' Hty').
      reflexivity.
    + (* the rank was written: no other move leaves from it *)
      exfalso.
      assert (K = K').
      { revert Ed.
        destruct (existsb (fun x => fromC x =? fromC m') same');
          [destruct (existsb (fun x => fromR x =? fromR m') same')|];
          cbn [negb]; intros Ed; text_inj; try (exfalso; lia); auto. }
      subst K'.
      assert (existsb (fun x => fromR x =? fromR m) same = true);
        [|congruence].
      apply existsb_exists. exists m'. split; auto.
      apply Z.eqb_eq. congruence.
  - (* the file was written: no other move leaves from it *)
    exfalso.
    assert (F = F').
    { revert Ed.
      destruct (existsb (fun x => fromC x =? fromC m') same');
        [destruct (existsb (fun x => fromR x =? fromR m') same')|];
        cbn [negb]; intros Ed; text_inj; try (exfalso; lia); auto. }
    subst F'.
    assert (existsb (fun x => fromC x =? fromC m) same = true);
      [|congruence].
    apply existsb_exists. exists m'. split; auto.
    apply Z.eqb_eq. congruence.
Qed.

Lemma toLegalMove_san rec s all i m lm :
  toLegalMove rec s all (i, m) = Ret lm ->
  exists piece,
    getSq (board s) (fromR m) (fromC m) = Some piece
    /\ generateSAN rec s i m all = Ret (lm_san lm).
Proof.
  unfold toLegalMove. cbn [fst snd].
  destruct (getSq (board s) (fromR m) (fromC m)) as [piece|];
    [|discriminate].
  destruct (generateSAN rec s i m all) as [san| |]; try discriminate.
  cbn [obind]. intros [= <-]. eauto.
Qed.

(** The notation of a move that is no castling is the text, then at most
    one mark. *)
Lemma generateSAN_marked rec s i m all piece san :
  getSq (board s) (fromR m) (fromC m) = Some piece ->
  castlingShape piece m = false ->
  generateSAN rec s i m all = Ret san ->
  exists mk,
    (mk = ""%string \/ mk = "#"%string \/ mk = "+"%string)
    /\ san = (sanBase s i piece m all ++ mk)%string.
Proof.
  intros Hp Hshape. rewrite (generateSAN_base _ _ _ _ _ _ Hp Hshape).
  destruct (applyRawMove s m) as [next|]; [|discriminate].
  destruct (isInCheck _ _).
  - destruct (rec next) as [nm| |]; try discriminate. cbn [obind].
    intros [= <-]. destruct (Nat.eqb _ _); eauto.
  - intros [= <-]. exists ""%string. rewrite string_app_nil. auto.
Qed.

(** The two-file moves of a king are the two castling moves. *)
Lemma castling_move_is s m piece :
  validState s = true -> kingsAtHome s = true ->
  In m (generatePseudoLegalMoves s) ->
  getSq (board s) (fromR m) (fromC m) = Some piece ->
  castlingShape piece m = true ->
  m = mkRaw (homeRank s) 4 (homeRank s) (toC m) None.
Proof.
  intros Hv Hhome Hm Hp Hshape. unfold castlingShape in Hshape.
  apply andb_true_iff in Hshape as [HK Hd]. apply isType_true in HK.
  destruct (pseudo_kinds _ _ _ Hm Hp) as [[_ Hc] | (_ & Hkg & _)].
  - destruct (castling_from_home _ _ _ Hv Hhome Hm Hp HK Hc)
      as (kingside & Hfc & Htr & Htc & Hprm & _).
    apply castlingMoves_shape in Hc as (_ & ks & Hc & _).
    pose proof (f_equal toR Hc) as Hr. cbn [toR] in Hr.
    apply rawMove_eq; cbn [fromR fromC toR toC promotion]; congruence.
  - exfalso. destruct (Hkg HK) as [Habs _].
    apply orb_true_iff in Hd as [Hd | Hd]; apply Z.eqb_eq in Hd; lia.
Qed.

(** Two records of the list with the same notation are one record. *)
Lemma legal_san_inj s rec i j m m' lm lm' :
  wellPlayed s ->
  nth_error (legalList s) i = Some m ->
  nth_error (legalList s) j = Some m' ->
  toLegalMove rec s (legalList s) (i, m) = Ret lm ->
  toLegalMove rec s (legalList s) (j, m') = Ret lm' ->
  lm_san lm = lm_san lm' -> i = j.
Proof.
  intros (Hv & Hhome & Hep & _) Hi Hj Hlm Hlm' Esan.
  destruct (Nat.eq_dec i j) as [|Hij]; [assumption|]. exfalso.
  assert (Hnd : NoDup (legalList s)).
  { apply NoDup_legalList; auto.
    apply kingsAtHome_rightsConsistent; auto using validState_turn. }
  assert (Hlt : (i < List.length (legalList s))%nat)
    by (apply nth_error_Some; congruence).
  apply Hij. apply (proj1 (NoDup_nth_error _) Hnd i j Hlt).
  rewrite Hi, Hj. f_equal.
  pose proof (nth_error_In _ _ Hi) as Hm.
  pose proof (nth_error_In _ _ Hj) as Hm'.
  apply legalList_In in Hm as [Hm _], Hm' as [Hm' _].
  destruct (pseudo_ok _ _ Hm) as (_ & Htb & Hpr & _).
  destruct (pseudo_ok _ _ Hm') as (_ & Htb' & Hpr' & _).
  apply toLegalMove_san in Hlm as (p & Hp & Hsan).
  apply toLegalMove_san in Hlm' as (p' & Hp' & Hsan').
  rewrite <- Esan in Hsan'.
  destruct (sanBase_first s i m (legalList s) p Hm Hp)
    as (ch & rest & Hb & HO & Hpawn & Hpiece).
  destruct (sanBase_first s j m' (legalList s) p' Hm' Hp')
    as (ch' & rest' & Hb' & HO' & Hpawn' & Hpiece').
  destruct (castlingShape p m) eqn:Hshape;
    destruct (castlingShape p' m') eqn:Hshape'.
  - (* two castling moves *)
    pose proof (castling_move_is _ _ _ Hv Hhome Hm Hp Hshape) as Em.
    pose proof (castling_move_is _ _ _ Hv Hhome Hm' Hp' Hshape') as Em'.
    pose proof (f_equal fromC Em) as Hc. cbn [fromC] in Hc.
    pose proof (f_equal fromC Em') as Hc'. cbn [fromC] in Hc'.
    assert (Htc : toC m = toC m').
    { destruct (generateSAN_castle _ _ _ _ _ _ _ Hp Hshape Hsan)
        as [[E Hd] | [E Hd]];
        destruct (generateSAN_castle _ _ _ _ _ _ _ Hp' Hshape' Hsan')
          as [[E' Hd'] | [E' Hd']];
        rewrite E in E'; try discriminate; lia. }
    rewrite Em, Em', Htc. reflexivity.
  - exfalso.
    destruct (generateSAN_marked _ _ _ _ _ _ _ Hp' Hshape' Hsan')
      as (mk & _ & E).
    rewrite Hb' in E. cbn [append] in E.
    destruct (generateSAN_castle _ _ _ _ _ _ _ Hp Hshape Hsan)
      as [[E0 _] | [E0 _]]; rewrite E0 in E; injection E as E _;
      now apply HO'.
  - exfalso.
    destruct (generateSAN_marked _ _ _ _ _ _ _ Hp Hshape Hsan)
      as (mk & _ & E).
    rewrite Hb in E. cbn [append] in E.
    destruct (generateSAN_castle _ _ _ _ _ _ _ Hp' Hshape' Hsan')
      as [[E0 _] | [E0 _]]; rewrite E0 in E; injection E as E _;
      now apply HO.
  - destruct (generateSAN_marked _ _ _ _ _ _ _ Hp Hshape Hsan)
      as (mk & Hmk & E).
    destruct (generateSAN_marked _ _ _ _ _ _ _ Hp' Hshape' Hsan')
      as (mk' & Hmk' & E').
    destruct (sanBase_last s i m (legalList s) p Htb Hpr)
      as (l & Hl & Hl1 & Hl2).
    destruct (sanBase_last s j m' (legalList s) p' Htb' Hpr')
      as (l' & Hl' & Hl1' & Hl2').
    assert (Ebase : sanBase s i p m (legalList s)
                    = sanBase s j p' m' (legalList s)).
    { eapply (strip_mark _ _ mk mk'); eauto. congruence. }
    assert (Hdec : forall q : Piece, type q = Pawn \/ type q <> Pawn)
      by (intros q; destruct (type q); auto; right; discriminate).
    destruct (Hdec p) as [Hty | Hty], (Hdec p') as [Hty' | Hty'].
    + eapply sanBase_pawn_inj; eauto.
    + exfalso. rewrite Hb, Hb' in Ebase. injection Ebase as -> _.
      specialize (Hpawn Hty). specialize (Hpiece' Hty'). lia.
    + exfalso. rewrite Hb, Hb' in Ebase. injection Ebase as -> _.
      specialize (Hpawn' Hty'). specialize (Hpiece Hty). lia.
    + eapply sanBase_piece_inj; eauto.
Qed.

Lemma NoDup_indexed {A} k (l : list A) : NoDup (indexed k l).
Proof.
  revert k. induction l as [|x l IH]; intros k; cbn [indexed];
    constructor; auto.
  intros H. apply indexed_In in H as [H _]. lia.
Qed.

Lemma NoDup_map_Forall2 {A B C} (R : A -> B -> Prop) (g : B -> C) l l' :
  Forall2 R l l' -> NoDup l ->
  (forall x x' y y',
      In x l -> In x' l -> R x y -> R x' y' -> g y = g y' -> x = x') ->
  NoDup (map g l').
Proof.
  induction 1 as [|x y l l' Hxy Hall IH]; intros Hnd Hinj; cbn [map];
    constructor.
  - intros Hin. apply in_map_iff in Hin as (y' & Eg & Hy').
    destruct (Forall2_In_r _ _ _ _ Hall Hy') as (x' & Hx' & Hxy').
    assert (x = x')
      by (apply (Hinj x x' y y'); simpl; auto).
    subst x'. inversion Hnd; contradiction.
  - apply IH; [now inversion Hnd|].
    intros a a' b b' Ha Ha'. apply Hinj; simpl; auto.
Qed.

(** X25: the notation names one move. In every state reached from the
    starting position the legal moves that [getLegalMoves] returns have
    pairwise different notations: the letter of the piece, the
    disambiguation by file, rank or both that [generateSAN] adds among the
    legal moves, the capture sign, the destination and the promotion tell
    any two of them apart, whatever their check marks. *)
Theorem reachable_san_distinct (s : GameState) :
  reachable s ->
  forall fuel lms,
    getLegalMoves fuel s = Ret lms -> NoDup (map lm_san lms).
Proof.
  intros Hr fuel lms Hret.
  pose proof (reachable_wellPlayed _ Hr) as Hwp.
  pose proof (validState_rows _ (proj1 Hwp)) as H8.
  destruct fuel as [|f]; [discriminate|].
  cbn [getLegalMoves] in Hret. rewrite legalRaw_eq in Hret by assumption.
  apply omap_Ret in Hret.
  eapply NoDup_map_Forall2; [exact Hret | apply NoDup_indexed|].
  intros [i m] [j m'] lm lm' Hin Hin' Hlm Hlm' Esan.
  apply indexed_In in Hin as [_ Hi], Hin' as [_ Hj].
  rewrite Nat.sub_0_r in Hi, Hj.
  assert (i = j) by (eapply legal_san_inj; eauto). subst j.
  congruence.
Qed.

Lemma reachable_san_distinct_witness :
  exists s sans,
    playAll 2 startState ["g1f3"; "g8f6"; "d2d4"; "d7d5"]%string
    = Some (s, sans)
    /\ forall fuel lms,
         getLegalMoves fuel s = Ret lms -> NoDup (map lm_san lms).
Proof.
  assert (exists s sans,
             playAll 2 startState ["g1f3"; "g8f6"; "d2d4"; "d7d5"]%string
             = Some (s, sans)) as (s & sans & E) by (vm_compute; eauto).
  exists s, sans. split; [exact E|].
  exact (reachable_san_distinct s
           (playAll_reachable _ _ _ _ _ reach_start E)).
Defined.

(** With knights on b1 and f3 and the square d2 free, the two knight moves
    to d2 are written with the file of departure. *)
Example knights_to_d2 :
  match playAll 2 startState ["g1f3"; "g8f6"; "d2d4"; "d7d5"]%string with
  | Some (s, _) =>
      match getLegalMoves 2 s with
      | Ret lms =>
          existsb (String.eqb "Nbd2") (map lm_san lms)
          && existsb (String.eqb "Nfd2") (map lm_san lms)
          && negb (existsb (String.eqb "Nd2") (map lm_san lms))
      | _ => false
      end
  | None => false
  end = true.
Proof. vm_compute. reflexivity. Qed.
